(** * Colour engine of the Lottie editor: a shallow embedding

    The development follows the JavaScript sources:
    - [js/utils/colorUtils.js]          (hex / RGB / HSL conversions),
    - [js/modules/ColorExtractor.js]    (colour discovery, with paths),
    - [js/modules/ColorRenderer.js]     (writing a picked colour through an instance),
    - [js/modules/HueShiftManager.js]   (global HSL shift and locks),
    - [js/modules/HistoryManager.js]    (undo / redo stacks),
    - [js/modules/FileHandler.js]       (colour-only merge for export).

    Conventions of the embedding.
    - A JavaScript number is an IEEE-754 binary64 value: Rocq's primitive
      [float].  [+ - * /] and the comparisons are the primitive operations;
      [Math.round], [%], [toString(16)] and [parseInt] are computed exactly
      through [Prim2SF] / [SF2Prim].
    - A document is a tree of JSON values.  An object is the list of its own
      enumerable properties in enumeration order; reading a property returns
      the first entry with that key.  Members inherited from the prototypes
      ([constructor], [toString], ...) are outside the model, and so is the
      indexing of string primitives (it never leads to a write in the code
      below).
    - Code that mutates the tree in place becomes a function returning the new
      tree; code that can raise a [TypeError] returns an [outcome]. *)

From Stdlib Require Import ZArith List String Ascii Bool Lia Floats.
From Stdlib Require DecimalString HexadecimalString DecimalNat.
Import ListNotations.

Local Open Scope string_scope.
Local Open Scope list_scope.

(** ** Numbers *)

Module Num.

(** The binary64 value nearest to an integer (ties to even); exact when
    [|n| <= 2^53]. *)
Definition of_Z (n : Z) : float :=
  SF2Prim (binary_normalize prec emax n 0 false).

(** A finite non-zero double is [(-1)^s * m * 2^e]. *)
Definition signed (s : bool) (m : positive) : Z :=
  if s then Zneg m else Zpos m.

(** [floor (n * 2^e)] and [ceil (n * 2^e)] for integers [n], [e]. *)
Definition floor_scaled (n e : Z) : Z :=
  if (0 <=? e)%Z then (n * 2 ^ e)%Z else (n / 2 ^ (- e))%Z.

Definition ceil_scaled (n e : Z) : Z :=
  (- floor_scaled (- n) e)%Z.

(** What [Math.round] returns: an integer (with the sign of a zero result
    kept, as JavaScript keeps it), NaN or an infinity. *)
Inductive rounded : Type :=
| RInt (n : Z) (negzero : bool)
| RNaN
| RInf (negative : bool).

(** [Math.round x]: the integer nearest to [x], ties towards +infinity. *)
Definition Math_round (x : float) : rounded :=
  match Prim2SF x with
  | S754_nan => RNaN
  | S754_infinity s => RInf s
  | S754_zero s => RInt 0 s
  | S754_finite s m e =>
      (* floor (x + 1/2) = floor ((2 m + 2^-e) * 2^(e-1)) *)
      let n := signed s m in
      let r := if (0 <=? e)%Z then (n * 2 ^ e)%Z
               else ((2 * n + 2 ^ (- e)) / 2 ^ (1 - e))%Z in
      RInt r (s && (r =? 0)%Z)
  end.

Definition rounded_to_float (r : rounded) : float :=
  match r with
  | RInt n negzero => if negzero then neg_zero else of_Z n
  | RNaN => nan
  | RInf s => if s then neg_infinity else infinity
  end.

(** [x % y] on doubles: the exact remainder, with the sign of [x]. *)
Definition fmod (x y : float) : float :=
  match Prim2SF x, Prim2SF y with
  | S754_nan, _ | _, S754_nan => nan
  | S754_infinity _, _ => nan
  | _, S754_zero _ => nan
  | _, S754_infinity _ => x
  | S754_zero _, _ => x
  | S754_finite sx mx ex, S754_finite _ my ey =>
      let e := Z.min ex ey in
      let a := (Zpos mx * 2 ^ (ex - e))%Z in
      let b := (Zpos my * 2 ^ (ey - e))%Z in
      let r := (a mod b)%Z in
      if (r =? 0)%Z then (if sx then neg_zero else zero)
      else SF2Prim (binary_normalize prec emax (if sx then (- r)%Z else r) e false)
  end.

Definition is_neg_zero (x : float) : bool :=
  match Prim2SF x with S754_zero true => true | _ => false end.

(** [Math.max] and [Math.min] of two arguments (NaN is contagious, and
    [-0] is below [+0]); the three-argument calls fold them. *)
Definition max2 (a b : float) : float :=
  if is_nan a || is_nan b then nan
  else if (a <? b)%float then b
  else if (b <? a)%float then a
  else if is_neg_zero a then b else a.

Definition min2 (a b : float) : float :=
  if is_nan a || is_nan b then nan
  else if (a <? b)%float then a
  else if (b <? a)%float then b
  else if is_neg_zero a then a else b.

Definition Math_max3 (a b c : float) : float := max2 (max2 a b) c.
Definition Math_min3 (a b c : float) : float := min2 (min2 a b) c.

End Num.

(** ** Strings *)

Module Str.

(** [String(i)] for an array index or loop counter [i]. *)
Definition of_nat (n : nat) : string :=
  DecimalString.NilZero.string_of_uint (Nat.to_uint n).

(** The array index a property key denotes, if it is a canonical one
    (["0"], ["17"]; not ["01"], ["+1"] or [""]). *)
Definition to_index (s : string) : option nat :=
  match DecimalString.NilZero.uint_of_string s with
  | Some d => if String.eqb (of_nat (Nat.of_uint d)) s then Some (Nat.of_uint d) else None
  | None => None
  end.

Definition lower_ascii (c : ascii) : ascii :=
  let n := nat_of_ascii c in
  if ((65 <=? n) && (n <=? 90))%nat then ascii_of_nat (n + 32) else c.

(** [s.toLowerCase()] on the ASCII range. *)
Fixpoint toLowerCase (s : string) : string :=
  match s with
  | EmptyString => EmptyString
  | String c r => String (lower_ascii c) (toLowerCase r)
  end.

(** [s.padStart(2, "0")]. *)
Definition padStart2 (s : string) : string :=
  match String.length s with
  | 0 => "00"
  | 1 => "0" ++ s
  | _ => s
  end.

(** [s.slice(1)]. *)
Definition slice1 (s : string) : string :=
  match s with
  | EmptyString => EmptyString
  | String _ r => r
  end.

(** [s.split(".")]: never empty. *)
Fixpoint split_dot (s : string) : list string :=
  match s with
  | EmptyString => [EmptyString]
  | String c r =>
      if Ascii.eqb c "."
      then EmptyString :: split_dot r
      else match split_dot r with
           | h :: t => String c h :: t
           | [] => [String c EmptyString]
           end
  end.

End Str.

(** ** colorUtils.js *)

Module ColorUtils.

Import Num.

(** [n.toString(16)] for the result of [Math.round]. *)
Definition hex_of_N (n : N) : string :=
  HexadecimalString.NilZero.string_of_uint (N.to_hex_uint n).

Definition toString16 (r : rounded) : string :=
  match r with
  | RInt n _ =>
      if (n <? 0)%Z then "-" ++ hex_of_N (Z.abs_N n) else hex_of_N (Z.abs_N n)
  | RNaN => "NaN"
  | RInf s => if s then "-Infinity" else "Infinity"
  end.

(** [Math.round(x).toString(16).padStart(2, "0")]: the map callback of
    [rgbToHex]. *)
Definition hexByte (x : float) : string :=
  Str.padStart2 (toString16 (Math_round x)).

(** [rgbToHex(r, g, b)]. *)
Definition rgbToHex (r g b : float) : string :=
  "#" ++ hexByte r ++ hexByte g ++ hexByte b.

(** [parseInt(s, 16)]: leading white space, a sign and a [0x] prefix are
    skipped, then the longest run of hexadecimal digits is read; [None] is
    NaN.  (White space is the ASCII white space.) *)
Definition is_ws (c : ascii) : bool :=
  let n := nat_of_ascii c in
  ((9 <=? n) && (n <=? 13) || (n =? 32))%nat.

Fixpoint skip_ws (s : string) : string :=
  match s with
  | String c r => if is_ws c then skip_ws r else s
  | EmptyString => s
  end.

Definition hexval (c : ascii) : option Z :=
  let n := Z.of_nat (nat_of_ascii c) in
  if ((48 <=? n) && (n <=? 57))%Z then Some (n - 48)%Z
  else if ((97 <=? n) && (n <=? 102))%Z then Some (n - 87)%Z
  else if ((65 <=? n) && (n <=? 70))%Z then Some (n - 55)%Z
  else None.

Fixpoint hex_digits (s : string) (acc : option Z) : option Z :=
  match s with
  | EmptyString => acc
  | String c r =>
      match hexval c with
      | Some d =>
          hex_digits r (Some (16 * match acc with Some a => a | None => 0 end + d)%Z)
      | None => acc
      end
  end.

Definition strip_sign (s : string) : bool * string :=
  match s with
  | String "-" r => (true, r)
  | String "+" r => (false, r)
  | _ => (false, s)
  end.

Definition strip_0x (s : string) : string :=
  match s with
  | String "0" (String "x" r) => r
  | String "0" (String "X" r) => r
  | _ => s
  end.

Definition parseInt16 (s : string) : option Z :=
  let (neg, s1) := strip_sign (skip_ws s) in
  match hex_digits (strip_0x s1) None with
  | Some n => Some (if neg then (- n)%Z else n)
  | None => None
  end.

(** The integer a double holds once an integer has been rounded to it:
    integers up to [2^53] are doubles; [None] is an infinity. *)
Definition as_double (n : Z) : option Z :=
  if (Z.abs n <=? 2 ^ 53)%Z then Some n
  else match Prim2SF (of_Z n) with
       | S754_finite s m e => Some (signed s m * 2 ^ e)%Z
       | S754_zero _ => Some 0%Z
       | _ => None
       end.

(** [ToInt32] of the number [parseInt] returned. *)
Definition ToInt32 (v : option Z) : Z :=
  match v with
  | None => 0
  | Some n =>
      match as_double n with
      | Some k => ((k + 2 ^ 31) mod 2 ^ 32 - 2 ^ 31)%Z
      | None => 0
      end
  end.

Record rgb : Type := { r : Z; g : Z; b : Z }.

(** [hexToRgb(hex)]. *)
Definition hexToRgb (hex : string) : rgb :=
  let bigint := ToInt32 (parseInt16 (Str.slice1 hex)) in
  {| r := Z.land (Z.shiftr bigint 16) 255;
     g := Z.land (Z.shiftr bigint 8) 255;
     b := Z.land bigint 255 |}.

Record hsl : Type := { h : float; s : float; l : float }.

(** [rgbToHsl(r, g, b)]; [h] stays [undefined] when no [case] of the
    [switch] matches, and [undefined * 360] is NaN. *)
Definition rgbToHsl (r g b : float) : hsl :=
  let r := (r / 255)%float in
  let g := (g / 255)%float in
  let b := (b / 255)%float in
  let max := Math_max3 r g b in
  let min := Math_min3 r g b in
  let l := ((max + min) / 2)%float in
  if (max =? min)%float then
    {| h := (0 * 360)%float; s := (0 * 100)%float; l := (l * 100)%float |}
  else
    let d := (max - min)%float in
    let s := if (0.5 <? l)%float then (d / (2 - max - min))%float
             else (d / (max + min))%float in
    let h :=
      if (max =? r)%float then (((g - b) / d + (if (g <? b)%float then 6 else 0)) / 6)%float
      else if (max =? g)%float then (((b - r) / d + 2) / 6)%float
      else if (max =? b)%float then (((r - g) / d + 4) / 6)%float
      else nan in
    {| h := (h * 360)%float; s := (s * 100)%float; l := (l * 100)%float |}.

Definition hue2rgb (p q t : float) : float :=
  let t := if (t <? 0)%float then (t + 1)%float else t in
  let t := if (1 <? t)%float then (t - 1)%float else t in
  if (t <? 1 / 6)%float then (p + (q - p) * 6 * t)%float
  else if (t <? 1 / 2)%float then q
  else if (t <? 2 / 3)%float then (p + (q - p) * (2 / 3 - t) * 6)%float
  else p.

Record rgbRounded : Type := { rr : rounded; rg : rounded; rb : rounded }.

(** [hslToRgb(h, s, l)]. *)
Definition hslToRgb (h s l : float) : rgbRounded :=
  let h := (h / 360)%float in
  let s := (s / 100)%float in
  let l := (l / 100)%float in
  if (s =? 0)%float then
    {| rr := Math_round (l * 255); rg := Math_round (l * 255); rb := Math_round (l * 255) |}
  else
    let q := if (l <? 0.5)%float then (l * (1 + s))%float else (l + s - l * s)%float in
    let p := (2 * l - q)%float in
    {| rr := Math_round (hue2rgb p q (h + 1 / 3) * 255);
       rg := Math_round (hue2rgb p q h * 255);
       rb := Math_round (hue2rgb p q (h - 1 / 3) * 255) |}.

(** [shiftHue(hex, degrees)]: the hue is shifted and wrapped, the
    saturation and the lightness are passed on as they are. *)
Definition shiftHue (hex : string) (degrees : float) : string :=
  let rgb := hexToRgb hex in
  let hsl := rgbToHsl (of_Z rgb.(r)) (of_Z rgb.(g)) (of_Z rgb.(b)) in
  let hue := fmod (hsl.(h) + degrees + 360) 360 in
  let newRgb := hslToRgb hue hsl.(s) hsl.(l) in
  rgbToHex (rounded_to_float newRgb.(rr)) (rounded_to_float newRgb.(rg))
    (rounded_to_float newRgb.(rb)).

End ColorUtils.

(** ** Documents *)

(** A JSON value; [JUndef] is [undefined], which a tree holds only as the hole
    an out-of-range array write leaves behind. *)
Unset Elimination Schemes.
Inductive json : Type :=
| JUndef
| JNull
| JBool (b : bool)
| JNum (x : float)
| JStr (s : string)
| JArr (items : list json)
| JObj (props : list (string * json)).
Set Elimination Schemes.

(** Structural induction that reaches the elements of arrays and the values
    of properties. *)
Definition json_induction (P : json -> Prop)
  (HUndef : P JUndef) (HNull : P JNull) (HBool : forall b, P (JBool b))
  (HNum : forall x, P (JNum x)) (HStr : forall s, P (JStr s))
  (HArr : forall items, Forall P items -> P (JArr items))
  (HObj : forall props, Forall (fun kv => P (snd kv)) props -> P (JObj props))
  : forall v, P v :=
  fix go (v : json) : P v :=
    match v with
    | JUndef => HUndef
    | JNull => HNull
    | JBool b => HBool b
    | JNum x => HNum x
    | JStr s => HStr s
    | JArr items =>
        HArr items
          ((fix go_items (l : list json) : Forall P l :=
              match l with
              | [] => Forall_nil P
              | x :: r => Forall_cons x (go x) (go_items r)
              end) items)
    | JObj props =>
        HObj props
          ((fix go_props (l : list (string * json)) : Forall (fun kv => P (snd kv)) l :=
              match l with
              | [] => Forall_nil _
              | kv :: r => Forall_cons kv (go (snd kv)) (go_props r)
              end) props)
    end.

(** What a call evaluates to: a value, an exception ([TypeError],
    [SyntaxError]), or a loop that never exits. *)
Inductive outcome (A : Type) : Type :=
| Ok (a : A)
| Throws
| Diverges.

Arguments Ok {A} a.
Arguments Throws {A}.
Arguments Diverges {A}.

Definition bind {A B : Type} (m : outcome A) (f : A -> outcome B) : outcome B :=
  match m with
  | Ok a => f a
  | Throws => Throws
  | Diverges => Diverges
  end.

Notation "x <- m ;; k" := (bind m (fun x => k))
  (at level 61, m at next level, right associativity).

(** [xs.forEach((x, i) => ...)] and [xs.map] for a callback that can throw:
    left to right, from index [i]. *)
Fixpoint mapi_outcome {A B : Type} (f : nat -> A -> outcome B) (i : nat) (xs : list A)
  : outcome (list B) :=
  match xs with
  | [] => Ok []
  | x :: rest =>
      y <- f i x ;;
      ys <- mapi_outcome f (S i) rest ;;
      Ok (y :: ys)
  end.

Module Js.

(** [ToBoolean]. *)
Definition truthy (v : json) : bool :=
  match v with
  | JUndef | JNull => false
  | JBool b => b
  | JNum x => negb (is_nan x || is_zero x)
  | JStr s => negb (String.eqb s "")
  | JArr _ | JObj _ => true
  end.

(** [v && typeof v === "object"]. *)
Definition isObject (v : json) : bool :=
  match v with
  | JArr _ | JObj _ => true
  | _ => false
  end.

(** [typeof v === "object"] (true of [null]). *)
Definition typeofObject (v : json) : bool :=
  match v with
  | JNull | JArr _ | JObj _ => true
  | _ => false
  end.

Definition isArray (v : json) : bool :=
  match v with
  | JArr _ => true
  | _ => false
  end.

(** The elements of an array (none for anything else). *)
Definition items (v : json) : list json :=
  match v with
  | JArr l => l
  | _ => []
  end.

(** [v === undefined]. *)
Definition isUndefined (v : json) : bool :=
  match v with
  | JUndef => true
  | _ => false
  end.

Definition isNumber (v : json) : bool :=
  match v with
  | JNum _ => true
  | _ => false
  end.

(** [v === "s"]. *)
Definition isStr (v : json) (s : string) : bool :=
  match v with
  | JStr t => String.eqb t s
  | _ => false
  end.

(** [v === 1]. *)
Definition isOne (v : json) : bool :=
  match v with
  | JNum x => (x =? 1)%float
  | _ => false
  end.

Fixpoint assoc (k : string) (props : list (string * json)) : option json :=
  match props with
  | [] => None
  | (k', v) :: rest => if String.eqb k' k then Some v else assoc k rest
  end.

(** [arr[i]]. *)
Definition item (items : list json) (i : nat) : json := nth i items JUndef.

(** [v[k]] for a [v] that is not [null] or [undefined]: an own property of an
    object, an element of an array, [undefined] otherwise. *)
Definition get (v : json) (k : string) : json :=
  match v with
  | JObj props => match assoc k props with Some x => x | None => JUndef end
  | JArr items => match Str.to_index k with Some i => item items i | None => JUndef end
  | _ => JUndef
  end.

(** [v.k] where the code reads it unguarded: [null.k] and [undefined.k]
    throw. *)
Definition getChecked (v : json) (k : string) : outcome json :=
  match v with
  | JUndef | JNull => Throws
  | _ => Ok (get v k)
  end.

(** [v.hasOwnProperty(k)] for an object. *)
Definition hasOwn (v : json) (k : string) : bool :=
  match v with
  | JObj props => match assoc k props with Some _ => true | None => false end
  | _ => false
  end.

Fixpoint assocSet (k : string) (x : json) (props : list (string * json))
  : list (string * json) :=
  match props with
  | [] => [(k, x)]
  | (k', v) :: rest =>
      if String.eqb k' k then (k', x) :: rest else (k', v) :: assocSet k x rest
  end.

(** [arr[i] = x]: past the end the array grows, leaving holes. *)
Fixpoint itemSet (i : nat) (x : json) (items : list json) : list json :=
  match i, items with
  | O, [] => [x]
  | O, _ :: rest => x :: rest
  | S j, [] => JUndef :: itemSet j x []
  | S j, y :: rest => y :: itemSet j x rest
  end.

(** [v[k] = x] on an object or an array.  A key that is not an index adds an
    expando to an array, which neither [JSON.stringify] nor an index read
    sees: the array is unchanged. *)
Definition set (v : json) (k : string) (x : json) : json :=
  match v with
  | JObj props => JObj (assocSet k x props)
  | JArr items =>
      match Str.to_index k with
      | Some i => JArr (itemSet i x items)
      | None => v
      end
  | _ => v
  end.

(** [JSON.parse(JSON.stringify(v))] below the root: a NaN or an infinity
    comes back as [null], [-0] as [0], a hole as [null]; a property whose
    value is [undefined] is dropped. *)
Definition cloneNum (x : float) : json :=
  if is_nan x || is_infinity x then JNull
  else if is_zero x then JNum 0
  else JNum x.

Fixpoint clone (v : json) : json :=
  match v with
  | JUndef => JNull
  | JNull => JNull
  | JBool b => JBool b
  | JNum x => cloneNum x
  | JStr s => JStr s
  | JArr items => JArr (map clone items)
  | JObj props =>
      JObj ((fix props_clone (ps : list (string * json)) : list (string * json) :=
               match ps with
               | [] => []
               | (k, JUndef) :: rest => props_clone rest
               | (k, x) :: rest => (k, clone x) :: props_clone rest
               end) props)
  end.

(** [JSON.parse(JSON.stringify(v))]: [JSON.stringify(undefined)] is
    [undefined], which [JSON.parse] rejects. *)
Definition deepCopy (v : json) : outcome json :=
  match v with
  | JUndef => Throws
  | _ => Ok (clone v)
  end.

(** [JSON.stringify(a) === JSON.stringify(b)] for two values that went
    through [JSON.parse]: the serialisation is injective on them, so the
    strings are equal exactly when the trees are. *)
Fixpoint sameJson (a b : json) : bool :=
  match a, b with
  | JUndef, JUndef => true
  | JNull, JNull => true
  | JBool x, JBool y => Bool.eqb x y
  | JNum x, JNum y => (x =? y)%float
  | JStr x, JStr y => String.eqb x y
  | JArr xs, JArr ys =>
      (fix same_items (xs ys : list json) : bool :=
         match xs, ys with
         | [], [] => true
         | x :: xs', y :: ys' => sameJson x y && same_items xs' ys'
         | _, _ => false
         end) xs ys
  | JObj ps, JObj qs =>
      (fix same_props (ps qs : list (string * json)) : bool :=
         match ps, qs with
         | [], [] => true
         | (k, x) :: ps', (k', y) :: qs' =>
             String.eqb k k' && sameJson x y && same_props ps' qs'
         | _, _ => false
         end) ps qs
  | _, _ => false
  end.

(** Follows a list of keys from a node. *)
Fixpoint lookup (keys : list string) (v : json) : json :=
  match keys with
  | [] => v
  | k :: rest => lookup rest (get v k)
  end.

(** Replaces the value a list of keys leads to (nothing happens when the
    keys leave the tree). *)
Fixpoint update (keys : list string) (f : json -> json) (v : json) : json :=
  match keys with
  | [] => f v
  | k :: rest =>
      match get v k with
      | JUndef => v
      | child => set v k (update rest f child)
      end
  end.


(** [ToNumber].  For a string or an array the host runtime parses text
    ([StringToNumber], after [Array.prototype.join] for an array); that
    conversion is the parameter [other].  A plain object is NaN. *)
Definition ToNumber (other : json -> float) (v : json) : float :=
  match v with
  | JUndef => nan
  | JNull => 0
  | JBool b => if b then 1 else 0
  | JNum x => x
  | JStr _ | JArr _ => other v
  | JObj _ => nan
  end.

(** [path ? `${path}.${key}` : key]. *)
Definition join (path key : string) : string :=
  if String.eqb path "" then key else path ++ "." ++ key.

(** Left fold of a callback that can throw over the elements of an array,
    with their indices: the shape of [forEach] around a mutable accumulator. *)
Fixpoint foldi {A St : Type} (f : nat -> A -> St -> outcome St) (i : nat) (xs : list A)
  (s : St) : outcome St :=
  match xs with
  | [] => Ok s
  | x :: rest => s' <- f i x s ;; foldi f (S i) rest s'
  end.


(** The height of a tree: what bounds the depth of a traversal. *)
Fixpoint depth (v : json) : nat :=
  match v with
  | JArr l => S (fold_right (fun x n => Nat.max (depth x) n) 0 l)
  | JObj ps => S (fold_right (fun kv n => Nat.max (depth (snd kv)) n) 0 ps)
  | _ => 0
  end.

(** Applies a callback that can throw to the value of every property. *)
Fixpoint mapProps (f : string -> json -> outcome json) (ps : list (string * json))
  : outcome (list (string * json)) :=
  match ps with
  | [] => Ok []
  | (k, v) :: rest =>
      v' <- f k v ;;
      rest' <- mapProps f rest ;;
      Ok ((k, v') :: rest')
  end.

End Js.

(** ** HistoryManager.js *)

Module HistoryManager.

(** The two stacks are JavaScript arrays: the oldest entry first, [push] and
    [pop] at the end, [shift] at the front. *)
Record t : Type := {
  historyStack : list json;
  redoStack : list json;
  MAX_HISTORY : nat
}.

(** [new HistoryManager(maxHistory)]. *)
Definition create (maxHistory : nat) : t :=
  {| historyStack := []; redoStack := []; MAX_HISTORY := maxHistory |}.

(** [saveState(animData)]. *)
Definition saveState (h : t) (animData : json) : t :=
  if negb (Js.truthy animData) then h
  else
    let newState := Js.clone animData in
    let identical :=
      match h.(historyStack) with
      | [] => false
      | _ :: _ => Js.sameJson newState (last h.(historyStack) JUndef)
      end in
    if identical then h
    else
      let pushed := h.(historyStack) ++ [newState] in
      let trimmed :=
        if (h.(MAX_HISTORY) <? List.length pushed)%nat then tl pushed else pushed in
      {| historyStack := trimmed; redoStack := []; MAX_HISTORY := h.(MAX_HISTORY) |}.

(** [undo()]: the new state and the returned value ([JNull] is [null]). *)
Definition undo (h : t) : t * json :=
  if (List.length h.(historyStack) <=? 1)%nat then (h, JNull)
  else
    let popped := last h.(historyStack) JUndef in
    let rest := removelast h.(historyStack) in
    ({| historyStack := rest;
        redoStack := h.(redoStack) ++ [popped];
        MAX_HISTORY := h.(MAX_HISTORY) |},
     Js.clone (last rest JUndef)).

(** [redo(currentAnimData)]. *)
Definition redo (h : t) (currentAnimData : json) : outcome (t * json) :=
  match h.(redoStack) with
  | [] => Ok (h, JNull)
  | _ :: _ =>
      let redoState := last h.(redoStack) JUndef in
      current <- Js.deepCopy currentAnimData ;;
      Ok ({| historyStack := h.(historyStack) ++ [current];
             redoStack := removelast h.(redoStack);
             MAX_HISTORY := h.(MAX_HISTORY) |},
          redoState)
  end.

(** [clear()]. *)
Definition clear (h : t) : t :=
  {| historyStack := []; redoStack := []; MAX_HISTORY := h.(MAX_HISTORY) |}.

Definition canUndo (h : t) : bool := (1 <? List.length h.(historyStack))%nat.
Definition canRedo (h : t) : bool := (0 <? List.length h.(redoStack))%nat.

(** A run of [saveState] calls and of [undo] calls. *)
Definition saveAll (h : t) (states : list json) : t :=
  fold_left saveState states h.

Fixpoint undoTimes (n : nat) (h : t) : t :=
  match n with
  | O => h
  | S k => undoTimes k (fst (undo h))
  end.

End HistoryManager.

(** ** FileHandler.js *)

Module FileHandler.

(** The assignment [targetObj[key].k = value]. *)
Definition assignK (target : json) (key : string) (value : json) : json :=
  Js.set target key (Js.set (Js.get target key) "k" value).

(** The assignment [targetObj[key].k.k = value]. *)
Definition assignKK (target : json) (key : string) (value : json) : json :=
  Js.set target key
    (Js.set (Js.get target key) "k" (Js.set (Js.get (Js.get target key) "k") "k" value)).

(** The branch of the loop body for the keys ["c"] and ["sc"]. *)
Definition copySolid (key : string) (sourceVal target : json) : json :=
  if Js.truthy sourceVal && Js.truthy (Js.get sourceVal "k") then
    if Js.truthy (Js.get target key) && Js.truthy (Js.get (Js.get target key) "k") then
      if Js.isArray (Js.get sourceVal "k") then assignK target key (Js.get sourceVal "k")
      else target
    else target
  else target.

(** The branch of the loop body for the key ["g"]. *)
Definition copyGradient (key : string) (sourceVal target : json) : json :=
  if Js.truthy sourceVal && Js.isArray (Js.get sourceVal "k") then
    if Js.truthy (Js.get target key) && Js.isArray (Js.get (Js.get target key) "k") then
      assignK target key (Js.get sourceVal "k")
    else target
  else if Js.truthy sourceVal && Js.truthy (Js.get sourceVal "k")
          && Js.isArray (Js.get (Js.get sourceVal "k") "k") then
    if Js.truthy (Js.get target key) && Js.truthy (Js.get (Js.get target key) "k")
       && Js.isArray (Js.get (Js.get (Js.get target key) "k") "k") then
      assignKK target key (Js.get (Js.get sourceVal "k") "k")
    else target
  else target.

(** [deepTraverseAndCopyColors(sourceObj, targetObj)]: the target after the
    call.  A recursive call mutates the child it is given in place; it does
    nothing to a child that is not an object. *)
Fixpoint deepTraverseAndCopyColors (sourceObj targetObj : json) {struct sourceObj} : json :=
  match sourceObj with
  | JArr items =>
      if Js.isObject targetObj then
        (fix elements (i : nat) (l : list json) (target : json) {struct l} : json :=
           match l with
           | [] => target
           | s :: rest =>
               let ti := Js.get target (Str.of_nat i) in
               elements (S i) rest
                 (if Js.truthy ti && Js.isObject ti
                  then Js.set target (Str.of_nat i) (deepTraverseAndCopyColors s ti)
                  else target)
           end) 0 items targetObj
      else targetObj
  | JObj props =>
      if Js.isObject targetObj then
        (fix fields (l : list (string * json)) (target : json) {struct l} : json :=
           match l with
           | [] => target
           | (key, s) :: rest =>
               fields rest
                 (if String.eqb key "c" || String.eqb key "sc" then copySolid key s target
                  else if String.eqb key "g" then copyGradient key s target
                  else if Js.isObject s then
                    let tk := Js.get target key in
                    if Js.isObject tk
                    then Js.set target key (deepTraverseAndCopyColors s tk)
                    else target
                  else target)
           end) props targetObj
      else targetObj
  | _ => targetObj
  end.

End FileHandler.

(** ** ColorExtractor.js *)

Module ColorExtractor.

(** A colour instance.  [ref] is a live reference into the document in the
    source; here it is the address of the referenced object, the keys that
    lead to it from the root. *)
Record instance : Type := {
  type : string;
  shapeType : string;
  ref : list string;
  hex : string;
  index : option nat;
  offset : json;
  stopCount : json;
  path : string
}.

Record group : Type := {
  groupHex : string;
  count : nat;
  instances : list instance;
  groupShapeType : string
}.

(** The array the caller passed as [c] and the extractor's [groupedColors]
    (an object keyed by lowercase hex, in insertion order). *)
Record extraction : Type := {
  colors : list instance;
  groupedColors : list (string * group)
}.

Definition noColors : extraction := {| colors := []; groupedColors := [] |}.

Fixpoint groupFind (key : string) (gs : list (string * group)) : option group :=
  match gs with
  | [] => None
  | (k, g) :: rest => if String.eqb k key then Some g else groupFind key rest
  end.

Fixpoint groupPush (key : string) (inst : instance) (gs : list (string * group))
  : list (string * group) :=
  match gs with
  | [] => []
  | (k, g) :: rest =>
      if String.eqb k key
      then (k, {| groupHex := g.(groupHex); count := S g.(count);
                  instances := g.(instances) ++ [inst];
                  groupShapeType := g.(groupShapeType) |}) :: rest
      else (k, g) :: groupPush key inst rest
  end.

(** [addColor(c, type, shapeType, ref, hex, index, offset, stopCount, path)]. *)
Definition addColor (st : extraction) (inst : instance) : extraction :=
  let groupKey := Str.toLowerCase inst.(hex) in
  let groups :=
    match groupFind groupKey st.(groupedColors) with
    | Some _ => st.(groupedColors)
    | None =>
        st.(groupedColors) ++
        [(groupKey, {| groupHex := inst.(hex); count := 0; instances := [];
                       groupShapeType := inst.(shapeType) |})]
    end in
  {| colors := st.(colors) ++ [inst];
     groupedColors := groupPush groupKey inst groups |}.

(** The bounds [for (let i = 0; i < loopLimit; i += 4)] visits: [0, 4, ...]
    below [loopLimit].  Above [2^55] the counter stops growing ([i + 4]
    rounds back to [i]) and the loop never exits: [None]. *)
Definition stopLoop (loopLimit : float) : option (list nat) :=
  if (36028797018963968 <? loopLimit)%float then None
  else
    match Prim2SF loopLimit with
    | S754_finite false m e =>
        Some (map (fun k => 4 * k) (seq 0 (Z.to_nat (Num.ceil_scaled (Zpos m) (e - 2)))))
    | _ => Some []
    end.

Section WithRuntime.

Variable other : json -> float.

(** [rgbaToHex(arr)] of colorUtils.js. *)
Definition rgbaToHex (arr : list json) : string :=
  ColorUtils.rgbToHex
    (Js.ToNumber other (Js.item arr 0) * 255)
    (Js.ToNumber other (Js.item arr 1) * 255)
    (Js.ToNumber other (Js.item arr 2) * 255).

(** The [instanceType] / [instanceShapeType] choice of [processFill]. *)
Definition fillKind (shapeType : json) : string * string :=
  if Js.isStr shapeType "fl" then ("solid", "fill")
  else if Js.isStr shapeType "st" then ("stroke", "stroke")
  else ("solid", "solid color (unknown)").

Definition solidInstance (kind : string * string) (ref : list string) (arr : list json)
  (path : string) : instance :=
  {| type := fst kind; shapeType := snd kind; ref := ref; hex := rgbaToHex arr;
     index := None; offset := JNull; stopCount := JNull; path := path |}.

(** The [forEach] callback of [processFill] and [processStroke]: a hole is
    not visited, [keyframe.s] of [null] throws. *)
Definition keyframeColor (kind : string * string) (ref : list string) (path : string)
  (i : nat) (keyframe : json) (st : extraction) : outcome extraction :=
  match keyframe with
  | JUndef => Ok st
  | _ =>
      s <- Js.getChecked keyframe "s" ;;
      if Js.truthy s && Js.isArray s then
        Ok (addColor st
              (solidInstance kind (ref ++ ["k"; Str.of_nat i]) (Js.items s)
                 (path ++ ".k." ++ Str.of_nat i)))
      else Ok st
  end.

(** [processFill(o, shapeType, c, path)]; [addr] is the address of [o]. *)
Definition processFill (addr : list string) (o shapeType : json) (st : extraction)
  (path : string) : outcome extraction :=
  let c := Js.get o "c" in
  if Js.isOne (Js.get c "a") then
    if Js.isArray (Js.get c "k") then
      Js.foldi (keyframeColor (fillKind shapeType) (addr ++ ["c"]) path) 0
        (Js.items (Js.get c "k")) st
    else Ok st
  else if Js.isArray (Js.get c "k") then
    Ok (addColor st
          (solidInstance (fillKind shapeType) (addr ++ ["c"]) (Js.items (Js.get c "k")) path))
  else Ok st.

(** [processStroke(o, c, path)]. *)
Definition processStroke (addr : list string) (o : json) (st : extraction)
  (path : string) : outcome extraction :=
  let sc := Js.get o "sc" in
  if Js.isOne (Js.get sc "a") && Js.isArray (Js.get sc "k") then
    Js.foldi (keyframeColor ("stroke", "stroke") (addr ++ ["sc"]) path) 0
      (Js.items (Js.get sc "k")) st
  else if Js.isArray (Js.get sc "k") then
    Ok (addColor st
          (solidInstance ("stroke", "stroke") (addr ++ ["sc"]) (Js.items (Js.get sc "k")) path))
  else Ok st.

(** [o.g.p || arr.length / 4]. *)
Definition stopCountOf (g : json) (arr : list json) : json :=
  if Js.truthy (Js.get g "p") then Js.get g "p"
  else JNum (Num.of_Z (Z.of_nat (List.length arr)) / 4).

(** The instance [processGradientStops] adds for the stop at [i]. *)
Definition stopInstance (gradientShapeType : string) (arr : list json)
  (gradientRef : list string) (gradientPath : string) (numStops : json) (i : nat)
  : instance :=
  {| type := "gradient"; shapeType := gradientShapeType;
     ref := gradientRef;
     hex := ColorUtils.rgbToHex
              (Js.ToNumber other (Js.item arr (i + 1)) * 255)
              (Js.ToNumber other (Js.item arr (i + 2)) * 255)
              (Js.ToNumber other (Js.item arr (i + 3)) * 255);
     index := Some i; offset := Js.item arr i; stopCount := numStops;
     path := gradientPath ++ "." ++ Str.of_nat i |}.

(** The local [processGradientStops(gradientData, gradientRef, gradientPath)]
    of [processGradient]; [g] is [o.g]. *)
Definition processGradientStops (g : json) (gradientShapeType : string)
  (arr : list json) (gradientRef : list string) (gradientPath : string)
  (st : extraction) : outcome extraction :=
  let numStops := stopCountOf g arr in
  let loopLimit := (Js.ToNumber other numStops * 4)%float in
  match stopLoop loopLimit with
  | None => Diverges
  | Some stops =>
      Ok (fold_left
            (fun st i =>
               addColor st
                 (stopInstance gradientShapeType arr gradientRef gradientPath numStops i))
            stops st)
  end.

(** The [gradientShapeType] of [processGradient]. *)
Definition gradientKind (shapeType : json) : string :=
  if Js.isStr shapeType "gf" then "gradient fill"
  else if Js.isStr shapeType "gs" then "gradient stroke"
  else "gradient".

(** [processGradient(o, shapeType, c, path)]. *)
Definition processGradient (addr : list string) (o shapeType : json) (st : extraction)
  (path : string) : outcome extraction :=
  let gradientShapeType := gradientKind shapeType in
  let g := Js.get o "g" in
  let k := Js.get g "k" in
  if Js.truthy k && negb (Js.truthy (Js.get k "a")) && Js.isArray k then
    processGradientStops g gradientShapeType (Js.items k) (addr ++ ["g"]) (path ++ ".k") st
  else if Js.truthy k && Js.isOne (Js.get k "a") && Js.isArray (Js.get k "k") then
    Js.foldi
      (fun i keyframe st =>
         (* keyframe && Array.isArray(keyframe.s); a hole is not visited *)
         if Js.truthy keyframe && Js.isArray (Js.get keyframe "s") then
           processGradientStops g gradientShapeType (Js.items (Js.get keyframe "s"))
             (addr ++ ["g"; "k"; "k"; Str.of_nat i])
             (path ++ ".k.k." ++ Str.of_nat i ++ ".s") st
         else Ok st)
      0 (Js.items (Js.get k "k")) st
  else if Js.truthy k && Js.truthy (Js.get k "k") && Js.isArray (Js.get k "k")
          && Js.isNumber (Js.item (Js.items (Js.get k "k")) 0) then
    processGradientStops g gradientShapeType (Js.items (Js.get k "k")) (addr ++ ["g"; "k"])
      (path ++ ".k.k") st
  else Ok st.

(** The part of [recursiveExtract] that looks at the node itself. *)
Definition extractNode (addr : list string) (o : json) (path : string) (st : extraction)
  : outcome extraction :=
  let shapeType := Js.get o "ty" in
  st1 <- (if Js.truthy (Js.get o "c") && Js.truthy (Js.get (Js.get o "c") "k")
          then processFill addr o shapeType st (Js.join path "c") else Ok st) ;;
  st2 <- (if Js.truthy (Js.get o "sc") && Js.truthy (Js.get (Js.get o "sc") "k")
          then processStroke addr o st1 (Js.join path "sc") else Ok st1) ;;
  if Js.truthy (Js.get o "g")
  then processGradient addr o shapeType st2 (Js.join path "g")
  else Ok st2.

(** [recursiveExtract(o, c, path)]; [addr] is the address of [o]. *)
Fixpoint recursiveExtract (addr : list string) (o : json) (path : string)
  (st : extraction) {struct o} : outcome extraction :=
  match o with
  | JObj props =>
      st' <- extractNode addr o path st ;;
      (fix children (l : list (string * json)) (st : extraction) {struct l}
         : outcome extraction :=
         match l with
         | [] => Ok st
         | (k, v) :: rest =>
             st' <- (if Js.typeofObject v
                     then recursiveExtract (addr ++ [k]) v (Js.join path k) st
                     else Ok st) ;;
             children rest st'
         end) props st'
  | JArr items =>
      st' <- extractNode addr o path st ;;
      (fix elements (i : nat) (l : list json) (st : extraction) {struct l}
         : outcome extraction :=
         match l with
         | [] => Ok st
         | v :: rest =>
             st' <- (if Js.typeofObject v
                     then recursiveExtract (addr ++ [Str.of_nat i]) v
                            (Js.join path (Str.of_nat i)) st
                     else Ok st) ;;
             elements (S i) rest st'
         end) 0 items st'
  | _ => Ok st
  end.

(** [extractColors(obj)]: the returned array and the extractor's
    [groupedColors] after the call, given its [groupedColors] before. *)
Definition extractColors (before : list (string * group)) (obj : json)
  : outcome (list instance * list (string * group)) :=
  if Js.isObject obj then
    st <- recursiveExtract [] obj "" noColors ;;
    Ok (st.(colors), st.(groupedColors))
  else Ok ([], before).

End WithRuntime.

End ColorExtractor.

(** ** ColorRenderer.js *)

Module ColorRenderer.

Import ColorExtractor.

(** [[normalizedR, normalizedG, normalizedB, 1]]. *)
Definition normalized (c : ColorUtils.rgb) : list json :=
  [JNum (Num.of_Z c.(ColorUtils.r) / 255); JNum (Num.of_Z c.(ColorUtils.g) / 255);
   JNum (Num.of_Z c.(ColorUtils.b) / 255); JNum 1].

(** The three writes [arr[index + 1] = normalizedR], ... of a gradient stop. *)
Definition writeStop (arr : list json) (index : nat) (c : ColorUtils.rgb) : list json :=
  Js.itemSet (index + 3) (JNum (Num.of_Z c.(ColorUtils.b) / 255))
    (Js.itemSet (index + 2) (JNum (Num.of_Z c.(ColorUtils.g) / 255))
       (Js.itemSet (index + 1) (JNum (Num.of_Z c.(ColorUtils.r) / 255)) arr)).

(** The body of the [forEach] of [handleColorInput], on the object
    [instance.ref] refers to. *)
Definition writeRef (inst : instance) (c : ColorUtils.rgb) (refObj : json) : json :=
  if String.eqb inst.(type) "solid" || String.eqb inst.(type) "stroke" then
    if Js.hasOwn refObj "s" then Js.set refObj "s" (JArr (normalized c))
    else if Js.hasOwn refObj "k" then Js.set refObj "k" (JArr (normalized c))
    else refObj
  else if String.eqb inst.(type) "gradient" then
    match inst.(index) with
    | Some i =>
        if Js.hasOwn refObj "s" && Js.isArray (Js.get refObj "s") then
          Js.set refObj "s" (JArr (writeStop (Js.items (Js.get refObj "s")) i c))
        else if Js.hasOwn refObj "k" && Js.isArray (Js.get refObj "k") then
          Js.set refObj "k" (JArr (writeStop (Js.items (Js.get refObj "k")) i c))
        else refObj
    | None => refObj
    end
  else refObj.

(** Writing through [instance.ref]: the document after the write. *)
Definition writeThrough (doc : json) (inst : instance) (c : ColorUtils.rgb) : json :=
  Js.update inst.(ref) (writeRef inst c) doc.

(** [handleColorInput(input, c, isGrouped)] for a single instance
    ([isGrouped] false, [input.value] is [newHex]): the document and the
    instance after the call. *)
Definition handleColorInput (doc : json) (c : instance) (newHex : string) : json * instance :=
  (writeThrough doc c (ColorUtils.hexToRgb newHex),
   {| type := c.(type); shapeType := c.(shapeType); ref := c.(ref); hex := newHex;
      index := c.(index); offset := c.(offset); stopCount := c.(stopCount);
      path := c.(path) |}).

(** The same for a group ([isGrouped] true): every instance of the group is
    written. *)
Definition handleGroupInput (doc : json) (g : group) (newHex : string) : json :=
  fold_left (fun d inst => writeThrough d inst (ColorUtils.hexToRgb newHex)) g.(instances) doc.

End ColorRenderer.

(** ** HueShiftManager.js *)

Module HueShiftManager.

(** The manager; [originalAnimData] starts as [null] and [lockedPaths] is a
    set in insertion order. *)
Record t : Type := {
  originalAnimData : json;
  hueShift : float;
  saturationShift : float;
  lightnessShift : float;
  lockedPaths : list string
}.

Definition create : t :=
  {| originalAnimData := JNull; hueShift := 0; saturationShift := 0;
     lightnessShift := 0; lockedPaths := [] |}.

(** [setOriginalData(animData)]. *)
Definition setOriginalData (m : t) (animData : json) : outcome t :=
  copy <- Js.deepCopy animData ;;
  Ok {| originalAnimData := copy; hueShift := 0; saturationShift := 0;
        lightnessShift := 0; lockedPaths := m.(lockedPaths) |}.

Definition isPathLocked (m : t) (path : string) : bool :=
  existsb (String.eqb path) m.(lockedPaths).

Definition withLocks (m : t) (locks : list string) : t :=
  {| originalAnimData := m.(originalAnimData); hueShift := m.(hueShift);
     saturationShift := m.(saturationShift); lightnessShift := m.(lightnessShift);
     lockedPaths := locks |}.

Definition lockPath (m : t) (path : string) : t :=
  if isPathLocked m path then m else withLocks m (m.(lockedPaths) ++ [path]).

Definition unlockPath (m : t) (path : string) : t :=
  withLocks m (filter (fun p => negb (String.eqb path p)) m.(lockedPaths)).

Definition togglePathLock (m : t) (path : string) : t * bool :=
  if isPathLocked m path then (unlockPath m path, false) else (lockPath m path, true).

Definition clearLocks (m : t) : t := withLocks m [].

Definition withOriginal (m : t) (original : json) : t :=
  {| originalAnimData := original; hueShift := m.(hueShift);
     saturationShift := m.(saturationShift); lightnessShift := m.(lightnessShift);
     lockedPaths := m.(lockedPaths) |}.

Definition setAdjustments (m : t) (hue saturation lightness : float) : t :=
  {| originalAnimData := m.(originalAnimData); hueShift := hue;
     saturationShift := saturation; lightnessShift := lightness;
     lockedPaths := m.(lockedPaths) |}.

(** [reset()]: the shifts are zeroed; a copy of the baseline, or [null]. *)
Definition reset (m : t) : t * json :=
  (setAdjustments m 0 0 0,
   if Js.truthy m.(originalAnimData) then Js.clone m.(originalAnimData) else JNull).

(** [clear()]. *)
Definition clear (m : t) : t :=
  {| originalAnimData := JNull; hueShift := 0; saturationShift := 0;
     lightnessShift := 0; lockedPaths := m.(lockedPaths) |}.

(** The conversion both [adjustRgbaArray] and [adjustGradientStops] apply to
    the channels [r], [g], [b] (already multiplied by 255). *)
Definition shiftRgb (m : t) (r g b : float) : ColorUtils.rgbRounded :=
  let hsl := ColorUtils.rgbToHsl r g b in
  let h := Num.fmod (hsl.(ColorUtils.h) + m.(hueShift) + 360) 360 in
  let s := Num.max2 0 (Num.min2 100 (hsl.(ColorUtils.s) + m.(saturationShift))) in
  let l := Num.max2 0 (Num.min2 100 (hsl.(ColorUtils.l) + m.(lightnessShift))) in
  ColorUtils.hslToRgb h s l.

(** The three writes [arr[i] = newRgb.r / 255], ... from index [i]. *)
Definition writeRgb (arr : list json) (i : nat) (c : ColorUtils.rgbRounded) : list json :=
  Js.itemSet (i + 2) (JNum (Num.rounded_to_float c.(ColorUtils.rb) / 255))
    (Js.itemSet (i + 1) (JNum (Num.rounded_to_float c.(ColorUtils.rg) / 255))
       (Js.itemSet i (JNum (Num.rounded_to_float c.(ColorUtils.rr) / 255)) arr)).

(** The stop offsets [for (let i = 0; i < loopLimit && i + 3 < arr.length; i += 4)]
    visits. *)
Definition stopOffsets (loopLimit : float) (length : nat) : list nat :=
  (fix upto (l : list nat) : list nat :=
     match l with
     | [] => []
     | i :: rest =>
         if (Num.of_Z (Z.of_nat i) <? loopLimit)%float then i :: upto rest else []
     end) (map (fun k => 4 * k) (seq 0 (length / 4))).

Section WithRuntime.

Variable other : json -> float.

(** [adjustRgbaArray(arr)]. *)
Definition adjustRgbaArray (m : t) (arr : list json) : list json :=
  let r := (Js.ToNumber other (Js.item arr 0) * 255)%float in
  let g := (Js.ToNumber other (Js.item arr 1) * 255)%float in
  let b := (Js.ToNumber other (Js.item arr 2) * 255)%float in
  writeRgb arr 0 (shiftRgb m r g b).

(** The body of the loop of [adjustGradientStops] for the stop at [i]. *)
Definition adjustStop (m : t) (path : string) (arr : list json) (i : nat) : list json :=
  if isPathLocked m (path ++ "." ++ Str.of_nat i) then arr
  else
    let r := (Js.ToNumber other (Js.item arr (i + 1)) * 255)%float in
    let g := (Js.ToNumber other (Js.item arr (i + 2)) * 255)%float in
    let b := (Js.ToNumber other (Js.item arr (i + 3)) * 255)%float in
    writeRgb arr (i + 1) (shiftRgb m r g b).

(** [adjustGradientStops(arr, numStops, path)]. *)
Definition adjustGradientStops (m : t) (arr : list json) (numStops : json) (path : string)
  : list json :=
  let loopLimit := (Js.ToNumber other numStops * 4)%float in
  fold_left (adjustStop m path) (stopOffsets loopLimit (List.length arr)) arr.

(** The [forEach] callback of [adjustColorProperty]: a hole is not visited,
    [keyframe.s] of [null] throws. *)
Definition adjustKeyframe (m : t) (path : string) (i : nat) (keyframe : json)
  : outcome json :=
  match keyframe with
  | JUndef => Ok keyframe
  | _ =>
      if isPathLocked m (path ++ ".k." ++ Str.of_nat i) then Ok keyframe
      else
        s <- Js.getChecked keyframe "s" ;;
        if Js.truthy s && Js.isArray s
        then Ok (Js.set keyframe "s" (JArr (adjustRgbaArray m (Js.items s))))
        else Ok keyframe
  end.

(** [adjustColorProperty(colorProp, path)]: the property after the call. *)
Definition adjustColorProperty (m : t) (colorProp : json) (path : string) : outcome json :=
  if isPathLocked m path then Ok colorProp
  else
    let k := Js.get colorProp "k" in
    if Js.isOne (Js.get colorProp "a") && Js.isArray k then
      keyframes <- mapi_outcome (adjustKeyframe m path) 0 (Js.items k) ;;
      Ok (Js.set colorProp "k" (JArr keyframes))
    else if Js.isArray k && (3 <=? List.length (Js.items k))%nat then
      Ok (Js.set colorProp "k" (JArr (adjustRgbaArray m (Js.items k))))
    else Ok colorProp.

(** [adjustGradient(gradientProp, path)]: the property after the call. *)
Definition adjustGradient (m : t) (gradientProp : json) (path : string) : json :=
  if isPathLocked m path then gradientProp
  else
    let numStops :=
      if Js.truthy (Js.get gradientProp "p") then Js.get gradientProp "p" else JNum 0 in
    let k := Js.get gradientProp "k" in
    if negb (Js.truthy (Js.get k "a")) && Js.isArray k then
      Js.set gradientProp "k"
        (JArr (adjustGradientStops m (Js.items k) numStops (path ++ ".k")))
    else if Js.isOne (Js.get k "a") && Js.isArray (Js.get k "k") then
      Js.set gradientProp "k"
        (Js.set k "k"
           (JArr (map (fun ik =>
                         let keyframe := snd ik in
                         if Js.truthy keyframe && Js.isArray (Js.get keyframe "s") then
                           Js.set keyframe "s"
                             (JArr (adjustGradientStops m (Js.items (Js.get keyframe "s"))
                                      numStops
                                      (path ++ ".k.k." ++ Str.of_nat (fst ik) ++ ".s")))
                         else keyframe)
                    (combine (seq 0 (List.length (Js.items (Js.get k "k"))))
                       (Js.items (Js.get k "k"))))))
    else if Js.truthy (Js.get k "k") && Js.isArray (Js.get k "k")
            && Js.isNumber (Js.item (Js.items (Js.get k "k")) 0) then
      Js.set gradientProp "k"
        (Js.set k "k"
           (JArr (adjustGradientStops m (Js.items (Js.get k "k")) numStops (path ++ ".k.k"))))
    else gradientProp.

(** The part of [recursiveAdjustColors] that looks at the node itself: the
    node after the three [if]s. *)
Definition adjustNode (m : t) (obj : json) (path : string) : outcome json :=
  obj1 <- (if Js.truthy (Js.get obj "c") && Js.truthy (Js.get (Js.get obj "c") "k") then
             c <- adjustColorProperty m (Js.get obj "c") (Js.join path "c") ;;
             Ok (Js.set obj "c" c)
           else Ok obj) ;;
  obj2 <- (if Js.truthy (Js.get obj1 "sc") && Js.truthy (Js.get (Js.get obj1 "sc") "k") then
             sc <- adjustColorProperty m (Js.get obj1 "sc") (Js.join path "sc") ;;
             Ok (Js.set obj1 "sc" sc)
           else Ok obj1) ;;
  if Js.truthy (Js.get obj2 "g") && Js.truthy (Js.get (Js.get obj2 "g") "k") then
    Ok (Js.set obj2 "g" (adjustGradient m (Js.get obj2 "g") (Js.join path "g")))
  else Ok obj2.

(** [recursiveAdjustColors(obj, path)]: the node after the call.  The calls
    on the children come after the node's own colours have been rewritten,
    so the recursion is on the rewritten node; [fuel] bounds its depth, and
    the height of the tree is enough. *)
Fixpoint recursiveAdjustColors (fuel : nat) (m : t) (obj : json) (path : string)
  : outcome json :=
  match fuel with
  | O => Ok obj
  | S fuel' =>
      if negb (Js.isObject obj) then Ok obj
      else
        obj' <- adjustNode m obj path ;;
        match obj' with
        | JObj props =>
            props' <- Js.mapProps
                        (fun key v =>
                           if Js.typeofObject v
                           then recursiveAdjustColors fuel' m v (Js.join path key)
                           else Ok v)
                        props ;;
            Ok (JObj props')
        | JArr items =>
            items' <- mapi_outcome
                        (fun i v =>
                           if Js.typeofObject v
                           then recursiveAdjustColors fuel' m v (Js.join path (Str.of_nat i))
                           else Ok v)
                        0 items ;;
            Ok (JArr items')
        | _ => Ok obj'
        end
  end.

End WithRuntime.

(** The navigation loop of [syncLockedColors]: both parents after [parts],
    or [None] on a path mismatch. *)
Fixpoint syncWalk (parts : list string) (currentParent originalParent : json)
  : option (json * json) :=
  match parts with
  | [] => Some (currentParent, originalParent)
  | part :: rest =>
      if Js.truthy currentParent && negb (Js.isUndefined (Js.get currentParent part)) then
        if Js.truthy originalParent && negb (Js.isUndefined (Js.get originalParent part)) then
          syncWalk rest (Js.get currentParent part) (Js.get originalParent part)
        else None
      else None
  end.

(** What the callback does to [originalParent] once the loop is through: the
    new [originalParent]. *)
Definition syncWrite (currentParent originalParent : json) (lastKey : string)
  : outcome json :=
  currentValue <- Js.getChecked currentParent lastKey ;;
  match currentValue with
  | JUndef => Ok originalParent
  | JNum _ =>
      match currentParent, originalParent, Str.to_index lastKey with
      | JArr cur, JArr orig, Some idx =>
          if ((idx + 3 <? List.length cur) && (idx + 3 <? List.length orig))%nat then
            Ok (JArr (fold_left (fun o i => Js.itemSet (idx + i) (Js.item cur (idx + i)) o)
                        [0; 1; 2; 3] orig))
          else Ok originalParent
      | _, _, _ => Ok originalParent
      end
  | JNull | JArr _ | JObj _ =>
      match originalParent with
      | JArr _ | JObj _ => Ok (Js.set originalParent lastKey (Js.clone currentValue))
      | _ => Throws
      end
  | _ => Ok originalParent
  end.

(** The [forEach] callback of [syncLockedColors] for one locked path: the
    baseline after it. *)
Definition syncPath (currentData : json) (path : string) (original : json) : outcome json :=
  let parts := Str.split_dot path in
  let lastKey := last parts "" in
  let parts := removelast parts in
  match syncWalk parts currentData original with
  | None => Ok original
  | Some (currentParent, originalParent) =>
      originalParent' <- syncWrite currentParent originalParent lastKey ;;
      Ok (Js.update parts (fun _ => originalParent') original)
  end.

(** [syncLockedColors(currentData)]: the baseline after the call. *)
Definition syncLockedColors (m : t) (currentData : json) : outcome json :=
  if (List.length m.(lockedPaths) =? 0)%nat || negb (Js.truthy m.(originalAnimData))
  then Ok m.(originalAnimData)
  else
    (fix each (paths : list string) (original : json) : outcome json :=
       match paths with
       | [] => Ok original
       | path :: rest => original' <- syncPath currentData path original ;; each rest original'
       end) m.(lockedPaths) m.(originalAnimData).

Section Apply.

Variable other : json -> float.

(** [applyAdjustments(animData, hue, saturation, lightness)]: the manager
    after the call and the returned document. *)
Definition applyAdjustments (m : t) (animData : json) (hue saturation lightness : float)
  : outcome (t * json) :=
  m1 <- (if negb (Js.truthy m.(originalAnimData)) then setOriginalData m animData else Ok m) ;;
  original <- syncLockedColors m1 animData ;;
  let m2 := setAdjustments (withOriginal m1 original) hue saturation lightness in
  freshData <- Js.deepCopy original ;;
  result <- recursiveAdjustColors other (S (Js.depth freshData)) m2 freshData "" ;;
  Ok (m2, result).

End Apply.

End HueShiftManager.

(** ** Vocabulary of the statements about the hexadecimal codec *)

Definition hexChar (d : Z) : ascii :=
  if (d <? 10)%Z then ascii_of_nat (Z.to_nat (d + 48)) else ascii_of_nat (Z.to_nat (d + 87)).

Definition byteHex (n : Z) : string :=
  String (hexChar (n / 16)) (String (hexChar (n mod 16)) EmptyString).

Definition bytes : list Z := map Z.of_nat (seq 0 256).

Definition isLowerHexChar (c : ascii) : bool :=
  let n := nat_of_ascii c in
  ((48 <=? n) && (n <=? 57) || (97 <=? n) && (n <=? 102))%nat.

(** ["#rrggbb"]: seven characters, a hash sign and six lowercase hexadecimal digits. *)
Definition isHex7 (s : string) : bool :=
  match s with
  | String "#" (String c1 (String c2 (String c3 (String c4 (String c5 (String c6 EmptyString)))))) =>
      forallb isLowerHexChar [c1; c2; c3; c4; c5; c6]
  | _ => false
  end.


(** ** Vocabulary of the statements about the history *)

(** States that are different as the manager compares them: their
    serialisations differ. *)
Definition distinctStates (a b : json) : Prop :=
  Js.sameJson (Js.clone a) (Js.clone b) = false /\
  Js.sameJson (Js.clone b) (Js.clone a) = false.

(** Twenty-five states, each an object holding its own number. *)
Definition exampleStates : list json :=
  map (fun i => JObj [("frame", JNum (Num.of_Z (Z.of_nat i)))]) (seq 1 25).

(** ** Vocabulary of the statements about the colour engine *)

(** The document an [applyAdjustments] call returns. *)
Definition returnedDocument (o : outcome (HueShiftManager.t * json)) : outcome json :=
  r <- o ;; Ok (snd r).

(** A static colour property [{a: 0, k: [r, g, b, 1]}]. *)
Definition staticColor (r g b : float) : json :=
  JObj [("a", JNum 0); ("k", JArr [JNum r; JNum g; JNum b; JNum 1])].

(** A two-stop static gradient, red at offset 0 and blue at offset 1, in the
    wrapped encoding [{k: {a: 0, k: [...]}}]; [p] is its stop count, if it
    has the field. *)
Definition twoStopGradient (p : option float) : json :=
  JObj (match p with Some n => [("p", JNum n)] | None => [] end ++
        [("k", JObj [("a", JNum 0);
                     ("k", JArr [JNum 0; JNum 1; JNum 0; JNum 0;
                                 JNum 1; JNum 0; JNum 0; JNum 1])])]).

(** The same gradient after a hue shift of 120 degrees: green and red. *)
Definition twoStopGradientShifted (p : option float) : json :=
  JObj (match p with Some n => [("p", JNum n)] | None => [] end ++
        [("k", JObj [("a", JNum 0);
                     ("k", JArr [JNum 0; JNum 0; JNum 1; JNum 0;
                                 JNum 1; JNum 1; JNum 0; JNum 0])])]).

(** The paths of the instances of an extraction. *)
Definition instancePaths (o : outcome (list ColorExtractor.instance *
                                       list (string * ColorExtractor.group)))
  : outcome (list string) :=
  r <- o ;; Ok (map ColorExtractor.path (fst r)).

(** An animated colour whose only keyframe is [null]. *)
Definition nullKeyframeColor : json :=
  JObj [("a", JNum 1); ("k", JArr [JNull])].

(** An animated gradient whose only keyframe is [null]. *)
Definition nullKeyframeGradient : json :=
  JObj [("p", JNum 1); ("k", JObj [("a", JNum 1); ("k", JArr [JNull])])].

(** *** The document of the extraction-completeness property *)

Record rgba : Type := { red : float; green : float; blue : float; alpha : float }.

Record gradientStop : Type := {
  stopOffset : float; stopRed : float; stopGreen : float; stopBlue : float
}.

Definition rgbaArray (c : rgba) : json :=
  JArr [JNum c.(red); JNum c.(green); JNum c.(blue); JNum c.(alpha)].

Definition colorKeyframe (t : float) (c : rgba) : json :=
  JObj [("t", JNum t); ("s", rgbaArray c)].

Definition stopNumbers (s : gradientStop) : list json :=
  [JNum s.(stopOffset); JNum s.(stopRed); JNum s.(stopGreen); JNum s.(stopBlue)].

(** One layer with three shapes: a static solid fill, an animated stroke with
    three keyframes (its colour in the [c] field of a shape of type ["st"],
    or in a dedicated [sc] field when [dedicated] is set), and a static
    three-stop gradient fill (with its stop count [p], or without it when
    [explicitCount] is unset). *)
Definition completenessDocument (fill : rgba) (t1 t2 t3 : float) (k1 k2 k3 : rgba)
  (s1 s2 s3 : gradientStop) (dedicated explicitCount : bool) : json :=
  JObj
    [("v", JStr "5.7.4");
     ("layers",
      JArr
        [JObj
           [("ty", JNum 4);
            ("shapes",
             JArr
               [JObj [("ty", JStr "fl");
                      ("c", JObj [("a", JNum 0); ("k", rgbaArray fill)])];
                JObj [("ty", JStr "st");
                      (if dedicated then "sc" else "c",
                       JObj [("a", JNum 1);
                             ("k", JArr [colorKeyframe t1 k1; colorKeyframe t2 k2;
                                         colorKeyframe t3 k3])])];
                JObj [("ty", JStr "gf");
                      ("g",
                       JObj ((if explicitCount then [("p", JNum 3)] else []) ++
                             [("k", JObj [("a", JNum 0);
                                          ("k", JArr (stopNumbers s1 ++ stopNumbers s2
                                                      ++ stopNumbers s3))])]))]])]])].

Definition hexOf (r g b : float) : string :=
  ColorUtils.rgbToHex (r * 255) (g * 255) (b * 255).

(** The seven instances [extract] is to return for it. *)
Definition completenessInstances (fill k1 k2 k3 : rgba) (s1 s2 s3 : gradientStop)
  (dedicated explicitCount : bool) : list ColorExtractor.instance :=
  let field := if dedicated then "sc" else "c" in
  let shape i := ["layers"; "0"; "shapes"; i] in
  let solid kind ref c path :=
    {| ColorExtractor.type := kind; ColorExtractor.shapeType := if String.eqb kind "solid" then "fill" else "stroke";
       ColorExtractor.ref := ref;
       ColorExtractor.hex := hexOf c.(red) c.(green) c.(blue);
       ColorExtractor.index := None; ColorExtractor.offset := JNull;
       ColorExtractor.stopCount := JNull; ColorExtractor.path := path |} in
  let stop i s :=
    {| ColorExtractor.type := "gradient"; ColorExtractor.shapeType := "gradient fill";
       ColorExtractor.ref := shape "2" ++ ["g"; "k"];
       ColorExtractor.hex := hexOf s.(stopRed) s.(stopGreen) s.(stopBlue);
       ColorExtractor.index := Some i; ColorExtractor.offset := JNum s.(stopOffset);
       ColorExtractor.stopCount := JNum 3;
       ColorExtractor.path := "layers.0.shapes.2.g.k.k." ++ Str.of_nat i |} in
  [solid "solid" (shape "0" ++ ["c"]) fill "layers.0.shapes.0.c";
   solid "stroke" (shape "1" ++ [field; "k"; "0"]) k1 ("layers.0.shapes.1." ++ field ++ ".k.0")%string;
   solid "stroke" (shape "1" ++ [field; "k"; "1"]) k2 ("layers.0.shapes.1." ++ field ++ ".k.1")%string;
   solid "stroke" (shape "1" ++ [field; "k"; "2"]) k3 ("layers.0.shapes.1." ++ field ++ ".k.2")%string;
   stop 0 s1; stop 4 s2; stop 8 s3].

(** ** Vocabulary of the statements about the colour-only merge *)

(** The keys of every object are distinct, as they are in JavaScript. *)
Fixpoint distinct (keys : list string) : bool :=
  match keys with
  | [] => true
  | k :: rest => negb (existsb (String.eqb k) rest) && distinct rest
  end.

Fixpoint wellKeyed (v : json) : bool :=
  match v with
  | JArr l => forallb wellKeyed l
  | JObj ps => distinct (map fst ps) && forallb (fun kv => wellKeyed (snd kv)) ps
  | _ => true
  end.

(** What a node holds without its children: a primitive value, the length
    of an array, the keys of an object. *)
Definition shallow (v : json) : json :=
  match v with
  | JArr l => JArr (map (fun _ => JNull) l)
  | JObj ps => JObj (map (fun kv => (fst kv, JNull)) ps)
  | _ => v
  end.

Definition colorKey (k : string) : bool :=
  String.eqb k "c" || String.eqb k "sc" || String.eqb k "g".

(** An address that lies at or below the [k] of a [c], [sc] or [g]
    property. *)
Fixpoint underColorField (keys : list string) : bool :=
  match keys with
  | k1 :: rest =>
      match rest with
      | k2 :: _ => (colorKey k1 && String.eqb k2 "k") || underColorField rest
      | [] => false
      end
  | [] => false
  end.

(** An address none of whose keys is [c], [sc] or [g]. *)
Definition plainKeys (keys : list string) : bool :=
  forallb (fun k => negb (colorKey k)) keys.

(** The [c] or [sc] property of the target after the merge: its [k] is the
    whole [k] of the source's property when both have one and the source's is
    an array. *)
Definition solidRule (sourceVal targetVal : json) : json :=
  if Js.truthy sourceVal && Js.truthy (Js.get sourceVal "k") then
    if Js.truthy targetVal && Js.truthy (Js.get targetVal "k") then
      if Js.isArray (Js.get sourceVal "k") then Js.set targetVal "k" (Js.get sourceVal "k")
      else targetVal
    else targetVal
  else targetVal.

(** The [g] property of the target after the merge: its [k] (when both are
    arrays) or its [k.k] (when both are arrays) is the source's. *)
Definition gradientRule (sourceVal targetVal : json) : json :=
  if Js.truthy sourceVal && Js.isArray (Js.get sourceVal "k") then
    if Js.truthy targetVal && Js.isArray (Js.get targetVal "k") then
      Js.set targetVal "k" (Js.get sourceVal "k")
    else targetVal
  else if Js.truthy sourceVal && Js.truthy (Js.get sourceVal "k")
          && Js.isArray (Js.get (Js.get sourceVal "k") "k") then
    if Js.truthy targetVal && Js.truthy (Js.get targetVal "k")
       && Js.isArray (Js.get (Js.get targetVal "k") "k") then
      Js.set targetVal "k"
        (Js.set (Js.get targetVal "k") "k" (Js.get (Js.get sourceVal "k") "k"))
    else targetVal
  else targetVal.

(** The value the merged target holds under [key], from the values the
    source and the target hold there. *)
Definition mergedField (key : string) (sourceVal targetVal : json) : json :=
  if String.eqb key "c" || String.eqb key "sc" then solidRule sourceVal targetVal
  else if String.eqb key "g" then gradientRule sourceVal targetVal
  else FileHandler.deepTraverseAndCopyColors sourceVal targetVal.

(** The body of the loop over the keys of a source object, and of the loop
    over the indices of a source array. *)
Definition fieldStep (target : json) (kv : string * json) : json :=
  let (key, s) := kv in
  if String.eqb key "c" || String.eqb key "sc" then FileHandler.copySolid key s target
  else if String.eqb key "g" then FileHandler.copyGradient key s target
  else if Js.isObject s then
    let tk := Js.get target key in
    if Js.isObject tk
    then Js.set target key (FileHandler.deepTraverseAndCopyColors s tk)
    else target
  else target.

Definition elementStep (i : nat) (s : json) (target : json) : json :=
  let ti := Js.get target (Str.of_nat i) in
  if Js.truthy ti && Js.isObject ti
  then Js.set target (Str.of_nat i) (FileHandler.deepTraverseAndCopyColors s ti)
  else target.

Fixpoint elementSteps (i : nat) (l : list json) (target : json) : json :=
  match l with
  | [] => target
  | s :: rest => elementSteps (S i) rest (elementStep i s target)
  end.

(** An original document and an edited copy, for the merge. *)
Definition originalDocument : json :=
  JObj [("nm", JStr "original");
        ("layers", JArr [JObj [("ty", JStr "fl"); ("c", staticColor 1 0 0); ("o", JNum 100)];
                         JObj [("ty", JStr "gf"); ("g", twoStopGradient (Some 2%float))]])].

Definition editedDocument : json :=
  JObj [("layers", JArr [JObj [("c", staticColor 0 0 1); ("ty", JStr "fl"); ("o", JNum 50)];
                         JObj [("g", twoStopGradientShifted (Some 2%float))]]);
        ("nm", JStr "edited")].

(** ** Vocabulary of the statements about the locks *)

(** The path [recursiveAdjustColors] has built when it reaches the node a
    list of keys leads to. *)
Definition pathOf (keys : list string) : string := fold_left Js.join keys "".

(** The three [if]s of [recursiveAdjustColors] at a node. *)
Definition colorSite (v : json) : bool :=
  Js.truthy (Js.get v "c") && Js.truthy (Js.get (Js.get v "c") "k")
  || Js.truthy (Js.get v "sc") && Js.truthy (Js.get (Js.get v "sc") "k")
  || Js.truthy (Js.get v "g") && Js.truthy (Js.get (Js.get v "g") "k").

(** A tree in which [recursiveAdjustColors] finds no colour: the numbers of a
    colour, the easing handles of a keyframe. *)
Fixpoint colorFree (v : json) : bool :=
  match v with
  | JArr l => forallb colorFree l
  | JObj ps => negb (colorSite (JObj ps)) && forallb (fun kv => colorFree (snd kv)) ps
  | _ => true
  end.

Definition nonNull (v : json) : bool :=
  match v with
  | JNull => false
  | _ => true
  end.

(** The keyframes of an animated solid colour can be read: none is [null]
    (where [keyframe.s] throws). *)
Definition keyframesReadable (prop : json) : bool :=
  negb (Js.isOne (Js.get prop "a") && Js.isArray (Js.get prop "k"))
  || forallb nonNull (Js.items (Js.get prop "k")).

(** A tree all of whose solid colours have readable keyframes. *)
Fixpoint adjustable (v : json) : bool :=
  match v with
  | JArr l => forallb adjustable l
  | JObj ps =>
      keyframesReadable (Js.get (JObj ps) "c") && keyframesReadable (Js.get (JObj ps) "sc")
      && forallb (fun kv => adjustable (snd kv)) ps
  | _ => true
  end.

(** The navigation of [syncLockedColors] along a locked path does not end on
    [null] (where [currentParent[lastKey]] throws). *)
Definition lockReadable (doc : json) (path : string) : bool :=
  match HueShiftManager.syncWalk (removelast (Str.split_dot path)) doc doc with
  | Some (JNull, _) | Some (JUndef, _) => false
  | _ => true
  end.

(** The properties of an object after [JSON.parse(JSON.stringify())]. *)
Definition cloneProps (ps : list (string * json)) : list (string * json) :=
  match Js.clone (JObj ps) with
  | JObj qs => qs
  | _ => []
  end.

(** The manager after [applyAdjustments] on a manager that had no baseline:
    the baseline is the document, as [JSON] gives it back. *)
Definition managerAfter (locks : list string) (original : json)
  (hue saturation lightness : float) : HueShiftManager.t :=
  {| HueShiftManager.originalAnimData := original;
     HueShiftManager.hueShift := hue;
     HueShiftManager.saturationShift := saturation;
     HueShiftManager.lightnessShift := lightness;
     HueShiftManager.lockedPaths := locks |}.

(** A document with four colours under [layers]: two red static fills, an
    animated stroke of two red keyframes, and the two-stop gradient. *)
Definition lockDocument : json :=
  JObj [("layers",
         JArr [JObj [("ty", JStr "fl"); ("c", staticColor 1 0 0)];
               JObj [("ty", JStr "fl"); ("c", staticColor 1 0 0)];
               JObj [("ty", JStr "st");
                     ("c", JObj [("a", JNum 1);
                                 ("k", JArr [JObj [("t", JNum 0);
                                                   ("s", JArr [JNum 1; JNum 0; JNum 0; JNum 1])];
                                             JObj [("t", JNum 10);
                                                   ("s", JArr [JNum 1; JNum 0; JNum 0; JNum 1])]])])];
               JObj [("ty", JStr "gf"); ("g", twoStopGradient (Some 2%float))]])].

(** Two static fills side by side, a red one and a white one. *)
Definition redAndWhiteDocument : json :=
  JObj [("layers",
         JArr [JObj [("ty", JStr "fl"); ("c", staticColor 1 0 0)];
               JObj [("ty", JStr "fl"); ("c", staticColor 1 1 1)]])].

(** The runtime conversion of a string or an array to a number, where no
    document of a statement holds one in a colour. *)
Definition notANumber (v : json) : float := nan.

(** ** Vocabulary of the statements about writing through an instance *)

(** The instances a step of the extraction adds, from an empty extraction. *)
Definition emitted (F : ColorExtractor.extraction -> outcome ColorExtractor.extraction)
  : outcome (list ColorExtractor.instance) :=
  st <- F ColorExtractor.noColors ;; Ok (ColorExtractor.colors st).

(** The instances [recursiveExtract] adds at a node, and at the node and
    below. *)
Definition nodeInstances (other : json -> float) (addr : list string) (o : json)
  (path : string) : outcome (list ColorExtractor.instance) :=
  emitted (ColorExtractor.extractNode other addr o path).

Definition treeInstances (other : json -> float) (addr : list string) (o : json)
  (path : string) : outcome (list ColorExtractor.instance) :=
  emitted (ColorExtractor.recursiveExtract other addr o path).

(** What the loop over the children of a node adds for the child under [k]. *)
Definition childTree (other : json -> float) (addr : list string) (path : string)
  (k : string) (v : json) : outcome (list ColorExtractor.instance) :=
  if Js.typeofObject v then treeInstances other (addr ++ [k]) v (Js.join path k) else Ok [].

Fixpoint childInstances (other : json -> float) (addr : list string) (path : string)
  (ps : list (string * json)) : outcome (list ColorExtractor.instance) :=
  match ps with
  | [] => Ok []
  | (k, v) :: rest =>
      a <- childTree other addr path k v ;;
      b <- childInstances other addr path rest ;;
      Ok (a ++ b)
  end.

Fixpoint elementInstances (other : json -> float) (addr : list string) (path : string)
  (i : nat) (items : list json) : outcome (list ColorExtractor.instance) :=
  match items with
  | [] => Ok []
  | v :: rest =>
      a <- childTree other addr path (Str.of_nat i) v ;;
      b <- elementInstances other addr path (S i) rest ;;
      Ok (a ++ b)
  end.

(** Keys other than those [recursiveExtract] reads at a node. *)
Definition siteKeys (keys : list string) : bool :=
  forallb (fun k => negb (colorKey k || String.eqb k "ty")) keys.

(** The kind [processFill] gives the instances of a [c] field, and
    [processStroke] those of an [sc] field. *)
Definition solidKind (f : string) (shapeType : json) : string * string :=
  if String.eqb f "c" then ColorExtractor.fillKind shapeType else ("stroke", "stroke").

(** Writing [newHex] through an extracted instance restores the invariant:
    the instance is one of the extraction, and the instance as
    [handleColorInput] leaves it, with its path and the new hex, is one of
    the extraction of the document after the write. *)
Definition writtenThrough (other : json -> float) (doc : json)
  (inst : ColorExtractor.instance) (newHex : string) : Prop :=
  exists insts groups insts' groups',
    ColorExtractor.extractColors other [] doc = Ok (insts, groups)
    /\ In inst insts
    /\ ColorExtractor.extractColors other groups
         (fst (ColorRenderer.handleColorInput doc inst newHex)) = Ok (insts', groups')
    /\ In (snd (ColorRenderer.handleColorInput doc inst newHex)) insts'
    /\ ColorExtractor.path (snd (ColorRenderer.handleColorInput doc inst newHex))
       = ColorExtractor.path inst
    /\ ColorExtractor.hex (snd (ColorRenderer.handleColorInput doc inst newHex)) = newHex.

(** A step of the extraction that only adds instances, the same ones
    whatever was extracted before (or fails whatever was extracted before). *)
Definition uniform (F : ColorExtractor.extraction -> outcome ColorExtractor.extraction)
  : Prop :=
  forall st, F st = (l <- emitted F ;; Ok (fold_left ColorExtractor.addColor l st)).

(** What a [forEach] of such steps adds. *)
Fixpoint collecti {A : Type} (g : nat -> A -> outcome (list ColorExtractor.instance))
  (i : nat) (xs : list A) : outcome (list ColorExtractor.instance) :=
  match xs with
  | [] => Ok []
  | x :: rest =>
      a <- g i x ;;
      b <- collecti g (S i) rest ;;
      Ok (a ++ b)
  end.

(** The two loops of [recursiveExtract] over the children of a node. *)
Fixpoint childrenLoop (other : json -> float) (addr : list string) (path : string)
  (ps : list (string * json)) (st : ColorExtractor.extraction)
  : outcome ColorExtractor.extraction :=
  match ps with
  | [] => Ok st
  | (k, v) :: rest =>
      st' <- (if Js.typeofObject v
              then ColorExtractor.recursiveExtract other (addr ++ [k]) v (Js.join path k) st
              else Ok st) ;;
      childrenLoop other addr path rest st'
  end.

Fixpoint elementsLoop (other : json -> float) (addr : list string) (path : string)
  (i : nat) (items : list json) (st : ColorExtractor.extraction)
  : outcome ColorExtractor.extraction :=
  match items with
  | [] => Ok st
  | v :: rest =>
      st' <- (if Js.typeofObject v
              then ColorExtractor.recursiveExtract other (addr ++ [Str.of_nat i]) v
                     (Js.join path (Str.of_nat i)) st
              else Ok st) ;;
      elementsLoop other addr path (S i) rest st'
  end.

(** What the three [if]s of [recursiveExtract] add at a node. *)
Definition fillInstances (other : json -> float) (addr : list string) (o : json)
  (path : string) : outcome (list ColorExtractor.instance) :=
  emitted (fun st =>
             if Js.truthy (Js.get o "c") && Js.truthy (Js.get (Js.get o "c") "k")
             then ColorExtractor.processFill other addr o (Js.get o "ty") st (Js.join path "c")
             else Ok st).

Definition strokeInstances (other : json -> float) (addr : list string) (o : json)
  (path : string) : outcome (list ColorExtractor.instance) :=
  emitted (fun st =>
             if Js.truthy (Js.get o "sc") && Js.truthy (Js.get (Js.get o "sc") "k")
             then ColorExtractor.processStroke other addr o st (Js.join path "sc")
             else Ok st).

Definition gradientInstances (other : json -> float) (addr : list string) (o : json)
  (path : string) : outcome (list ColorExtractor.instance) :=
  emitted (fun st =>
             if Js.truthy (Js.get o "g")
             then ColorExtractor.processGradient other addr o (Js.get o "ty") st
                    (Js.join path "g")
             else Ok st).

(** A static fill whose colour property carries a member [s] next to its
    [k]. *)
Definition strayMemberDocument : json :=
  JObj [("ty", JStr "fl");
        ("c", JObj [("a", JNum 0);
                    ("k", JArr [JNum 1; JNum 0; JNum 0; JNum 1]);
                    ("s", JArr [JNum 0; JNum 0; JNum 0; JNum 1])])].

(** The instance the extractor gives for it. *)
Definition strayMemberInstance : ColorExtractor.instance :=
  {| ColorExtractor.type := "solid"; ColorExtractor.shapeType := "fill";
     ColorExtractor.ref := ["c"]; ColorExtractor.hex := "#ff0000";
     ColorExtractor.index := None; ColorExtractor.offset := JNull;
     ColorExtractor.stopCount := JNull; ColorExtractor.path := "c" |}.

(** ** Vocabulary of the statements about repeated adjustments *)

(** A run of [applyAdjustments] calls, each on the document the call before
    returned; a step is the hue, the saturation and the lightness. *)
Fixpoint adjustAll (other : json -> float) (m : HueShiftManager.t) (current : json)
  (steps : list (float * float * float)) : outcome (HueShiftManager.t * json) :=
  match steps with
  | [] => Ok (m, current)
  | (hue, saturation, lightness) :: rest =>
      r <- HueShiftManager.applyAdjustments other m current hue saturation lightness ;;
      adjustAll other (fst r) (snd r) rest
  end.

(** The sixteen channel levels of the short hexadecimal colours [#rgb]: the
    multiples of 17, from 0 to 255. *)
Definition shortHexLevels : list Z := map (fun n => (17 * Z.of_nat n)%Z) (seq 0 16).

(** The conversion to HSL and back with no shift rounds the channels
    [r / 255], [g / 255], [b / 255], as [adjustRgbaArray] scales them, to
    [r], [g] and [b]. *)
Definition keptByZeroShift (r g b : Z) : bool :=
  let res := HueShiftManager.shiftRgb (managerAfter [] JNull 0 0 0)
               (Num.of_Z r / 255 * 255) (Num.of_Z g / 255 * 255) (Num.of_Z b / 255 * 255) in
  match ColorUtils.rr res, ColorUtils.rg res, ColorUtils.rb res with
  | Num.RInt x false, Num.RInt y false, Num.RInt z false =>
      ((x =? r) && (y =? g) && (z =? b))%Z
  | _, _, _ => false
  end.

(** ** Vocabulary of the statements about runs of history operations *)

(** The four operations of the history manager, as the editor calls them. *)
Inductive historyOp : Type :=
| SaveState (animData : json)
| Undo
| Redo (currentAnimData : json)
| Clear.

(** The manager after one operation; [redo] throws when it cannot copy its
    argument. *)
Definition historyStep (h : HistoryManager.t) (op : historyOp) : outcome HistoryManager.t :=
  match op with
  | SaveState animData => Ok (HistoryManager.saveState h animData)
  | Undo => Ok (fst (HistoryManager.undo h))
  | Redo currentAnimData =>
      r <- HistoryManager.redo h currentAnimData ;; Ok (fst r)
  | Clear => Ok (HistoryManager.clear h)
  end.

Fixpoint historyRun (h : HistoryManager.t) (ops : list historyOp)
  : outcome HistoryManager.t :=
  match ops with
  | [] => Ok h
  | op :: rest => h' <- historyStep h op ;; historyRun h' rest
  end.

(** An operation that can be carried out: [redo] is not given [undefined]. *)
Definition historyOpDefined (op : historyOp) : bool :=
  match op with
  | Redo JUndef => false
  | _ => true
  end.

(** ** Vocabulary of the statements about the lock buttons *)

(** The click handler of the lock button of a grouped card
    ([renderSingleColorCard]): [isLocked] is what the card was rendered
    with; every instance of the group is locked when it was false and
    unlocked when it was true. *)
Definition groupLockClick (m : HueShiftManager.t) (isLocked : bool)
  (instances : list ColorExtractor.instance) : HueShiftManager.t :=
  let shouldLock := negb isLocked in
  fold_left (fun m instance =>
               if shouldLock then HueShiftManager.lockPath m instance.(ColorExtractor.path)
               else HueShiftManager.unlockPath m instance.(ColorExtractor.path))
    instances m.

(** The lock state a grouped card is rendered with: that of the first
    instance of the group. *)
Definition groupIsLocked (m : HueShiftManager.t) (instances : list ColorExtractor.instance)
  : bool :=
  match instances with
  | first :: _ => HueShiftManager.isPathLocked m first.(ColorExtractor.path)
  | [] => false
  end.

(** ** Vocabulary of the statements about the grouped colours *)

(** The key [addColor] files an instance under: [hex.toLowerCase()]. *)
Definition groupKey (inst : ColorExtractor.instance) : string :=
  Str.toLowerCase inst.(ColorExtractor.hex).

(** The instances filed under a key, in the order of the extraction. *)
Definition filedUnder (key : string) (insts : list ColorExtractor.instance)
  : list ColorExtractor.instance :=
  filter (fun inst => String.eqb (groupKey inst) key) insts.

(** The group of a list of instances, the first of which opened it. *)
Definition groupOf (insts : list ColorExtractor.instance) : option ColorExtractor.group :=
  match insts with
  | [] => None
  | first :: _ =>
      Some {| ColorExtractor.groupHex := first.(ColorExtractor.hex);
              ColorExtractor.count := List.length insts;
              ColorExtractor.instances := insts;
              ColorExtractor.groupShapeType := first.(ColorExtractor.shapeType) |}
  end.

(** The sum of the counts of the groups. *)
Definition totalCount (groups : list (string * ColorExtractor.group)) : nat :=
  fold_right (fun kg n => (snd kg).(ColorExtractor.count) + n) 0 groups.

(** ** ExportManager.js *)

Module ExportManager.

(** [export(originalAnimData, modifiedAnimData, format, deepCopyColorsFn)] up
    to the serialisation: [finalExportData] after
    [deepCopyColorsFn(modifiedAnimData, finalExportData)], the callback being
    the editor's, [deepTraverseAndCopyColors].  The format only chooses
    between the JSON text and its compressed form. *)
Definition exportData (originalAnimData modifiedAnimData : json) : outcome json :=
  finalExportData <- Js.deepCopy originalAnimData ;;
  Ok (FileHandler.deepTraverseAndCopyColors modifiedAnimData finalExportData).

End ExportManager.

(** ** Vocabulary of the statements about the export *)

(** A [c] or [sc] property [x] is the property [y] with another array as
    its [k], or [y] itself. *)
Definition solidEdit (x y : json) : Prop :=
  x = y
  \/ (Js.truthy y = true /\ Js.truthy (Js.get y "k") = true
      /\ exists channels, x = Js.set y "k" (JArr channels)).

(** A [g] property [x] is the property [y] with another array as its [k]
    (where that is an array) or as its [k.k] (where that is one), or [y]
    itself. *)
Definition gradientEdit (x y : json) : Prop :=
  x = y
  \/ (Js.truthy y = true /\ Js.isArray (Js.get y "k") = true
      /\ exists stops, x = Js.set y "k" (JArr stops))
  \/ (Js.truthy y = true /\ Js.truthy (Js.get y "k") = true
      /\ Js.isArray (Js.get y "k") = false
      /\ Js.isArray (Js.get (Js.get y "k") "k") = true
      /\ exists stops, x = Js.set y "k" (Js.set (Js.get y "k") "k" (JArr stops))).

(** The document [edited] is the document [original] but for the colour
    arrays of some of its [c], [sc] and [g] properties: the same keys in the
    same order, arrays of the same length, the same values elsewhere. *)
Fixpoint colorEdit (edited original : json) {struct edited} : Prop :=
  match edited, original with
  | JArr xs, JArr ys =>
      (fix elements (xs ys : list json) {struct xs} : Prop :=
         match xs, ys with
         | [], [] => True
         | x :: xs', y :: ys' => colorEdit x y /\ elements xs' ys'
         | _, _ => False
         end) xs ys
  | JObj ps, JObj qs =>
      (fix fields (ps qs : list (string * json)) {struct ps} : Prop :=
         match ps, qs with
         | [], [] => True
         | (k, x) :: ps', (k', y) :: qs' =>
             k = k'
             /\ (if String.eqb k "c" || String.eqb k "sc" then solidEdit x y
                 else if String.eqb k "g" then gradientEdit x y
                 else colorEdit x y)
             /\ fields ps' qs'
         | _, _ => False
         end) ps qs
  | _, _ => edited = original
  end.

(** ** Vocabulary of the statements about the greys *)

(** The conversion of the grey [n / 255] to HSL and back with no shift of the
    saturation or the lightness rounds to [n]; the hue does not enter it. *)
Definition greyKept (n : Z) : bool :=
  keptByZeroShift n n n.

(** [shiftHue] keeps the grey [#nnnnnn], as computed with a hue of zero
    degrees. *)
Definition greyHexKept (n : Z) : bool :=
  String.eqb (ColorUtils.shiftHue (ColorUtils.rgbToHex (Num.of_Z n) (Num.of_Z n) (Num.of_Z n)) 0)
    (ColorUtils.rgbToHex (Num.of_Z n) (Num.of_Z n) (Num.of_Z n)).

(** ** Vocabulary of the statements about [hexToRgb] *)

(** Two results of [parseInt] are the same. *)
Definition option_Z_eqb (a b : option Z) : bool :=
  match a, b with
  | Some x, Some y => (x =? y)%Z
  | None, None => true
  | _, _ => false
  end.

(** ** Vocabulary of the statements about paths *)

Fixpoint hasDot (k : string) : bool :=
  match k with
  | EmptyString => false
  | String c rest => Ascii.eqb c "." || hasDot rest
  end.

(** A key a path can hold: not empty, and without a dot. *)
Definition pathKey (k : string) : bool :=
  negb (String.eqb k "") && negb (hasDot k).

(** An address a path can stand for: keys as above, and at least one. *)
Definition pathKeys (keys : list string) : bool :=
  negb (Nat.eqb (List.length keys) 0) && forallb pathKey keys.

(** ** Vocabulary of the statements about locked colours *)

(** The three places a gradient keeps its stops in: [g.k], [g.k.k] and the
    [s] of the keyframe [g.k.k[j]]. *)
Inductive stopLayout : Type :=
| DirectStops
| NestedStops
| KeyframeStops (j : nat).

Definition stopsKeys (layout : stopLayout) : list string :=
  match layout with
  | DirectStops => ["g"; "k"]
  | NestedStops => ["g"; "k"; "k"]
  | KeyframeStops j => ["g"; "k"; "k"; Str.of_nat j; "s"]
  end.

(** The places whose paths [ColorExtractor] gives to its instances, which are
    the paths the lock buttons of the colour list lock: a [c], [sc] or [g]
    property below the keys [pre], the keyframe [i] of an animated [c] or
    [sc], the stop [q] of a gradient. *)
Inductive lockSite : Type :=
| PropertySite (pre : list string) (f : string)
| KeyframeSite (pre : list string) (f : string) (i : nat)
| StopSite (pre : list string) (layout : stopLayout) (q : nat).

(** The keys to the array or object a site lies in, and its key there. *)
Definition lockedParent (s : lockSite) : list string :=
  match s with
  | PropertySite pre f => pre
  | KeyframeSite pre f i => pre ++ [f; "k"]
  | StopSite pre layout q => pre ++ stopsKeys layout
  end.

Definition lockedKey (s : lockSite) : string :=
  match s with
  | PropertySite pre f => f
  | KeyframeSite pre f i => Str.of_nat i
  | StopSite pre layout q => Str.of_nat (4 * q)
  end.

Definition lockedKeys (s : lockSite) : list string := lockedParent s ++ [lockedKey s].

Definition lockedPath (s : lockSite) : string := pathOf (lockedKeys s).

(** The site is in the document: the keys above it are neither [c], [sc],
    [g], empty nor dotted; a property or a keyframe is an object with no
    colour property inside; a keyframe belongs to an animated colour
    ([a === 1]); the four entries of a stop are numbers, and a stop of a
    keyframe belongs to an animated gradient. *)
Definition siteIn (doc : json) (s : lockSite) : bool :=
  match s with
  | PropertySite pre f =>
      plainKeys pre && forallb pathKey pre && colorKey f
      && Js.isObject (Js.lookup (pre ++ [f]) doc)
      && colorFree (Js.lookup (pre ++ [f]) doc)
  | KeyframeSite pre f i =>
      plainKeys pre && forallb pathKey pre && (String.eqb f "c" || String.eqb f "sc")
      && Js.isOne (Js.lookup (pre ++ [f; "a"]) doc)
      && Js.isObject (Js.lookup (pre ++ [f; "k"; Str.of_nat i]) doc)
      && colorFree (Js.lookup (pre ++ [f; "k"; Str.of_nat i]) doc)
  | StopSite pre layout q =>
      plainKeys pre && forallb pathKey pre
      && match layout with
         | KeyframeStops _ => Js.isOne (Js.lookup (pre ++ ["g"; "k"; "a"]) doc)
         | _ => true
         end
      && forallb (fun d => Js.isNumber
                             (Js.lookup (pre ++ stopsKeys layout ++ [Str.of_nat (4 * q + d)]) doc))
           [0; 1; 2; 3]
  end.

(** The document with [x] in the place of what [key] leads to in the node
    below the keys [parent]. *)
Definition replaceAt (parent : list string) (key : string) (x doc : json) : json :=
  Js.update parent (fun node => Js.set node key x) doc.

(** A colour property as an edit leaves it: an object with no colour
    property inside, whose keyframes can be read. *)
Definition plainColor (x : json) : bool :=
  Js.isObject x && colorFree x && adjustable x && keyframesReadable x.

(** ** Vocabulary of the statements about when the extraction returns *)

(** The call returns: it neither throws nor runs for ever. *)
Definition returns {A : Type} (x : outcome A) : Prop := exists a, x = Ok a.

(** The loop of [processGradientStops] over [arr] comes to an end:
    [numStops * 4] is not above [2^55]. *)
Definition stopsEnd (other : json -> float) (g : json) (arr : list json) : bool :=
  negb (36028797018963968 <? Js.ToNumber other (ColorExtractor.stopCountOf g arr) * 4)%float.

(** The loops [processGradient] runs for the gradient property [g] come to
    an end. *)
Definition gradientEnds (other : json -> float) (g : json) : bool :=
  let k := Js.get g "k" in
  if Js.truthy k && negb (Js.truthy (Js.get k "a")) && Js.isArray k then
    stopsEnd other g (Js.items k)
  else if Js.truthy k && Js.isOne (Js.get k "a") && Js.isArray (Js.get k "k") then
    forallb (fun keyframe =>
               negb (Js.truthy keyframe && Js.isArray (Js.get keyframe "s"))
               || stopsEnd other g (Js.items (Js.get keyframe "s")))
      (Js.items (Js.get k "k"))
  else if Js.truthy k && Js.truthy (Js.get k "k") && Js.isArray (Js.get k "k")
          && Js.isNumber (Js.item (Js.items (Js.get k "k")) 0) then
    stopsEnd other g (Js.items (Js.get k "k"))
  else true.

(** A tree in which no animated [c] or [sc] has [null] for a keyframe and
    the stop loops of every gradient come to an end. *)
Fixpoint extractable (other : json -> float) (v : json) : bool :=
  match v with
  | JArr l => forallb (extractable other) l
  | JObj ps =>
      keyframesReadable (Js.get (JObj ps) "c") && keyframesReadable (Js.get (JObj ps) "sc")
      && (negb (Js.truthy (Js.get (JObj ps) "g")) || gradientEnds other (Js.get (JObj ps) "g"))
      && forallb (fun kv => extractable other (snd kv)) ps
  | _ => true
  end.

(** ** Vocabulary of the statements about the paths of the instances *)

(** Every key of every object is one a path can hold: not empty and without
    a dot. *)
Fixpoint pathKeyed (v : json) : bool :=
  match v with
  | JArr l => forallb pathKeyed l
  | JObj ps => forallb pathKey (map fst ps) && forallb (fun kv => pathKeyed (snd kv)) ps
  | _ => true
  end.

(** The paths of the instances [l] are those of the addresses [rests] below
    the address [addr], which are all different. *)
Definition pathsAt (addr : list string) (l : list ColorExtractor.instance)
  (rests : list (list string)) : Prop :=
  map ColorExtractor.path l = map (fun rest => pathOf (addr ++ rest)) rests /\ NoDup rests.

(** The keys from a node to a colour the extractor finds at the node: [f],
    then keys that are not [c], [sc] or [g]. *)
Definition headed (f : string) (rest : list string) : bool :=
  match rest with
  | f' :: tail => String.eqb f' f && plainKeys tail && forallb pathKey tail
  | [] => false
  end.

(** The keys from a node to a colour at the node or below it. *)
Definition belowRest (rest : list string) : bool :=
  forallb pathKey rest && existsb colorKey rest.

(** ** Vocabulary of the statements about the format of [rgbToHex] *)

(** [Math.round(x)] is an integer from 0 to 255. *)
Definition roundsToByte (x : float) : bool :=
  match Num.Math_round x with
  | Num.RInt n _ => ((0 <=? n) && (n <=? 255))%Z
  | _ => false
  end.

(** ** Vocabulary of the statements about the colour list after an adjustment *)

(** An instance without its colour. *)
Definition withoutHex (inst : ColorExtractor.instance) : ColorExtractor.instance :=
  {| ColorExtractor.type := inst.(ColorExtractor.type);
     ColorExtractor.shapeType := inst.(ColorExtractor.shapeType);
     ColorExtractor.ref := inst.(ColorExtractor.ref);
     ColorExtractor.hex := "";
     ColorExtractor.index := inst.(ColorExtractor.index);
     ColorExtractor.offset := inst.(ColorExtractor.offset);
     ColorExtractor.stopCount := inst.(ColorExtractor.stopCount);
     ColorExtractor.path := inst.(ColorExtractor.path) |}.

(** The instances of an extraction without their colours (or how the
    extraction fails). *)
Definition skeleton (x : outcome (list ColorExtractor.instance))
  : outcome (list ColorExtractor.instance) :=
  l <- x ;; Ok (map withoutHex l).

(** The array [extractColors] returns for a document, on an extractor that
    has extracted nothing yet. *)
Definition extracted (other : json -> float) (doc : json)
  : outcome (list ColorExtractor.instance) :=
  r <- ColorExtractor.extractColors other [] doc ;; Ok (fst r).

(** No [c], [sc] or [g] of the tree holds a colour property itself. *)
Fixpoint flatColors (v : json) : bool :=
  match v with
  | JArr l => forallb flatColors l
  | JObj ps =>
      colorFree (Js.get (JObj ps) "c") && colorFree (Js.get (JObj ps) "sc")
      && colorFree (Js.get (JObj ps) "g")
      && forallb (fun kv => flatColors (snd kv)) ps
  | _ => true
  end.

(** The instances [processFill] and [processStroke] add for the property
    [c]: one for each keyframe with an array [s] when the colour is
    animated, one for a static colour. *)
Definition solidList (other : json -> float) (kind : string * string) (ref : list string)
  (path : string) (c : json) : outcome (list ColorExtractor.instance) :=
  if Js.isArray (Js.get c "k") then
    if Js.isOne (Js.get c "a") then
      collecti (fun i keyframe =>
                  emitted (ColorExtractor.keyframeColor other kind ref path i keyframe))
        0 (Js.items (Js.get c "k"))
    else Ok [ColorExtractor.solidInstance other kind ref (Js.items (Js.get c "k")) path]
  else Ok [].

(** ** Vocabulary of the statements about what a write leaves alone *)

Fixpoint isPrefix (p l : list string) : bool :=
  match p, l with
  | [], _ => true
  | x :: p', y :: l' => String.eqb x y && isPrefix p' l'
  | _ :: _, [] => false
  end.

(** The addresses the write through a reference can change: those the
    reference lies at or below, and those at or below the members [s] and
    [k] of the object it refers to. *)
Definition reaches (ref keys : list string) : bool :=
  isPrefix keys ref || isPrefix (ref ++ ["s"]) keys || isPrefix (ref ++ ["k"]) keys.


(** * Facts about keys, properties and elements *)

Lemma to_index_of_nat n : Str.to_index (Str.of_nat n) = Some n.
Proof.
  unfold Str.to_index, Str.of_nat.
  destruct (DecimalString.NilZero.usu_gen (Nat.to_uint n)) as [E|E]; rewrite E.
  - rewrite DecimalNat.Unsigned.of_to, String.eqb_refl. reflexivity.
  - assert (H : DecimalString.NilZero.string_of_uint (Nat.to_uint n)
                = DecimalString.NilZero.string_of_uint Decimal.zero)
      by (apply DecimalString.NilZero.sus in E; now rewrite E).
    rewrite H. cbn.
    assert (Hn : n = 0).
    { rewrite <- (DecimalNat.Unsigned.of_to n).
      destruct (Nat.to_uint n) eqn:En; try reflexivity;
        cbn in H; try discriminate.
      destruct u; cbn in H; try discriminate; reflexivity. }
    now subst n.
Qed.

Lemma to_index_inv k i : Str.to_index k = Some i -> k = Str.of_nat i.
Proof.
  unfold Str.to_index. destruct (DecimalString.NilZero.uint_of_string k); [|discriminate].
  destruct (String.eqb_spec (Str.of_nat (Nat.of_uint u)) k); [|discriminate].
  intros [= <-]. now symmetry.
Qed.

Lemma of_nat_inj i j : Str.of_nat i = Str.of_nat j -> i = j.
Proof.
  intros E. apply (f_equal Str.to_index) in E. rewrite !to_index_of_nat in E. congruence.
Qed.

Lemma to_index_letter c s :
  (nat_of_ascii c <? 48)%nat || (57 <? nat_of_ascii c)%nat = true ->
  Str.to_index (String c s) = None.
Proof.
  intros H. destruct (Str.to_index (String c s)) as [i|] eqn:E; [|reflexivity].
  apply to_index_inv in E. exfalso.
  unfold Str.of_nat in E.
  assert (D : forall d, d <> Decimal.Nil ->
            match DecimalString.NilEmpty.string_of_uint d with
            | String a _ => (48 <=? nat_of_ascii a)%nat && (nat_of_ascii a <=? 57)%nat = true
            | EmptyString => False
            end) by (intros [] Hd; try reflexivity; contradiction).
  unfold DecimalString.NilZero.string_of_uint in E.
  destruct (Nat.to_uint i) eqn:Ei;
    try (specialize (D (Nat.to_uint i)); rewrite Ei in D;
         specialize (D ltac:(discriminate)); rewrite <- E in D;
         apply andb_true_iff in D; destruct D as [D1 D2];
         apply Nat.leb_le in D1, D2;
         apply orb_true_iff in H; destruct H as [H|H]; apply Nat.ltb_lt in H; lia).
  injection E as -> _. cbn in H. discriminate.
Qed.

Lemma to_index_k : Str.to_index "k" = None.
Proof. reflexivity. Qed.

(** ** Association lists *)

Lemma assoc_assocSet_same k x ps : Js.assoc k (Js.assocSet k x ps) = Some x.
Proof.
  induction ps as [|[k' v] ps IH]; cbn.
  - now rewrite String.eqb_refl.
  - destruct (String.eqb_spec k' k); cbn.
    + subst. now rewrite String.eqb_refl.
    + destruct (String.eqb_spec k' k); [contradiction|]. exact IH.
Qed.

Lemma assoc_assocSet_other k k' x ps :
  k <> k' -> Js.assoc k' (Js.assocSet k x ps) = Js.assoc k' ps.
Proof.
  intros Hne. induction ps as [|[k0 v] ps IH]; cbn.
  - destruct (String.eqb_spec k k'); [contradiction|reflexivity].
  - destruct (String.eqb_spec k0 k); cbn.
    + subst. destruct (String.eqb_spec k k'); [contradiction|reflexivity].
    + destruct (String.eqb_spec k0 k'); [reflexivity|exact IH].
Qed.

Lemma assocSet_keys k x ps v :
  Js.assoc k ps = Some v -> map fst (Js.assocSet k x ps) = map fst ps.
Proof.
  induction ps as [|[k0 v0] ps IH]; cbn; [discriminate|].
  destruct (String.eqb_spec k0 k); cbn; [reflexivity|].
  intros H. f_equal. auto.
Qed.

Lemma assocSet_same_value k ps v :
  Js.assoc k ps = Some v -> Js.assocSet k v ps = ps.
Proof.
  induction ps as [|[k0 v0] ps IH]; cbn; [discriminate|].
  destruct (String.eqb_spec k0 k); cbn.
  - now intros [= ->].
  - intros H. f_equal. auto.
Qed.

(** ** Arrays *)

Lemma item_itemSet_same i x l : Js.item (Js.itemSet i x l) i = x.
Proof.
  revert l. induction i as [|i IH]; intros [|y l]; cbn; auto.
  - apply (IH []).
  - apply IH.
Qed.

Lemma item_itemSet_other i j x l : i <> j -> Js.item (Js.itemSet i x l) j = Js.item l j.
Proof.
  unfold Js.item. revert j l. induction i as [|i IH]; intros j l H.
  - destruct j as [|j]; [lia|]. destruct l as [|y l]; cbn; [now destruct j|reflexivity].
  - destruct j as [|j], l as [|y l]; cbn; try reflexivity.
    + rewrite (IH j []) by lia. now destruct j.
    + apply IH. lia.
Qed.

Lemma itemSet_length i x l : i < List.length l -> List.length (Js.itemSet i x l) = List.length l.
Proof.
  revert l. induction i as [|i IH]; intros [|y l] H; cbn in *; try lia.
  rewrite IH; lia.
Qed.

Lemma itemSet_length_ge i x l : List.length l <= List.length (Js.itemSet i x l).
Proof.
  revert l. induction i as [|i IH]; intros [|y l]; cbn; try lia.
  specialize (IH l). lia.
Qed.

Lemma item_defined_lt l i : Js.item l i <> JUndef -> i < List.length l.
Proof.
  unfold Js.item. intros H. destruct (Nat.lt_ge_cases i (List.length l)); [assumption|].
  now rewrite nth_overflow in H.
Qed.

Lemma itemSet_same_value i l : i < List.length l -> Js.itemSet i (Js.item l i) l = l.
Proof.
  unfold Js.item. revert l. induction i as [|i IH]; intros [|y l] H; cbn in *; try lia; auto.
  f_equal. apply IH. lia.
Qed.

(** ** Reading after writing *)

Lemma get_set_same t k x : Js.get t k <> JUndef -> Js.get (Js.set t k x) k = x.
Proof.
  destruct t; cbn; try congruence.
  - destruct (Str.to_index k) as [i|] eqn:E; [|congruence].
    intros _. cbn. rewrite E. apply item_itemSet_same.
  - intros _. now rewrite assoc_assocSet_same.
Qed.

Lemma get_set_other t k k' x : k <> k' -> Js.get (Js.set t k x) k' = Js.get t k'.
Proof.
  intros Hne. destruct t; cbn; try reflexivity.
  - destruct (Str.to_index k) as [i|] eqn:E; [|reflexivity].
    cbn. destruct (Str.to_index k') as [j|] eqn:E'; [|reflexivity].
    apply item_itemSet_other. intros ->.
    apply to_index_inv in E, E'. congruence.
  - now rewrite assoc_assocSet_other.
Qed.

Lemma set_get_same t k : Js.get t k <> JUndef -> Js.set t k (Js.get t k) = t.
Proof.
  destruct t; cbn; try congruence.
  - destruct (Str.to_index k) as [i|] eqn:E; [|congruence].
    intros H. f_equal. apply itemSet_same_value. now apply item_defined_lt.
  - destruct (Js.assoc k props) eqn:E; [|congruence].
    intros _. f_equal. now apply assocSet_same_value.
Qed.

Lemma truthy_defined v : Js.truthy v = true -> v <> JUndef.
Proof. now destruct v. Qed.

Lemma isObject_defined v : Js.isObject v = true -> v <> JUndef.
Proof. now destruct v. Qed.

Lemma isArray_defined v : Js.isArray v = true -> v <> JUndef.
Proof. now destruct v. Qed.

Lemma isObject_truthy v : Js.isObject v = true -> Js.truthy v = true.
Proof. now destruct v. Qed.

Lemma isArray_isObject v : Js.isArray v = true -> Js.isObject v = true.
Proof. now destruct v. Qed.

(** A value with a defined property [k] is an object (arrays have indices
    only). *)
Lemma get_k_defined v : Js.get v "k" <> JUndef -> exists ps, v = JObj ps.
Proof.
  destruct v; cbn; try congruence. eauto.
Qed.

Lemma lookup_app pre rest v : Js.lookup (pre ++ rest) v = Js.lookup rest (Js.lookup pre v).
Proof. revert v. induction pre; cbn; auto. Qed.

Lemma lookup_undef keys : Js.lookup keys JUndef = JUndef.
Proof. induction keys; cbn; auto. Qed.

(** An index is none of the keys [c], [sc], [g]. *)
Lemma index_key_plain k j : Str.to_index k = Some j -> colorKey k = false.
Proof.
  intros E. unfold colorKey.
  destruct (String.eqb_spec k "c") as [->|_]; [discriminate|].
  destruct (String.eqb_spec k "sc") as [->|_]; [discriminate|].
  destruct (String.eqb_spec k "g") as [->|_]; [discriminate|]. reflexivity.
Qed.

Lemma of_nat_plain i : colorKey (Str.of_nat i) = false.
Proof. apply (index_key_plain _ i), to_index_of_nat. Qed.

Lemma get_array_index l i : Js.get (JArr l) (Str.of_nat i) = Js.item l i.
Proof. cbn. now rewrite to_index_of_nat. Qed.

Lemma get_nonobject v k : Js.isObject v = false -> Js.get v k = JUndef.
Proof. now destruct v. Qed.

(** ** Outcomes *)

Lemma bind_ok {A B : Type} (x : outcome A) (f : A -> outcome B) (b : B) :
  (y <- x ;; f y) = Ok b -> exists a, x = Ok a /\ f a = Ok b.
Proof. destruct x; cbn; try discriminate. eauto. Qed.

Lemma isObject_set v k x : Js.isObject (Js.set v k x) = Js.isObject v.
Proof. destruct v; try reflexivity. cbn. now destruct (Str.to_index k). Qed.

Lemma typeofObject_isObject v : Js.isObject v = true -> Js.typeofObject v = true.
Proof. now destruct v. Qed.

Lemma get_defined_isObject v k : Js.get v k <> JUndef -> Js.isObject v = true.
Proof. destruct v; cbn; congruence. Qed.

Lemma lookup_defined_get keys v k :
  Js.lookup (k :: keys) v <> JUndef -> Js.get v k <> JUndef.
Proof. cbn. intros H E. rewrite E, lookup_undef in H. congruence. Qed.

(** ** Updates *)

Lemma update_defined k rest f v :
  Js.get v k <> JUndef ->
  Js.update (k :: rest) f v = Js.set v k (Js.update rest f (Js.get v k)).
Proof. cbn. destruct (Js.get v k); congruence. Qed.

Lemma update_undefined k rest f v :
  Js.get v k = JUndef -> Js.update (k :: rest) f v = v.
Proof. cbn. now intros ->. Qed.

Lemma update_app pre rest f : forall v,
  Js.update (pre ++ rest) f v = Js.update pre (Js.update rest f) v.
Proof.
  induction pre as [|k pre IH]; intros v; [reflexivity|].
  cbn [app]. destruct (Js.get v k) eqn:E;
    try (rewrite !update_defined by (rewrite E; discriminate); now rewrite IH).
  now rewrite !update_undefined.
Qed.

(** An update replaces the value it finds. *)
Lemma update_const pre f : forall v,
  Js.update pre f v = Js.update pre (fun _ => f (Js.lookup pre v)) v.
Proof.
  induction pre as [|k pre IH]; intros v; [reflexivity|].
  destruct (Js.get v k) eqn:E;
    try (rewrite !update_defined by (rewrite E; discriminate); cbn [Js.lookup];
         now rewrite IH).
  now rewrite !update_undefined.
Qed.

Lemma isObject_update pre x : forall v,
  Js.isObject v = true -> Js.isObject x = true ->
  Js.isObject (Js.update pre (fun _ => x) v) = true.
Proof.
  destruct pre as [|k pre]; intros v Hv Hx; [assumption|].
  destruct (Js.get v k) eqn:E;
    try (rewrite update_defined by (rewrite E; discriminate); now rewrite isObject_set).
  now rewrite update_undefined.
Qed.

Lemma lookup_isObject keys : forall v,
  Js.isObject (Js.lookup keys v) = true -> Js.isObject v = true.
Proof.
  destruct keys as [|k keys]; intros v H; [assumption|].
  apply (get_defined_isObject v k). apply (lookup_defined_get keys).
  now apply isObject_defined.
Qed.

Import ColorUtils.

Lemma in_bytes n : (0 <= n <= 255)%Z -> In n bytes.
Proof.
  intros H. unfold bytes. apply in_map_iff. exists (Z.to_nat n). split; [lia|].
  apply in_seq. lia.
Qed.

Lemma hexByte_of_Z n : (0 <= n <= 255)%Z -> hexByte (Num.of_Z n) = byteHex n.
Proof.
  intros H. apply in_bytes in H.
  assert (A : forallb (fun k => String.eqb (hexByte (Num.of_Z k)) (byteHex k)) bytes = true)
    by (vm_compute; reflexivity).
  rewrite forallb_forall in A. apply String.eqb_eq. now apply A.
Qed.

Lemma hexval_hexChar d : (0 <= d < 16)%Z -> hexval (hexChar d) = Some d.
Proof.
  intros H.
  assert (A : forallb (fun k => match hexval (hexChar k) with Some v => (v =? k)%Z | None => false end)
                (map Z.of_nat (seq 0 16)) = true) by (vm_compute; reflexivity).
  rewrite forallb_forall in A.
  specialize (A d). destruct (hexval (hexChar d)).
  - f_equal. apply Z.eqb_eq. apply A. apply in_map_iff. exists (Z.to_nat d). split; [lia|]. apply in_seq. lia.
  - discriminate A. apply in_map_iff. exists (Z.to_nat d). split; [lia|]. apply in_seq. lia.
Qed.

Lemma isLowerHexChar_hexChar d : (0 <= d < 16)%Z -> isLowerHexChar (hexChar d) = true.
Proof.
  intros H.
  assert (A : forallb (fun k => isLowerHexChar (hexChar k)) (map Z.of_nat (seq 0 16)) = true)
    by (vm_compute; reflexivity).
  rewrite forallb_forall in A. apply A.
  apply in_map_iff. exists (Z.to_nat d). split; [lia|]. apply in_seq. lia.
Qed.

Lemma rgbToHex_bytes r g b :
  (0 <= r <= 255)%Z -> (0 <= g <= 255)%Z -> (0 <= b <= 255)%Z ->
  rgbToHex (Num.of_Z r) (Num.of_Z g) (Num.of_Z b) =
  String "#" (byteHex r ++ byteHex g ++ byteHex b).
Proof.
  intros Hr Hg Hb. unfold rgbToHex.
  now rewrite !hexByte_of_Z by assumption.
Qed.

Lemma parseInt16_bytes r g b :
  (0 <= r <= 255)%Z -> (0 <= g <= 255)%Z -> (0 <= b <= 255)%Z ->
  parseInt16 (byteHex r ++ byteHex g ++ byteHex b) = Some (65536 * r + 256 * g + b)%Z.
Proof.
  intros Hr Hg Hb.
  assert (D : forall n, (0 <= n <= 255)%Z -> (0 <= n / 16 < 16 /\ 0 <= n mod 16 < 16)%Z)
    by (intros; split; [split; [apply Z.div_pos; lia | apply Z.div_lt_upper_bound; lia]
                       | apply Z.mod_pos_bound; lia]).
  destruct (D r Hr) as [R1 R2], (D g Hg) as [G1 G2], (D b Hb) as [B1 B2].
  unfold parseInt16, byteHex. cbn [String.append].
  assert (NW : forall d, (0 <= d < 16)%Z ->
             is_ws (hexChar d) = false /\ hexChar d <> "-"%char /\ hexChar d <> "+"%char /\
             hexChar d <> "x"%char /\ hexChar d <> "X"%char).
  { intros d Hd.
    assert (A : forallb (fun k => negb (is_ws (hexChar k)) && negb (Ascii.eqb (hexChar k) "-")
                                  && negb (Ascii.eqb (hexChar k) "+") && negb (Ascii.eqb (hexChar k) "x")
                                  && negb (Ascii.eqb (hexChar k) "X"))
                  (map Z.of_nat (seq 0 16)) = true) by (vm_compute; reflexivity).
    rewrite forallb_forall in A. specialize (A d).
    rewrite !andb_true_iff, !negb_true_iff, !Ascii.eqb_neq in A.
    assert (E : In d (map Z.of_nat (seq 0 16)))
      by (apply in_map_iff; exists (Z.to_nat d); split; [lia | apply in_seq; lia]).
    destruct (A E) as ((((? & ?) & ?) & ?) & ?). auto. }
  destruct (NW (r / 16)%Z R1) as (W & M & P & _).
  destruct (NW (r mod 16)%Z R2) as (_ & _ & _ & X1 & X2).
  cbn [skip_ws]. rewrite W.
  assert (S1 : forall c rest, c <> "-"%char -> c <> "+"%char ->
             strip_sign (String c rest) = (false, String c rest)).
  { intros c rest Hm Hp. unfold strip_sign.
    destruct c as [[] [] [] [] [] [] [] []]; try reflexivity; contradiction. }
  rewrite S1 by assumption.
  assert (S2 : forall c c' rest, c' <> "x"%char -> c' <> "X"%char ->
             strip_0x (String c (String c' rest)) = String c (String c' rest)).
  { intros c c' rest Hx HX. unfold strip_0x.
    destruct c as [[] [] [] [] [] [] [] []]; try reflexivity.
    destruct c' as [[] [] [] [] [] [] [] []]; try reflexivity; contradiction. }
  rewrite S2 by assumption.
  cbn [hex_digits]. rewrite !hexval_hexChar by assumption.
  cbn beta iota. f_equal.
  pose proof (Z.div_mod r 16 ltac:(lia)) as Er.
  pose proof (Z.div_mod g 16 ltac:(lia)) as Eg.
  pose proof (Z.div_mod b 16 ltac:(lia)) as Eb.
  revert Er Eg Eb.
  generalize (r / 16)%Z (r mod 16)%Z (g / 16)%Z (g mod 16)%Z (b / 16)%Z (b mod 16)%Z.
  intros. lia.
Qed.

Lemma hexToRgb_value n r g b :
  (0 <= r <= 255)%Z -> (0 <= g <= 255)%Z -> (0 <= b <= 255)%Z ->
  n = (65536 * r + 256 * g + b)%Z ->
  (Z.land (Z.shiftr (ToInt32 (Some n)) 16) 255 = r /\
   Z.land (Z.shiftr (ToInt32 (Some n)) 8) 255 = g /\
   Z.land (ToInt32 (Some n)) 255 = b)%Z.
Proof.
  intros Hr Hg Hb ->.
  set (n := (65536 * r + 256 * g + b)%Z).
  assert (Hn : (0 <= n < 2 ^ 24)%Z) by (unfold n; lia).
  assert (E : ToInt32 (Some n) = n).
  { unfold ToInt32, as_double.
    replace (Z.abs n <=? 2 ^ 53)%Z with true by (symmetry; apply Z.leb_le; lia).
    change (2 ^ 31)%Z with 2147483648%Z. change (2 ^ 32)%Z with 4294967296%Z.
    rewrite Z.mod_small; lia. }
  rewrite E.
  change 255%Z with (Z.ones 8). rewrite !Z.land_ones by lia.
  rewrite !Z.shiftr_div_pow2 by lia.
  change (2 ^ 16)%Z with 65536%Z. change (2 ^ 8)%Z with 256%Z.
  unfold n. repeat split.
  - replace ((65536 * r + 256 * g + b) / 65536)%Z with r; [apply Z.mod_small; lia|].
    apply Z.div_unique with (r := (256 * g + b)%Z); lia.
  - replace ((65536 * r + 256 * g + b) / 256)%Z with (256 * r + g)%Z.
    + symmetry. apply Z.mod_unique with (q := r); lia.
    + apply Z.div_unique with (r := b); lia.
  - symmetry. apply Z.mod_unique with (q := (256 * r + g)%Z); lia.
Qed.

Lemma hexToRgb_bytes r g b :
  (0 <= r <= 255)%Z -> (0 <= g <= 255)%Z -> (0 <= b <= 255)%Z ->
  hexToRgb (rgbToHex (Num.of_Z r) (Num.of_Z g) (Num.of_Z b))
  = {| ColorUtils.r := r; ColorUtils.g := g; ColorUtils.b := b |}.
Proof.
  intros Hr Hg Hb. rewrite rgbToHex_bytes by assumption.
  unfold hexToRgb. cbn [Str.slice1].
  rewrite parseInt16_bytes by assumption.
  destruct (hexToRgb_value _ r g b Hr Hg Hb eq_refl) as (E1 & E2 & E3).
  now rewrite E1, E2, E3.
Qed.

(** The channel [n / 255] of a byte [n] reads back as [n]. *)
Lemma hexByte_normalized n :
  (0 <= n <= 255)%Z -> hexByte (Num.of_Z n / 255 * 255) = hexByte (Num.of_Z n).
Proof.
  intros H. apply in_bytes in H.
  assert (A : forallb (fun k => String.eqb (hexByte (Num.of_Z k / 255 * 255))
                                  (hexByte (Num.of_Z k))) bytes = true)
    by (vm_compute; reflexivity).
  rewrite forallb_forall in A. apply String.eqb_eq. now apply A.
Qed.

(** C10. For all integers r, g, b in [0,255], hexToRgb (rgbToHex r g b) is
    exactly {r, g, b}, and rgbToHex r g b is a seven-character string: a hash
    sign followed by six lowercase hexadecimal digits. *)
Theorem hexToRgb_rgbToHex (r g b : Z) :
  (0 <= r <= 255)%Z -> (0 <= g <= 255)%Z -> (0 <= b <= 255)%Z ->
  hexToRgb (rgbToHex (Num.of_Z r) (Num.of_Z g) (Num.of_Z b))
    = {| ColorUtils.r := r; ColorUtils.g := g; ColorUtils.b := b |}
  /\ String.length (rgbToHex (Num.of_Z r) (Num.of_Z g) (Num.of_Z b)) = 7
  /\ isHex7 (rgbToHex (Num.of_Z r) (Num.of_Z g) (Num.of_Z b)) = true.
Proof.
  intros Hr Hg Hb.
  rewrite rgbToHex_bytes by assumption.
  assert (D : forall n, (0 <= n <= 255)%Z -> (0 <= n / 16 < 16 /\ 0 <= n mod 16 < 16)%Z)
    by (intros; split; [split; [apply Z.div_pos; lia | apply Z.div_lt_upper_bound; lia]
                       | apply Z.mod_pos_bound; lia]).
  destruct (D r Hr) as [R1 R2], (D g Hg) as [G1 G2], (D b Hb) as [B1 B2].
  split; [| split].
  - rewrite <- rgbToHex_bytes by assumption. now apply hexToRgb_bytes.
  - reflexivity.
  - unfold byteHex. cbn [String.append isHex7 forallb].
    now rewrite !isLowerHexChar_hexChar by assumption.
Qed.

Lemma hexToRgb_rgbToHex_witness :
  hexToRgb (rgbToHex (Num.of_Z 255) (Num.of_Z 128) (Num.of_Z 1))
    = {| ColorUtils.r := 255; ColorUtils.g := 128; ColorUtils.b := 1 |}
  /\ String.length (rgbToHex (Num.of_Z 255) (Num.of_Z 128) (Num.of_Z 1)) = 7
  /\ isHex7 (rgbToHex (Num.of_Z 255) (Num.of_Z 128) (Num.of_Z 1)) = true.
Proof. apply (hexToRgb_rgbToHex 255 128 1); lia. Defined.

Import HistoryManager.

Lemma saveAll_snoc h l x : saveAll h (l ++ [x]) = saveState (saveAll h l) x.
Proof. unfold saveAll. now rewrite fold_left_app. Qed.

Lemma skipn_snoc_tl {A} (l : list A) (x : A) n :
  n < List.length l -> tl (skipn n l ++ [x]) = skipn (S n) (l ++ [x]).
Proof.
  revert n. induction l as [|a l IH]; intros n H; cbn in H; [lia|].
  destruct n as [|n].
  - reflexivity.
  - cbn [skipn app]. apply IH. lia.
Qed.

Lemma last_skipn {A} (l : list A) n d :
  n < List.length l -> last (skipn n l) d = last l d.
Proof.
  revert n. induction l as [|a l IH]; intros n H; cbn in H; [lia|].
  destruct n as [|n]; [reflexivity|].
  cbn [skipn]. rewrite IH by lia.
  destruct l; [cbn in H; lia | reflexivity].
Qed.

Lemma skipn_nonempty {A} (l : list A) n : n < List.length l -> skipn n l <> [].
Proof.
  intros H E. apply (f_equal (@List.length A)) in E. rewrite length_skipn in E. cbn in E. lia.
Qed.

(** Saving a run of truthy states, each different (as serialised) from the
    one saved just before it, keeps the copies of the last [M] of them. *)
Lemma saveAll_stack (M : nat) (states : list json) :
  1 <= M ->
  Forall (fun s => Js.truthy s = true) states ->
  (forall pre x y post, states = pre ++ x :: y :: post ->
                        Js.sameJson (Js.clone y) (Js.clone x) = false) ->
  let h := saveAll (create M) states in
  historyStack h = skipn (List.length states - M) (map Js.clone states)
  /\ redoStack h = [] /\ MAX_HISTORY h = M.
Proof.
  intros HM. induction states as [|x l IH] using rev_ind; intros Ht Hd.
  - cbn. auto.
  - apply Forall_app in Ht. destruct Ht as [Htl Htx]. inversion_clear Htx as [|? ? Hx _].
    assert (Hd' : forall pre a b post, l = pre ++ a :: b :: post ->
                    Js.sameJson (Js.clone b) (Js.clone a) = false).
    { intros pre a b post E. apply (Hd pre a b (post ++ [x])). subst l.
      now rewrite <- app_assoc. }
    destruct (IH Htl Hd') as (Es & Er & Em). clear IH.
    cbn zeta. rewrite saveAll_snoc.
    set (h := saveAll (create M) l) in *.
    unfold saveState. rewrite Hx. cbn [negb].
    rewrite Em, Es.
    assert (Hid : match skipn (List.length l - M) (map Js.clone l) with
                  | [] => false
                  | _ :: _ => Js.sameJson (Js.clone x)
                                (last (skipn (List.length l - M) (map Js.clone l)) JUndef)
                  end = false).
    { destruct l as [|y l' _] using rev_ind; [reflexivity|].
      assert (Hlt : List.length (l' ++ [y]) - M < List.length (map Js.clone (l' ++ [y])))
        by (rewrite length_map, length_app; cbn; lia).
      rewrite last_skipn by exact Hlt.
      pose proof (skipn_nonempty _ _ Hlt) as Hne.
      destruct (skipn _ _); [contradiction|].
      rewrite map_app. cbn [map]. rewrite last_last.
      apply (Hd l' y x []). now rewrite <- app_assoc. }
    rewrite Hid. cbn [historyStack redoStack MAX_HISTORY].
    split; [|auto].
    rewrite length_app, length_skipn, length_map. cbn [List.length].
    rewrite map_app. cbn [map].
    destruct (Nat.ltb_spec M (List.length l - (List.length l - M) + 1)) as [Hlt|Hge].
    + rewrite skipn_snoc_tl by (rewrite length_map; lia).
      f_equal. rewrite length_app. cbn. lia.
    + rewrite length_app. cbn [List.length].
      replace (List.length l + 1 - M) with 0 by lia.
      replace (List.length l - M) with 0 by lia. reflexivity.
Qed.

Lemma undo_floor h :
  List.length (historyStack h) <= 1 -> undo h = (h, JNull).
Proof.
  intros H. unfold undo. now apply Nat.leb_le in H as ->.
Qed.

Lemma undo_length h :
  1 <= List.length (historyStack h) ->
  List.length (historyStack (fst (undo h))) = Nat.max 1 (List.length (historyStack h) - 1).
Proof.
  intros H. unfold undo.
  destruct (Nat.leb_spec (List.length (historyStack h)) 1) as [Hle|Hgt]; cbn [fst historyStack].
  - lia.
  - assert (Hne : historyStack h <> []) by (intros E; rewrite E in Hgt; cbn in Hgt; lia).
    pose proof (app_removelast_last JUndef Hne) as E.
    apply (f_equal (@List.length json)) in E. rewrite length_app in E. cbn in E. lia.
Qed.

Lemma undoTimes_length n h :
  1 <= List.length (historyStack h) ->
  List.length (historyStack (undoTimes n h)) = Nat.max 1 (List.length (historyStack h) - n).
Proof.
  revert h. induction n as [|n IH]; intros h H; cbn [undoTimes].
  - lia.
  - rewrite IH by (rewrite undo_length by exact H; lia).
    rewrite undo_length by exact H. lia.
Qed.

Lemma ForallOrdPairs_suffix {A} (R : A -> A -> Prop) (pre l : list A) :
  ForallOrdPairs R (pre ++ l) -> ForallOrdPairs R l.
Proof.
  induction pre as [|a pre IH]; cbn; [auto|].
  intros H. inversion H; subst. auto.
Qed.

(** C7. With a maximum of 20, saving 25 pairwise-distinct states leaves
    exactly the copies of the last 20 on the undo stack, in order (the 5
    oldest are discarded); from there no number of undo() calls leaves fewer
    than 1 entry (19 calls leave exactly 1); and whenever at most 1 entry
    remains, undo() changes nothing and returns null. *)
Theorem history_bounds_and_undo_floor (states : list json) :
  List.length states = 25 ->
  Forall (fun s => Js.truthy s = true) states ->
  ForallOrdPairs distinctStates states ->
  let h := saveAll (create 20) states in
  historyStack h = map Js.clone (skipn 5 states)
  /\ List.length (historyStack h) = 20
  /\ (forall n, 1 <= List.length (historyStack (undoTimes n h)))
  /\ List.length (historyStack (undoTimes 19 h)) = 1
  /\ (forall h' : HistoryManager.t,
        List.length (historyStack h') <= 1 -> undo h' = (h', JNull)).
Proof.
  intros Hlen Ht Hd h.
  assert (Hadj : forall pre x y post, states = pre ++ x :: y :: post ->
                   Js.sameJson (Js.clone y) (Js.clone x) = false).
  { intros pre x y post E. subst states.
    apply ForallOrdPairs_suffix in Hd. inversion Hd as [|? ? Hx _]; subst.
    inversion Hx as [|? ? Hxy _]; subst. apply Hxy. }
  destruct (saveAll_stack 20 states ltac:(lia) Ht Hadj) as (Es & _ & _).
  fold h in Es. rewrite Hlen in Es. change (25 - 20) with 5 in Es.
  rewrite <- skipn_map.
  assert (L : List.length (historyStack h) = 20)
    by (rewrite Es, length_skipn, length_map, Hlen; reflexivity).
  repeat split.
  - exact Es.
  - exact L.
  - intros n. rewrite undoTimes_length by lia. lia.
  - rewrite undoTimes_length by lia. rewrite L. reflexivity.
  - apply undo_floor.
Qed.

Lemma history_bounds_and_undo_floor_witness :
  let h := saveAll (create 20) exampleStates in
  historyStack h = map Js.clone (skipn 5 exampleStates)
  /\ List.length (historyStack h) = 20
  /\ (forall n, 1 <= List.length (historyStack (undoTimes n h)))
  /\ List.length (historyStack (undoTimes 19 h)) = 1
  /\ (forall h' : HistoryManager.t,
        List.length (historyStack h') <= 1 -> undo h' = (h', JNull)).
Proof.
  apply (history_bounds_and_undo_floor exampleStates).
  - reflexivity.
  - repeat (apply Forall_cons; [vm_compute; reflexivity|]). apply Forall_nil.
  - repeat (apply FOP_cons;
            [repeat (apply Forall_cons; [split; vm_compute; reflexivity|]); apply Forall_nil|]).
    apply FOP_nil.
Defined.

Import ColorExtractor.

Lemma groupFind_groupPush_length key inst gs :
  List.length (groupPush key inst gs) = List.length gs.
Proof.
  induction gs as [|[k g] gs IH]; cbn; [reflexivity|].
  destruct (String.eqb k key); cbn; congruence.
Qed.

Lemma addColor_colors st inst : colors (addColor st inst) = colors st ++ [inst].
Proof. reflexivity. Qed.

Lemma addColor_groups_length st inst :
  List.length (groupedColors (addColor st inst)) <= S (List.length (groupedColors st)).
Proof.
  unfold addColor. cbn [groupedColors]. rewrite groupFind_groupPush_length.
  destruct (groupFind _ _); [lia|]. rewrite length_app. cbn. lia.
Qed.

Lemma addColors_colors insts st :
  colors (fold_left addColor insts st) = colors st ++ insts.
Proof.
  revert st. induction insts as [|i l IH]; intros st; cbn [fold_left].
  - now rewrite app_nil_r.
  - rewrite IH, addColor_colors, <- app_assoc. reflexivity.
Qed.

Lemma addColors_groups_length insts st :
  List.length (groupedColors (fold_left addColor insts st))
  <= List.length (groupedColors st) + List.length insts.
Proof.
  revert st. induction insts as [|i l IH]; intros st; cbn [fold_left List.length].
  - lia.
  - specialize (IH (addColor st i)). pose proof (addColor_groups_length st i). lia.
Qed.

Lemma completeness_run other fill t1 t2 t3 k1 k2 k3 s1 s2 s3 dedicated explicitCount :
  recursiveExtract other []
    (completenessDocument fill t1 t2 t3 k1 k2 k3 s1 s2 s3 dedicated explicitCount) "" noColors
  = Ok (fold_left addColor
          (completenessInstances fill k1 k2 k3 s1 s2 s3 dedicated explicitCount) noColors).
Proof.
  destruct dedicated, explicitCount; reflexivity.
Qed.



(** C1 (the code departs from it). A gradient that carries no stop-count
    field [p] is listed by the extractor with its two stops (the count
    defaults to length / 4), but applyAdjustments with no lock and a hue
    shift of 120 degrees returns it unchanged: adjustGradient takes the
    missing count as 0.  With [p] = 2 the same stops are shifted. *)
Theorem gradient_without_stop_count_is_not_shifted (other : json -> float) :
  instancePaths
    (ColorExtractor.extractColors other [] (JObj [("g", twoStopGradient None)]))
    = Ok ["g.k.k.0"; "g.k.k.4"]
  /\ returnedDocument
       (HueShiftManager.applyAdjustments other HueShiftManager.create
          (JObj [("g", twoStopGradient None)]) 120 0 0)
     = Ok (JObj [("g", twoStopGradient None)])
  /\ returnedDocument
       (HueShiftManager.applyAdjustments other HueShiftManager.create
          (JObj [("g", twoStopGradient (Some 2%float))]) 120 0 0)
     = Ok (JObj [("g", twoStopGradientShifted (Some 2%float))]).
Proof. repeat split; vm_compute; reflexivity. Qed.


(** C9 (the code departs from it). extractColors throws on a document whose
    animated colour has a [null] keyframe (processFill and processStroke read
    [keyframe.s] unguarded, where processGradient tests [keyframe &&] first);
    and for an input that is not an object it returns an empty list but
    leaves the grouped-colours map of the previous extraction in place. *)
Theorem extractColors_throws_and_keeps_stale_groups (other : json -> float) :
  ColorExtractor.extractColors other [] (JObj [("c", nullKeyframeColor)]) = Throws
  /\ ColorExtractor.extractColors other [] (JObj [("sc", nullKeyframeColor)]) = Throws
  /\ ColorExtractor.extractColors other [] (JObj [("g", nullKeyframeGradient)]) = Ok ([], [])
  /\ (exists insts groups,
        ColorExtractor.extractColors other [] (JObj [("c", staticColor 1 0 0)])
          = Ok (insts, groups)
        /\ List.length groups = 1
        /\ ColorExtractor.extractColors other groups JNull = Ok ([], groups)).
Proof.
  repeat split; try (vm_compute; reflexivity).
  eexists. eexists. repeat split; vm_compute; reflexivity.
Qed.

Import FileHandler.

Lemma merge_nonobject_source s t :
  Js.isObject s = false -> deepTraverseAndCopyColors s t = t.
Proof. now destruct s. Qed.

Lemma merge_nonobject_target s t :
  Js.isObject t = false -> deepTraverseAndCopyColors s t = t.
Proof. intros H. destruct s; cbn; try reflexivity; now rewrite H. Qed.

Lemma merge_object_source ps t :
  deepTraverseAndCopyColors (JObj ps) t
  = if Js.isObject t then fold_left fieldStep ps t else t.
Proof.
  cbn. destruct (Js.isObject t); [|reflexivity].
  revert t. induction ps as [|[k s] ps IH]; intros t; [reflexivity|].
  cbn [fold_left]. rewrite IH. reflexivity.
Qed.

Lemma merge_array_source l t :
  deepTraverseAndCopyColors (JArr l) t
  = if Js.isObject t then elementSteps 0 l t else t.
Proof.
  cbn. destruct (Js.isObject t); [|reflexivity].
  generalize 0. revert t. induction l as [|s l IH]; intros t i; [reflexivity|].
  cbn [elementSteps]. rewrite IH. reflexivity.
Qed.

Lemma solidRule_undef t : solidRule JUndef t = t.
Proof. reflexivity. Qed.

Lemma gradientRule_undef t : gradientRule JUndef t = t.
Proof. reflexivity. Qed.

Lemma mergedField_undef k t : mergedField k JUndef t = t.
Proof.
  unfold mergedField. destruct (_ || _); [reflexivity|]. now destruct (String.eqb k "g").
Qed.

Lemma copySolid_rule key s t :
  copySolid key s t
  = if Js.truthy s && Js.truthy (Js.get s "k") && (Js.truthy (Js.get t key)
       && Js.truthy (Js.get (Js.get t key) "k")) && Js.isArray (Js.get s "k")
    then Js.set t key (solidRule s (Js.get t key)) else t.
Proof.
  unfold copySolid, solidRule, assignK.
  destruct (Js.truthy s && Js.truthy (Js.get s "k")); [|reflexivity].
  destruct (Js.truthy (Js.get t key) && Js.truthy (Js.get (Js.get t key) "k")); [|reflexivity].
  destruct (Js.isArray (Js.get s "k")); reflexivity.
Qed.

(** Every step writes, under its key, what [mergedField] says. *)
Lemma fieldStep_same key s t :
  Js.get (fieldStep t (key, s)) key = mergedField key s (Js.get t key).
Proof.
  unfold fieldStep, mergedField.
  destruct (String.eqb key "c" || String.eqb key "sc").
  - unfold copySolid, solidRule, assignK.
    destruct (Js.truthy s && Js.truthy (Js.get s "k")); [|reflexivity].
    destruct (Js.truthy (Js.get t key)) eqn:Ht; cbn [andb]; [|reflexivity].
    destruct (Js.truthy (Js.get (Js.get t key) "k")); [|reflexivity].
    destruct (Js.isArray (Js.get s "k")); [|reflexivity].
    apply get_set_same. now apply truthy_defined.
  - destruct (String.eqb key "g").
    + unfold copyGradient, gradientRule, assignK, assignKK.
      destruct (Js.truthy s && Js.isArray (Js.get s "k")).
      * destruct (Js.truthy (Js.get t key)) eqn:Ht; cbn [andb]; [|reflexivity].
        destruct (Js.isArray (Js.get (Js.get t key) "k")); [|reflexivity].
        apply get_set_same. now apply truthy_defined.
      * destruct (Js.truthy s && Js.truthy (Js.get s "k")
                  && Js.isArray (Js.get (Js.get s "k") "k")); [|reflexivity].
        destruct (Js.truthy (Js.get t key)) eqn:Ht; cbn [andb]; [|reflexivity].
        destruct (Js.truthy (Js.get (Js.get t key) "k")
                  && Js.isArray (Js.get (Js.get (Js.get t key) "k") "k")); [|reflexivity].
        apply get_set_same. now apply truthy_defined.
    + destruct (Js.isObject s) eqn:Hs.
      * destruct (Js.isObject (Js.get t key)) eqn:Ho.
        -- apply get_set_same. now apply isObject_defined.
        -- now rewrite merge_nonobject_target.
      * now rewrite merge_nonobject_source.
Qed.

(** A step leaves the other keys alone. *)
Lemma fieldStep_other key s t k :
  key <> k -> Js.get (fieldStep t (key, s)) k = Js.get t k.
Proof.
  intros Hne. unfold fieldStep, copySolid, copyGradient, assignK, assignKK.
  repeat match goal with
         | |- context [if ?b then _ else _] => destruct b
         end; try reflexivity; try (now apply get_set_other).
Qed.

Lemma set_keeps_shallow t k x :
  Js.get t k <> JUndef -> shallow (Js.set t k x) = shallow t.
Proof.
  intros Hd. destruct t; cbn in *; try reflexivity.
  - destruct (Str.to_index k) as [i|] eqn:E; [|reflexivity].
    cbn. f_equal. apply item_defined_lt in Hd.
    assert (L : List.length (Js.itemSet i x items) = List.length items)
      by now apply itemSet_length.
    revert L. generalize (Js.itemSet i x items). clear.
    induction items as [|a l IH]; intros [|b l'] H; cbn in *; try discriminate; auto.
    f_equal. apply IH. lia.
  - destruct (Js.assoc k props) eqn:E; [|congruence].
    f_equal. clear Hd. revert E. induction props as [|[k0 v0] ps IH]; cbn; [discriminate|].
    destruct (String.eqb k0 k); cbn; [reflexivity|]. intros E. f_equal. auto.
Qed.

Lemma fieldStep_shallow kv t : shallow (fieldStep t kv) = shallow t.
Proof.
  destruct kv as [key s].
  unfold fieldStep, copySolid, copyGradient, assignK, assignKK.
  repeat match goal with
         | |- context [if ?b then _ else _] => destruct b eqn:?
         end; try reflexivity; apply set_keeps_shallow;
    repeat match goal with
           | H : _ && _ = true |- _ => apply andb_true_iff in H; destruct H
           end;
    first [now apply truthy_defined | now apply isObject_defined].
Qed.

Lemma elementStep_shallow i s t : shallow (elementStep i s t) = shallow t.
Proof.
  unfold elementStep.
  destruct (Js.truthy _ && Js.isObject _) eqn:H; [|reflexivity].
  apply andb_true_iff in H. destruct H as [H _].
  apply set_keeps_shallow. now apply truthy_defined.
Qed.

(** The merge keeps the kind of every node it visits, the length of every
    array and the keys of every object. *)
Lemma merge_shallow s t : shallow (deepTraverseAndCopyColors s t) = shallow t.
Proof.
  destruct s; try reflexivity.
  - rewrite merge_array_source. destruct (Js.isObject t); [|reflexivity].
    generalize 0. revert t. induction items as [|s l IH]; intros t i; [reflexivity|].
    cbn [elementSteps]. rewrite IH. apply elementStep_shallow.
  - rewrite merge_object_source. destruct (Js.isObject t); [|reflexivity].
    revert t. induction props as [|kv ps IH]; intros t; [reflexivity|].
    cbn [fold_left]. rewrite IH. apply fieldStep_shallow.
Qed.

Lemma distinct_assoc k ps :
  existsb (String.eqb k) (map fst ps) = false -> Js.assoc k ps = None.
Proof.
  induction ps as [|[k0 v] ps IH]; cbn; [reflexivity|].
  intros H. apply orb_false_iff in H. destruct H as [H1 H2].
  rewrite String.eqb_sym in H1. rewrite H1. auto.
Qed.

Lemma fields_get ps : forall t k,
  distinct (map fst ps) = true ->
  Js.get (fold_left fieldStep ps t) k
  = match Js.assoc k ps with
    | Some sv => mergedField k sv (Js.get t k)
    | None => Js.get t k
    end.
Proof.
  induction ps as [|[key s] ps IH]; intros t k Hd; [reflexivity|].
  cbn in Hd. apply andb_true_iff in Hd. destruct Hd as [Hnew Hd].
  apply negb_true_iff in Hnew.
  cbn [fold_left Js.assoc]. rewrite IH by assumption.
  destruct (String.eqb_spec key k) as [->|Hne].
  - rewrite (distinct_assoc _ _ Hnew). apply fieldStep_same.
  - rewrite fieldStep_other by assumption. reflexivity.
Qed.

Lemma elementStep_same i s t :
  Js.get (elementStep i s t) (Str.of_nat i)
  = deepTraverseAndCopyColors s (Js.get t (Str.of_nat i)).
Proof.
  unfold elementStep.
  destruct (Js.truthy (Js.get t (Str.of_nat i))) eqn:Ht; cbn [andb].
  - destruct (Js.isObject (Js.get t (Str.of_nat i))) eqn:Ho.
    + apply get_set_same. now apply truthy_defined.
    + now rewrite merge_nonobject_target.
  - rewrite merge_nonobject_target; [reflexivity|].
    destruct (Js.get t (Str.of_nat i)); try reflexivity; discriminate.
Qed.

Lemma elementStep_other i s t k :
  Str.of_nat i <> k -> Js.get (elementStep i s t) k = Js.get t k.
Proof.
  intros H. unfold elementStep. destruct (_ && _); [|reflexivity]. now apply get_set_other.
Qed.

Lemma elements_get l : forall i0 t k,
  Js.get (elementSteps i0 l t) k
  = match Str.to_index k with
    | Some j =>
        if (i0 <=? j)%nat && (j <? i0 + List.length l)%nat
        then deepTraverseAndCopyColors (Js.item l (j - i0)) (Js.get t k)
        else Js.get t k
    | None => Js.get t k
    end.
Proof.
  induction l as [|s l IH]; intros i0 t k.
  - cbn [elementSteps List.length]. destruct (Str.to_index k) as [j|]; [|reflexivity].
    destruct ((i0 <=? j)%nat && (j <? i0 + 0)%nat) eqn:H; [exfalso|reflexivity].
    apply andb_true_iff in H. destruct H as [H1 H2].
    apply Nat.leb_le in H1. apply Nat.ltb_lt in H2. lia.
  - cbn [elementSteps List.length]. rewrite IH.
    destruct (Str.to_index k) as [j|] eqn:E.
    + pose proof (to_index_inv _ _ E) as ->.
      destruct (Nat.eq_dec j i0) as [->|Hne].
      * replace ((S i0 <=? i0)%nat) with false by (symmetry; apply Nat.leb_gt; lia).
        replace ((i0 <=? i0)%nat) with true by (symmetry; apply Nat.leb_le; lia).
        replace ((i0 <? i0 + S (List.length l))%nat) with true
          by (symmetry; apply Nat.ltb_lt; lia).
        cbn [andb]. rewrite Nat.sub_diag. apply elementStep_same.
      * rewrite elementStep_other by (intros H; apply of_nat_inj in H; lia).
        replace ((S i0 <=? j)%nat && (j <? S i0 + List.length l)%nat)
          with ((i0 <=? j)%nat && (j <? i0 + S (List.length l))%nat).
        2:{ apply eq_true_iff_eq.
            rewrite !andb_true_iff, !Nat.leb_le, !Nat.ltb_lt. lia. }
        destruct ((i0 <=? j)%nat && (j <? i0 + S (List.length l))%nat) eqn:Hin;
          [|reflexivity].
        apply andb_true_iff in Hin. destruct Hin as [H1 _]. apply Nat.leb_le in H1.
        unfold Js.item. replace (j - i0) with (S (j - S i0)) by lia. reflexivity.
    + apply elementStep_other. intros H. rewrite <- H, to_index_of_nat in E. discriminate.
Qed.

Lemma mergedField_plain k sv tv :
  colorKey k = false -> mergedField k sv tv = deepTraverseAndCopyColors sv tv.
Proof.
  unfold colorKey, mergedField. intros H.
  apply orb_false_iff in H. destruct H as [H ->]. now rewrite H.
Qed.

(** What the merged target holds under any key. *)
Lemma merge_get s t k :
  wellKeyed s = true ->
  Js.get (deepTraverseAndCopyColors s t) k = mergedField k (Js.get s k) (Js.get t k).
Proof.
  intros Hw.
  destruct (Js.isObject t) eqn:Ht.
  2:{ rewrite merge_nonobject_target by assumption.
      assert (E : Js.get t k = JUndef) by (destruct t; try reflexivity; discriminate).
      rewrite E. unfold mergedField, solidRule, gradientRule.
      rewrite merge_nonobject_target by reflexivity.
      repeat match goal with
             | |- context [if ?b then _ else _] => destruct b
             end; reflexivity. }
  destruct s; try (cbn; now rewrite mergedField_undef).
  - rewrite merge_array_source, Ht, elements_get. cbn [Js.get].
    destruct (Str.to_index k) as [j|] eqn:E.
    + rewrite (mergedField_plain _ _ _ (index_key_plain _ _ E)).
      rewrite Nat.sub_0_r. cbn [Nat.leb andb Nat.add].
      destruct (Nat.ltb_spec j (List.length items)); [reflexivity|].
      unfold Js.item. rewrite nth_overflow by lia.
      now rewrite merge_nonobject_source.
    + now rewrite mergedField_undef.
  - rewrite merge_object_source, Ht.
    cbn in Hw. apply andb_true_iff in Hw. destruct Hw as [Hd _].
    rewrite fields_get by assumption. cbn [Js.get].
    destruct (Js.assoc k props); [reflexivity|]. now rewrite mergedField_undef.
Qed.

Lemma wellKeyed_get s k : wellKeyed s = true -> wellKeyed (Js.get s k) = true.
Proof.
  destruct s; cbn; try reflexivity.
  - intros H. destruct (Str.to_index k) as [i|]; [|reflexivity].
    unfold Js.item. destruct (nth_in_or_default i items JUndef) as [Hin| ->]; [|reflexivity].
    rewrite forallb_forall in H. now apply H.
  - intros H. apply andb_true_iff in H. destruct H as [_ H].
    induction props as [|[k0 v] ps IH]; cbn in *; [reflexivity|].
    apply andb_true_iff in H. destruct H as [Hv Hps].
    destruct (String.eqb k0 k); auto.
Qed.

Lemma wellKeyed_lookup keys s : wellKeyed s = true -> wellKeyed (Js.lookup keys s) = true.
Proof.
  revert s. induction keys as [|k r IH]; intros s H; cbn; [assumption|].
  apply IH. now apply wellKeyed_get.
Qed.

(** Below a property whose [k] was replaced, every key but [k] reads as
    before. *)
Lemma lookup_set_k tv x q r :
  q <> "k" -> Js.lookup (q :: r) (Js.set tv "k" x) = Js.lookup (q :: r) tv.
Proof.
  intros H. cbn [Js.lookup]. rewrite get_set_other by congruence. reflexivity.
Qed.

Lemma underColorField_tail k rest :
  underColorField (k :: rest) = false -> underColorField rest = false.
Proof.
  destruct rest as [|k2 r]; [reflexivity|].
  cbn [underColorField]. intros H. apply orb_false_iff in H. apply H.
Qed.

Lemma underColorField_head k k2 r :
  underColorField (k :: k2 :: r) = false -> colorKey k = true -> k2 <> "k".
Proof.
  cbn [underColorField]. intros H Hc ->. rewrite Hc in H. discriminate.
Qed.

(** The two rules replace nothing but the [k] of the property. *)
Lemma solidRule_cases sv tv :
  solidRule sv tv = tv
  \/ (exists x, solidRule sv tv = Js.set tv "k" x)
     /\ Js.get tv "k" <> JUndef /\ Js.get sv "k" <> JUndef.
Proof.
  unfold solidRule.
  destruct (Js.truthy sv && Js.truthy (Js.get sv "k")) eqn:Hs; [|now left].
  destruct (Js.truthy tv && Js.truthy (Js.get tv "k")) eqn:Ht; [|now left].
  destruct (Js.isArray (Js.get sv "k")); [|now left].
  apply andb_true_iff in Hs, Ht. right. split; [eauto|].
  split; apply truthy_defined; tauto.
Qed.

Lemma gradientRule_cases sv tv :
  gradientRule sv tv = tv
  \/ (exists x, gradientRule sv tv = Js.set tv "k" x)
     /\ Js.get tv "k" <> JUndef /\ Js.get sv "k" <> JUndef.
Proof.
  unfold gradientRule.
  destruct (Js.truthy sv && Js.isArray (Js.get sv "k")) eqn:Hs.
  - destruct (Js.truthy tv && Js.isArray (Js.get tv "k")) eqn:Ht; [|now left].
    apply andb_true_iff in Hs, Ht. right. split; [eauto|].
    split; apply isArray_defined; tauto.
  - destruct (Js.truthy sv && Js.truthy (Js.get sv "k")
              && Js.isArray (Js.get (Js.get sv "k") "k")) eqn:Hs2; [|now left].
    destruct (Js.truthy tv && Js.truthy (Js.get tv "k")
              && Js.isArray (Js.get (Js.get tv "k") "k")) eqn:Ht; [|now left].
    apply andb_true_iff in Hs2, Ht. destruct Hs2 as [Hs2 _], Ht as [Ht _].
    apply andb_true_iff in Hs2, Ht. right. split; [eauto|].
    split; apply truthy_defined; tauto.
Qed.

Lemma mergedField_color_cases k sv tv :
  colorKey k = true ->
  mergedField k sv tv = tv
  \/ (exists x, mergedField k sv tv = Js.set tv "k" x)
     /\ Js.get tv "k" <> JUndef /\ Js.get sv "k" <> JUndef.
Proof.
  unfold colorKey, mergedField. intros H.
  destruct (String.eqb k "c" || String.eqb k "sc"); [apply solidRule_cases|].
  cbn in H. rewrite H. apply gradientRule_cases.
Qed.

(** Frame: outside the [k] of the [c], [sc] and [g] properties the merged
    tree is the target, node by node. *)
Lemma merge_frame keys : forall s t,
  wellKeyed s = true -> underColorField keys = false ->
  shallow (Js.lookup keys (deepTraverseAndCopyColors s t)) = shallow (Js.lookup keys t).
Proof.
  induction keys as [|k rest IH]; intros s t Hw Hu.
  - apply merge_shallow.
  - cbn [Js.lookup]. rewrite merge_get by assumption.
    destruct (colorKey k) eqn:Hc.
    + destruct (mergedField_color_cases k (Js.get s k) (Js.get t k) Hc)
        as [-> | ([x ->] & Hd & _)]; [reflexivity|].
      destruct rest as [|q r].
      * cbn [Js.lookup]. now apply set_keeps_shallow.
      * rewrite lookup_set_k; [reflexivity|]. now apply (underColorField_head k q r).
    + rewrite mergedField_plain by assumption.
      apply IH; [now apply wellKeyed_get | now apply (underColorField_tail k)].
Qed.

(** Lockstep descent: along keys that are not colour keys, the merge of the
    documents is the merge of the paired nodes. *)
Lemma merge_lookup pre : forall s t,
  wellKeyed s = true -> plainKeys pre = true ->
  Js.lookup pre (deepTraverseAndCopyColors s t)
  = deepTraverseAndCopyColors (Js.lookup pre s) (Js.lookup pre t).
Proof.
  induction pre as [|k r IH]; intros s t Hw Hp; [reflexivity|].
  cbn in Hp. apply andb_true_iff in Hp. destruct Hp as [Hk Hr].
  apply negb_true_iff in Hk.
  cbn [Js.lookup]. rewrite merge_get, mergedField_plain by assumption.
  apply IH; [now apply wellKeyed_get | assumption].
Qed.

Lemma merge_lookup_field pre key s t :
  wellKeyed s = true -> plainKeys pre = true ->
  Js.lookup (pre ++ [key]) (deepTraverseAndCopyColors s t)
  = mergedField key (Js.lookup (pre ++ [key]) s) (Js.lookup (pre ++ [key]) t).
Proof.
  intros Hw Hp. rewrite !lookup_app. cbn [Js.lookup].
  rewrite merge_lookup by assumption.
  apply merge_get. now apply wellKeyed_lookup.
Qed.

(** Where the shapes diverge the descent stops: the branch is the
    target's. *)
Lemma merge_stops pre : forall s t rest,
  wellKeyed s = true -> underColorField pre = false ->
  Js.isObject (Js.lookup pre s) && Js.isObject (Js.lookup pre t) = false ->
  Js.lookup (pre ++ rest) (deepTraverseAndCopyColors s t) = Js.lookup (pre ++ rest) t.
Proof.
  induction pre as [|k r IH]; intros s t rest Hw Hu Hd.
  - cbn in *. apply andb_false_iff in Hd. destruct Hd as [Hd|Hd].
    + now rewrite merge_nonobject_source.
    + now rewrite merge_nonobject_target.
  - cbn [Js.lookup app] in *. rewrite merge_get by assumption.
    destruct (colorKey k) eqn:Hc.
    + destruct (mergedField_color_cases k (Js.get s k) (Js.get t k) Hc)
        as [-> | ([x ->] & Ht & Hs)]; [reflexivity|].
      destruct r as [|q r].
      * exfalso. cbn [Js.lookup] in Hd.
        destruct (get_k_defined _ Ht) as [ps Et], (get_k_defined _ Hs) as [qs Es].
        rewrite Et, Es in Hd. discriminate.
      * cbn [app]. rewrite lookup_set_k; [reflexivity|].
        now apply (underColorField_head k q r).
    + rewrite mergedField_plain by assumption.
      apply IH; [now apply wellKeyed_get | now apply (underColorField_tail k) | assumption].
Qed.



(** The merge of the two example documents: the original with the edited
    colours. *)
Example merge_example :
  deepTraverseAndCopyColors editedDocument originalDocument
  = JObj [("nm", JStr "original");
          ("layers", JArr [JObj [("ty", JStr "fl"); ("c", staticColor 0 0 1); ("o", JNum 100)];
                           JObj [("ty", JStr "gf");
                                 ("g", twoStopGradientShifted (Some 2%float))]])].
Proof. vm_compute. reflexivity. Qed.

Import HueShiftManager.

(** * The traversal of [recursiveAdjustColors] *)

Lemma mapProps_assoc f ps ps' k :
  Js.mapProps f ps = Ok ps' ->
  match Js.assoc k ps with
  | Some x => exists x', f k x = Ok x' /\ Js.assoc k ps' = Some x'
  | None => Js.assoc k ps' = None
  end.
Proof.
  revert ps'. induction ps as [|[k0 v] ps IH]; intros ps' H; cbn in H.
  - injection H as <-. reflexivity.
  - apply bind_ok in H as (v' & Hv & H). apply bind_ok in H as (rest' & Hr & H).
    injection H as <-. cbn. destruct (String.eqb_spec k0 k) as [->|Hne].
    + eauto.
    + apply IH, Hr.
Qed.

Lemma mapProps_total f ps :
  (forall k x, In (k, x) ps -> exists y, f k x = Ok y) ->
  exists ps', Js.mapProps f ps = Ok ps'.
Proof.
  induction ps as [|[k v] ps IH]; intros H; cbn; [eauto|].
  destruct (H k v) as (y & ->); [now left|]. cbn.
  destruct IH as (ps' & ->); [intros; apply H; now right|]. cbn. eauto.
Qed.

Lemma mapProps_same f ps :
  (forall k x, In (k, x) ps -> f k x = Ok x) -> Js.mapProps f ps = Ok ps.
Proof.
  induction ps as [|[k v] ps IH]; intros H; cbn; [reflexivity|].
  rewrite (H k v) by now left. cbn. rewrite IH by (intros; apply H; now right).
  reflexivity.
Qed.

Lemma mapi_item {A : Type} (f : nat -> json -> outcome json) i0 l l' i :
  mapi_outcome f i0 l = Ok l' ->
  List.length l' = List.length l /\
  (i < List.length l -> f (i0 + i) (Js.item l i) = Ok (Js.item l' i)).
Proof.
  revert i0 l' i. induction l as [|x l IH]; intros i0 l' i H; cbn in H.
  - injection H as <-. split; [reflexivity|cbn; lia].
  - apply bind_ok in H as (y & Hy & H). apply bind_ok in H as (ys & Hys & H).
    injection H as <-. destruct i as [|i].
    + split; [cbn; f_equal; apply (IH (S i0) ys 0 Hys)|].
      intros _. now rewrite Nat.add_0_r.
    + destruct (IH (S i0) ys i Hys) as [Hlen Hi]. split; [cbn; now f_equal|].
      cbn [List.length]. intros Hlt. unfold Js.item in *. cbn [nth].
      replace (i0 + S i) with (S i0 + i) by lia. apply Hi. lia.
Qed.

Lemma mapi_total {B : Type} (f : nat -> json -> outcome B) i0 l :
  (forall i x, In x l -> exists y, f i x = Ok y) ->
  exists l', mapi_outcome f i0 l = Ok l'.
Proof.
  revert i0. induction l as [|x l IH]; intros i0 H; cbn; [eauto|].
  destruct (H i0 x) as (y & ->); [now left|]. cbn.
  destruct (IH (S i0)) as (l' & ->); [intros; apply H; now right|]. cbn. eauto.
Qed.

Lemma mapi_same (f : nat -> json -> outcome json) i0 l :
  (forall i x, In x l -> f i x = Ok x) -> mapi_outcome f i0 l = Ok l.
Proof.
  revert i0. induction l as [|x l IH]; intros i0 H; cbn; [reflexivity|].
  rewrite (H i0 x) by now left. cbn. rewrite IH by (intros; apply H; now right).
  reflexivity.
Qed.

(** What [forEach] leaves in each place satisfies what the callback
    establishes. *)
Lemma mapi_forall (f : nat -> json -> outcome json) (P Q : json -> bool) i0 l l' :
  (forall i x y, P x = true -> f i x = Ok y -> Q y = true) ->
  forallb P l = true -> mapi_outcome f i0 l = Ok l' -> forallb Q l' = true.
Proof.
  intros Hf. revert i0 l'. induction l as [|x l IH]; intros i0 l' HP H; cbn in H.
  - injection H as <-. reflexivity.
  - apply bind_ok in H as (y & Hy & H). apply bind_ok in H as (ys & Hys & H).
    injection H as <-. cbn in HP. apply andb_true_iff in HP as [Hx Hl]. cbn.
    rewrite (Hf _ _ _ Hx Hy). cbn. eapply IH; eauto.
Qed.

Section Traversal.

Variable other : json -> float.
Variable m : t.

Lemma rec_nonobject fuel v path :
  Js.isObject v = false -> recursiveAdjustColors other fuel m v path = Ok v.
Proof. intros H. destruct fuel; cbn; [reflexivity|]. now rewrite H. Qed.

Lemma child_call fuel v path :
  (if Js.typeofObject v then recursiveAdjustColors other fuel m v path else Ok v)
  = recursiveAdjustColors other fuel m v path.
Proof.
  destruct (Js.typeofObject v) eqn:E; [reflexivity|].
  symmetry. apply rec_nonobject. now destruct v.
Qed.

(** One level of the recursion: the node is rewritten, then each child is
    visited under its own path. *)
Lemma rec_step fuel v path r :
  Js.isObject v = true ->
  recursiveAdjustColors other (S fuel) m v path = Ok r ->
  exists v1, adjustNode other m v path = Ok v1 /\
    forall k, recursiveAdjustColors other fuel m (Js.get v1 k) (Js.join path k)
              = Ok (Js.get r k).
Proof.
  intros Hobj H. cbn [recursiveAdjustColors] in H. rewrite Hobj in H. cbn [negb] in H.
  apply bind_ok in H as (v1 & Hv1 & H). exists v1. split; [assumption|].
  intros k. destruct v1 as [| | | | |items|props];
    try (injection H as <-; now apply rec_nonobject).
  - apply bind_ok in H as (items' & Hi & H). injection H as <-. cbn [Js.get].
    destruct (Str.to_index k) as [i|] eqn:Ek; [|now apply rec_nonobject].
    apply to_index_inv in Ek as ->.
    destruct (mapi_item (A:=json) _ 0 items items' i Hi) as [Hlen Hit].
    destruct (Nat.lt_ge_cases i (List.length items)) as [Hlt|Hge].
    + specialize (Hit Hlt). cbn [Nat.add] in Hit. now rewrite child_call in Hit.
    + unfold Js.item. rewrite !nth_overflow by lia. now apply rec_nonobject.
  - apply bind_ok in H as (props' & Hp & H). injection H as <-. cbn [Js.get].
    pose proof (mapProps_assoc _ _ _ k Hp) as Hk.
    destruct (Js.assoc k props) as [x|].
    + destruct Hk as (x' & Hx & ->). now rewrite child_call in Hx.
    + rewrite Hk. now apply rec_nonobject.
Qed.

(** One of the two [if]s on a solid colour: only the property [f] of the
    node is replaced, by what [adjustColorProperty] leaves. *)
Lemma colorStep_get f v path v1 :
  (if Js.truthy (Js.get v f) && Js.truthy (Js.get (Js.get v f) "k") then
     c <- adjustColorProperty other m (Js.get v f) (Js.join path f) ;;
     Ok (Js.set v f c)
   else Ok v) = Ok v1 ->
  (forall k, k <> f -> Js.get v1 k = Js.get v k)
  /\ (if Js.truthy (Js.get v f) && Js.truthy (Js.get (Js.get v f) "k")
      then adjustColorProperty other m (Js.get v f) (Js.join path f) = Ok (Js.get v1 f)
      else Js.get v1 f = Js.get v f).
Proof.
  destruct (Js.truthy (Js.get v f) && Js.truthy (Js.get (Js.get v f) "k")) eqn:G.
  - intros H. apply bind_ok in H as (c & Hc & H). injection H as <-.
    apply andb_true_iff in G as [G _]. apply truthy_defined in G. split.
    + intros k Hk. apply get_set_other. congruence.
    + now rewrite get_set_same.
  - intros H. injection H as <-. auto.
Qed.

(** The node after its three [if]s. *)
Lemma adjustNode_get v path v1 :
  adjustNode other m v path = Ok v1 ->
  (forall k, colorKey k = false -> Js.get v1 k = Js.get v k)
  /\ (if Js.truthy (Js.get v "c") && Js.truthy (Js.get (Js.get v "c") "k")
      then adjustColorProperty other m (Js.get v "c") (Js.join path "c")
           = Ok (Js.get v1 "c")
      else Js.get v1 "c" = Js.get v "c")
  /\ (if Js.truthy (Js.get v "sc") && Js.truthy (Js.get (Js.get v "sc") "k")
      then adjustColorProperty other m (Js.get v "sc") (Js.join path "sc")
           = Ok (Js.get v1 "sc")
      else Js.get v1 "sc" = Js.get v "sc")
  /\ Js.get v1 "g"
     = (if Js.truthy (Js.get v "g") && Js.truthy (Js.get (Js.get v "g") "k")
        then adjustGradient other m (Js.get v "g") (Js.join path "g")
        else Js.get v "g").
Proof.
  unfold adjustNode. intros H.
  apply bind_ok in H as (o1 & H1 & H). apply bind_ok in H as (o2 & H2 & H).
  apply colorStep_get in H1 as [F1 C1]. apply colorStep_get in H2 as [F2 C2].
  assert (Hg : Js.get o2 "g" = Js.get v "g") by (rewrite F2, F1; congruence).
  assert (Hsc : Js.get o1 "sc" = Js.get v "sc") by (apply F1; congruence).
  assert (Hc : Js.get o2 "c" = Js.get o1 "c") by (apply F2; congruence).
  rewrite Hsc in C2. rewrite Hg in H.
  assert (F : forall k, colorKey k = false -> Js.get o2 k = Js.get v k).
  { intros k Hk. unfold colorKey in Hk. apply orb_false_iff in Hk as [Hk Hkg].
    apply orb_false_iff in Hk as [Hkc Hksc].
    apply String.eqb_neq in Hkc, Hksc. rewrite F2, F1; congruence. }
  destruct (Js.truthy (Js.get v "g") && Js.truthy (Js.get (Js.get v "g") "k")) eqn:G.
  - injection H as <-. apply andb_true_iff in G as [G _]. apply truthy_defined in G.
    assert (G2 : Js.get o2 "g" <> JUndef) by congruence.
    repeat split.
    + intros k Hk. rewrite get_set_other; [now apply F|].
      intros <-. discriminate.
    + rewrite get_set_other by discriminate. rewrite Hc.
      destruct (Js.truthy (Js.get v "c") && Js.truthy (Js.get (Js.get v "c") "k"));
        assumption.
    + rewrite get_set_other by discriminate. assumption.
    + now rewrite get_set_same.
  - injection H as <-. repeat split; try assumption.
    rewrite Hc. assumption.
Qed.

Lemma adjustNode_plain v path :
  colorSite v = false -> adjustNode other m v path = Ok v.
Proof.
  unfold colorSite, adjustNode. intros H.
  apply orb_false_iff in H as [H Hg]. apply orb_false_iff in H as [Hc Hsc].
  rewrite Hc. cbn. rewrite Hsc. cbn. now rewrite Hg.
Qed.

Lemma colorSite_array l : colorSite (JArr l) = false.
Proof. reflexivity. Qed.

Lemma forallb_In {A : Type} (P : A -> bool) l x : forallb P l = true -> In x l -> P x = true.
Proof. intros H. rewrite forallb_forall in H. apply H. Qed.

(** Where there is no colour the traversal changes nothing. *)
Lemma rec_colorFree fuel v path :
  colorFree v = true -> recursiveAdjustColors other fuel m v path = Ok v.
Proof.
  revert v path. induction fuel as [|fuel IH]; intros v path H; [reflexivity|].
  destruct v as [| | | | |items|props]; try reflexivity.
  - cbn [recursiveAdjustColors Js.isObject negb].
    rewrite adjustNode_plain by reflexivity. cbn [bind].
    rewrite mapi_same; [reflexivity|]. intros i x Hx. rewrite child_call.
    apply IH. cbn in H. eapply forallb_In; eauto.
  - cbn [recursiveAdjustColors Js.isObject negb]. cbn [colorFree] in H.
    apply andb_true_iff in H as [Hs Hc]. apply negb_true_iff in Hs.
    rewrite adjustNode_plain by assumption. cbn [bind].
    rewrite mapProps_same; [reflexivity|]. intros k x Hx. rewrite child_call.
    apply IH. apply (forallb_In _ _ (k, x) Hc Hx).
Qed.

(** Along keys that are not [c], [sc] or [g], the traversal of the node a
    list of keys leads to is a traversal of its own, under the path the keys
    spell; when the fuel runs out on the way the node is as it was. *)
Lemma rec_lookup pre : forall fuel v path r,
  plainKeys pre = true ->
  recursiveAdjustColors other fuel m v path = Ok r ->
  recursiveAdjustColors other (fuel - List.length pre) m (Js.lookup pre v)
    (fold_left Js.join pre path) = Ok (Js.lookup pre r).
Proof.
  induction pre as [|k pre IH]; intros fuel v path r Hp H.
  - cbn. now rewrite Nat.sub_0_r.
  - cbn in Hp. apply andb_true_iff in Hp as [Hk Hp]. apply negb_true_iff in Hk.
    cbn [Js.lookup fold_left List.length].
    destruct fuel as [|fuel].
    + cbn in H. injection H as <-. reflexivity.
    + cbn [Nat.sub]. destruct (Js.isObject v) eqn:Hobj.
      * destruct (rec_step _ _ _ _ Hobj H) as (v1 & Hv1 & Hch).
        apply adjustNode_get in Hv1 as [F _]. specialize (Hch k).
        rewrite (F k Hk) in Hch. now apply IH.
      * rewrite rec_nonobject in H by assumption. injection H as <-.
        apply rec_nonobject.
        assert (Js.get v k = JUndef) as -> by now destruct v.
        now rewrite lookup_undef.
Qed.


(** The same at any node: a value that is not an object is left alone. *)
Lemma rec_node fuel v path r :
  recursiveAdjustColors other (S fuel) m v path = Ok r ->
  exists v1, adjustNode other m v path = Ok v1 /\
    forall k, recursiveAdjustColors other fuel m (Js.get v1 k) (Js.join path k)
              = Ok (Js.get r k).
Proof.
  destruct (Js.isObject v) eqn:Hobj; [now apply rec_step|].
  intros H. rewrite rec_nonobject in H by assumption. injection H as <-.
  exists v. split; [apply adjustNode_plain; now destruct v|].
  intros k. assert (Js.get v k = JUndef) as -> by now destruct v.
  now apply rec_nonobject.
Qed.

Lemma depth_item l i : Js.item l i <> JUndef -> S (Js.depth (Js.item l i)) <= Js.depth (JArr l).
Proof.
  unfold Js.item. cbn [Js.depth]. revert i. induction l as [|x l IH]; intros i H.
  - now destruct i.
  - destruct i as [|i]; cbn in *; [lia|]. specialize (IH i H). lia.
Qed.

Lemma depth_assoc ps k x : Js.assoc k ps = Some x -> S (Js.depth x) <= Js.depth (JObj ps).
Proof.
  cbn [Js.depth]. induction ps as [|[k0 v] ps IH]; cbn; [discriminate|].
  destruct (String.eqb k0 k).
  - intros [= ->]. lia.
  - intros H. specialize (IH H). lia.
Qed.

Lemma depth_get v k : Js.get v k <> JUndef -> S (Js.depth (Js.get v k)) <= Js.depth v.
Proof.
  destruct v as [| | | | |l|ps]; cbn [Js.get]; try congruence.
  - destruct (Str.to_index k); [apply depth_item|congruence].
  - destruct (Js.assoc k ps) eqn:E; [intros _; eapply depth_assoc; eauto|congruence].
Qed.

(** The keys that lead somewhere are no more than the tree is high. *)
Lemma lookup_depth keys : forall v,
  Js.lookup keys v <> JUndef -> List.length keys + Js.depth (Js.lookup keys v) <= Js.depth v.
Proof.
  induction keys as [|k keys IH]; intros v H; cbn in *; [lia|].
  assert (Hk : Js.get v k <> JUndef) by (intros E; rewrite E, lookup_undef in H; congruence).
  specialize (IH _ H). apply depth_get in Hk. lia.
Qed.

(** What the traversal of a whole document leaves below the property [f] of
    the node at [pre]: the property as the node's three [if]s left it,
    wherever the rest of the way is free of colours. *)
Lemma rec_field doc res pre f :
  plainKeys pre = true ->
  recursiveAdjustColors other (S (Js.depth doc)) m doc "" = Ok res ->
  exists node, adjustNode other m (Js.lookup pre doc) (pathOf pre) = Ok node /\
    forall rest, plainKeys rest = true ->
      colorFree (Js.lookup rest (Js.get node f)) = true ->
      Js.lookup (pre ++ f :: rest) res = Js.lookup rest (Js.get node f).
Proof.
  intros Hpre H. pose proof (rec_lookup pre _ _ _ _ Hpre H) as Hx.
  fold (pathOf pre) in Hx.
  destruct (Nat.le_gt_cases (List.length pre) (Js.depth doc)) as [Hle|Hgt].
  - replace (S (Js.depth doc) - List.length pre)
      with (S (Js.depth doc - List.length pre)) in Hx by lia.
    apply rec_node in Hx as (node & Hnode & Hch). exists node. split; [assumption|].
    intros rest Hrest Hfree. specialize (Hch f).
    apply (rec_lookup rest _ _ _ _ Hrest) in Hch.
    rewrite rec_colorFree in Hch by assumption. injection Hch as Hch.
    rewrite lookup_app. cbn [Js.lookup]. congruence.
  - assert (Hu : Js.lookup pre doc = JUndef).
    { destruct (Js.lookup pre doc) eqn:E; try reflexivity;
        assert (Hd : Js.lookup pre doc <> JUndef) by (rewrite E; discriminate);
        apply lookup_depth in Hd; lia. }
    rewrite Hu in *. replace (S (Js.depth doc) - List.length pre) with 0 in Hx by lia.
    cbn in Hx. injection Hx as Hx. exists JUndef. split; [reflexivity|].
    intros rest _ _. rewrite lookup_app, <- Hx. cbn. now rewrite !lookup_undef.
Qed.

End Traversal.

Import HueShiftManager.

(** * [recursiveAdjustColors] returns on a tree with readable keyframes *)

Lemma assoc_In k ps x : Js.assoc k ps = Some x -> In (k, x) ps.
Proof.
  induction ps as [|[k0 v] ps IH]; cbn; [discriminate|].
  destruct (String.eqb_spec k0 k) as [->|Hne].
  - intros [= ->]. now left.
  - intros H. right. now apply IH.
Qed.

Lemma forallb_item (P : json -> bool) l i :
  P JUndef = true -> forallb P l = true -> P (Js.item l i) = true.
Proof.
  intros Hu Hl. unfold Js.item.
  destruct (Nat.lt_ge_cases i (List.length l)) as [Hlt|Hge].
  - eapply forallb_In; eauto. now apply nth_In.
  - now rewrite nth_overflow.
Qed.

Lemma forallb_itemSet (P : json -> bool) i x l :
  P JUndef = true -> P x = true -> forallb P l = true -> forallb P (Js.itemSet i x l) = true.
Proof.
  intros Hu Hx. revert l. induction i as [|i IH]; intros [|y l] Hl; cbn in *.
  - now rewrite Hx.
  - apply andb_true_iff in Hl as [_ Hl]. now rewrite Hx.
  - rewrite Hu. now apply (IH []).
  - apply andb_true_iff in Hl as [Hy Hl]. rewrite Hy. now apply IH.
Qed.

Lemma forallb_assocSet (P : json -> bool) k x ps :
  P x = true -> forallb (fun kv => P (snd kv)) ps = true ->
  forallb (fun kv => P (snd kv)) (Js.assocSet k x ps) = true.
Proof.
  intros Hx. induction ps as [|[k0 v] ps IH]; intros Hl; cbn in *.
  - now rewrite Hx.
  - apply andb_true_iff in Hl as [Hv Hl]. destruct (String.eqb k0 k); cbn.
    + now rewrite Hx.
    + rewrite Hv. now apply IH.
Qed.

Lemma forallb_writeRgb (P : json -> bool) l i c :
  P JUndef = true -> (forall y, P (JNum y) = true) -> forallb P l = true ->
  forallb P (writeRgb l i c) = true.
Proof.
  intros Hu Hn Hl. unfold writeRgb. repeat apply forallb_itemSet; auto.
Qed.

Section Totality.

Variable other : json -> float.
Variable m : t.

Lemma forallb_adjustStop (P : json -> bool) path l i :
  P JUndef = true -> (forall y, P (JNum y) = true) -> forallb P l = true ->
  forallb P (adjustStop other m path l i) = true.
Proof.
  intros Hu Hn Hl. unfold adjustStop. destruct (isPathLocked m _); [assumption|].
  now apply forallb_writeRgb.
Qed.

Lemma forallb_adjustGradientStops (P : json -> bool) l numStops path :
  P JUndef = true -> (forall y, P (JNum y) = true) -> forallb P l = true ->
  forallb P (adjustGradientStops other m l numStops path) = true.
Proof.
  intros Hu Hn. unfold adjustGradientStops.
  generalize (stopOffsets (Js.ToNumber other numStops * 4) (List.length l)) at 1 as offs.
  intros offs. revert l. induction offs as [|i offs IH]; intros l Hl; cbn; [assumption|].
  apply IH. now apply forallb_adjustStop.
Qed.

Lemma adjustable_get v k : adjustable v = true -> adjustable (Js.get v k) = true.
Proof.
  destruct v as [| | | | |l|ps]; try reflexivity; cbn [Js.get adjustable].
  - intros H. destruct (Str.to_index k); [|reflexivity]. now apply forallb_item.
  - intros H. apply andb_true_iff in H as [_ H].
    destruct (Js.assoc k ps) eqn:E; [|reflexivity].
    apply assoc_In in E. apply (forallb_In _ _ _ H E).
Qed.

Lemma adjustable_items v : adjustable v = true -> forallb adjustable (Js.items v) = true.
Proof. destruct v; try reflexivity. auto. Qed.

Lemma adjustable_set v k x :
  adjustable v = true -> adjustable x = true ->
  (k = "c" \/ k = "sc" -> keyframesReadable x = true) ->
  adjustable (Js.set v k x) = true.
Proof.
  intros Hv Hx Hk. destruct v as [| | | | |l|ps]; try assumption.
  - cbn [Js.set]. destruct (Str.to_index k); [|assumption].
    cbn [adjustable] in *. now apply forallb_itemSet.
  - change (Js.set (JObj ps) k x) with (JObj (Js.assocSet k x ps)).
    cbn [adjustable] in *. apply andb_true_iff in Hv as [Hv Hps].
    apply andb_true_iff in Hv as [Hc Hsc].
    rewrite forallb_assocSet by assumption. rewrite andb_true_r.
    change (JObj (Js.assocSet k x ps)) with (Js.set (JObj ps) k x).
    apply andb_true_iff; split.
    + destruct (String.eqb_spec k "c") as [->|Hne].
      * cbn [Js.set Js.get]. rewrite assoc_assocSet_same. auto.
      * now rewrite get_set_other.
    + destruct (String.eqb_spec k "sc") as [->|Hne].
      * cbn [Js.set Js.get]. rewrite assoc_assocSet_same. auto.
      * now rewrite get_set_other.
Qed.

Lemma adjustable_rgba l : forallb adjustable l = true ->
  adjustable (JArr (adjustRgbaArray other m l)) = true.
Proof. intros H. cbn [adjustable]. now apply forallb_writeRgb. Qed.

Lemma nonNull_set v k x : nonNull v = true -> nonNull (Js.set v k x) = true.
Proof.
  destruct v; cbn; auto. now destruct (Str.to_index k).
Qed.

Lemma adjustKeyframe_ok path i kf :
  nonNull kf && adjustable kf = true ->
  exists kf', adjustKeyframe other m path i kf = Ok kf'
              /\ nonNull kf' && adjustable kf' = true.
Proof.
  intros H. unfold adjustKeyframe.
  assert (Hcase : kf = JUndef \/
    exists s, Js.getChecked kf "s" = Ok s /\ adjustable s = true).
  { apply andb_true_iff in H as [Hn Ha].
    destruct kf; try discriminate; auto; right; eexists; (split; [reflexivity|]);
      try reflexivity; now apply adjustable_get. }
  destruct Hcase as [->|(s & Hs & Has)]; [eauto|].
  assert (Hgoal : exists kf',
    (if isPathLocked m (path ++ ".k." ++ Str.of_nat i) then Ok kf
     else s <- Js.getChecked kf "s" ;;
          if Js.truthy s && Js.isArray s
          then Ok (Js.set kf "s" (JArr (adjustRgbaArray other m (Js.items s))))
          else Ok kf) = Ok kf' /\ nonNull kf' && adjustable kf' = true).
  { destruct (isPathLocked m _); [eauto|]. rewrite Hs. cbn [bind].
    destruct (Js.truthy s && Js.isArray s); [|eauto].
    eexists; split; [reflexivity|].
    apply andb_true_iff in H as [Hn Ha]. apply andb_true_iff; split.
    - now apply nonNull_set.
    - apply adjustable_set; try assumption.
      + apply adjustable_rgba. now apply adjustable_items.
      + intros [E|E]; discriminate. }
  destruct kf; try exact Hgoal. eauto.
Qed.

Lemma keyframesReadable_static c l :
  Js.isOne (Js.get c "a") && Js.isArray (Js.get c "k") = false ->
  Js.isArray (Js.get c "k") = true ->
  keyframesReadable (Js.set c "k" (JArr l)) = true.
Proof.
  intros H Hk. unfold keyframesReadable. rewrite Hk, andb_true_r in H.
  rewrite get_set_other by discriminate. now rewrite H.
Qed.

Lemma adjustColorProperty_ok c path :
  keyframesReadable c = true -> adjustable c = true ->
  exists c1, adjustColorProperty other m c path = Ok c1
             /\ adjustable c1 = true /\ keyframesReadable c1 = true.
Proof.
  intros Hr Ha. unfold adjustColorProperty.
  destruct (isPathLocked m path); [eauto|].
  destruct (Js.isOne (Js.get c "a") && Js.isArray (Js.get c "k")) eqn:G.
  - unfold keyframesReadable in Hr. rewrite G in Hr. cbn in Hr.
    apply andb_true_iff in G as [_ Garr].
    assert (Hall : forallb (fun x => nonNull x && adjustable x) (Js.items (Js.get c "k"))
                   = true).
    { apply forallb_forall. intros x Hx. apply andb_true_iff; split.
      - eapply forallb_In; eauto.
      - eapply forallb_In; [|exact Hx]. apply adjustable_items.
        now apply adjustable_get. }
    destruct (mapi_total (adjustKeyframe other m path) 0 (Js.items (Js.get c "k")))
      as (kfs & Hkfs).
    { intros i x Hx. destruct (adjustKeyframe_ok path i x) as (y & Hy & _); [|eauto].
      apply (forallb_In (fun x => nonNull x && adjustable x) _ x Hall Hx). }
    rewrite Hkfs. cbn [bind]. eexists; split; [reflexivity|].
    assert (Hall' : forallb (fun x => nonNull x && adjustable x) kfs = true).
    { eapply mapi_forall; [|exact Hall|exact Hkfs].
      intros i x y Hx Hy. destruct (adjustKeyframe_ok path i x Hx) as (y' & Hy' & Hq).
      congruence. }
    split.
    + apply adjustable_set; try assumption.
      * cbn [adjustable]. apply forallb_forall. intros x Hx.
        apply (forallb_In _ _ _ Hall') in Hx. now apply andb_true_iff in Hx.
      * intros [E|E]; discriminate.
    + unfold keyframesReadable. rewrite get_set_same by now apply isArray_defined.
      cbn [Js.items]. apply orb_true_iff; right. apply forallb_forall. intros x Hx.
      apply (forallb_In _ _ _ Hall') in Hx. now apply andb_true_iff in Hx.
  - destruct (Js.isArray (Js.get c "k") && (3 <=? List.length (Js.items (Js.get c "k")))%nat)
      eqn:G2; [|eauto].
    apply andb_true_iff in G2 as [Garr _].
    eexists; split; [reflexivity|]. split.
    + apply adjustable_set; try assumption.
      * apply adjustable_rgba. apply adjustable_items. now apply adjustable_get.
      * intros [E|E]; discriminate.
    + now apply keyframesReadable_static.
Qed.

Lemma adjustable_stops l numStops path :
  forallb adjustable l = true ->
  adjustable (JArr (adjustGradientStops other m l numStops path)) = true.
Proof. intros H. cbn [adjustable]. now apply forallb_adjustGradientStops. Qed.

Lemma adjustGradient_adjustable g path :
  adjustable g = true -> adjustable (adjustGradient other m g path) = true.
Proof.
  intros Ha. unfold adjustGradient. destruct (isPathLocked m path); [assumption|].
  pose proof (adjustable_get g "k" Ha) as Hk.
  pose proof (adjustable_get _ "k" Hk) as Hkk.
  repeat match goal with |- context [if ?b then _ else _] => destruct b end;
    try assumption.
  - apply adjustable_set; try assumption; [|intros [E|E]; discriminate].
    apply adjustable_stops. now apply adjustable_items.
  - apply adjustable_set; try assumption; [|intros [E|E]; discriminate].
    apply adjustable_stops. now apply adjustable_items.
  - apply adjustable_set; try assumption; [|intros [E|E]; discriminate].
    apply adjustable_set; try assumption; [|intros [E|E]; discriminate].
    cbn [adjustable]. apply forallb_forall. intros x Hx.
    apply in_map_iff in Hx as ([j kf] & <- & Hin). apply in_combine_r in Hin.
    cbn [fst snd].
    assert (Hkf : adjustable kf = true)
      by (eapply forallb_In; [apply adjustable_items; exact Hkk|exact Hin]).
    destruct (Js.truthy kf && Js.isArray (Js.get kf "s")); [|assumption].
    apply adjustable_set; try assumption; [|intros [E|E]; discriminate].
    apply adjustable_stops. apply adjustable_items. now apply adjustable_get.
  - apply adjustable_set; try assumption; [|intros [E|E]; discriminate].
    apply adjustable_set; try assumption; [|intros [E|E]; discriminate].
    cbn [adjustable]. apply forallb_forall. intros x Hx.
    apply in_map_iff in Hx as ([j kf] & <- & Hin). apply in_combine_r in Hin.
    cbn [fst snd].
    assert (Hkf : adjustable kf = true)
      by (eapply forallb_In; [apply adjustable_items; exact Hkk|exact Hin]).
    destruct (Js.truthy kf && Js.isArray (Js.get kf "s")); [|assumption].
    apply adjustable_set; try assumption; [|intros [E|E]; discriminate].
    apply adjustable_stops. apply adjustable_items. now apply adjustable_get.
  - apply adjustable_set; try assumption; [|intros [E|E]; discriminate].
    apply adjustable_set; try assumption; [|intros [E|E]; discriminate].
    apply adjustable_stops. now apply adjustable_items.
  - apply adjustable_set; try assumption; [|intros [E|E]; discriminate].
    apply adjustable_set; try assumption; [|intros [E|E]; discriminate].
    apply adjustable_stops. now apply adjustable_items.
Qed.


Lemma adjustable_readable v f :
  f = "c" \/ f = "sc" -> adjustable v = true -> keyframesReadable (Js.get v f) = true.
Proof.
  intros Hf H. destruct v as [| | | | |l|ps]; try reflexivity.
  - destruct Hf as [->| ->]; reflexivity.
  - cbn [adjustable] in H. apply andb_true_iff in H as [H _].
    apply andb_true_iff in H as [Hc Hsc]. destruct Hf as [->| ->]; assumption.
Qed.

Lemma colorStep_ok f v path :
  f = "c" \/ f = "sc" -> adjustable v = true ->
  exists v1,
    (if Js.truthy (Js.get v f) && Js.truthy (Js.get (Js.get v f) "k") then
       c <- adjustColorProperty other m (Js.get v f) (Js.join path f) ;;
       Ok (Js.set v f c)
     else Ok v) = Ok v1 /\ adjustable v1 = true.
Proof.
  intros Hf Ha. destruct (Js.truthy (Js.get v f) && Js.truthy (Js.get (Js.get v f) "k"));
    [|eauto].
  destruct (adjustColorProperty_ok (Js.get v f) (Js.join path f)) as (c1 & -> & Hc1 & Hr1).
  - now apply adjustable_readable.
  - now apply adjustable_get.
  - cbn [bind]. eexists; split; [reflexivity|]. now apply adjustable_set.
Qed.

Lemma adjustNode_ok v path :
  adjustable v = true ->
  exists v1, adjustNode other m v path = Ok v1 /\ adjustable v1 = true.
Proof.
  intros Ha. unfold adjustNode.
  destruct (colorStep_ok "c" v path (or_introl eq_refl) Ha) as (o1 & -> & H1). cbn [bind].
  destruct (colorStep_ok "sc" o1 path (or_intror eq_refl) H1) as (o2 & -> & H2). cbn [bind].
  destruct (Js.truthy (Js.get o2 "g") && Js.truthy (Js.get (Js.get o2 "g") "k")); [|eauto].
  eexists; split; [reflexivity|]. apply adjustable_set; try assumption.
  - apply adjustGradient_adjustable. now apply adjustable_get.
  - intros [E|E]; discriminate.
Qed.

(** The traversal of a tree with readable keyframes returns. *)
Lemma rec_total fuel : forall v path,
  adjustable v = true -> exists r, recursiveAdjustColors other fuel m v path = Ok r.
Proof.
  induction fuel as [|fuel IH]; intros v path Ha; [cbn; eauto|].
  cbn [recursiveAdjustColors]. destruct (negb (Js.isObject v)); [eauto|].
  destruct (adjustNode_ok v path Ha) as (v1 & -> & H1). cbn [bind].
  destruct v1 as [| | | | |items|props]; eauto.
  - destruct (mapi_total
                (fun i v => if Js.typeofObject v
                            then recursiveAdjustColors other fuel m v
                                   (Js.join path (Str.of_nat i))
                            else Ok v) 0 items) as (items' & ->); [|cbn; eauto].
    intros i x Hx. rewrite child_call. apply IH. eapply forallb_In; eauto.
  - destruct (mapProps_total
                (fun key v => if Js.typeofObject v
                              then recursiveAdjustColors other fuel m v (Js.join path key)
                              else Ok v) props) as (props' & ->); [|cbn; eauto].
    intros k x Hx. rewrite child_call. apply IH. cbn [adjustable] in H1.
    apply andb_true_iff in H1 as [_ H1]. apply (forallb_In _ _ (k, x) H1 Hx).
Qed.

End Totality.

Import HueShiftManager.

(** * [syncLockedColors] on a document that is its own baseline *)

Lemma clone_object ps : Js.clone (JObj ps) = JObj (cloneProps ps).
Proof. reflexivity. Qed.

Lemma cloneProps_cons k x ps :
  cloneProps ((k, x) :: ps)
  = if Js.isUndefined x then cloneProps ps else (k, Js.clone x) :: cloneProps ps.
Proof. now destruct x. Qed.

Lemma cloneProps_length ps : List.length (cloneProps ps) <= List.length ps.
Proof.
  induction ps as [|[k x] ps IH]; [cbn; lia|].
  rewrite cloneProps_cons. destruct (Js.isUndefined x); cbn [List.length]; lia.
Qed.

Lemma cloneProps_fixed ps :
  cloneProps ps = ps -> Forall (fun kv => Js.clone (snd kv) = snd kv) ps.
Proof.
  induction ps as [|[k x] ps IH]; intros H; constructor.
  - rewrite cloneProps_cons in H. destruct (Js.isUndefined x).
    + pose proof (cloneProps_length ps) as Hl. rewrite H in Hl. cbn in Hl. lia.
    + now injection H.
  - apply IH. rewrite cloneProps_cons in H. destruct (Js.isUndefined x).
    + pose proof (cloneProps_length ps) as Hl. rewrite H in Hl. cbn in Hl. lia.
    + now injection H.
Qed.

(** What [JSON] gives back as it was has children of the same kind. *)
Lemma clone_fixed_get v k :
  Js.clone v = v -> Js.get v k <> JUndef -> Js.clone (Js.get v k) = Js.get v k.
Proof.
  destruct v as [| | | | |l|ps]; cbn [Js.get]; try congruence.
  - intros H. injection H as H. destruct (Str.to_index k) as [i|]; [|congruence].
    intros Hd. apply item_defined_lt in Hd. unfold Js.item.
    rewrite <- H at 2. rewrite (@nth_indep json (map Js.clone l) i JUndef (Js.clone JUndef)).
    + now rewrite map_nth.
    + now rewrite length_map.
  - intros H. rewrite clone_object in H. injection H as H.
    apply cloneProps_fixed in H. destruct (Js.assoc k ps) eqn:E; [|congruence].
    intros _. apply assoc_In in E. rewrite Forall_forall in H. apply (H _ E).
Qed.

Lemma clone_fixed_lookup keys : forall v,
  Js.clone v = v -> Js.lookup keys v <> JUndef ->
  Js.clone (Js.lookup keys v) = Js.lookup keys v.
Proof.
  induction keys as [|k keys IH]; intros v H Hd; cbn in *; [assumption|].
  apply IH; [|assumption]. apply clone_fixed_get; [assumption|].
  intros E. rewrite E, lookup_undef in Hd. congruence.
Qed.

Lemma isUndefined_false v : Js.isUndefined v = false -> v <> JUndef.
Proof. now destruct v. Qed.

(** The navigation on the same tree twice: both parents are the node the
    parts lead to, and putting it back changes nothing. *)
Lemma syncWalk_same parts : forall v cp op,
  syncWalk parts v v = Some (cp, op) ->
  cp = Js.lookup parts v /\ op = cp /\ Js.update parts (fun _ => cp) v = v
  /\ (v <> JUndef -> cp <> JUndef).
Proof.
  induction parts as [|k parts IH]; intros v cp op H; cbn [syncWalk] in H.
  - injection H as <- <-. auto.
  - destruct (Js.truthy v && negb (Js.isUndefined (Js.get v k))) eqn:G; [|discriminate].
    apply andb_true_iff in G as [_ G]. apply negb_true_iff, isUndefined_false in G.
    destruct (IH _ _ _ H) as (Hcp & Hop & Hup & Hd). repeat split; try assumption.
    + rewrite update_defined by assumption. rewrite Hup. now apply set_get_same.
    + intros _. now apply Hd.
Qed.

Lemma fold_itemSet_same l idx :
  idx + 3 < List.length l ->
  fold_left (fun o i => Js.itemSet (idx + i) (Js.item l (idx + i)) o) [0; 1; 2; 3] l = l.
Proof.
  intros H. cbn [fold_left]. rewrite !itemSet_same_value; try lia; reflexivity.
Qed.

Lemma syncWrite_same cp lastKey :
  (Js.get cp lastKey <> JUndef -> Js.clone (Js.get cp lastKey) = Js.get cp lastKey) ->
  nonNull cp = true -> cp <> JUndef ->
  syncWrite cp cp lastKey = Ok cp.
Proof.
  intros Hfix Hn Hd. unfold syncWrite.
  assert (Hget : Js.getChecked cp lastKey = Ok (Js.get cp lastKey))
    by (destruct cp; try reflexivity; [congruence|discriminate]).
  rewrite Hget. cbn [bind].
  destruct (Js.get cp lastKey) eqn:E; try reflexivity.
  - assert (Hset : Js.set cp lastKey (Js.clone JNull) = cp).
    { rewrite Hfix by discriminate. rewrite <- E. apply set_get_same.
      rewrite E. discriminate. }
    destruct cp; cbn in E; try discriminate; now rewrite Hset.
  - destruct cp as [| | | | |l|ps]; try reflexivity.
    destruct (Str.to_index lastKey) as [idx|]; [|reflexivity].
    destruct ((idx + 3 <? List.length l) && (idx + 3 <? List.length l))%nat eqn:G;
      [|reflexivity].
    apply andb_true_iff in G as [G _]. apply Nat.ltb_lt in G.
    now rewrite fold_itemSet_same.
  - assert (Hset : Js.set cp lastKey (Js.clone (JArr items)) = cp).
    { rewrite Hfix by discriminate. rewrite <- E. apply set_get_same.
      rewrite E. discriminate. }
    destruct cp; cbn in E; try discriminate; now rewrite Hset.
  - assert (Hset : Js.set cp lastKey (Js.clone (JObj props)) = cp).
    { rewrite Hfix by discriminate. rewrite <- E. apply set_get_same.
      rewrite E. discriminate. }
    destruct cp; cbn in E; try discriminate; now rewrite Hset.
Qed.

Lemma syncPath_same doc path :
  Js.clone doc = doc -> lockReadable doc path = true -> syncPath doc path doc = Ok doc.
Proof.
  intros Hfix Hr. unfold syncPath, lockReadable in *.
  destruct (syncWalk (removelast (Str.split_dot path)) doc doc) as [[cp op]|] eqn:W;
    [|reflexivity].
  destruct (syncWalk_same _ _ _ _ W) as (Hcp & -> & Hup & Hd).
  rewrite syncWrite_same.
  - cbn [bind]. now rewrite Hup.
  - intros Hk. rewrite Hcp. change (Js.get (Js.lookup ?p doc) ?k)
      with (Js.lookup [k] (Js.lookup p doc)). rewrite <- lookup_app.
    apply clone_fixed_lookup; [assumption|].
    rewrite lookup_app. cbn [Js.lookup]. now rewrite <- Hcp.
  - now destruct cp.
  - intros ->. discriminate.
Qed.

Lemma clone_defined v : Js.clone v <> JUndef.
Proof. destruct v; cbn; try discriminate. unfold Js.cloneNum. now repeat destruct (_ : bool). Qed.

Lemma syncLockedColors_same locks doc hue saturation lightness :
  Js.clone doc = doc -> forallb (lockReadable doc) locks = true ->
  syncLockedColors (managerAfter locks doc hue saturation lightness) doc = Ok doc.
Proof.
  intros Hfix Hl. unfold syncLockedColors. cbn [lockedPaths originalAnimData managerAfter].
  destruct ((List.length locks =? 0)%nat || negb (Js.truthy doc)); [reflexivity|].
  induction locks as [|p locks IH]; [reflexivity|].
  cbn in Hl. apply andb_true_iff in Hl as [Hp Hl].
  rewrite syncPath_same by assumption. cbn [bind]. now apply IH.
Qed.

Section Fresh.

Variable other : json -> float.

(** [applyAdjustments] on a manager without a baseline, for a document as
    [JSON] gives it back: the traversal of the document itself. *)
Lemma applyAdjustments_fresh locks doc hue saturation lightness :
  Js.clone doc = doc -> forallb (lockReadable doc) locks = true ->
  applyAdjustments other (withLocks create locks) doc hue saturation lightness
  = (result <- recursiveAdjustColors other (S (Js.depth doc))
                 (managerAfter locks doc hue saturation lightness) doc "" ;;
     Ok (managerAfter locks doc hue saturation lightness, result)).
Proof.
  intros Hfix Hl. unfold applyAdjustments. cbn [withLocks create originalAnimData Js.truthy negb].
  unfold setOriginalData.
  assert (Hcopy : Js.deepCopy doc = Ok doc).
  { destruct doc; cbn in *; try congruence; try reflexivity. }
  rewrite Hcopy. cbn [bind lockedPaths withLocks].
  change {| originalAnimData := doc; hueShift := 0; saturationShift := 0;
            lightnessShift := 0; lockedPaths := locks |}
    with (managerAfter locks doc 0 0 0).
  rewrite syncLockedColors_same by assumption. cbn [bind]. rewrite Hcopy. cbn [bind].
  reflexivity.
Qed.

End Fresh.

Import HueShiftManager.

(** * What a lock exempts *)

(** ** The paths *)

Lemma string_app_assoc (a b c : string) : ((a ++ b) ++ c = a ++ (b ++ c))%string.
Proof. induction a as [|x a IH]; cbn; [reflexivity|]. now rewrite IH. Qed.

Lemma string_app_nonempty (a b : string) : a <> "" -> (a ++ b)%string <> "".
Proof. destruct a; cbn; congruence. Qed.

Lemma join_nonempty p k : p <> "" -> Js.join p k = (p ++ "." ++ k)%string.
Proof. unfold Js.join. now destruct (String.eqb_spec p ""). Qed.

Lemma join_defined p k : k <> "" -> Js.join p k <> "".
Proof.
  unfold Js.join. destruct (String.eqb_spec p ""); [auto|].
  intros _. now apply string_app_nonempty.
Qed.

Lemma pathOf_snoc pre k : pathOf (pre ++ [k]) = Js.join (pathOf pre) k.
Proof. unfold pathOf. now rewrite fold_left_app. Qed.

Lemma pathOf_app pre rest : pathOf (pre ++ rest) = fold_left Js.join rest (pathOf pre).
Proof. unfold pathOf. now rewrite fold_left_app. Qed.

(** The path of keyframe [i] of a solid colour, as [adjustColorProperty]
    writes it. *)
Lemma pathOf_keyframe pre f i :
  f <> "" ->
  pathOf (pre ++ [f; "k"; Str.of_nat i])
  = (Js.join (pathOf pre) f ++ ".k." ++ Str.of_nat i)%string.
Proof.
  intros Hf. rewrite pathOf_app. cbn [fold_left].
  pose proof (join_defined (pathOf pre) f Hf) as Hp.
  rewrite (join_nonempty _ "k" Hp).
  rewrite join_nonempty by now apply string_app_nonempty.
  now rewrite string_app_assoc.
Qed.

(** The paths of the stop at [i] in the three layouts of a gradient, as
    [adjustGradient] and [adjustGradientStops] write them. *)
Lemma pathOf_stop_direct pre i :
  pathOf (pre ++ ["g"; "k"; Str.of_nat i])
  = ((Js.join (pathOf pre) "g" ++ ".k") ++ "." ++ Str.of_nat i)%string.
Proof.
  rewrite pathOf_app. cbn [fold_left].
  assert (Hp : Js.join (pathOf pre) "g" <> "") by now apply join_defined.
  rewrite (join_nonempty _ "k" Hp).
  now rewrite join_nonempty by now apply string_app_nonempty.
Qed.

Lemma pathOf_stop_nested pre i :
  pathOf (pre ++ ["g"; "k"; "k"; Str.of_nat i])
  = ((Js.join (pathOf pre) "g" ++ ".k.k") ++ "." ++ Str.of_nat i)%string.
Proof.
  rewrite pathOf_app. cbn [fold_left].
  assert (Hp : Js.join (pathOf pre) "g" <> "") by now apply join_defined.
  rewrite (join_nonempty _ "k" Hp).
  rewrite (join_nonempty _ "k") by now apply string_app_nonempty.
  rewrite join_nonempty by now repeat apply string_app_nonempty.
  now rewrite !string_app_assoc.
Qed.

Lemma pathOf_stop_keyframe pre j i :
  pathOf (pre ++ ["g"; "k"; "k"; Str.of_nat j; "s"; Str.of_nat i])
  = ((Js.join (pathOf pre) "g" ++ ".k.k." ++ Str.of_nat j ++ ".s") ++ "."
     ++ Str.of_nat i)%string.
Proof.
  rewrite pathOf_app. cbn [fold_left].
  assert (Hp : Js.join (pathOf pre) "g" <> "") by now apply join_defined.
  rewrite (join_nonempty _ "k" Hp).
  rewrite (join_nonempty _ "k") by now apply string_app_nonempty.
  rewrite (join_nonempty _ (Str.of_nat j)) by now repeat apply string_app_nonempty.
  rewrite (join_nonempty _ "s") by now repeat apply string_app_nonempty.
  rewrite join_nonempty by now repeat apply string_app_nonempty.
  now rewrite !string_app_assoc.
Qed.

Lemma isPathLocked_In m p : isPathLocked m p = true <-> In p m.(lockedPaths).
Proof.
  unfold isPathLocked. rewrite existsb_exists. split.
  - intros (x & Hx & E). apply String.eqb_eq in E. now subst.
  - intros H. exists p. split; [assumption|apply String.eqb_refl].
Qed.

Lemma isPathLocked_not_In m p : isPathLocked m p = false <-> ~ In p m.(lockedPaths).
Proof.
  rewrite <- isPathLocked_In. destruct (isPathLocked m p); split; congruence.
Qed.

(** ** The stops of a gradient *)

Lemma item_writeRgb_other l a c j :
  j < a \/ a + 2 < j -> Js.item (writeRgb l a c) j = Js.item l j.
Proof.
  intros H. unfold writeRgb. rewrite !item_itemSet_other by lia. reflexivity.
Qed.

Lemma stopOffsets_multiple loopLimit n :
  Forall (fun i => exists k, i = 4 * k) (stopOffsets loopLimit n).
Proof.
  unfold stopOffsets.
  assert (H : Forall (fun i => exists k, i = 4 * k) (map (fun k => 4 * k) (seq 0 (n / 4)))).
  { apply Forall_forall. intros i Hi. apply in_map_iff in Hi as (k & <- & _). eauto. }
  revert H. generalize (map (fun k => 4 * k) (seq 0 (n / 4))) as offs.
  induction offs as [|i offs IH]; intros H; [constructor|].
  inversion H as [|? ? Hi Hoffs]; subst.
  destruct (Num.of_Z (Z.of_nat i) <? loopLimit)%float; constructor; auto.
Qed.

Section Frames.

Variable other : json -> float.
Variable m : t.

(** A locked stop keeps its four numbers whatever happens to the others. *)
Lemma stops_frame arr numStops path q d :
  isPathLocked m (path ++ "." ++ Str.of_nat (4 * q)) = true -> d < 4 ->
  Js.item (adjustGradientStops other m arr numStops path) (4 * q + d)
  = Js.item arr (4 * q + d).
Proof.
  intros Hlock Hd. unfold adjustGradientStops.
  pose proof (stopOffsets_multiple (Js.ToNumber other numStops * 4) (List.length arr)) as Hm.
  revert Hm. generalize (stopOffsets (Js.ToNumber other numStops * 4) (List.length arr)) as offs.
  intros offs. revert arr. induction offs as [|i offs IH]; intros arr Hm; [reflexivity|].
  apply Forall_cons_iff in Hm as [(k & Hk) Hoffs]. cbn [fold_left].
  rewrite IH by assumption. unfold adjustStop.
  destruct (Nat.eq_dec i (4 * q)) as [->|Hne].
  - now rewrite Hlock.
  - destruct (isPathLocked m (path ++ "." ++ Str.of_nat i)); [reflexivity|].
    apply item_writeRgb_other. lia.
Qed.

End Frames.

(** ** The properties after [adjustColorProperty] and [adjustGradient] *)

Lemma item_map_combine (F : nat * json -> json) l : forall s j,
  nth j (map F (combine (seq s (List.length l)) l)) JUndef
  = if (j <? List.length l)%nat then F (s + j, nth j l JUndef) else JUndef.
Proof.
  induction l as [|x l IH]; intros s j; cbn [List.length seq combine map].
  - now destruct j.
  - destruct j as [|j]; cbn [nth].
    + now rewrite Nat.add_0_r.
    + rewrite IH. replace (S s + j) with (s + S j) by lia. reflexivity.
Qed.

Section Properties.

Variable other : json -> float.
Variable m : t.

Lemma adjustKeyframe_locked path i kf :
  isPathLocked m (path ++ ".k." ++ Str.of_nat i) = true ->
  adjustKeyframe other m path i kf = Ok kf.
Proof. intros H. unfold adjustKeyframe. rewrite H. now destruct kf. Qed.

(** A locked keyframe of an animated solid colour is left as it is. *)
Lemma adjustColorProperty_keyframe c path i c1 :
  Js.isOne (Js.get c "a") = true ->
  isPathLocked m (path ++ ".k." ++ Str.of_nat i) = true ->
  adjustColorProperty other m c path = Ok c1 ->
  Js.lookup ["k"; Str.of_nat i] c1 = Js.lookup ["k"; Str.of_nat i] c.
Proof.
  intros Ha Hlock. unfold adjustColorProperty.
  destruct (isPathLocked m path); [now intros [= <-]|].
  rewrite Ha. cbn [andb]. destruct (Js.isArray (Js.get c "k")) eqn:Harr.
  - intros H. apply bind_ok in H as (kfs & Hk & H). injection H as <-.
    cbn [Js.lookup]. rewrite get_set_same by now apply isArray_defined.
    destruct (Js.get c "k") as [| | | | |l|]; try discriminate. cbn [Js.items] in Hk.
    rewrite !get_array_index.
    destruct (mapi_item (A:=json) _ 0 l kfs i Hk) as [Hlen Hit].
    destruct (Nat.lt_ge_cases i (List.length l)) as [Hlt|Hge].
    + specialize (Hit Hlt). cbn [Nat.add] in Hit.
      rewrite adjustKeyframe_locked in Hit by assumption. congruence.
    + unfold Js.item. rewrite !nth_overflow by lia. reflexivity.
  - cbn [andb]. now intros [= <-].
Qed.

(** A static solid colour that is not locked is shifted. *)
Lemma adjustColorProperty_static c path :
  isPathLocked m path = false ->
  Js.isOne (Js.get c "a") = false ->
  Js.isArray (Js.get c "k") = true ->
  3 <= List.length (Js.items (Js.get c "k")) ->
  adjustColorProperty other m c path
  = Ok (Js.set c "k" (JArr (adjustRgbaArray other m (Js.items (Js.get c "k"))))).
Proof.
  intros Hlock Ha Harr Hlen. unfold adjustColorProperty.
  rewrite Hlock, Ha, Harr. cbn [andb]. apply Nat.leb_le in Hlen. now rewrite Hlen.
Qed.

(** A locked stop of a gradient whose [k] is the array of stops. *)
Lemma adjustGradient_direct g path q d :
  isPathLocked m ((path ++ ".k") ++ "." ++ Str.of_nat (4 * q)) = true -> d < 4 ->
  Js.lookup ["k"; Str.of_nat (4 * q + d)] (adjustGradient other m g path)
  = Js.lookup ["k"; Str.of_nat (4 * q + d)] g.
Proof.
  intros Hlock Hd. unfold adjustGradient. destruct (isPathLocked m path); [reflexivity|].
  cbn [Js.lookup].
  destruct (negb (Js.truthy (Js.get (Js.get g "k") "a")) && Js.isArray (Js.get g "k")) eqn:G1.
  - apply andb_true_iff in G1 as [_ Harr].
    rewrite get_set_same by now apply isArray_defined.
    destruct (Js.get g "k") as [| | | | |l|]; try discriminate. cbn [Js.items].
    rewrite !get_array_index. now apply stops_frame.
  - destruct (Js.isOne (Js.get (Js.get g "k") "a") && Js.isArray (Js.get (Js.get g "k") "k"))
      eqn:G2.
    + assert (Hk : Js.get g "k" <> JUndef) by (intros E; now rewrite E in G2).
      rewrite get_set_same by assumption. apply get_set_other.
      intros E. apply (f_equal Str.to_index) in E. now rewrite to_index_of_nat in E.
    + destruct (Js.truthy (Js.get (Js.get g "k") "k") && Js.isArray (Js.get (Js.get g "k") "k")
                && Js.isNumber (Js.item (Js.items (Js.get (Js.get g "k") "k")) 0)) eqn:G3;
        [|reflexivity].
      assert (Hk : Js.get g "k" <> JUndef) by (intros E; now rewrite E in G3).
      rewrite get_set_same by assumption. apply get_set_other.
      intros E. apply (f_equal Str.to_index) in E. now rewrite to_index_of_nat in E.
Qed.

(** A locked stop of a gradient whose [k.k] is the array of stops. *)
Lemma adjustGradient_nested g path q d :
  isPathLocked m ((path ++ ".k.k") ++ "." ++ Str.of_nat (4 * q)) = true -> d < 4 ->
  Js.isObject (Js.lookup ["k"; "k"; Str.of_nat (4 * q + d)] g) = false ->
  Js.lookup ["k"; "k"; Str.of_nat (4 * q + d)] (adjustGradient other m g path)
  = Js.lookup ["k"; "k"; Str.of_nat (4 * q + d)] g.
Proof.
  intros Hlock Hd Hleaf. unfold adjustGradient. destruct (isPathLocked m path); [reflexivity|].
  cbn [Js.lookup] in *.
  destruct (negb (Js.truthy (Js.get (Js.get g "k") "a")) && Js.isArray (Js.get g "k")) eqn:G1.
  - apply andb_true_iff in G1 as [_ Harr].
    rewrite get_set_same by now apply isArray_defined.
    destruct (Js.get g "k") as [| | | | |l|]; try discriminate. reflexivity.
  - destruct (Js.isOne (Js.get (Js.get g "k") "a") && Js.isArray (Js.get (Js.get g "k") "k"))
      eqn:G2.
    + assert (Hk : Js.get g "k" <> JUndef) by (intros E; now rewrite E in G2).
      apply andb_true_iff in G2 as [_ Harr].
      rewrite get_set_same by assumption.
      rewrite get_set_same by now apply isArray_defined.
      destruct (Js.get (Js.get g "k") "k") as [| | | | |l|]; try discriminate.
      cbn [Js.items]. rewrite !get_array_index in *. unfold Js.item at 1.
      rewrite item_map_combine. cbn [Nat.add fst snd].
      destruct (4 * q + d <? List.length l)%nat eqn:Hlt.
      * fold (Js.item l (4 * q + d)).
        rewrite (get_nonobject _ "s" Hleaf). cbn [Js.isArray].
        now rewrite andb_false_r.
      * apply Nat.ltb_ge in Hlt. unfold Js.item. now rewrite nth_overflow.
    + destruct (Js.truthy (Js.get (Js.get g "k") "k") && Js.isArray (Js.get (Js.get g "k") "k")
                && Js.isNumber (Js.item (Js.items (Js.get (Js.get g "k") "k")) 0)) eqn:G3;
        [|reflexivity].
      assert (Hk : Js.get g "k" <> JUndef) by (intros E; now rewrite E in G3).
      apply andb_true_iff in G3 as [G3 _]. apply andb_true_iff in G3 as [_ Harr].
      rewrite get_set_same by assumption.
      rewrite get_set_same by now apply isArray_defined.
      destruct (Js.get (Js.get g "k") "k") as [| | | | |l|]; try discriminate.
      cbn [Js.items]. rewrite !get_array_index. now apply stops_frame.
Qed.

(** A locked stop of a keyframe of an animated gradient. *)
Lemma adjustGradient_keyframe g path j q d :
  Js.isOne (Js.lookup ["k"; "a"] g) = true ->
  isPathLocked m ((path ++ ".k.k." ++ Str.of_nat j ++ ".s") ++ "." ++ Str.of_nat (4 * q))
  = true -> d < 4 ->
  Js.lookup ["k"; "k"; Str.of_nat j; "s"; Str.of_nat (4 * q + d)]
    (adjustGradient other m g path)
  = Js.lookup ["k"; "k"; Str.of_nat j; "s"; Str.of_nat (4 * q + d)] g.
Proof.
  intros Ha Hlock Hd. unfold adjustGradient. destruct (isPathLocked m path); [reflexivity|].
  cbn [Js.lookup] in *.
  assert (Hk : Js.get g "k" <> JUndef) by (intros E; now rewrite E in Ha).
  destruct (negb (Js.truthy (Js.get (Js.get g "k") "a")) && Js.isArray (Js.get g "k")) eqn:G1.
  - apply andb_true_iff in G1 as [_ Harr].
    destruct (Js.get g "k") as [| | | | |l|]; discriminate.
  - rewrite Ha. cbn [andb].
    destruct (Js.isArray (Js.get (Js.get g "k") "k")) eqn:Harr.
    + rewrite get_set_same by assumption.
      rewrite get_set_same by now apply isArray_defined.
      destruct (Js.get (Js.get g "k") "k") as [| | | | |l|]; try discriminate.
      cbn [Js.items]. rewrite !get_array_index. unfold Js.item at 1.
      rewrite item_map_combine. cbn [Nat.add fst snd].
      destruct (j <? List.length l)%nat eqn:Hlt.
      * fold (Js.item l j).
        destruct (Js.truthy (Js.item l j) && Js.isArray (Js.get (Js.item l j) "s")) eqn:G;
          [|reflexivity].
        apply andb_true_iff in G as [_ Hs].
        rewrite get_set_same by now apply isArray_defined.
        destruct (Js.get (Js.item l j) "s") as [| | | | |stops|]; try discriminate.
        cbn [Js.items]. rewrite !get_array_index. now apply stops_frame.
      * apply Nat.ltb_ge in Hlt. unfold Js.item. now rewrite nth_overflow.
    + rewrite andb_false_r. reflexivity.
Qed.

End Properties.

(** ** The node after its three [if]s *)

Section Nodes.

Variable other : json -> float.
Variable m : t.

Lemma adjustColorProperty_locked c path :
  isPathLocked m path = true -> adjustColorProperty other m c path = Ok c.
Proof. intros H. unfold adjustColorProperty. now rewrite H. Qed.

Lemma adjustGradient_locked g path :
  isPathLocked m path = true -> adjustGradient other m g path = g.
Proof. intros H. unfold adjustGradient. now rewrite H. Qed.

Lemma node_solid node X P f :
  f = "c" \/ f = "sc" -> adjustNode other m X P = Ok node ->
  if Js.truthy (Js.get X f) && Js.truthy (Js.get (Js.get X f) "k")
  then adjustColorProperty other m (Js.get X f) (Js.join P f) = Ok (Js.get node f)
  else Js.get node f = Js.get X f.
Proof.
  intros Hf H. apply adjustNode_get in H as (_ & C & SC & _).
  destruct Hf as [->| ->]; assumption.
Qed.

Lemma node_property_locked node X P f :
  colorKey f = true -> adjustNode other m X P = Ok node ->
  isPathLocked m (Js.join P f) = true -> Js.get node f = Js.get X f.
Proof.
  intros Hf H Hlock. unfold colorKey in Hf.
  apply orb_true_iff in Hf as [Hf|Hf]; [apply orb_true_iff in Hf as [Hf|Hf]|];
    apply String.eqb_eq in Hf; subst f.
  - pose proof (node_solid _ _ _ "c" (or_introl eq_refl) H) as C.
    destruct (_ && _) in C; [|assumption].
    rewrite adjustColorProperty_locked in C by assumption. congruence.
  - pose proof (node_solid _ _ _ "sc" (or_intror eq_refl) H) as C.
    destruct (_ && _) in C; [|assumption].
    rewrite adjustColorProperty_locked in C by assumption. congruence.
  - apply adjustNode_get in H as (_ & _ & _ & G). rewrite G.
    destruct (_ && _); [|reflexivity]. now apply adjustGradient_locked.
Qed.

Lemma node_keyframe_locked node X P f i :
  f = "c" \/ f = "sc" -> adjustNode other m X P = Ok node ->
  Js.isOne (Js.get (Js.get X f) "a") = true ->
  isPathLocked m (Js.join P f ++ ".k." ++ Str.of_nat i) = true ->
  Js.lookup ["k"; Str.of_nat i] (Js.get node f) = Js.lookup ["k"; Str.of_nat i] (Js.get X f).
Proof.
  intros Hf H Ha Hlock. pose proof (node_solid _ _ _ f Hf H) as C.
  destruct (_ && _) in C; [|now rewrite C].
  eapply adjustColorProperty_keyframe; eauto.
Qed.

Lemma node_static_shifted node X P f :
  f = "c" \/ f = "sc" -> adjustNode other m X P = Ok node ->
  isPathLocked m (Js.join P f) = false ->
  Js.isOne (Js.get (Js.get X f) "a") = false ->
  Js.isArray (Js.get (Js.get X f) "k") = true ->
  3 <= List.length (Js.items (Js.get (Js.get X f) "k")) ->
  Js.get (Js.get node f) "k"
  = JArr (adjustRgbaArray other m (Js.items (Js.get (Js.get X f) "k"))).
Proof.
  intros Hf H Hlock Ha Harr Hlen. pose proof (node_solid _ _ _ f Hf H) as C.
  assert (Hk : Js.get (Js.get X f) "k" <> JUndef) by now apply isArray_defined.
  destruct (get_k_defined _ Hk) as (ps & Eps).
  assert (G : Js.truthy (Js.get X f) && Js.truthy (Js.get (Js.get X f) "k") = true).
  { rewrite Eps at 1. cbn [Js.truthy andb]. now apply isObject_truthy, isArray_isObject. }
  rewrite G in C. rewrite adjustColorProperty_static in C by assumption.
  injection C as <-. now rewrite get_set_same.
Qed.

Lemma node_gradient node X P :
  adjustNode other m X P = Ok node ->
  Js.get node "g" = Js.get X "g"
  \/ Js.get node "g" = adjustGradient other m (Js.get X "g") (Js.join P "g").
Proof.
  intros H. apply adjustNode_get in H as (_ & _ & _ & G). rewrite G.
  destruct (_ && _); auto.
Qed.

End Nodes.

Lemma colorFree_nonobject v : Js.isObject v = false -> colorFree v = true.
Proof. now destruct v. Qed.

Lemma plainKeys_index i : plainKeys [Str.of_nat i] = true.
Proof. cbn. now rewrite of_nat_plain. Qed.

(** ** The document after [recursiveAdjustColors] *)

Ltac split_lookup doc :=
  repeat match goal with
         | H : context [Js.lookup (?p ++ ?r) doc] |- _ => rewrite (lookup_app p r doc) in H
         | |- context [Js.lookup (?p ++ ?r) doc] => rewrite (lookup_app p r doc)
         end.

Section Document.

Variable other : json -> float.
Variable m : t.
Variables doc res : json.

Hypothesis Hres : recursiveAdjustColors other (S (Js.depth doc)) m doc "" = Ok res.

(** A locked [c], [sc] or [g]: nothing below it changes. *)
Lemma locked_property pre f rest :
  plainKeys pre = true -> colorKey f = true ->
  isPathLocked m (pathOf (pre ++ [f])) = true ->
  plainKeys rest = true ->
  colorFree (Js.lookup (pre ++ f :: rest) doc) = true ->
  Js.lookup (pre ++ f :: rest) res = Js.lookup (pre ++ f :: rest) doc.
Proof.
  intros Hpre Hf Hlock Hrest Hfree. rewrite pathOf_snoc in Hlock.
  destruct (rec_field other m doc res pre f Hpre Hres) as (node & Hnode & Hbelow).
  split_lookup doc. cbn [Js.lookup] in *.
  rewrite <- (node_property_locked other m node _ _ f Hf Hnode Hlock) in *.
  now apply Hbelow.
Qed.

(** A locked keyframe of an animated [c] or [sc]. *)
Lemma locked_keyframe pre f i :
  plainKeys pre = true -> f = "c" \/ f = "sc" ->
  Js.isOne (Js.lookup (pre ++ [f; "a"]) doc) = true ->
  isPathLocked m (pathOf (pre ++ [f; "k"; Str.of_nat i])) = true ->
  colorFree (Js.lookup (pre ++ [f; "k"; Str.of_nat i]) doc) = true ->
  Js.lookup (pre ++ [f; "k"; Str.of_nat i]) res
  = Js.lookup (pre ++ [f; "k"; Str.of_nat i]) doc.
Proof.
  intros Hpre Hf Ha Hlock Hfree.
  rewrite pathOf_keyframe in Hlock by (destruct Hf; subst; discriminate).
  destruct (rec_field other m doc res pre f Hpre Hres) as (node & Hnode & Hbelow).
  split_lookup doc. cbn [Js.lookup] in Ha.
  change (Js.lookup [f; "k"; Str.of_nat i] (Js.lookup pre doc))
    with (Js.lookup ["k"; Str.of_nat i] (Js.get (Js.lookup pre doc) f)) in *.
  rewrite <- (node_keyframe_locked other m node _ _ f i Hf Hnode Ha Hlock) in *.
  apply Hbelow; [|assumption]. cbn. now rewrite of_nat_plain.
Qed.

(** A static [c] or [sc] that is not locked. *)
Lemma unlocked_static pre f :
  plainKeys pre = true -> f = "c" \/ f = "sc" ->
  isPathLocked m (pathOf (pre ++ [f])) = false ->
  Js.isOne (Js.lookup (pre ++ [f; "a"]) doc) = false ->
  Js.isArray (Js.lookup (pre ++ [f; "k"]) doc) = true ->
  3 <= List.length (Js.items (Js.lookup (pre ++ [f; "k"]) doc)) ->
  colorFree (Js.lookup (pre ++ [f; "k"]) doc) = true ->
  Js.lookup (pre ++ [f; "k"]) res
  = JArr (adjustRgbaArray other m (Js.items (Js.lookup (pre ++ [f; "k"]) doc))).
Proof.
  intros Hpre Hf Hlock Ha Harr Hlen Hfree. rewrite pathOf_snoc in Hlock.
  destruct (rec_field other m doc res pre f Hpre Hres) as (node & Hnode & Hbelow).
  split_lookup doc. cbn [Js.lookup] in *.
  pose proof (node_static_shifted other m node _ _ f Hf Hnode Hlock Ha Harr Hlen) as E.
  rewrite <- E. apply (Hbelow ["k"]); [reflexivity|]. cbn [Js.lookup]. rewrite E.
  cbn [colorFree]. unfold adjustRgbaArray. apply forallb_writeRgb; try reflexivity.
  destruct (Js.get (Js.get (Js.lookup pre doc) f) "k"); try discriminate. exact Hfree.
Qed.

(** A locked stop, in the three layouts of a gradient. *)
Lemma locked_stop_direct pre q d :
  plainKeys pre = true -> d < 4 ->
  isPathLocked m (pathOf (pre ++ ["g"; "k"; Str.of_nat (4 * q)])) = true ->
  Js.isObject (Js.lookup (pre ++ ["g"; "k"; Str.of_nat (4 * q + d)]) doc) = false ->
  Js.lookup (pre ++ ["g"; "k"; Str.of_nat (4 * q + d)]) res
  = Js.lookup (pre ++ ["g"; "k"; Str.of_nat (4 * q + d)]) doc.
Proof.
  intros Hpre Hd Hlock Hleaf. rewrite pathOf_stop_direct in Hlock.
  destruct (rec_field other m doc res pre "g" Hpre Hres) as (node & Hnode & Hbelow).
  split_lookup doc.
  change (Js.lookup ["g"; "k"; Str.of_nat (4 * q + d)] (Js.lookup pre doc))
    with (Js.lookup ["k"; Str.of_nat (4 * q + d)] (Js.get (Js.lookup pre doc) "g")) in *.
  assert (E : Js.lookup ["k"; Str.of_nat (4 * q + d)] (Js.get node "g")
              = Js.lookup ["k"; Str.of_nat (4 * q + d)] (Js.get (Js.lookup pre doc) "g")).
  { destruct (node_gradient other m node _ _ Hnode) as [-> | ->]; [reflexivity|].
    now apply adjustGradient_direct. }
  rewrite <- E in *. apply Hbelow; [cbn; now rewrite of_nat_plain|].
  now apply colorFree_nonobject.
Qed.

Lemma locked_stop_nested pre q d :
  plainKeys pre = true -> d < 4 ->
  isPathLocked m (pathOf (pre ++ ["g"; "k"; "k"; Str.of_nat (4 * q)])) = true ->
  Js.isObject (Js.lookup (pre ++ ["g"; "k"; "k"; Str.of_nat (4 * q + d)]) doc) = false ->
  Js.lookup (pre ++ ["g"; "k"; "k"; Str.of_nat (4 * q + d)]) res
  = Js.lookup (pre ++ ["g"; "k"; "k"; Str.of_nat (4 * q + d)]) doc.
Proof.
  intros Hpre Hd Hlock Hleaf. rewrite pathOf_stop_nested in Hlock.
  destruct (rec_field other m doc res pre "g" Hpre Hres) as (node & Hnode & Hbelow).
  split_lookup doc.
  change (Js.lookup ["g"; "k"; "k"; Str.of_nat (4 * q + d)] (Js.lookup pre doc))
    with (Js.lookup ["k"; "k"; Str.of_nat (4 * q + d)] (Js.get (Js.lookup pre doc) "g")) in *.
  assert (E : Js.lookup ["k"; "k"; Str.of_nat (4 * q + d)] (Js.get node "g")
              = Js.lookup ["k"; "k"; Str.of_nat (4 * q + d)] (Js.get (Js.lookup pre doc) "g")).
  { destruct (node_gradient other m node _ _ Hnode) as [-> | ->]; [reflexivity|].
    now apply adjustGradient_nested. }
  rewrite <- E in *. apply Hbelow; [cbn; now rewrite of_nat_plain|].
  now apply colorFree_nonobject.
Qed.

Lemma locked_stop_keyframe pre j q d :
  plainKeys pre = true -> d < 4 ->
  Js.isOne (Js.lookup (pre ++ ["g"; "k"; "a"]) doc) = true ->
  isPathLocked m (pathOf (pre ++ ["g"; "k"; "k"; Str.of_nat j; "s"; Str.of_nat (4 * q)]))
  = true ->
  Js.isObject
    (Js.lookup (pre ++ ["g"; "k"; "k"; Str.of_nat j; "s"; Str.of_nat (4 * q + d)]) doc)
  = false ->
  Js.lookup (pre ++ ["g"; "k"; "k"; Str.of_nat j; "s"; Str.of_nat (4 * q + d)]) res
  = Js.lookup (pre ++ ["g"; "k"; "k"; Str.of_nat j; "s"; Str.of_nat (4 * q + d)]) doc.
Proof.
  intros Hpre Hd Ha Hlock Hleaf. rewrite pathOf_stop_keyframe in Hlock.
  destruct (rec_field other m doc res pre "g" Hpre Hres) as (node & Hnode & Hbelow).
  split_lookup doc.
  change (Js.lookup ["g"; "k"; "a"] (Js.lookup pre doc))
    with (Js.lookup ["k"; "a"] (Js.get (Js.lookup pre doc) "g")) in *.
  change (Js.lookup ["g"; "k"; "k"; Str.of_nat j; "s"; Str.of_nat (4 * q + d)]
            (Js.lookup pre doc))
    with (Js.lookup ["k"; "k"; Str.of_nat j; "s"; Str.of_nat (4 * q + d)]
            (Js.get (Js.lookup pre doc) "g")) in *.
  assert (E : Js.lookup ["k"; "k"; Str.of_nat j; "s"; Str.of_nat (4 * q + d)]
                (Js.get node "g")
              = Js.lookup ["k"; "k"; Str.of_nat j; "s"; Str.of_nat (4 * q + d)]
                  (Js.get (Js.lookup pre doc) "g")).
  { destruct (node_gradient other m node _ _ Hnode) as [-> | ->]; [reflexivity|].
    now apply adjustGradient_keyframe. }
  rewrite <- E in *. apply Hbelow; [cbn; now rewrite !of_nat_plain|].
  now apply colorFree_nonobject.
Qed.

End Document.

(** ** The whole call *)

Lemma managerAfter_locked locks doc hue saturation lightness p :
  isPathLocked (managerAfter locks doc hue saturation lightness) p = true <-> In p locks.
Proof. apply isPathLocked_In. Qed.

Lemma managerAfter_unlocked locks doc hue saturation lightness p :
  isPathLocked (managerAfter locks doc hue saturation lightness) p = false <-> ~ In p locks.
Proof. apply isPathLocked_not_In. Qed.

(** [applyAdjustments] on a manager without a baseline returns, for a
    document as [JSON] gives it back, with readable locks and keyframes. *)
Lemma applyAdjustments_returns other locks doc hue saturation lightness :
  Js.clone doc = doc ->
  forallb (lockReadable doc) locks = true ->
  adjustable doc = true ->
  exists result,
    recursiveAdjustColors other (S (Js.depth doc))
      (managerAfter locks doc hue saturation lightness) doc "" = Ok result
    /\ applyAdjustments other (withLocks create locks) doc hue saturation lightness
       = Ok (managerAfter locks doc hue saturation lightness, result).
Proof.
  intros Hfix Hl Ha. rewrite applyAdjustments_fresh by assumption.
  destruct (rec_total other (managerAfter locks doc hue saturation lightness)
              (S (Js.depth doc)) doc "" Ha) as (result & Hres).
  exists result. split; [assumption|]. now rewrite Hres.
Qed.

Import HueShiftManager.

(** * C3: how far a lock reaches *)




Import HueShiftManager.

(** * C4: a locked instance next to one that is not *)




Import ColorExtractor.

(** * The extraction as a list of instances *)

Lemma colors_addColors insts st : colors (fold_left addColor insts st) = colors st ++ insts.
Proof.
  revert st. induction insts as [|i insts IH]; intros st; cbn [fold_left].
  - now rewrite app_nil_r.
  - rewrite IH. cbn [addColor colors]. now rewrite <- app_assoc.
Qed.

Lemma addColors_map {A : Type} (mk : A -> instance) (xs : list A) st :
  fold_left (fun st i => addColor st (mk i)) xs st = fold_left addColor (map mk xs) st.
Proof. revert st. induction xs as [|x xs IH]; intros st; cbn; auto. Qed.

Lemma bind_assoc {A B C : Type} (x : outcome A) (f : A -> outcome B) (g : B -> outcome C) :
  (b <- (a <- x ;; f a) ;; g b) = (a <- x ;; b <- f a ;; g b).
Proof. now destruct x. Qed.

Lemma bind_ext {A B : Type} (x : outcome A) (f g : A -> outcome B) :
  (forall a, f a = g a) -> (a <- x ;; f a) = (a <- x ;; g a).
Proof. intros H. destruct x; cbn; auto. Qed.

Lemma emitted_uniform F insts :
  uniform F -> emitted F = Ok insts -> forall st, F st = Ok (fold_left addColor insts st).
Proof. intros U E st. rewrite U, E. reflexivity. Qed.

Lemma uniform_ret : uniform (fun st => Ok st).
Proof. intros st. reflexivity. Qed.

Lemma uniform_add inst : uniform (fun st => Ok (addColor st inst)).
Proof. intros st. reflexivity. Qed.

Lemma uniform_throws : uniform (fun _ => Throws).
Proof. intros st. reflexivity. Qed.

Lemma uniform_diverges : uniform (fun _ => Diverges).
Proof. intros st. reflexivity. Qed.

Lemma emitted_adds {A : Type} (mk : A -> instance) (xs : list A) :
  emitted (fun st => Ok (fold_left (fun st i => addColor st (mk i)) xs st))
  = Ok (map mk xs).
Proof. unfold emitted. cbn [bind]. now rewrite addColors_map, colors_addColors. Qed.

Lemma uniform_adds {A : Type} (mk : A -> instance) (xs : list A) :
  uniform (fun st => Ok (fold_left (fun st i => addColor st (mk i)) xs st)).
Proof. intros st. rewrite emitted_adds. cbn [bind]. now rewrite addColors_map. Qed.

(** Two steps in a row add what the first adds, then what the second adds. *)
Lemma emitted_bind F G :
  uniform F -> uniform G ->
  emitted (fun st => st' <- F st ;; G st')
  = (a <- emitted F ;; b <- emitted G ;; Ok (a ++ b)).
Proof.
  intros UF UG. unfold emitted at 1. rewrite UF.
  destruct (emitted F) as [a| |]; cbn [bind]; try reflexivity.
  rewrite UG. destruct (emitted G) as [b| |]; cbn [bind]; try reflexivity.
  now rewrite <- fold_left_app, colors_addColors.
Qed.

Lemma uniform_bind F G :
  uniform F -> uniform G -> uniform (fun st => st' <- F st ;; G st').
Proof.
  intros UF UG st. rewrite emitted_bind by assumption. rewrite UF.
  destruct (emitted F) as [a| |]; cbn [bind]; try reflexivity.
  rewrite UG. destruct (emitted G) as [b| |]; cbn [bind]; try reflexivity.
  now rewrite fold_left_app.
Qed.

Lemma uniform_foldi {A : Type} (f : nat -> A -> extraction -> outcome extraction) xs :
  (forall i x, uniform (f i x)) ->
  forall i, uniform (Js.foldi f i xs)
            /\ emitted (Js.foldi f i xs) = collecti (fun i x => emitted (f i x)) i xs.
Proof.
  intros Uf. induction xs as [|x xs IH]; intros i.
  - split; [apply uniform_ret|reflexivity].
  - destruct (IH (S i)) as [U E]. cbn [Js.foldi collecti]. split.
    + now apply uniform_bind.
    + rewrite emitted_bind by auto. now rewrite E.
Qed.

Section Steps.

Variable other : json -> float.

Lemma uniform_keyframeColor kind ref path i keyframe :
  uniform (keyframeColor other kind ref path i keyframe).
Proof.
  unfold keyframeColor.
  destruct keyframe; try apply uniform_ret; try apply uniform_throws;
    cbn [Js.getChecked bind];
    match goal with
    | |- context [if ?c then _ else _] => destruct c
    end; try apply uniform_ret; apply uniform_add.
Qed.

Lemma uniform_processFill addr o shapeType path :
  uniform (fun st => processFill other addr o shapeType st path).
Proof.
  unfold processFill.
  destruct (Js.isOne _).
  - destruct (Js.isArray _); [|apply uniform_ret].
    apply uniform_foldi. intros. apply uniform_keyframeColor.
  - destruct (Js.isArray _); [apply uniform_add|apply uniform_ret].
Qed.

Lemma uniform_processStroke addr o path :
  uniform (fun st => processStroke other addr o st path).
Proof.
  unfold processStroke.
  destruct (_ && _).
  - apply uniform_foldi. intros. apply uniform_keyframeColor.
  - destruct (Js.isArray _); [apply uniform_add|apply uniform_ret].
Qed.

Lemma uniform_processGradientStops g kind arr ref path :
  uniform (processGradientStops other g kind arr ref path).
Proof.
  unfold processGradientStops. destruct (stopLoop _); [|apply uniform_diverges].
  apply uniform_adds.
Qed.

Lemma uniform_processGradient addr o shapeType path :
  uniform (fun st => processGradient other addr o shapeType st path).
Proof.
  unfold processGradient.
  destruct (_ && _ && _); [apply uniform_processGradientStops|].
  destruct (_ && _ && _).
  - apply uniform_foldi. intros i x.
    destruct (_ && _); [apply uniform_processGradientStops|apply uniform_ret].
  - destruct (_ && _ && _ && _); [apply uniform_processGradientStops|apply uniform_ret].
Qed.

Lemma uniform_if (c : bool) F : uniform F -> uniform (fun st => if c then F st else Ok st).
Proof. intros U. destruct c; [assumption|apply uniform_ret]. Qed.

Lemma uniform_extractNode addr o path : uniform (extractNode other addr o path).
Proof.
  unfold extractNode.
  apply (uniform_bind
           (fun st => if Js.truthy (Js.get o "c") && Js.truthy (Js.get (Js.get o "c") "k")
                      then processFill other addr o (Js.get o "ty") st (Js.join path "c")
                      else Ok st)).
  - apply uniform_if, uniform_processFill.
  - apply (uniform_bind
             (fun st => if Js.truthy (Js.get o "sc") && Js.truthy (Js.get (Js.get o "sc") "k")
                        then processStroke other addr o st (Js.join path "sc")
                        else Ok st)).
    + apply uniform_if, uniform_processStroke.
    + apply uniform_if, uniform_processGradient.
Qed.

Lemma recursiveExtract_object addr ps path st :
  recursiveExtract other addr (JObj ps) path st
  = (st' <- extractNode other addr (JObj ps) path st ;; childrenLoop other addr path ps st').
Proof.
  cbn [recursiveExtract]. apply bind_ext. intros st'. revert st'.
  induction ps as [|[k v] ps IH]; intros st'; [reflexivity|].
  cbn [childrenLoop]. apply bind_ext. intros st''. apply IH.
Qed.

Lemma recursiveExtract_array addr items path st :
  recursiveExtract other addr (JArr items) path st
  = (st' <- extractNode other addr (JArr items) path st ;;
     elementsLoop other addr path 0 items st').
Proof.
  cbn [recursiveExtract]. apply bind_ext. intros st'. revert st'. generalize 0.
  induction items as [|v items IH]; intros i st'; [reflexivity|].
  cbn [elementsLoop]. apply bind_ext. intros st''. apply IH.
Qed.


Lemma uniform_ext F G : (forall st, F st = G st) -> uniform G -> uniform F.
Proof.
  intros E U st. unfold emitted. rewrite !E. apply U.
Qed.

Lemma emitted_ext F G : (forall st, F st = G st) -> emitted F = emitted G.
Proof. intros E. unfold emitted. now rewrite E. Qed.

Lemma emitted_if (c : bool) F :
  emitted (fun st => if c then F st else Ok st) = if c then emitted F else Ok [].
Proof. now destruct c. Qed.

Lemma uniform_childrenLoop addr path ps :
  Forall (fun kv => forall addr path, uniform (recursiveExtract other addr (snd kv) path)) ps ->
  uniform (childrenLoop other addr path ps)
  /\ emitted (childrenLoop other addr path ps) = childInstances other addr path ps.
Proof.
  induction ps as [|[k v] ps IH]; intros H.
  - split; [apply uniform_ret|reflexivity].
  - apply Forall_cons_iff in H as [Hv Hps]. destruct (IH Hps) as [U E]. cbn [snd] in Hv.
    cbn [childrenLoop childInstances]. split.
    + apply (uniform_bind
               (fun st => if Js.typeofObject v
                          then recursiveExtract other (addr ++ [k]) v (Js.join path k) st
                          else Ok st)); [|assumption].
      apply uniform_if, Hv.
    + rewrite (emitted_bind
                 (fun st => if Js.typeofObject v
                            then recursiveExtract other (addr ++ [k]) v (Js.join path k) st
                            else Ok st)); [|apply uniform_if, Hv|assumption].
      rewrite emitted_if, E. reflexivity.
Qed.

Lemma uniform_elementsLoop addr path items :
  Forall (fun v => forall addr path, uniform (recursiveExtract other addr v path)) items ->
  forall i, uniform (elementsLoop other addr path i items)
            /\ emitted (elementsLoop other addr path i items)
               = elementInstances other addr path i items.
Proof.
  induction items as [|v items IH]; intros H i.
  - split; [apply uniform_ret|reflexivity].
  - apply Forall_cons_iff in H as [Hv Hitems]. destruct (IH Hitems (S i)) as [U E].
    cbn [elementsLoop elementInstances]. split.
    + apply (uniform_bind
               (fun st => if Js.typeofObject v
                          then recursiveExtract other (addr ++ [Str.of_nat i]) v
                                 (Js.join path (Str.of_nat i)) st
                          else Ok st)); [|assumption].
      apply uniform_if, Hv.
    + rewrite (emitted_bind
                 (fun st => if Js.typeofObject v
                            then recursiveExtract other (addr ++ [Str.of_nat i]) v
                                   (Js.join path (Str.of_nat i)) st
                            else Ok st)); [|apply uniform_if, Hv|assumption].
      rewrite emitted_if, E. reflexivity.
Qed.

(** The whole traversal only adds instances, the same ones whatever was
    extracted before. *)
Lemma uniform_recursiveExtract o : forall addr path, uniform (recursiveExtract other addr o path).
Proof.
  induction o as [| | | | |items IH|ps IH] using json_induction; intros addr path;
    try apply uniform_ret.
  - apply (uniform_ext _ _ (recursiveExtract_array addr items path)).
    apply uniform_bind; [apply uniform_extractNode|]. now apply uniform_elementsLoop.
  - apply (uniform_ext _ _ (recursiveExtract_object addr ps path)).
    apply uniform_bind; [apply uniform_extractNode|]. now apply uniform_childrenLoop.
Qed.

Lemma treeInstances_object addr ps path :
  treeInstances other addr (JObj ps) path
  = (a <- nodeInstances other addr (JObj ps) path ;;
     b <- childInstances other addr path ps ;; Ok (a ++ b)).
Proof.
  unfold treeInstances, nodeInstances.
  rewrite (emitted_ext _ _ (recursiveExtract_object addr ps path)).
  destruct (uniform_childrenLoop addr path ps) as [U E].
  { apply Forall_forall. intros kv _. apply uniform_recursiveExtract. }
  rewrite emitted_bind; [|apply uniform_extractNode|assumption]. now rewrite E.
Qed.

Lemma treeInstances_array addr items path :
  treeInstances other addr (JArr items) path
  = (a <- nodeInstances other addr (JArr items) path ;;
     b <- elementInstances other addr path 0 items ;; Ok (a ++ b)).
Proof.
  unfold treeInstances, nodeInstances.
  rewrite (emitted_ext _ _ (recursiveExtract_array addr items path)).
  destruct (uniform_elementsLoop addr path items) with (i := 0) as [U E].
  { apply Forall_forall. intros kv _. apply uniform_recursiveExtract. }
  rewrite emitted_bind; [|apply uniform_extractNode|apply U]. now rewrite E.
Qed.

Lemma treeInstances_other addr o path :
  Js.isObject o = false -> treeInstances other addr o path = Ok [].
Proof. now destruct o. Qed.

(** [extractColors] returns the instances of the whole tree. *)
Lemma extractColors_tree before doc :
  Js.isObject doc = true ->
  forall insts,
    (exists groups, extractColors other before doc = Ok (insts, groups))
    <-> treeInstances other [] doc "" = Ok insts.
Proof.
  intros Hobj insts. unfold extractColors, treeInstances, emitted. rewrite Hobj.
  destruct (recursiveExtract other [] doc "" noColors) as [st| |]; cbn [bind].
  - split; [intros (groups & [= <- _]); reflexivity|intros [= <-]; eauto].
  - split; [intros (? & ?)|]; discriminate.
  - split; [intros (? & ?)|]; discriminate.
Qed.


(** ** The children of a node *)

Lemma childInstances_assoc addr path ps all k v :
  childInstances other addr path ps = Ok all -> Js.assoc k ps = Some v ->
  exists a, childTree other addr path k v = Ok a /\ incl a all.
Proof.
  revert all. induction ps as [|[k0 v0] ps IH]; intros all H E; [discriminate|].
  cbn [childInstances] in H. apply bind_ok in H as (a0 & Ha0 & H).
  apply bind_ok in H as (b & Hb & H). injection H as <-.
  cbn [Js.assoc] in E. destruct (String.eqb_spec k0 k) as [->|Hne].
  - injection E as <-. exists a0. split; [assumption|]. now apply incl_appl.
  - destruct (IH _ Hb E) as (a & Ha & Hincl). exists a. split; [assumption|].
    now apply incl_appr.
Qed.

Lemma childInstances_assocSet addr path ps all k v x cx :
  childInstances other addr path ps = Ok all -> Js.assoc k ps = Some v ->
  childTree other addr path k x = Ok cx ->
  exists all', childInstances other addr path (Js.assocSet k x ps) = Ok all'
               /\ incl cx all'.
Proof.
  revert all. induction ps as [|[k0 v0] ps IH]; intros all H E Hx; [discriminate|].
  cbn [childInstances] in H. apply bind_ok in H as (a0 & Ha0 & H).
  apply bind_ok in H as (b & Hb & H). injection H as <-.
  cbn [Js.assoc] in E. cbn [Js.assocSet]. destruct (String.eqb_spec k0 k) as [->|Hne].
  - cbn [childInstances]. rewrite Hx, Hb. cbn [bind]. eexists. split; [reflexivity|].
    now apply incl_appl.
  - destruct (IH _ Hb E Hx) as (all' & Hall' & Hincl).
    cbn [childInstances]. rewrite Ha0, Hall'. cbn [bind]. eexists. split; [reflexivity|].
    now apply incl_appr.
Qed.

Lemma elementInstances_item addr path items : forall i0 all i,
  elementInstances other addr path i0 items = Ok all -> i < List.length items ->
  exists a, childTree other addr path (Str.of_nat (i0 + i)) (Js.item items i) = Ok a
            /\ incl a all.
Proof.
  induction items as [|v items IH]; intros i0 all i H Hi; [cbn in Hi; lia|].
  cbn [elementInstances] in H. apply bind_ok in H as (a0 & Ha0 & H).
  apply bind_ok in H as (b & Hb & H). injection H as <-.
  destruct i as [|i].
  - rewrite Nat.add_0_r. exists a0. split; [assumption|]. now apply incl_appl.
  - cbn [List.length] in Hi. destruct (IH (S i0) b i Hb) as (a & Ha & Hincl); [lia|].
    replace (i0 + S i) with (S i0 + i) by lia.
    exists a. split; [assumption|]. now apply incl_appr.
Qed.

Lemma elementInstances_itemSet addr path items : forall i0 all i x cx,
  elementInstances other addr path i0 items = Ok all -> i < List.length items ->
  childTree other addr path (Str.of_nat (i0 + i)) x = Ok cx ->
  exists all', elementInstances other addr path i0 (Js.itemSet i x items) = Ok all'
               /\ incl cx all'.
Proof.
  induction items as [|v items IH]; intros i0 all i x cx H Hi Hx; [cbn in Hi; lia|].
  cbn [elementInstances] in H. apply bind_ok in H as (a0 & Ha0 & H).
  apply bind_ok in H as (b & Hb & H). injection H as <-.
  destruct i as [|i].
  - rewrite Nat.add_0_r in Hx. cbn [Js.itemSet elementInstances]. rewrite Hx, Hb.
    cbn [bind]. eexists. split; [reflexivity|]. now apply incl_appl.
  - cbn [List.length] in Hi. replace (i0 + S i) with (S i0 + i) in Hx by lia.
    destruct (IH (S i0) b i x cx Hb) as (all' & Hall' & Hincl); [lia|assumption|].
    cbn [Js.itemSet elementInstances]. rewrite Ha0, Hall'. cbn [bind].
    eexists. split; [reflexivity|]. now apply incl_appr.
Qed.

Lemma nodeInstances_nonobject addr o path :
  Js.isObject o = false -> nodeInstances other addr o path = Ok [].
Proof. now destruct o. Qed.

(** The instances of a node are among those of its tree. *)
Lemma tree_node addr o path all :
  treeInstances other addr o path = Ok all ->
  exists n, nodeInstances other addr o path = Ok n /\ incl n all.
Proof.
  destruct o as [| | | | |items|ps];
    try (intros _; exists []; split; [reflexivity|apply incl_nil_l]).
  rewrite treeInstances_object. intros H. apply bind_ok in H as (n & Hn & H).
  apply bind_ok in H as (b & Hb & H). injection H as <-.
  exists n. split; [assumption|now apply incl_appl].
Qed.

(** Those of a child are among those of the tree. *)
Lemma tree_child addr o path all k :
  treeInstances other addr o path = Ok all -> Js.get o k <> JUndef ->
  exists a, childTree other addr path k (Js.get o k) = Ok a /\ incl a all.
Proof.
  destruct o as [| | | | |items|ps]; cbn [Js.get]; try congruence.
  - rewrite treeInstances_array. intros H Hk. apply bind_ok in H as (n & Hn & H).
    apply bind_ok in H as (b & Hb & H). injection H as <-.
    destruct (Str.to_index k) as [i|] eqn:Ei; [|congruence].
    apply to_index_inv in Ei as ->.
    destruct (elementInstances_item addr path items 0 b i Hb) as (a & Ha & Hincl).
    { now apply item_defined_lt. }
    exists a. split; [assumption|]. now apply incl_appr.
  - rewrite treeInstances_object. intros H Hk. apply bind_ok in H as (n & Hn & H).
    apply bind_ok in H as (b & Hb & H). injection H as <-.
    destruct (Js.assoc k ps) as [v|] eqn:Ek; [|congruence].
    destruct (childInstances_assoc addr path ps b k v Hb Ek) as (a & Ha & Hincl).
    exists a. split; [assumption|]. now apply incl_appr.
Qed.

(** After [o[k] = x] on a property or an element that was there: the
    instances of the node and those of the new child are among those of the
    tree. *)
Lemma tree_set addr o path all k x nx cx :
  treeInstances other addr o path = Ok all -> Js.get o k <> JUndef ->
  nodeInstances other addr (Js.set o k x) path = Ok nx ->
  childTree other addr path k x = Ok cx ->
  exists all', treeInstances other addr (Js.set o k x) path = Ok all'
               /\ incl nx all' /\ incl cx all'.
Proof.
  destruct o as [| | | | |items|ps]; cbn [Js.get]; try congruence.
  - rewrite treeInstances_array. intros H Hk Hn Hx. apply bind_ok in H as (n & _ & H).
    apply bind_ok in H as (b & Hb & H). injection H as <-.
    destruct (Str.to_index k) as [i|] eqn:Ei; [|congruence].
    pose proof (to_index_inv _ _ Ei) as ->. cbn [Js.set] in *. rewrite Ei in *.
    destruct (elementInstances_itemSet addr path items 0 b i x cx Hb)
      as (all' & Hall' & Hincl); [now apply item_defined_lt|assumption|].
    rewrite treeInstances_array, Hn, Hall'. cbn [bind]. eexists. split; [reflexivity|].
    split; [now apply incl_appl|now apply incl_appr].
  - rewrite treeInstances_object. intros H Hk Hn Hx. apply bind_ok in H as (n & _ & H).
    apply bind_ok in H as (b & Hb & H). injection H as <-.
    destruct (Js.assoc k ps) as [v|] eqn:Ek; [|congruence]. cbn [Js.set] in *.
    destruct (childInstances_assocSet addr path ps b k v x cx Hb Ek Hx)
      as (all' & Hall' & Hincl).
    rewrite treeInstances_object, Hn, Hall'. cbn [bind]. eexists. split; [reflexivity|].
    split; [now apply incl_appl|now apply incl_appr].
Qed.

(** [recursiveExtract] reads four properties of a node. *)
Lemma nodeInstances_fields addr o o' path :
  Js.get o' "ty" = Js.get o "ty" -> Js.get o' "c" = Js.get o "c" ->
  Js.get o' "sc" = Js.get o "sc" -> Js.get o' "g" = Js.get o "g" ->
  nodeInstances other addr o' path = nodeInstances other addr o path.
Proof.
  intros Hty Hc Hsc Hg. unfold nodeInstances. apply emitted_ext. intros st.
  unfold extractNode, processFill, processStroke, processGradient.
  now rewrite Hty, Hc, Hsc, Hg.
Qed.

Lemma siteKey_inv k :
  negb (colorKey k || String.eqb k "ty") = true ->
  k <> "ty" /\ k <> "c" /\ k <> "sc" /\ k <> "g".
Proof.
  unfold colorKey. intros H. apply negb_true_iff in H.
  repeat (apply orb_false_iff in H as [H ?]).
  repeat match goal with E : String.eqb _ _ = false |- _ => apply String.eqb_neq in E end.
  auto.
Qed.

Lemma nodeInstances_set addr o path k x :
  negb (colorKey k || String.eqb k "ty") = true ->
  nodeInstances other addr (Js.set o k x) path = nodeInstances other addr o path.
Proof.
  intros H. apply siteKey_inv in H as (? & ? & ? & ?).
  apply nodeInstances_fields; apply get_set_other; assumption.
Qed.

End Steps.

Import ColorExtractor.

(** * The instances of a node inside a document *)

Section Trees.

Variable other : json -> float.

(** The instances of the node a list of keys leads to are among those of the
    tree. *)
Lemma tree_lookup keys : forall addr o path all,
  treeInstances other addr o path = Ok all ->
  Js.isObject (Js.lookup keys o) = true ->
  exists below,
    treeInstances other (addr ++ keys) (Js.lookup keys o) (fold_left Js.join keys path)
    = Ok below /\ incl below all.
Proof.
  induction keys as [|k keys IH]; intros addr o path all H Hobj.
  - exists all. rewrite app_nil_r. split; [assumption|apply incl_refl].
  - cbn [Js.lookup fold_left] in *.
    assert (Hchild : Js.isObject (Js.get o k) = true) by now apply (lookup_isObject keys).
    destruct (tree_child other addr o path all k H) as (a & Ha & Hincl).
    { now apply isObject_defined. }
    unfold childTree in Ha. rewrite (typeofObject_isObject _ Hchild) in Ha.
    destruct (IH _ _ _ _ Ha Hobj) as (below & Hbelow & Hincl').
    exists below. replace (addr ++ k :: keys) with ((addr ++ [k]) ++ keys)
      by now rewrite <- app_assoc.
    split; [assumption|]. eapply incl_tran; eauto.
Qed.

(** After the node is replaced, along keys that [recursiveExtract] does not
    read, the instances of the new node are among those of the new tree. *)
Lemma tree_update keys : forall addr o path all node below,
  siteKeys keys = true ->
  treeInstances other addr o path = Ok all ->
  Js.isObject (Js.lookup keys o) = true ->
  Js.isObject node = true ->
  treeInstances other (addr ++ keys) node (fold_left Js.join keys path) = Ok below ->
  exists all',
    treeInstances other addr (Js.update keys (fun _ => node) o) path = Ok all'
    /\ incl below all'.
Proof.
  induction keys as [|k keys IH]; intros addr o path all node below Hkeys H Hobj Hnode Hb.
  - exists below. rewrite app_nil_r in Hb. split; [assumption|apply incl_refl].
  - cbn [siteKeys forallb] in Hkeys. apply andb_true_iff in Hkeys as [Hk Hkeys].
    cbn [Js.lookup fold_left] in *.
    assert (Hchild : Js.isObject (Js.get o k) = true) by now apply (lookup_isObject keys).
    assert (Hdef : Js.get o k <> JUndef) by now apply isObject_defined.
    destruct (tree_child other addr o path all k H Hdef) as (a & Ha & _).
    unfold childTree in Ha. rewrite (typeofObject_isObject _ Hchild) in Ha.
    replace (addr ++ k :: keys) with ((addr ++ [k]) ++ keys) in Hb
      by now rewrite <- app_assoc.
    destruct (IH _ _ _ _ node below Hkeys Ha Hobj Hnode Hb) as (a' & Ha' & Hincl).
    destruct (tree_node other addr o path all H) as (n & Hn & _).
    rewrite update_defined by assumption.
    destruct (tree_set other addr o path all k
                (Js.update keys (fun _ => node) (Js.get o k)) n a' H Hdef)
      as (all' & Hall' & _ & Hincl').
    + now rewrite nodeInstances_set.
    + unfold childTree. rewrite typeofObject_isObject; [assumption|].
      now apply isObject_update.
    + exists all'. split; [assumption|]. eapply incl_tran; eauto.
Qed.

(** The instances of a node: those of its [c], then of its [sc], then of its
    [g]. *)
Lemma nodeInstances_split addr o path :
  nodeInstances other addr o path
  = (a <- fillInstances other addr o path ;;
     b <- strokeInstances other addr o path ;;
     c <- gradientInstances other addr o path ;;
     Ok (a ++ b ++ c)).
Proof.
  unfold nodeInstances, extractNode, fillInstances, strokeInstances, gradientInstances.
  rewrite (emitted_bind
             (fun st => if Js.truthy (Js.get o "c") && Js.truthy (Js.get (Js.get o "c") "k")
                        then processFill other addr o (Js.get o "ty") st (Js.join path "c")
                        else Ok st)).
  - apply bind_ext. intros a.
    rewrite (emitted_bind
               (fun st => if Js.truthy (Js.get o "sc") && Js.truthy (Js.get (Js.get o "sc") "k")
                          then processStroke other addr o st (Js.join path "sc")
                          else Ok st)).
    + rewrite bind_assoc. apply bind_ext. intros b.
      rewrite bind_assoc. apply bind_ext. intros c. reflexivity.
    + apply uniform_if, uniform_processStroke.
    + apply uniform_if, uniform_processGradient.
  - apply uniform_if, uniform_processFill.
  - apply (uniform_bind
             (fun st => if Js.truthy (Js.get o "sc") && Js.truthy (Js.get (Js.get o "sc") "k")
                        then processStroke other addr o st (Js.join path "sc")
                        else Ok st)).
    + apply uniform_if, uniform_processStroke.
    + apply uniform_if, uniform_processGradient.
Qed.

Lemma fillInstances_fields addr o o' path :
  Js.get o' "ty" = Js.get o "ty" -> Js.get o' "c" = Js.get o "c" ->
  fillInstances other addr o' path = fillInstances other addr o path.
Proof.
  intros Hty Hc. unfold fillInstances. apply emitted_ext. intros st.
  unfold processFill. now rewrite Hty, Hc.
Qed.

Lemma strokeInstances_fields addr o o' path :
  Js.get o' "sc" = Js.get o "sc" ->
  strokeInstances other addr o' path = strokeInstances other addr o path.
Proof.
  intros Hsc. unfold strokeInstances. apply emitted_ext. intros st.
  unfold processStroke. now rewrite Hsc.
Qed.

Lemma gradientInstances_fields addr o o' path :
  Js.get o' "ty" = Js.get o "ty" -> Js.get o' "g" = Js.get o "g" ->
  gradientInstances other addr o' path = gradientInstances other addr o path.
Proof.
  intros Hty Hg. unfold gradientInstances. apply emitted_ext. intros st.
  unfold processGradient. now rewrite Hty, Hg.
Qed.

End Trees.

(** ** [forEach] over an array one element of which is replaced *)

Lemma collecti_item {A : Type} (g : nat -> A -> outcome (list instance)) (d : A) xs :
  forall i0 all i,
    collecti g i0 xs = Ok all -> i < List.length xs ->
    exists a, g (i0 + i) (nth i xs d) = Ok a /\ incl a all.
Proof.
  induction xs as [|x xs IH]; intros i0 all i H Hi; [cbn in Hi; lia|].
  cbn [collecti] in H. apply bind_ok in H as (a0 & Ha0 & H).
  apply bind_ok in H as (b & Hb & H). injection H as <-.
  destruct i as [|i].
  - rewrite Nat.add_0_r. exists a0. split; [assumption|]. now apply incl_appl.
  - cbn [List.length] in Hi. destruct (IH (S i0) b i Hb) as (a & Ha & Hincl); [lia|].
    replace (i0 + S i) with (S i0 + i) by lia. cbn [nth].
    exists a. split; [assumption|]. now apply incl_appr.
Qed.

Lemma collecti_itemSet (g : nat -> json -> outcome (list instance)) xs :
  forall i0 all i x a',
    collecti g i0 xs = Ok all -> i < List.length xs ->
    g (i0 + i) x = Ok a' ->
    exists all', collecti g i0 (Js.itemSet i x xs) = Ok all' /\ incl a' all'.
Proof.
  induction xs as [|y xs IH]; intros i0 all i x a' H Hi Hx; [cbn in Hi; lia|].
  cbn [collecti] in H. apply bind_ok in H as (a0 & Ha0 & H).
  apply bind_ok in H as (b & Hb & H). injection H as <-.
  destruct i as [|i].
  - rewrite Nat.add_0_r in Hx. cbn [Js.itemSet collecti]. rewrite Hx, Hb. cbn [bind].
    eexists. split; [reflexivity|]. now apply incl_appl.
  - cbn [List.length] in Hi. replace (i0 + S i) with (S i0 + i) in Hx by lia.
    destruct (IH (S i0) b i x a' Hb) as (all' & Hall' & Hincl); [lia|assumption|].
    cbn [Js.itemSet collecti]. rewrite Ha0, Hall'. cbn [bind].
    eexists. split; [reflexivity|]. now apply incl_appr.
Qed.

(** A number written into an array, at any index, adds no instance and
    breaks none of the traversal. *)
Lemma elementInstances_number other addr path x : forall i items i0 all,
  Js.typeofObject x = false ->
  elementInstances other addr path i0 items = Ok all ->
  exists all', elementInstances other addr path i0 (Js.itemSet i x items) = Ok all'.
Proof.
  induction i as [|i IH]; intros items i0 all Hx H.
  - destruct items as [|y items]; cbn [Js.itemSet elementInstances].
    + unfold childTree. rewrite Hx. cbn. eauto.
    + cbn [elementInstances] in H. apply bind_ok in H as (a0 & _ & H).
      apply bind_ok in H as (b & Hb & _). unfold childTree. rewrite Hx, Hb. cbn. eauto.
  - destruct items as [|y items]; cbn [Js.itemSet elementInstances].
    + destruct (IH [] (S i0) [] Hx eq_refl) as (all' & ->). cbn. eauto.
    + cbn [elementInstances] in H. apply bind_ok in H as (a0 & Ha0 & H).
      apply bind_ok in H as (b & Hb & _).
      destruct (IH items (S i0) b Hx Hb) as (all' & ->). rewrite Ha0. cbn. eauto.
Qed.

Lemma treeInstances_number other addr path i x items all :
  Js.typeofObject x = false ->
  treeInstances other addr (JArr items) path = Ok all ->
  exists all', treeInstances other addr (JArr (Js.itemSet i x items)) path = Ok all'.
Proof.
  intros Hx. rewrite !treeInstances_array. intros H.
  apply bind_ok in H as (n & _ & H). apply bind_ok in H as (b & Hb & _).
  destruct (elementInstances_number other addr path x i items 0 b Hx Hb) as (all' & ->).
  cbn. eauto.
Qed.

(** ** Writing through an instance of a node *)

Section Written.

Variable other : json -> float.

(** The frame of a write through the reference of an instance: the
    instance is one of the node at [pre], the write rewrites that node, and
    the instance with its new hex is one of the rewritten node. *)
Lemma written_at_site doc insts groups pre tail inst newHex node' :
  extractColors other [] doc = Ok (insts, groups) ->
  siteKeys pre = true ->
  Js.isObject (Js.lookup pre doc) = true ->
  ref inst = pre ++ tail ->
  (forall n, nodeInstances other pre (Js.lookup pre doc) (pathOf pre) = Ok n -> In inst n) ->
  Js.update tail (ColorRenderer.writeRef inst (ColorUtils.hexToRgb newHex))
    (Js.lookup pre doc) = node' ->
  Js.isObject node' = true ->
  (forall below,
      treeInstances other pre (Js.lookup pre doc) (pathOf pre) = Ok below ->
      exists below', treeInstances other pre node' (pathOf pre) = Ok below'
                     /\ In (snd (ColorRenderer.handleColorInput doc inst newHex)) below') ->
  writtenThrough other doc inst newHex.
Proof.
  intros Hex Hpre Hobj Href Hin Hnode Hobj' Hwrite.
  assert (Hdoc : Js.isObject doc = true) by now apply (lookup_isObject pre).
  assert (Htree : treeInstances other [] doc "" = Ok insts)
    by (apply (extractColors_tree other [] doc Hdoc); eauto).
  destruct (tree_lookup other pre [] doc "" insts Htree Hobj) as (below & Hbelow & Hincl).
  cbn [app] in Hbelow. fold (pathOf pre) in Hbelow.
  destruct (tree_node other _ _ _ _ Hbelow) as (n & Hn & Hincl').
  destruct (Hwrite _ Hbelow) as (below' & Hbelow' & Hin').
  destruct (tree_update other pre [] doc "" insts node' below' Hpre Htree Hobj Hobj' Hbelow')
    as (insts' & Hinsts' & Hincl'').
  assert (Hdoc' : fst (ColorRenderer.handleColorInput doc inst newHex)
                  = Js.update pre (fun _ => node') doc).
  { cbn [ColorRenderer.handleColorInput fst]. unfold ColorRenderer.writeThrough.
    rewrite Href, update_app, update_const. now rewrite Hnode. }
  assert (Hobj'' : Js.isObject (Js.update pre (fun _ => node') doc) = true)
    by now apply isObject_update.
  destruct (proj2 (extractColors_tree other groups _ Hobj'' insts') Hinsts') as (groups' & Hex').
  exists insts, groups, insts', groups'. rewrite Hdoc'. repeat split.
  - assumption.
  - apply Hincl, Hincl', Hin, Hn.
  - assumption.
  - apply Hincl'', Hin'.
Qed.

Lemma tree_set_plain addr o path all k x cx :
  treeInstances other addr o path = Ok all -> Js.get o k <> JUndef ->
  negb (colorKey k || String.eqb k "ty") = true ->
  childTree other addr path k x = Ok cx ->
  exists all', treeInstances other addr (Js.set o k x) path = Ok all' /\ incl cx all'.
Proof.
  intros H Hk Hplain Hx. destruct (tree_node other _ _ _ _ H) as (n & Hn & _).
  destruct (tree_set other addr o path all k x n cx H Hk) as (all' & Hall' & _ & Hincl);
    try assumption; [now rewrite nodeInstances_set|eauto].
Qed.

Lemma tree_child_object addr o path all k :
  treeInstances other addr o path = Ok all -> Js.isObject (Js.get o k) = true ->
  exists a, treeInstances other (addr ++ [k]) (Js.get o k) (Js.join path k) = Ok a.
Proof.
  intros H Hobj. destruct (tree_child other addr o path all k H) as (a & Ha & _).
  { now apply isObject_defined. }
  unfold childTree in Ha. rewrite typeofObject_isObject in Ha by assumption. eauto.
Qed.

(** *** A static [c] or [sc] *)

Lemma solid_guard C :
  Js.isArray (Js.get C "k") = true ->
  Js.truthy C && Js.truthy (Js.get C "k") = true.
Proof.
  intros H. destruct (get_k_defined C) as (ps & ->); [now apply isArray_defined|].
  cbn [Js.truthy andb]. now apply isObject_truthy, isArray_isObject.
Qed.

Lemma fillInstances_static addr o path :
  Js.isOne (Js.get (Js.get o "c") "a") = false ->
  Js.isArray (Js.get (Js.get o "c") "k") = true ->
  fillInstances other addr o path
  = Ok [solidInstance other (solidKind "c" (Js.get o "ty")) (addr ++ ["c"])
          (Js.items (Js.get (Js.get o "c") "k")) (Js.join path "c")].
Proof.
  intros Ha Hk. unfold fillInstances. rewrite solid_guard by assumption.
  unfold processFill. rewrite Ha, Hk. reflexivity.
Qed.

Lemma strokeInstances_static addr o path :
  Js.isOne (Js.get (Js.get o "sc") "a") = false ->
  Js.isArray (Js.get (Js.get o "sc") "k") = true ->
  strokeInstances other addr o path
  = Ok [solidInstance other (solidKind "sc" (Js.get o "ty")) (addr ++ ["sc"])
          (Js.items (Js.get (Js.get o "sc") "k")) (Js.join path "sc")].
Proof.
  intros Ha Hk. unfold strokeInstances. rewrite solid_guard by assumption.
  unfold processStroke. rewrite Ha, Hk. reflexivity.
Qed.

(** The instances of a node whose [f] is a static colour hold its
    instance. *)
Lemma node_static addr o path f n :
  f = "c" \/ f = "sc" ->
  Js.isOne (Js.get (Js.get o f) "a") = false ->
  Js.isArray (Js.get (Js.get o f) "k") = true ->
  nodeInstances other addr o path = Ok n ->
  In (solidInstance other (solidKind f (Js.get o "ty")) (addr ++ [f])
        (Js.items (Js.get (Js.get o f) "k")) (Js.join path f)) n.
Proof.
  intros Hf Ha Hk. rewrite nodeInstances_split. intros H.
  apply bind_ok in H as (a & Hfill & H). apply bind_ok in H as (b & Hstroke & H).
  apply bind_ok in H as (c & _ & H). injection H as <-.
  destruct Hf as [->| ->].
  - rewrite fillInstances_static in Hfill by assumption. injection Hfill as <-.
    now left.
  - rewrite strokeInstances_static in Hstroke by assumption. injection Hstroke as <-.
    apply in_or_app. right. now left.
Qed.

(** After [o[f] = x] with [x] a static colour, when the node had instances:
    the node has instances, that of [x] among them. *)
Lemma node_static_set addr o path f x n :
  f = "c" \/ f = "sc" ->
  Js.get o f <> JUndef ->
  Js.isOne (Js.get x "a") = false ->
  Js.isArray (Js.get x "k") = true ->
  nodeInstances other addr o path = Ok n ->
  exists n', nodeInstances other addr (Js.set o f x) path = Ok n'
             /\ In (solidInstance other (solidKind f (Js.get o "ty")) (addr ++ [f])
                      (Js.items (Js.get x "k")) (Js.join path f)) n'.
Proof.
  intros Hf Hdef Ha Hk. rewrite !nodeInstances_split. intros H.
  apply bind_ok in H as (a & Hfill & H). apply bind_ok in H as (b & Hstroke & H).
  apply bind_ok in H as (c & Hgrad & H). injection H as <-.
  assert (Hty : Js.get (Js.set o f x) "ty" = Js.get o "ty")
    by (apply get_set_other; destruct Hf; subst; discriminate).
  assert (Hg : Js.get (Js.set o f x) "g" = Js.get o "g")
    by (apply get_set_other; destruct Hf; subst; discriminate).
  rewrite (gradientInstances_fields other addr o _ path Hty Hg), Hgrad.
  destruct Hf as [->| ->].
  - rewrite (strokeInstances_fields other addr o _ path), Hstroke
      by now apply get_set_other.
    rewrite fillInstances_static by (rewrite get_set_same by assumption; assumption).
    rewrite Hty, get_set_same by assumption. cbn [bind]. eexists. split; [reflexivity|].
    now left.
  - rewrite (fillInstances_fields other addr o _ path Hty), Hfill
      by now apply get_set_other.
    rewrite strokeInstances_static by (rewrite get_set_same by assumption; assumption).
    rewrite Hty, get_set_same by assumption. cbn [bind]. eexists. split; [reflexivity|].
    apply in_or_app. right. now left.
Qed.

End Written.

(** *** A keyframe of an animated [c] or [sc] *)

Section Keyframes.

Variable other : json -> float.

Lemma keyframe_emitted kind ref path i keyframe :
  Js.isArray (Js.get keyframe "s") = true ->
  emitted (keyframeColor other kind ref path i keyframe)
  = Ok [solidInstance other kind (ref ++ ["k"; Str.of_nat i])
          (Js.items (Js.get keyframe "s")) (path ++ ".k." ++ Str.of_nat i)].
Proof.
  intros Hs. unfold keyframeColor.
  destruct keyframe as [| | | | |items|ps]; try discriminate.
  cbn [Js.getChecked bind]. rewrite Hs, (isObject_truthy _ (isArray_isObject _ Hs)).
  reflexivity.
Qed.

Lemma fillInstances_keyframes addr o path :
  Js.isOne (Js.get (Js.get o "c") "a") = true ->
  Js.isArray (Js.get (Js.get o "c") "k") = true ->
  fillInstances other addr o path
  = collecti (fun i keyframe =>
                emitted (keyframeColor other (solidKind "c" (Js.get o "ty")) (addr ++ ["c"])
                           (Js.join path "c") i keyframe))
      0 (Js.items (Js.get (Js.get o "c") "k")).
Proof.
  intros Ha Hk. unfold fillInstances. rewrite solid_guard by assumption.
  unfold processFill. rewrite Ha, Hk.
  apply (uniform_foldi (keyframeColor other (fillKind (Js.get o "ty")) (addr ++ ["c"])
                          (Js.join path "c"))).
  intros. apply uniform_keyframeColor.
Qed.

Lemma strokeInstances_keyframes addr o path :
  Js.isOne (Js.get (Js.get o "sc") "a") = true ->
  Js.isArray (Js.get (Js.get o "sc") "k") = true ->
  strokeInstances other addr o path
  = collecti (fun i keyframe =>
                emitted (keyframeColor other (solidKind "sc" (Js.get o "ty")) (addr ++ ["sc"])
                           (Js.join path "sc") i keyframe))
      0 (Js.items (Js.get (Js.get o "sc") "k")).
Proof.
  intros Ha Hk. unfold strokeInstances. rewrite solid_guard by assumption.
  unfold processStroke. rewrite Ha, Hk. cbn [andb].
  apply (uniform_foldi (keyframeColor other ("stroke", "stroke") (addr ++ ["sc"])
                          (Js.join path "sc"))).
  intros. apply uniform_keyframeColor.
Qed.

Lemma solidInstances_keyframes addr o path f :
  f = "c" \/ f = "sc" ->
  Js.isOne (Js.get (Js.get o f) "a") = true ->
  Js.isArray (Js.get (Js.get o f) "k") = true ->
  (if String.eqb f "c" then fillInstances other addr o path
   else strokeInstances other addr o path)
  = collecti (fun i keyframe =>
                emitted (keyframeColor other (solidKind f (Js.get o "ty")) (addr ++ [f])
                           (Js.join path f) i keyframe))
      0 (Js.items (Js.get (Js.get o f) "k")).
Proof.
  intros [->| ->] Ha Hk; cbn [String.eqb Ascii.eqb Bool.eqb].
  - now apply fillInstances_keyframes.
  - now apply strokeInstances_keyframes.
Qed.

(** The instances of a node whose [f] is an animated colour hold that of
    each keyframe with an array [s]. *)
Lemma node_keyframe addr o path f i n :
  f = "c" \/ f = "sc" ->
  Js.isOne (Js.get (Js.get o f) "a") = true ->
  Js.isArray (Js.get (Js.get o f) "k") = true ->
  Js.isArray (Js.get (Js.item (Js.items (Js.get (Js.get o f) "k")) i) "s") = true ->
  nodeInstances other addr o path = Ok n ->
  In (solidInstance other (solidKind f (Js.get o "ty")) ((addr ++ [f]) ++ ["k"; Str.of_nat i])
        (Js.items (Js.get (Js.item (Js.items (Js.get (Js.get o f) "k")) i) "s"))
        (Js.join path f ++ ".k." ++ Str.of_nat i)) n.
Proof.
  intros Hf Ha Hk Hs. rewrite nodeInstances_split. intros H.
  apply bind_ok in H as (a & Hfill & H). apply bind_ok in H as (b & Hstroke & H).
  apply bind_ok in H as (c & _ & H). injection H as <-.
  assert (Hi : i < List.length (Js.items (Js.get (Js.get o f) "k"))).
  { apply item_defined_lt. intros E. now rewrite E in Hs. }
  pose proof (solidInstances_keyframes addr o path f Hf Ha Hk) as E.
  assert (Hin : forall all,
             collecti (fun i keyframe =>
                         emitted (keyframeColor other (solidKind f (Js.get o "ty"))
                                    (addr ++ [f]) (Js.join path f) i keyframe))
               0 (Js.items (Js.get (Js.get o f) "k")) = Ok all ->
             In (solidInstance other (solidKind f (Js.get o "ty"))
                   ((addr ++ [f]) ++ ["k"; Str.of_nat i])
                   (Js.items (Js.get (Js.item (Js.items (Js.get (Js.get o f) "k")) i) "s"))
                   (Js.join path f ++ ".k." ++ Str.of_nat i)) all).
  { intros all Hall.
    destruct (collecti_item _ JUndef _ 0 all i Hall Hi) as (x & Hx & Hincl).
    cbn [Nat.add] in Hx. fold (Js.item (Js.items (Js.get (Js.get o f) "k")) i) in Hx.
    rewrite keyframe_emitted in Hx by assumption. injection Hx as <-.
    apply Hincl. now left. }
  destruct Hf as [->| ->]; cbn [String.eqb Ascii.eqb Bool.eqb] in E.
  - rewrite E in Hfill. apply in_or_app. left. now apply Hin.
  - rewrite E in Hstroke. apply in_or_app. right. apply in_or_app. left. now apply Hin.
Qed.

(** After keyframe [i] of [o[f]] is replaced by one with an array [s], when
    the node had instances: the node has instances, that of the new keyframe
    among them. *)
Lemma node_keyframe_set addr o path f i keyframe n :
  f = "c" \/ f = "sc" ->
  Js.isOne (Js.get (Js.get o f) "a") = true ->
  Js.isArray (Js.get (Js.get o f) "k") = true ->
  i < List.length (Js.items (Js.get (Js.get o f) "k")) ->
  Js.isArray (Js.get keyframe "s") = true ->
  nodeInstances other addr o path = Ok n ->
  exists n',
    nodeInstances other addr
      (Js.set o f (Js.set (Js.get o f) "k"
                     (JArr (Js.itemSet i keyframe (Js.items (Js.get (Js.get o f) "k"))))))
      path = Ok n'
    /\ In (solidInstance other (solidKind f (Js.get o "ty"))
             ((addr ++ [f]) ++ ["k"; Str.of_nat i])
             (Js.items (Js.get keyframe "s")) (Js.join path f ++ ".k." ++ Str.of_nat i)) n'.
Proof.
  intros Hf Ha Hk Hi Hs. rewrite !nodeInstances_split. intros H.
  apply bind_ok in H as (a & Hfill & H). apply bind_ok in H as (b & Hstroke & H).
  apply bind_ok in H as (c & Hgrad & H). injection H as <-.
  assert (Hkdef : Js.get (Js.get o f) "k" <> JUndef) by now apply isArray_defined.
  assert (Hfdef : Js.get o f <> JUndef) by (intros E; now rewrite E in Hkdef).
  remember (Js.set (Js.get o f) "k"
              (JArr (Js.itemSet i keyframe (Js.items (Js.get (Js.get o f) "k"))))) as C'
    eqn:EC'.
  assert (Hty : Js.get (Js.set o f C') "ty" = Js.get o "ty")
    by (apply get_set_other; destruct Hf; subst; discriminate).
  assert (Hg : Js.get (Js.set o f C') "g" = Js.get o "g")
    by (apply get_set_other; destruct Hf; subst; discriminate).
  assert (Hf' : Js.get (Js.set o f C') f = C') by now apply get_set_same.
  assert (Ha' : Js.isOne (Js.get C' "a") = true)
    by (rewrite EC', get_set_other by discriminate; assumption).
  assert (Hk' : Js.get C' "k"
                = JArr (Js.itemSet i keyframe (Js.items (Js.get (Js.get o f) "k"))))
    by (rewrite EC'; now apply get_set_same).
  rewrite (gradientInstances_fields other addr o _ path Hty Hg), Hgrad.
  pose proof (solidInstances_keyframes addr o path f Hf Ha Hk) as E.
  pose proof (solidInstances_keyframes addr (Js.set o f C') path f Hf) as E'.
  rewrite Hf', Hk', Hty in E'. cbn [Js.items Js.isArray] in E'.
  specialize (E' Ha' eq_refl).
  assert (Hset : forall all,
             collecti (fun i keyframe =>
                         emitted (keyframeColor other (solidKind f (Js.get o "ty"))
                                    (addr ++ [f]) (Js.join path f) i keyframe))
               0 (Js.items (Js.get (Js.get o f) "k")) = Ok all ->
             exists all',
               collecti (fun i keyframe =>
                           emitted (keyframeColor other (solidKind f (Js.get o "ty"))
                                      (addr ++ [f]) (Js.join path f) i keyframe))
                 0 (Js.itemSet i keyframe (Js.items (Js.get (Js.get o f) "k"))) = Ok all'
               /\ In (solidInstance other (solidKind f (Js.get o "ty"))
                        ((addr ++ [f]) ++ ["k"; Str.of_nat i])
                        (Js.items (Js.get keyframe "s"))
                        (Js.join path f ++ ".k." ++ Str.of_nat i)) all').
  { intros all Hall.
    destruct (collecti_itemSet _ _ 0 all i keyframe _ Hall Hi
                (keyframe_emitted _ _ _ i keyframe Hs)) as (all' & Hall' & Hincl).
    exists all'. split; [assumption|]. apply Hincl. now left. }
  destruct Hf as [->| ->]; cbn [String.eqb Ascii.eqb Bool.eqb] in E, E'.
  - rewrite (strokeInstances_fields other addr o _ path), Hstroke
      by now apply get_set_other.
    rewrite E in Hfill. destruct (Hset _ Hfill) as (all' & Hall' & Hin).
    rewrite E', Hall'. cbn [bind]. eexists. split; [reflexivity|].
    apply in_or_app. now left.
  - rewrite (fillInstances_fields other addr o _ path Hty), Hfill
      by now apply get_set_other.
    rewrite E in Hstroke. destruct (Hset _ Hstroke) as (all' & Hall' & Hin).
    rewrite E', Hall'. cbn [bind]. eexists. split; [reflexivity|].
    apply in_or_app. right. apply in_or_app. now left.
Qed.

End Keyframes.

(** *** The stops of a gradient *)

Lemma collecti_ext {A : Type} (g g' : nat -> A -> outcome (list instance)) xs :
  (forall i x, g i x = g' i x) -> forall i0, collecti g i0 xs = collecti g' i0 xs.
Proof.
  intros E. induction xs as [|x xs IH]; intros i0; [reflexivity|].
  cbn [collecti]. now rewrite E, IH.
Qed.

Lemma item_writeStop_other arr i c j :
  j <= i \/ i + 3 < j -> Js.item (ColorRenderer.writeStop arr i c) j = Js.item arr j.
Proof.
  intros H. unfold ColorRenderer.writeStop. rewrite !item_itemSet_other by lia. reflexivity.
Qed.

Lemma item_writeStop arr i c :
  Js.item (ColorRenderer.writeStop arr i c) (i + 1)
  = JNum (Num.of_Z c.(ColorUtils.r) / 255)
  /\ Js.item (ColorRenderer.writeStop arr i c) (i + 2)
     = JNum (Num.of_Z c.(ColorUtils.g) / 255)
  /\ Js.item (ColorRenderer.writeStop arr i c) (i + 3)
     = JNum (Num.of_Z c.(ColorUtils.b) / 255).
Proof.
  unfold ColorRenderer.writeStop. repeat split.
  - rewrite !item_itemSet_other by lia. apply item_itemSet_same.
  - rewrite item_itemSet_other by lia. apply item_itemSet_same.
  - apply item_itemSet_same.
Qed.

Lemma length_writeStop arr i c :
  i + 3 < List.length arr -> List.length (ColorRenderer.writeStop arr i c) = List.length arr.
Proof.
  intros H. unfold ColorRenderer.writeStop.
  rewrite itemSet_length; rewrite itemSet_length; rewrite ?itemSet_length; lia.
Qed.

Section Stops.

Variable other : json -> float.

Lemma processGradientStops_count g g' kind arr ref path st :
  Js.get g' "p" = Js.get g "p" ->
  processGradientStops other g' kind arr ref path st
  = processGradientStops other g kind arr ref path st.
Proof. intros E. unfold processGradientStops, stopCountOf. now rewrite E. Qed.

Lemma stops_emitted g kind arr ref path stops :
  stopLoop (Js.ToNumber other (stopCountOf g arr) * 4) = Some stops ->
  emitted (processGradientStops other g kind arr ref path)
  = Ok (map (stopInstance other kind arr ref path (stopCountOf g arr)) stops).
Proof.
  intros E. unfold processGradientStops. rewrite E. apply emitted_adds.
Qed.

(** The stop count does not change when a stop inside the array, or a stop
    of a gradient with a count of its own, is written. *)
Lemma stopCountOf_written g g' arr i c :
  Js.get g' "p" = Js.get g "p" ->
  Js.truthy (Js.get g "p") = true \/ i + 3 < List.length arr ->
  stopCountOf g' (ColorRenderer.writeStop arr i c) = stopCountOf g arr.
Proof.
  intros E H. unfold stopCountOf. rewrite E.
  destruct (Js.truthy (Js.get g "p")); [reflexivity|].
  destruct H as [H|H]; [discriminate|]. now rewrite length_writeStop.
Qed.

(** The instance of a written stop. *)
Lemma stopInstance_written kind arr ref path n i r g b :
  (0 <= r <= 255)%Z -> (0 <= g <= 255)%Z -> (0 <= b <= 255)%Z ->
  stopInstance other kind
    (ColorRenderer.writeStop arr i
       {| ColorUtils.r := r; ColorUtils.g := g; ColorUtils.b := b |}) ref path n i
  = {| type := "gradient"; shapeType := kind; ref := ref;
       hex := ColorUtils.rgbToHex (Num.of_Z r) (Num.of_Z g) (Num.of_Z b);
       index := Some i; offset := Js.item arr i; stopCount := n;
       path := path ++ "." ++ Str.of_nat i |}.
Proof.
  intros Hr Hg Hb. unfold stopInstance.
  destruct (item_writeStop arr i {| ColorUtils.r := r; ColorUtils.g := g; ColorUtils.b := b |})
    as (E1 & E2 & E3).
  rewrite E1, E2, E3, item_writeStop_other by lia.
  cbn [Js.ToNumber ColorUtils.r ColorUtils.g ColorUtils.b]. unfold ColorUtils.rgbToHex.
  now rewrite !hexByte_normalized by assumption.
Qed.

(** The stops after a write: the same stops, the written one with its new
    hex. *)
Lemma stops_written g g' kind arr ref path stops i r g0 b :
  (0 <= r <= 255)%Z -> (0 <= g0 <= 255)%Z -> (0 <= b <= 255)%Z ->
  stopLoop (Js.ToNumber other (stopCountOf g arr) * 4) = Some stops -> In i stops ->
  Js.get g' "p" = Js.get g "p" ->
  Js.truthy (Js.get g "p") = true \/ i + 3 < List.length arr ->
  exists written,
    emitted (processGradientStops other g' kind
               (ColorRenderer.writeStop arr i
                  {| ColorUtils.r := r; ColorUtils.g := g0; ColorUtils.b := b |}) ref path)
    = Ok written
    /\ In {| type := "gradient"; shapeType := kind; ref := ref;
             hex := ColorUtils.rgbToHex (Num.of_Z r) (Num.of_Z g0) (Num.of_Z b);
             index := Some i; offset := Js.item arr i; stopCount := stopCountOf g arr;
             path := path ++ "." ++ Str.of_nat i |} written.
Proof.
  intros Hr Hg Hb Hstops Hi Hp Hbound.
  pose proof (stopCountOf_written g g' arr i
                {| ColorUtils.r := r; ColorUtils.g := g0; ColorUtils.b := b |} Hp Hbound) as Ec.
  eexists. split.
  - apply stops_emitted. rewrite Ec. exact Hstops.
  - rewrite Ec. rewrite <- (stopInstance_written kind arr ref path _ i r g0 b) by assumption.
    now apply in_map.
Qed.

Lemma gradient_guard G : Js.get G "k" <> JUndef -> Js.truthy G = true.
Proof. intros H. apply isObject_truthy. now apply (get_defined_isObject G "k"). Qed.

(** The three layouts of [processGradient]. *)
Lemma gradientInstances_direct addr o path :
  Js.isArray (Js.get (Js.get o "g") "k") = true ->
  gradientInstances other addr o path
  = emitted (processGradientStops other (Js.get o "g") (gradientKind (Js.get o "ty"))
               (Js.items (Js.get (Js.get o "g") "k")) (addr ++ ["g"])
               (Js.join path "g" ++ ".k")).
Proof.
  intros Hk. unfold gradientInstances.
  rewrite gradient_guard by now apply isArray_defined.
  unfold processGradient. fold (gradientKind (Js.get o "ty")).
  destruct (Js.get (Js.get o "g") "k") as [| | | | |arr|]; try discriminate. reflexivity.
Qed.

Lemma gradientInstances_nested addr o path :
  Js.isOne (Js.lookup ["g"; "k"; "a"] o) = false ->
  Js.isArray (Js.lookup ["g"; "k"; "k"] o) = true ->
  Js.isNumber (Js.item (Js.items (Js.lookup ["g"; "k"; "k"] o)) 0) = true ->
  gradientInstances other addr o path
  = emitted (processGradientStops other (Js.get o "g") (gradientKind (Js.get o "ty"))
               (Js.items (Js.lookup ["g"; "k"; "k"] o)) (addr ++ ["g"; "k"])
               (Js.join path "g" ++ ".k.k")).
Proof.
  cbn [Js.lookup]. intros Ha Hk Hn. unfold gradientInstances.
  assert (Hkk : Js.get (Js.get (Js.get o "g") "k") "k" <> JUndef) by now apply isArray_defined.
  destruct (get_k_defined _ Hkk) as (ps & EK).
  rewrite gradient_guard by (rewrite EK; discriminate).
  unfold processGradient. fold (gradientKind (Js.get o "ty")).
  assert (HKarr : Js.isArray (Js.get (Js.get o "g") "k") = false) by now rewrite EK.
  assert (HKt : Js.truthy (Js.get (Js.get o "g") "k") = true) by now rewrite EK.
  rewrite HKarr, HKt, Ha, Hk, Hn, (isObject_truthy _ (isArray_isObject _ Hk)).
  rewrite ?andb_false_r. reflexivity.
Qed.

Lemma gradientInstances_keyframes addr o path :
  Js.isOne (Js.lookup ["g"; "k"; "a"] o) = true ->
  Js.isArray (Js.lookup ["g"; "k"; "k"] o) = true ->
  gradientInstances other addr o path
  = collecti
      (fun j keyframe =>
         emitted (fun st =>
                    if Js.truthy keyframe && Js.isArray (Js.get keyframe "s") then
                      processGradientStops other (Js.get o "g") (gradientKind (Js.get o "ty"))
                        (Js.items (Js.get keyframe "s"))
                        (addr ++ ["g"; "k"; "k"; Str.of_nat j])
                        (Js.join path "g" ++ ".k.k." ++ Str.of_nat j ++ ".s") st
                    else Ok st))
      0 (Js.items (Js.lookup ["g"; "k"; "k"] o)).
Proof.
  cbn [Js.lookup]. intros Ha Hk. unfold gradientInstances.
  assert (Hkk : Js.get (Js.get (Js.get o "g") "k") "k" <> JUndef) by now apply isArray_defined.
  destruct (get_k_defined _ Hkk) as (ps & EK).
  rewrite gradient_guard by (rewrite EK; discriminate).
  unfold processGradient. fold (gradientKind (Js.get o "ty")).
  assert (HKarr : Js.isArray (Js.get (Js.get o "g") "k") = false) by now rewrite EK.
  assert (HKt : Js.truthy (Js.get (Js.get o "g") "k") = true) by now rewrite EK.
  rewrite HKarr, HKt, Ha, Hk. rewrite ?andb_false_r. cbn [andb].
  apply (uniform_foldi
           (fun j keyframe st =>
              if Js.truthy keyframe && Js.isArray (Js.get keyframe "s") then
                processGradientStops other (Js.get o "g") (gradientKind (Js.get o "ty"))
                  (Js.items (Js.get keyframe "s"))
                  (addr ++ ["g"; "k"; "k"; Str.of_nat j])
                  (Js.join path "g" ++ ".k.k." ++ Str.of_nat j ++ ".s") st
              else Ok st)).
  intros j x. destruct (_ && _); [apply uniform_processGradientStops|apply uniform_ret].
Qed.

(** The instances of the gradient of a node are among those of the node;
    after [o.g = x] the node has instances when it had some, those of the new
    gradient among them. *)
Lemma node_gradient_instances addr o path n :
  nodeInstances other addr o path = Ok n ->
  exists gl, gradientInstances other addr o path = Ok gl /\ incl gl n.
Proof.
  rewrite nodeInstances_split. intros H.
  apply bind_ok in H as (a & _ & H). apply bind_ok in H as (b & _ & H).
  apply bind_ok in H as (c & Hc & H). injection H as <-.
  exists c. split; [assumption|]. now apply incl_appr, incl_appr.
Qed.

Lemma node_gradient_set addr o path x n gl :
  nodeInstances other addr o path = Ok n ->
  gradientInstances other addr (Js.set o "g" x) path = Ok gl ->
  exists n', nodeInstances other addr (Js.set o "g" x) path = Ok n' /\ incl gl n'.
Proof.
  rewrite !nodeInstances_split. intros H Hg.
  apply bind_ok in H as (a & Ha & H). apply bind_ok in H as (b & Hb & H).
  rewrite (fillInstances_fields other addr o _ path), Ha
    by (apply get_set_other; discriminate).
  rewrite (strokeInstances_fields other addr o _ path), Hb
    by (apply get_set_other; discriminate).
  rewrite Hg. cbn [bind]. eexists. split; [reflexivity|]. now apply incl_appr, incl_appr.
Qed.

(** The traversal of an array of stops after a write. *)
Lemma treeInstances_writeStop addr path arr i c all :
  treeInstances other addr (JArr arr) path = Ok all ->
  exists all', treeInstances other addr (JArr (ColorRenderer.writeStop arr i c)) path = Ok all'.
Proof.
  intros H. unfold ColorRenderer.writeStop.
  destruct (treeInstances_number other addr path (i + 1)
              (JNum (Num.of_Z (ColorUtils.r c) / 255)) arr all eq_refl H) as (a1 & H1).
  destruct (treeInstances_number other addr path (i + 2)
              (JNum (Num.of_Z (ColorUtils.g c) / 255)) _ a1 eq_refl H1) as (a2 & H2).
  apply (treeInstances_number other addr path (i + 3)
           (JNum (Num.of_Z (ColorUtils.b c) / 255)) _ a2 eq_refl H2).
Qed.

End Stops.

Import ColorExtractor.

(** * C6: writing through an instance *)

Lemma solidKind_type f shapeType :
  String.eqb (fst (solidKind f shapeType)) "solid"
  || String.eqb (fst (solidKind f shapeType)) "stroke" = true.
Proof.
  unfold solidKind, fillKind.
  destruct (String.eqb f "c"); [|reflexivity].
  destruct (Js.isStr shapeType "fl"); [reflexivity|].
  destruct (Js.isStr shapeType "st"); reflexivity.
Qed.

Lemma hasOwn_defined v k : Js.get v k <> JUndef -> Js.isArray v = false -> Js.hasOwn v k = true.
Proof.
  destruct v; cbn; try congruence. now destruct (Js.assoc k props).
Qed.

Section WriteThrough.

Variable other : json -> float.

(** The hex the extractor reads back from the channels [handleColorInput]
    writes. *)
Lemma rgbaToHex_normalized r g b :
  (0 <= r <= 255)%Z -> (0 <= g <= 255)%Z -> (0 <= b <= 255)%Z ->
  rgbaToHex other
    (ColorRenderer.normalized {| ColorUtils.r := r; ColorUtils.g := g; ColorUtils.b := b |})
  = ColorUtils.rgbToHex (Num.of_Z r) (Num.of_Z g) (Num.of_Z b).
Proof.
  intros Hr Hg Hb. unfold rgbaToHex, ColorRenderer.normalized, ColorUtils.rgbToHex.
  cbn [Js.item nth Js.ToNumber ColorUtils.r ColorUtils.g ColorUtils.b].
  now rewrite !hexByte_normalized by assumption.
Qed.

(** A static [c] or [sc] whose property has no [s] of its own. *)
Lemma written_static doc insts groups pre f r g b :
  extractColors other [] doc = Ok (insts, groups) ->
  siteKeys pre = true -> f = "c" \/ f = "sc" ->
  (0 <= r <= 255)%Z -> (0 <= g <= 255)%Z -> (0 <= b <= 255)%Z ->
  Js.isOne (Js.lookup (pre ++ [f; "a"]) doc) = false ->
  Js.isArray (Js.lookup (pre ++ [f; "k"]) doc) = true ->
  Js.hasOwn (Js.lookup (pre ++ [f]) doc) "s" = false ->
  writtenThrough other doc
    (solidInstance other (solidKind f (Js.lookup (pre ++ ["ty"]) doc)) (pre ++ [f])
       (Js.items (Js.lookup (pre ++ [f; "k"]) doc)) (pathOf (pre ++ [f])))
    (ColorUtils.rgbToHex (Num.of_Z r) (Num.of_Z g) (Num.of_Z b)).
Proof.
  intros Hex Hpre Hf Hr Hg Hb Ha Hk Hs.
  rewrite !lookup_app in *. cbn [Js.lookup] in *. rewrite pathOf_snoc.
  remember (Js.lookup pre doc) as X eqn:EX. remember (Js.get X f) as C eqn:EC.
  remember {| ColorUtils.r := r; ColorUtils.g := g; ColorUtils.b := b |} as rgb eqn:Ergb.
  assert (HC : Js.get C "k" <> JUndef) by now apply isArray_defined.
  assert (HCobj : Js.isObject C = true) by now apply (get_defined_isObject C "k").
  assert (HCdef : Js.get X f <> JUndef) by (rewrite <- EC; now apply isObject_defined).
  assert (HX : Js.isObject X = true) by now apply (get_defined_isObject X f).
  assert (HCarr : Js.isArray C = false)
    by (destruct (get_k_defined C HC) as (ps & E); now rewrite E).
  apply (written_at_site other doc insts groups pre [f] _ _
           (Js.set X f (Js.set C "k" (JArr (ColorRenderer.normalized rgb)))));
    rewrite <- ?EX; try assumption.
  - reflexivity.
  - intros n Hn. rewrite EC.
    apply (node_static other pre X (pathOf pre) f n); rewrite <- ?EC; assumption.
  - rewrite hexToRgb_bytes by assumption. rewrite <- Ergb.
    rewrite update_defined by assumption. cbn [Js.update]. rewrite <- EC. f_equal.
    unfold ColorRenderer.writeRef. cbn [type solidInstance].
    rewrite solidKind_type, Hs, (hasOwn_defined C "k") by assumption. reflexivity.
  - now rewrite isObject_set.
  - intros below Hbelow.
    destruct (tree_child_object other pre X (pathOf pre) below f Hbelow) as (a & Ha');
      [now rewrite <- EC|]. rewrite <- EC in Ha'.
    destruct (tree_set_plain other _ C _ a "k" (JArr (ColorRenderer.normalized rgb)) []
                Ha' HC eq_refl eq_refl) as (a' & Ha'' & _).
    destruct (tree_node other _ _ _ _ Hbelow) as (n & Hn & _).
    destruct (node_static_set other pre X (pathOf pre) f
                (Js.set C "k" (JArr (ColorRenderer.normalized rgb))) n Hf HCdef)
      as (n' & Hn' & Hin); try assumption.
    { now rewrite get_set_other. }
    { now rewrite get_set_same. }
    destruct (tree_set other pre X (pathOf pre) below f
                (Js.set C "k" (JArr (ColorRenderer.normalized rgb))) n' a' Hbelow HCdef Hn')
      as (below' & Hbelow' & Hincl & _).
    { unfold childTree. rewrite typeofObject_isObject by now rewrite isObject_set.
      assumption. }
    exists below'. split; [assumption|]. apply Hincl.
    rewrite get_set_same in Hin by assumption. cbn [Js.items] in Hin.
    unfold solidInstance in *. cbn [ColorRenderer.handleColorInput snd type shapeType ref
      hex index offset stopCount path].
    rewrite Ergb, rgbaToHex_normalized in Hin by assumption. exact Hin.
Qed.


Lemma siteKey_index i : negb (colorKey (Str.of_nat i) || String.eqb (Str.of_nat i) "ty") = true.
Proof.
  rewrite of_nat_plain. cbn [orb]. apply negb_true_iff, String.eqb_neq.
  intros E. apply (f_equal Str.to_index) in E. now rewrite to_index_of_nat in E.
Qed.

Lemma set_array_index items i x :
  Js.set (JArr items) (Str.of_nat i) x = JArr (Js.itemSet i x items).
Proof. cbn. now rewrite to_index_of_nat. Qed.

(** A keyframe of an animated [c] or [sc]. *)
Lemma written_keyframe doc insts groups pre f i r g b :
  extractColors other [] doc = Ok (insts, groups) ->
  siteKeys pre = true -> f = "c" \/ f = "sc" ->
  (0 <= r <= 255)%Z -> (0 <= g <= 255)%Z -> (0 <= b <= 255)%Z ->
  Js.isOne (Js.lookup (pre ++ [f; "a"]) doc) = true ->
  Js.isArray (Js.lookup (pre ++ [f; "k"]) doc) = true ->
  Js.isArray (Js.lookup (pre ++ [f; "k"; Str.of_nat i; "s"]) doc) = true ->
  writtenThrough other doc
    (solidInstance other (solidKind f (Js.lookup (pre ++ ["ty"]) doc))
       (pre ++ [f; "k"; Str.of_nat i])
       (Js.items (Js.lookup (pre ++ [f; "k"; Str.of_nat i; "s"]) doc))
       (pathOf (pre ++ [f; "k"; Str.of_nat i])))
    (ColorUtils.rgbToHex (Num.of_Z r) (Num.of_Z g) (Num.of_Z b)).
Proof.
  intros Hex Hpre Hf Hr Hg Hb Ha Hk Hs.
  rewrite pathOf_keyframe by (destruct Hf; subst; discriminate).
  rewrite !lookup_app in *. cbn [Js.lookup] in *.
  remember (Js.lookup pre doc) as X eqn:EX. remember (Js.get X f) as C eqn:EC.
  remember {| ColorUtils.r := r; ColorUtils.g := g; ColorUtils.b := b |} as rgb eqn:Ergb.
  destruct (Js.get C "k") as [| | | | |kfs|] eqn:EK; try discriminate.
  rewrite get_array_index in *.
  remember (Js.item kfs i) as kf eqn:Ekf.
  assert (Hsdef : Js.get kf "s" <> JUndef) by now apply isArray_defined.
  assert (Hkfobj : Js.isObject kf = true) by now apply (get_defined_isObject kf "s").
  assert (Hkfarr : Js.isArray kf = false)
    by (destruct kf; try discriminate; reflexivity).
  assert (Hi : i < List.length kfs)
    by (apply item_defined_lt; rewrite <- Ekf; now apply isObject_defined).
  assert (HKdef : Js.get C "k" <> JUndef) by (rewrite EK; discriminate).
  assert (HCobj : Js.isObject C = true) by now apply (get_defined_isObject C "k").
  assert (HCdef : Js.get X f <> JUndef) by (rewrite <- EC; now apply isObject_defined).
  assert (HX : Js.isObject X = true) by now apply (get_defined_isObject X f).
  assert (Hidef : Js.get (JArr kfs) (Str.of_nat i) <> JUndef)
    by (rewrite get_array_index, <- Ekf; now apply isObject_defined).
  replace (pre ++ [f; "k"; Str.of_nat i]) with ((pre ++ [f]) ++ ["k"; Str.of_nat i])
    by now rewrite <- app_assoc.
  apply (written_at_site other doc insts groups pre [f; "k"; Str.of_nat i] _ _
           (Js.set X f (Js.set C "k"
                          (JArr (Js.itemSet i (Js.set kf "s" (JArr (ColorRenderer.normalized rgb)))
                                   kfs)))));
    rewrite <- ?EX; try assumption.
  - cbn [ref solidInstance]. now rewrite <- app_assoc.
  - intros n Hn. rewrite Ekf.
    replace kfs with (Js.items (Js.get (Js.get X f) "k")) by now rewrite <- EC, EK.
    apply (node_keyframe other pre X (pathOf pre) f i n); rewrite <- ?EC, ?EK;
      cbn [Js.items]; rewrite <- ?Ekf; try assumption; reflexivity.
  - rewrite hexToRgb_bytes by assumption. rewrite <- Ergb.
    rewrite update_defined by assumption. rewrite <- EC.
    rewrite update_defined by assumption. rewrite EK.
    rewrite update_defined by assumption. cbn [Js.update].
    rewrite get_array_index, <- Ekf, set_array_index. do 4 f_equal.
    unfold ColorRenderer.writeRef. cbn [type solidInstance].
    rewrite solidKind_type, (hasOwn_defined kf "s") by assumption. reflexivity.
  - now rewrite isObject_set.
  - intros below Hbelow.
    destruct (tree_child_object other pre X (pathOf pre) below f Hbelow) as (a & Ha');
      [now rewrite <- EC|]. rewrite <- EC in Ha'.
    destruct (tree_child_object other _ C _ a "k" Ha') as (ak & Hak); [now rewrite EK|].
    rewrite EK in Hak.
    destruct (tree_child_object other _ (JArr kfs) _ ak (Str.of_nat i) Hak) as (ai & Hai);
      [now rewrite get_array_index, <- Ekf|]. rewrite get_array_index, <- Ekf in Hai.
    destruct (tree_set_plain other _ kf _ ai "s" (JArr (ColorRenderer.normalized rgb)) []
                Hai Hsdef eq_refl eq_refl) as (ai' & Hai' & _).
    destruct (tree_set_plain other _ (JArr kfs) _ ak (Str.of_nat i)
                (Js.set kf "s" (JArr (ColorRenderer.normalized rgb))) ai'
                Hak Hidef (siteKey_index i)) as (ak' & Hak' & _).
    { unfold childTree. rewrite typeofObject_isObject by now rewrite isObject_set.
      assumption. }
    rewrite set_array_index in Hak'.
    destruct (tree_set_plain other _ C _ a "k"
                (JArr (Js.itemSet i (Js.set kf "s" (JArr (ColorRenderer.normalized rgb))) kfs))
                ak' Ha' HKdef eq_refl) as (a' & Ha'' & _).
    { exact Hak'. }
    destruct (tree_node other _ _ _ _ Hbelow) as (n & Hn & _).
    destruct (node_keyframe_set other pre X (pathOf pre) f i
                (Js.set kf "s" (JArr (ColorRenderer.normalized rgb))) n Hf)
      as (n' & Hn' & Hin); rewrite <- ?EC, ?EK; cbn [Js.items]; try assumption;
      try reflexivity.
    { now rewrite get_set_same. }
    rewrite <- EC, EK in Hn'. cbn [Js.items] in Hn'.
    destruct (tree_set other pre X (pathOf pre) below f _ n' a' Hbelow HCdef Hn')
      as (below' & Hbelow' & Hincl & _).
    { unfold childTree. rewrite typeofObject_isObject by now rewrite isObject_set.
      assumption. }
    exists below'. split; [assumption|]. apply Hincl.
    rewrite get_set_same in Hin by assumption. cbn [Js.items] in Hin.
    unfold solidInstance in *. cbn [ColorRenderer.handleColorInput snd type shapeType ref
      hex index offset stopCount path].
    rewrite Ergb, rgbaToHex_normalized in Hin by assumption. exact Hin.
Qed.


Lemma pathOf_gradient_direct pre :
  pathOf (pre ++ ["g"; "k"]) = (Js.join (pathOf pre) "g" ++ ".k")%string.
Proof.
  rewrite pathOf_app. cbn [fold_left].
  now rewrite (join_nonempty _ "k") by now apply join_defined.
Qed.

Lemma pathOf_gradient_nested pre :
  pathOf (pre ++ ["g"; "k"; "k"]) = (Js.join (pathOf pre) "g" ++ ".k.k")%string.
Proof.
  rewrite pathOf_app. cbn [fold_left].
  assert (Hp : Js.join (pathOf pre) "g" <> "") by now apply join_defined.
  rewrite (join_nonempty _ "k" Hp).
  rewrite (join_nonempty _ "k") by now apply string_app_nonempty.
  now rewrite !string_app_assoc.
Qed.

Lemma pathOf_gradient_keyframe pre j :
  pathOf (pre ++ ["g"; "k"; "k"; Str.of_nat j; "s"])
  = (Js.join (pathOf pre) "g" ++ ".k.k." ++ Str.of_nat j ++ ".s")%string.
Proof.
  rewrite pathOf_app. cbn [fold_left].
  assert (Hp : Js.join (pathOf pre) "g" <> "") by now apply join_defined.
  rewrite (join_nonempty _ "k" Hp).
  rewrite (join_nonempty _ "k") by now apply string_app_nonempty.
  rewrite (join_nonempty _ (Str.of_nat j)) by now repeat apply string_app_nonempty.
  rewrite (join_nonempty _ "s") by now repeat apply string_app_nonempty.
  now rewrite !string_app_assoc.
Qed.

(** What [handleColorInput] does to the object a gradient instance refers
    to, when the stops are in its [k] and it has no array [s]. *)
Lemma writeRef_gradient_k inst i c refObj :
  type inst = "gradient" -> index inst = Some i ->
  Js.hasOwn refObj "s" && Js.isArray (Js.get refObj "s") = false ->
  Js.isArray (Js.get refObj "k") = true ->
  ColorRenderer.writeRef inst c refObj
  = Js.set refObj "k" (JArr (ColorRenderer.writeStop (Js.items (Js.get refObj "k")) i c)).
Proof.
  intros Ht Hi Hs Hk. unfold ColorRenderer.writeRef. rewrite Ht, Hi, Hs, Hk.
  cbn [String.eqb Ascii.eqb Bool.eqb orb andb].
  rewrite hasOwn_defined; [reflexivity|now apply isArray_defined|].
  destruct (get_k_defined refObj) as (ps & ->); [now apply isArray_defined|reflexivity].
Qed.

Lemma writeRef_gradient_s inst i c refObj :
  type inst = "gradient" -> index inst = Some i ->
  Js.isArray (Js.get refObj "s") = true ->
  ColorRenderer.writeRef inst c refObj
  = Js.set refObj "s" (JArr (ColorRenderer.writeStop (Js.items (Js.get refObj "s")) i c)).
Proof.
  intros Ht Hi Hs. unfold ColorRenderer.writeRef. rewrite Ht, Hi, Hs.
  cbn [String.eqb Ascii.eqb Bool.eqb orb andb].
  rewrite hasOwn_defined; [reflexivity|now apply isArray_defined|].
  destruct refObj; try discriminate; reflexivity.
Qed.

(** A stop of a gradient whose [k] is the array of stops. *)
Lemma written_stop_direct doc insts groups pre stops i r g b :
  extractColors other [] doc = Ok (insts, groups) ->
  siteKeys pre = true ->
  (0 <= r <= 255)%Z -> (0 <= g <= 255)%Z -> (0 <= b <= 255)%Z ->
  Js.isArray (Js.lookup (pre ++ ["g"; "k"]) doc) = true ->
  Js.hasOwn (Js.lookup (pre ++ ["g"]) doc) "s"
  && Js.isArray (Js.lookup (pre ++ ["g"; "s"]) doc) = false ->
  stopLoop (Js.ToNumber other
              (stopCountOf (Js.lookup (pre ++ ["g"]) doc)
                 (Js.items (Js.lookup (pre ++ ["g"; "k"]) doc))) * 4) = Some stops ->
  In i stops ->
  Js.truthy (Js.lookup (pre ++ ["g"; "p"]) doc) = true
  \/ i + 3 < List.length (Js.items (Js.lookup (pre ++ ["g"; "k"]) doc)) ->
  writtenThrough other doc
    (stopInstance other (gradientKind (Js.lookup (pre ++ ["ty"]) doc))
       (Js.items (Js.lookup (pre ++ ["g"; "k"]) doc)) (pre ++ ["g"])
       (pathOf (pre ++ ["g"; "k"]))
       (stopCountOf (Js.lookup (pre ++ ["g"]) doc)
          (Js.items (Js.lookup (pre ++ ["g"; "k"]) doc))) i)
    (ColorUtils.rgbToHex (Num.of_Z r) (Num.of_Z g) (Num.of_Z b)).
Proof.
  intros Hex Hpre Hr Hg Hb Hk Hs Hstops Hi Hbound.
  rewrite pathOf_gradient_direct. rewrite !lookup_app in *. cbn [Js.lookup] in *.
  remember (Js.lookup pre doc) as X eqn:EX. remember (Js.get X "g") as G eqn:EG.
  remember {| ColorUtils.r := r; ColorUtils.g := g; ColorUtils.b := b |} as rgb eqn:Ergb.
  destruct (Js.get G "k") as [| | | | |arr|] eqn:EK; try discriminate.
  cbn [Js.items] in *.
  assert (HKdef : Js.get G "k" <> JUndef) by (rewrite EK; discriminate).
  assert (HGobj : Js.isObject G = true) by now apply (get_defined_isObject G "k").
  assert (HGdef : Js.get X "g" <> JUndef) by (rewrite <- EG; now apply isObject_defined).
  assert (HX : Js.isObject X = true) by now apply (get_defined_isObject X "g").
  apply (written_at_site other doc insts groups pre ["g"] _ _
           (Js.set X "g" (Js.set G "k" (JArr (ColorRenderer.writeStop arr i rgb)))));
    rewrite <- ?EX; try assumption.
  - reflexivity.
  - intros n Hn. destruct (node_gradient_instances other _ _ _ _ Hn) as (gl & Hgl & Hincl).
    rewrite gradientInstances_direct in Hgl by now rewrite <- EG, EK.
    rewrite <- EG, EK in Hgl. cbn [Js.items] in Hgl.
    rewrite (stops_emitted other _ _ _ _ _ stops Hstops) in Hgl. injection Hgl as <-.
    apply Hincl. now apply in_map.
  - rewrite hexToRgb_bytes by assumption. rewrite <- Ergb.
    rewrite update_defined by assumption. cbn [Js.update]. rewrite <- EG. f_equal.
    rewrite (writeRef_gradient_k _ i) by (rewrite ?EK; try reflexivity; assumption).
    now rewrite EK.
  - now rewrite isObject_set.
  - intros below Hbelow. subst rgb.
    destruct (tree_child_object other pre X (pathOf pre) below "g" Hbelow) as (a & Ha');
      [now rewrite <- EG|]. rewrite <- EG in Ha'.
    destruct (tree_child_object other _ G _ a "k" Ha') as (ak & Hak); [now rewrite EK|].
    rewrite EK in Hak.
    destruct (treeInstances_writeStop other _ _ arr i
                {| ColorUtils.r := r; ColorUtils.g := g; ColorUtils.b := b |} ak Hak)
      as (ak' & Hak').
    destruct (tree_set_plain other _ G _ a "k"
                (JArr (ColorRenderer.writeStop arr i
                         {| ColorUtils.r := r; ColorUtils.g := g; ColorUtils.b := b |}))
                ak' Ha' HKdef eq_refl Hak') as (a' & Ha'' & _).
    destruct (tree_node other _ _ _ _ Hbelow) as (n & Hn & _).
    destruct (stops_written other G
                (Js.set G "k"
                   (JArr (ColorRenderer.writeStop arr i
                            {| ColorUtils.r := r; ColorUtils.g := g; ColorUtils.b := b |})))
                (gradientKind (Js.get X "ty")) arr (pre ++ ["g"])
                (Js.join (pathOf pre) "g" ++ ".k") stops i r g b Hr Hg Hb Hstops Hi)
      as (written & Hwritten & Hin); [now apply get_set_other|assumption|].
    destruct (node_gradient_set other pre X (pathOf pre)
                (Js.set G "k"
                   (JArr (ColorRenderer.writeStop arr i
                            {| ColorUtils.r := r; ColorUtils.g := g; ColorUtils.b := b |})))
                n written Hn)
      as (n' & Hn' & Hincl).
    { rewrite gradientInstances_direct;
        rewrite !get_set_same by assumption; rewrite ?get_set_other by discriminate;
        [|reflexivity].
      cbn [Js.items]. exact Hwritten. }
    destruct (tree_set other pre X (pathOf pre) below "g" _ n' a' Hbelow HGdef Hn')
      as (below' & Hbelow' & Hincl' & _).
    { unfold childTree. rewrite typeofObject_isObject by now rewrite isObject_set.
      assumption. }
    exists below'. split; [assumption|]. apply Hincl', Hincl. exact Hin.
Qed.


(** A stop of a gradient whose [k.k] is the array of stops. *)
Lemma written_stop_nested doc insts groups pre stops i r g b :
  extractColors other [] doc = Ok (insts, groups) ->
  siteKeys pre = true ->
  (0 <= r <= 255)%Z -> (0 <= g <= 255)%Z -> (0 <= b <= 255)%Z ->
  Js.isOne (Js.lookup (pre ++ ["g"; "k"; "a"]) doc) = false ->
  Js.isArray (Js.lookup (pre ++ ["g"; "k"; "k"]) doc) = true ->
  Js.isNumber (Js.item (Js.items (Js.lookup (pre ++ ["g"; "k"; "k"]) doc)) 0) = true ->
  Js.hasOwn (Js.lookup (pre ++ ["g"; "k"]) doc) "s"
  && Js.isArray (Js.lookup (pre ++ ["g"; "k"; "s"]) doc) = false ->
  stopLoop (Js.ToNumber other
              (stopCountOf (Js.lookup (pre ++ ["g"]) doc)
                 (Js.items (Js.lookup (pre ++ ["g"; "k"; "k"]) doc))) * 4) = Some stops ->
  In i stops ->
  Js.truthy (Js.lookup (pre ++ ["g"; "p"]) doc) = true
  \/ i + 3 < List.length (Js.items (Js.lookup (pre ++ ["g"; "k"; "k"]) doc)) ->
  writtenThrough other doc
    (stopInstance other (gradientKind (Js.lookup (pre ++ ["ty"]) doc))
       (Js.items (Js.lookup (pre ++ ["g"; "k"; "k"]) doc)) (pre ++ ["g"; "k"])
       (pathOf (pre ++ ["g"; "k"; "k"]))
       (stopCountOf (Js.lookup (pre ++ ["g"]) doc)
          (Js.items (Js.lookup (pre ++ ["g"; "k"; "k"]) doc))) i)
    (ColorUtils.rgbToHex (Num.of_Z r) (Num.of_Z g) (Num.of_Z b)).
Proof.
  intros Hex Hpre Hr Hg Hb Ha Hk Hnum Hs Hstops Hi Hbound.
  rewrite pathOf_gradient_nested. rewrite !lookup_app in *. cbn [Js.lookup] in *.
  remember (Js.lookup pre doc) as X eqn:EX. remember (Js.get X "g") as G eqn:EG.
  remember (Js.get G "k") as K eqn:EK.
  destruct (Js.get K "k") as [| | | | |arr|] eqn:EKK; try discriminate.
  cbn [Js.items] in *.
  assert (HKKdef : Js.get K "k" <> JUndef) by (rewrite EKK; discriminate).
  assert (HKobj : Js.isObject K = true) by now apply (get_defined_isObject K "k").
  assert (HKdef : Js.get G "k" <> JUndef) by (rewrite <- EK; now apply isObject_defined).
  assert (HGobj : Js.isObject G = true) by now apply (get_defined_isObject G "k").
  assert (HGdef : Js.get X "g" <> JUndef) by (rewrite <- EG; now apply isObject_defined).
  assert (HX : Js.isObject X = true) by now apply (get_defined_isObject X "g").
  apply (written_at_site other doc insts groups pre ["g"; "k"] _ _
           (Js.set X "g"
              (Js.set G "k"
                 (Js.set K "k"
                    (JArr (ColorRenderer.writeStop arr i
                             {| ColorUtils.r := r; ColorUtils.g := g; ColorUtils.b := b |}))))));
    rewrite <- ?EX; try assumption.
  - reflexivity.
  - intros n Hn. destruct (node_gradient_instances other _ _ _ _ Hn) as (gl & Hgl & Hincl).
    rewrite gradientInstances_nested in Hgl
      by (cbn [Js.lookup]; rewrite <- EG, <- EK, ?EKK; assumption).
    cbn [Js.lookup] in Hgl. rewrite <- EG, <- EK, EKK in Hgl. cbn [Js.items] in Hgl.
    rewrite (stops_emitted other _ _ _ _ _ stops Hstops) in Hgl. injection Hgl as <-.
    apply Hincl. now apply in_map.
  - rewrite hexToRgb_bytes by assumption.
    rewrite update_defined by assumption. rewrite <- EG.
    rewrite update_defined by assumption. cbn [Js.update]. rewrite <- EK. do 2 f_equal.
    rewrite (writeRef_gradient_k _ i) by (rewrite ?EKK; try reflexivity; assumption).
    now rewrite EKK.
  - now rewrite isObject_set.
  - intros below Hbelow.
    destruct (tree_child_object other pre X (pathOf pre) below "g" Hbelow) as (a & Ha');
      [now rewrite <- EG|]. rewrite <- EG in Ha'.
    destruct (tree_child_object other _ G _ a "k" Ha') as (ak & Hak); [now rewrite <- EK|].
    rewrite <- EK in Hak.
    destruct (tree_child_object other _ K _ ak "k" Hak) as (akk & Hakk); [now rewrite EKK|].
    rewrite EKK in Hakk.
    destruct (treeInstances_writeStop other _ _ arr i
                {| ColorUtils.r := r; ColorUtils.g := g; ColorUtils.b := b |} akk Hakk)
      as (akk' & Hakk').
    destruct (tree_set_plain other _ K _ ak "k"
                (JArr (ColorRenderer.writeStop arr i
                         {| ColorUtils.r := r; ColorUtils.g := g; ColorUtils.b := b |}))
                akk' Hak HKKdef eq_refl Hakk') as (ak' & Hak' & _).
    destruct (tree_set_plain other _ G _ a "k"
                (Js.set K "k"
                   (JArr (ColorRenderer.writeStop arr i
                            {| ColorUtils.r := r; ColorUtils.g := g; ColorUtils.b := b |})))
                ak' Ha' HKdef eq_refl) as (a' & Ha'' & _).
    { unfold childTree. rewrite typeofObject_isObject by now rewrite isObject_set.
      assumption. }
    destruct (tree_node other _ _ _ _ Hbelow) as (n & Hn & _).
    destruct (stops_written other G
                (Js.set G "k"
                   (Js.set K "k"
                      (JArr (ColorRenderer.writeStop arr i
                               {| ColorUtils.r := r; ColorUtils.g := g; ColorUtils.b := b |}))))
                (gradientKind (Js.get X "ty")) arr (pre ++ ["g"; "k"])
                (Js.join (pathOf pre) "g" ++ ".k.k") stops i r g b Hr Hg Hb Hstops Hi)
      as (written & Hwritten & Hin); [now apply get_set_other|assumption|].
    destruct (node_gradient_set other pre X (pathOf pre)
                (Js.set G "k"
                   (Js.set K "k"
                      (JArr (ColorRenderer.writeStop arr i
                               {| ColorUtils.r := r; ColorUtils.g := g; ColorUtils.b := b |}))))
                n written Hn)
      as (n' & Hn' & Hincl).
    { rewrite gradientInstances_nested; cbn [Js.lookup];
        rewrite !get_set_same by assumption; rewrite ?get_set_other by discriminate;
        cbn [Js.items Js.isArray]; try reflexivity; try assumption;
        first [exact Hwritten | now rewrite item_writeStop_other by lia]. }
    destruct (tree_set other pre X (pathOf pre) below "g" _ n' a' Hbelow HGdef Hn')
      as (below' & Hbelow' & Hincl' & _).
    { unfold childTree. rewrite typeofObject_isObject by now rewrite isObject_set.
      assumption. }
    exists below'. split; [assumption|]. apply Hincl', Hincl. exact Hin.
Qed.


Lemma keyframe_stops_emitted g kind ref path keyframe :
  Js.isArray (Js.get keyframe "s") = true ->
  emitted (fun st =>
             if Js.truthy keyframe && Js.isArray (Js.get keyframe "s") then
               processGradientStops other g kind (Js.items (Js.get keyframe "s")) ref path st
             else Ok st)
  = emitted (processGradientStops other g kind (Js.items (Js.get keyframe "s")) ref path).
Proof.
  intros Hs. rewrite emitted_if, Hs.
  rewrite isObject_truthy; [reflexivity|].
  apply (get_defined_isObject keyframe "s"). now apply isArray_defined.
Qed.

(** A stop of a keyframe of an animated gradient. *)
Lemma written_stop_keyframe doc insts groups pre j stops i r g b :
  extractColors other [] doc = Ok (insts, groups) ->
  siteKeys pre = true ->
  (0 <= r <= 255)%Z -> (0 <= g <= 255)%Z -> (0 <= b <= 255)%Z ->
  Js.isOne (Js.lookup (pre ++ ["g"; "k"; "a"]) doc) = true ->
  Js.isArray (Js.lookup (pre ++ ["g"; "k"; "k"]) doc) = true ->
  Js.isArray (Js.lookup (pre ++ ["g"; "k"; "k"; Str.of_nat j; "s"]) doc) = true ->
  stopLoop (Js.ToNumber other
              (stopCountOf (Js.lookup (pre ++ ["g"]) doc)
                 (Js.items (Js.lookup (pre ++ ["g"; "k"; "k"; Str.of_nat j; "s"]) doc))) * 4)
  = Some stops ->
  In i stops ->
  Js.truthy (Js.lookup (pre ++ ["g"; "p"]) doc) = true
  \/ i + 3 < List.length (Js.items (Js.lookup (pre ++ ["g"; "k"; "k"; Str.of_nat j; "s"]) doc)) ->
  writtenThrough other doc
    (stopInstance other (gradientKind (Js.lookup (pre ++ ["ty"]) doc))
       (Js.items (Js.lookup (pre ++ ["g"; "k"; "k"; Str.of_nat j; "s"]) doc))
       (pre ++ ["g"; "k"; "k"; Str.of_nat j])
       (pathOf (pre ++ ["g"; "k"; "k"; Str.of_nat j; "s"]))
       (stopCountOf (Js.lookup (pre ++ ["g"]) doc)
          (Js.items (Js.lookup (pre ++ ["g"; "k"; "k"; Str.of_nat j; "s"]) doc))) i)
    (ColorUtils.rgbToHex (Num.of_Z r) (Num.of_Z g) (Num.of_Z b)).
Proof.
  intros Hex Hpre Hr Hg Hb Ha Hk Hs Hstops Hi Hbound.
  rewrite pathOf_gradient_keyframe. rewrite !lookup_app in *. cbn [Js.lookup] in *.
  remember (Js.lookup pre doc) as X eqn:EX. remember (Js.get X "g") as G eqn:EG.
  remember (Js.get G "k") as K eqn:EK.
  destruct (Js.get K "k") as [| | | | |kfs|] eqn:EKK; try discriminate.
  rewrite get_array_index in *. remember (Js.item kfs j) as kf eqn:Ekf.
  destruct (Js.get kf "s") as [| | | | |arr|] eqn:ES; try discriminate.
  cbn [Js.items] in *.
  assert (HSdef : Js.get kf "s" <> JUndef) by (rewrite ES; discriminate).
  assert (Hkfobj : Js.isObject kf = true) by now apply (get_defined_isObject kf "s").
  assert (Hj : j < List.length kfs)
    by (apply item_defined_lt; rewrite <- Ekf; now apply isObject_defined).
  assert (Hjdef : Js.get (JArr kfs) (Str.of_nat j) <> JUndef)
    by (rewrite get_array_index, <- Ekf; now apply isObject_defined).
  assert (HKKdef : Js.get K "k" <> JUndef) by (rewrite EKK; discriminate).
  assert (HKobj : Js.isObject K = true) by now apply (get_defined_isObject K "k").
  assert (HKdef : Js.get G "k" <> JUndef) by (rewrite <- EK; now apply isObject_defined).
  assert (HGobj : Js.isObject G = true) by now apply (get_defined_isObject G "k").
  assert (HGdef : Js.get X "g" <> JUndef) by (rewrite <- EG; now apply isObject_defined).
  assert (HX : Js.isObject X = true) by now apply (get_defined_isObject X "g").
  remember (Js.set kf "s"
              (JArr (ColorRenderer.writeStop arr i
                       {| ColorUtils.r := r; ColorUtils.g := g; ColorUtils.b := b |})))
    as kf' eqn:Ekf'.
  assert (HS' : Js.get kf' "s"
                = JArr (ColorRenderer.writeStop arr i
                          {| ColorUtils.r := r; ColorUtils.g := g; ColorUtils.b := b |}))
    by (rewrite Ekf'; now apply get_set_same).
  apply (written_at_site other doc insts groups pre ["g"; "k"; "k"; Str.of_nat j] _ _
           (Js.set X "g" (Js.set G "k" (Js.set K "k" (JArr (Js.itemSet j kf' kfs))))));
    rewrite <- ?EX; try assumption.
  - reflexivity.
  - intros n Hn. destruct (node_gradient_instances other _ _ _ _ Hn) as (gl & Hgl & Hincl).
    rewrite gradientInstances_keyframes in Hgl
      by (cbn [Js.lookup]; rewrite <- EG, <- EK, ?EKK; assumption).
    cbn [Js.lookup] in Hgl. rewrite <- EG, <- EK, EKK in Hgl. cbn [Js.items] in Hgl.
    destruct (collecti_item _ JUndef _ 0 gl j Hgl Hj) as (x & Hx & Hincl').
    cbn [Nat.add] in Hx. fold (Js.item kfs j) in Hx. rewrite <- Ekf in Hx.
    rewrite keyframe_stops_emitted in Hx by now rewrite ES.
    rewrite ES in Hx. cbn [Js.items] in Hx.
    rewrite (stops_emitted other _ _ _ _ _ stops Hstops) in Hx. injection Hx as <-.
    apply Hincl, Hincl'. now apply in_map.
  - rewrite hexToRgb_bytes by assumption.
    rewrite update_defined by assumption. rewrite <- EG.
    rewrite update_defined by assumption. rewrite <- EK.
    rewrite update_defined by assumption. rewrite EKK.
    rewrite update_defined by assumption. cbn [Js.update].
    rewrite get_array_index, <- Ekf, set_array_index. do 5 f_equal.
    rewrite (writeRef_gradient_s _ i) by (rewrite ?ES; reflexivity).
    now rewrite ES, Ekf'.
  - now rewrite isObject_set.
  - intros below Hbelow.
    destruct (tree_child_object other pre X (pathOf pre) below "g" Hbelow) as (a & Ha');
      [now rewrite <- EG|]. rewrite <- EG in Ha'.
    destruct (tree_child_object other _ G _ a "k" Ha') as (ak & Hak); [now rewrite <- EK|].
    rewrite <- EK in Hak.
    destruct (tree_child_object other _ K _ ak "k" Hak) as (akk & Hakk); [now rewrite EKK|].
    rewrite EKK in Hakk.
    destruct (tree_child_object other _ (JArr kfs) _ akk (Str.of_nat j) Hakk) as (aj & Haj);
      [now rewrite get_array_index, <- Ekf|]. rewrite get_array_index, <- Ekf in Haj.
    destruct (tree_child_object other _ kf _ aj "s" Haj) as (asx & Has); [now rewrite ES|].
    rewrite ES in Has.
    destruct (treeInstances_writeStop other _ _ arr i
                {| ColorUtils.r := r; ColorUtils.g := g; ColorUtils.b := b |} asx Has)
      as (as' & Has').
    destruct (tree_set_plain other _ kf _ aj "s"
                (JArr (ColorRenderer.writeStop arr i
                         {| ColorUtils.r := r; ColorUtils.g := g; ColorUtils.b := b |}))
                as' Haj HSdef eq_refl Has') as (aj' & Haj' & _).
    rewrite <- Ekf' in Haj'.
    assert (Hkf'obj : Js.isObject kf' = true) by (rewrite Ekf'; now rewrite isObject_set).
    destruct (tree_set_plain other _ (JArr kfs) _ akk (Str.of_nat j) kf' aj'
                Hakk Hjdef (siteKey_index j)) as (akk' & Hakk' & _).
    { unfold childTree. now rewrite typeofObject_isObject. }
    rewrite set_array_index in Hakk'.
    destruct (tree_set_plain other _ K _ ak "k" (JArr (Js.itemSet j kf' kfs)) akk'
                Hak HKKdef eq_refl Hakk') as (ak' & Hak' & _).
    destruct (tree_set_plain other _ G _ a "k" (Js.set K "k" (JArr (Js.itemSet j kf' kfs)))
                ak' Ha' HKdef eq_refl) as (a' & Ha'' & _).
    { unfold childTree. rewrite typeofObject_isObject by now rewrite isObject_set.
      assumption. }
    destruct (tree_node other _ _ _ _ Hbelow) as (n & Hn & _).
    destruct (node_gradient_instances other _ _ _ _ Hn) as (gl & Hgl & _).
    rewrite gradientInstances_keyframes in Hgl
      by (cbn [Js.lookup]; rewrite <- EG, <- EK, ?EKK; assumption).
    cbn [Js.lookup] in Hgl. rewrite <- EG, <- EK, EKK in Hgl. cbn [Js.items] in Hgl.
    destruct (stops_written other G G (gradientKind (Js.get X "ty")) arr
                (pre ++ ["g"; "k"; "k"; Str.of_nat j])
                (Js.join (pathOf pre) "g" ++ ".k.k." ++ Str.of_nat j ++ ".s")
                stops i r g b Hr Hg Hb Hstops Hi eq_refl Hbound)
      as (written & Hwritten & Hin).
    destruct (collecti_itemSet _ kfs 0 gl j kf' written Hgl Hj) as (gl' & Hgl' & Hincl).
    { cbn [Nat.add]. rewrite keyframe_stops_emitted by now rewrite HS'.
      rewrite HS'. exact Hwritten. }
    destruct (node_gradient_set other pre X (pathOf pre)
                (Js.set G "k" (Js.set K "k" (JArr (Js.itemSet j kf' kfs)))) n gl' Hn)
      as (n' & Hn' & Hincl').
    { rewrite gradientInstances_keyframes; cbn [Js.lookup];
        rewrite !get_set_same by assumption; rewrite ?get_set_other by discriminate;
        cbn [Js.items Js.isArray]; try reflexivity; try assumption.
      rewrite <- Hgl'. apply collecti_ext. intros j0 x. apply emitted_ext. intros st.
      destruct (_ && _); [|reflexivity].
      apply processGradientStops_count. now apply get_set_other. }
    destruct (tree_set other pre X (pathOf pre) below "g" _ n' a' Hbelow HGdef Hn')
      as (below' & Hbelow' & Hincl'' & _).
    { unfold childTree. rewrite typeofObject_isObject by now rewrite isObject_set.
      assumption. }
    exists below'. split; [assumption|]. apply Hincl'', Hincl', Hincl. exact Hin.
Qed.

End WriteThrough.




Import HueShiftManager.

(** * Repeated adjustments *)

Section Repeated.

Variable other : json -> float.

Lemma deepCopy_fixed doc : Js.clone doc = doc -> Js.deepCopy doc = Ok doc.
Proof.
  intros Hfix. destruct doc; cbn in *; try congruence; reflexivity.
Qed.

(** A value that is not truthy is no object: the recursion returns at once. *)
Lemma rec_falsy fuel m v path :
  Js.truthy v = false -> recursiveAdjustColors other fuel m v path = Ok v.
Proof.
  intros Hv. destruct fuel; [reflexivity|].
  destruct v; cbn in Hv; try discriminate; reflexivity.
Qed.

(** With no locked path, a call on a manager whose baseline is the document
    - or that has no baseline yet and is given the document - recomputes
    from the document, whatever the current document and the shifts of the
    call before. *)
Lemma applyAdjustments_baseline m current doc hue saturation lightness :
  Js.clone doc = doc ->
  lockedPaths m = [] ->
  (originalAnimData m = doc /\ Js.truthy doc = true)
  \/ (Js.truthy (originalAnimData m) = false /\ current = doc) ->
  applyAdjustments other m current hue saturation lightness
  = (result <- recursiveAdjustColors other (S (Js.depth doc))
                 (managerAfter [] doc hue saturation lightness) doc "" ;;
     Ok (managerAfter [] doc hue saturation lightness, result)).
Proof.
  intros Hfix Hlocks Hstate. pose proof (deepCopy_fixed doc Hfix) as Hcopy.
  destruct m as [original hue0 saturation0 lightness0 locks]. cbn in Hlocks, Hstate. subst locks.
  unfold applyAdjustments. cbn [originalAnimData].
  destruct Hstate as [[-> Ht] | [Hf ->]].
  - rewrite Ht. cbn [negb bind]. unfold syncLockedColors. cbn [lockedPaths originalAnimData List.length Nat.eqb orb bind].
    rewrite Hcopy. reflexivity.
  - rewrite Hf. cbn [negb]. unfold setOriginalData. rewrite Hcopy. cbn [bind lockedPaths].
    unfold syncLockedColors. cbn [lockedPaths originalAnimData List.length Nat.eqb orb bind].
    rewrite Hcopy. reflexivity.
Qed.

(** The state after a run that started on a fresh manager with the
    document: no lock, and the baseline is the document. *)
Lemma adjustAll_baseline doc steps : forall m current,
  Js.clone doc = doc -> adjustable doc = true ->
  lockedPaths m = [] ->
  (originalAnimData m = doc /\ Js.truthy doc = true)
  \/ (Js.truthy (originalAnimData m) = false /\ current = doc) ->
  exists m' current',
    adjustAll other m current steps = Ok (m', current')
    /\ lockedPaths m' = []
    /\ ((originalAnimData m' = doc /\ Js.truthy doc = true)
        \/ (Js.truthy (originalAnimData m') = false /\ current' = doc)).
Proof.
  induction steps as [|[[hue saturation] lightness] steps IH]; intros m current Hfix Ha Hlocks Hstate.
  - exists m, current. repeat split; assumption.
  - cbn [adjustAll]. rewrite (applyAdjustments_baseline m current doc) by assumption.
    destruct (rec_total other (managerAfter [] doc hue saturation lightness)
                (S (Js.depth doc)) doc "" Ha) as (result & Hres).
    rewrite Hres. cbn [bind fst snd].
    apply IH; try assumption; [reflexivity|].
    cbn [managerAfter originalAnimData].
    destruct (Js.truthy doc) eqn:Ht; [left; now split|right; split; [reflexivity|]].
    rewrite rec_falsy in Hres by assumption. congruence.
Qed.

End Repeated.

(** ** The conversion with no shift *)

Lemma shortHex_kept :
  forallb (fun x => forallb (fun y => forallb (fun z => keptByZeroShift x y z) shortHexLevels)
                      shortHexLevels) shortHexLevels = true.
Proof. vm_compute. reflexivity. Qed.

Lemma keptByZeroShift_rounded x y z :
  keptByZeroShift x y z = true ->
  shiftRgb (managerAfter [] JNull 0 0 0)
    (Num.of_Z x / 255 * 255) (Num.of_Z y / 255 * 255) (Num.of_Z z / 255 * 255)
  = {| ColorUtils.rr := Num.RInt x false; ColorUtils.rg := Num.RInt y false;
       ColorUtils.rb := Num.RInt z false |}.
Proof.
  unfold keptByZeroShift.
  destruct (shiftRgb _ _ _ _) as [[x' [|]| |?] [y' [|]| |?] [z' [|]| |?]];
    cbn [ColorUtils.rr ColorUtils.rg ColorUtils.rb]; try discriminate.
  intros H. apply andb_true_iff in H as [H Hz]. apply andb_true_iff in H as [Hx Hy].
  apply Z.eqb_eq in Hx, Hy, Hz. now subst.
Qed.

(** X2. With the three shifts at zero, [adjustRgbaArray] returns a colour
    whose channels are levels of the short hexadecimal colours - [r / 255],
    [g / 255], [b / 255] with [r], [g], [b] multiples of 17 - exactly as it
    was given, the alpha and whatever follows included. *)
Theorem zero_shift_keeps_short_hex_colors other locks doc x y z rest :
  In x shortHexLevels -> In y shortHexLevels -> In z shortHexLevels ->
  adjustRgbaArray other (managerAfter locks doc 0 0 0)
    (JNum (Num.of_Z x / 255) :: JNum (Num.of_Z y / 255) :: JNum (Num.of_Z z / 255) :: rest)
  = JNum (Num.of_Z x / 255) :: JNum (Num.of_Z y / 255) :: JNum (Num.of_Z z / 255) :: rest.
Proof.
  intros Hx Hy Hz. pose proof shortHex_kept as Hall.
  rewrite forallb_forall in Hall. specialize (Hall x Hx).
  rewrite forallb_forall in Hall. specialize (Hall y Hy).
  rewrite forallb_forall in Hall. specialize (Hall z Hz).
  apply keptByZeroShift_rounded in Hall.
  unfold adjustRgbaArray. cbn [Js.item Js.ToNumber nth].
  change (shiftRgb (managerAfter locks doc 0 0 0)) with (shiftRgb (managerAfter [] JNull 0 0 0)).
  rewrite Hall. reflexivity.
Qed.

Lemma zero_shift_keeps_short_hex_colors_witness :
  adjustRgbaArray notANumber (managerAfter [] redAndWhiteDocument 0 0 0)
    [JNum (Num.of_Z 255 / 255); JNum (Num.of_Z 102 / 255); JNum (Num.of_Z 0 / 255); JNum 1]
  = [JNum (Num.of_Z 255 / 255); JNum (Num.of_Z 102 / 255); JNum (Num.of_Z 0 / 255); JNum 1].
Proof.
  apply (zero_shift_keeps_short_hex_colors notANumber [] redAndWhiteDocument 255 102 0 [JNum 1]);
    vm_compute; tauto.
Defined.




Import HistoryManager.

(** * The history manager beyond saving and undoing *)

Lemma deepCopy_defined v : v <> JUndef -> Js.deepCopy v = Ok (Js.clone v).
Proof. destruct v; intros H; try reflexivity. congruence. Qed.

Lemma length_removelast {A : Type} (l : list A) :
  List.length (removelast l) = List.length l - 1.
Proof.
  induction l as [|x [|y l] IH]; try reflexivity.
  change (S (List.length (removelast (y :: l))) = S (List.length (y :: l)) - 1).
  rewrite IH. cbn [List.length]. lia.
Qed.

Lemma length_tl {A : Type} (l : list A) : List.length (tl l) = List.length l - 1.
Proof. destruct l; cbn; lia. Qed.

(** ** The capacity is kept by every operation *)

Lemma saveState_capacity h animData :
  List.length (historyStack h) + List.length (redoStack h) <= MAX_HISTORY h ->
  List.length (historyStack (saveState h animData))
  + List.length (redoStack (saveState h animData)) <= MAX_HISTORY (saveState h animData)
  /\ MAX_HISTORY (saveState h animData) = MAX_HISTORY h.
Proof.
  intros H. unfold saveState.
  destruct (negb (Js.truthy animData)); [now split|].
  destruct (match historyStack h with [] => false | _ :: _ => _ end); [now split|].
  cbn [historyStack redoStack MAX_HISTORY]. split; [|reflexivity].
  destruct (Nat.ltb_spec (MAX_HISTORY h) (List.length (historyStack h ++ [Js.clone animData])))
    as [Hlt|Hge].
  - rewrite length_tl, length_app. cbn [List.length]. lia.
  - cbn [List.length]. lia.
Qed.

Lemma undo_capacity h :
  List.length (historyStack (fst (undo h))) + List.length (redoStack (fst (undo h)))
  = List.length (historyStack h) + List.length (redoStack h)
  /\ MAX_HISTORY (fst (undo h)) = MAX_HISTORY h.
Proof.
  unfold undo. destruct (Nat.leb_spec (List.length (historyStack h)) 1) as [Hle|Hgt];
    [now split|].
  cbn [fst historyStack redoStack MAX_HISTORY]. split; [|reflexivity].
  rewrite length_removelast, length_app. cbn [List.length]. lia.
Qed.

Lemma redo_capacity h currentAnimData h' state :
  redo h currentAnimData = Ok (h', state) ->
  List.length (historyStack h') + List.length (redoStack h')
  = List.length (historyStack h) + List.length (redoStack h)
  /\ MAX_HISTORY h' = MAX_HISTORY h.
Proof.
  unfold redo. destruct (redoStack h) as [|x rest] eqn:E.
  - intros [= <- <-]. rewrite E. now split.
  - destruct (Js.deepCopy currentAnimData) as [current| |]; cbn [bind]; try discriminate.
    intros [= <- <-]. cbn [historyStack redoStack MAX_HISTORY]. split; [|reflexivity].
    change (match rest with [] => [] | _ :: _ => x :: removelast rest end)
      with (removelast (x :: rest)).
    rewrite length_removelast, length_app. cbn [List.length]. lia.
Qed.

Lemma historyStep_defined h op :
  historyOpDefined op = true -> exists h', historyStep h op = Ok h'.
Proof.
  destruct op as [animData| |currentAnimData|]; cbn [historyStep]; intros Hop;
    try (eexists; reflexivity).
  unfold redo. destruct (redoStack h); [eexists; reflexivity|].
  rewrite deepCopy_defined by (destruct currentAnimData; cbn in Hop; congruence).
  eexists; reflexivity.
Qed.

Lemma historyStep_capacity h op h' :
  historyStep h op = Ok h' ->
  List.length (historyStack h) + List.length (redoStack h) <= MAX_HISTORY h ->
  List.length (historyStack h') + List.length (redoStack h') <= MAX_HISTORY h'
  /\ MAX_HISTORY h' = MAX_HISTORY h.
Proof.
  destruct op as [animData| |currentAnimData|]; cbn [historyStep].
  - intros [= <-]. apply saveState_capacity.
  - intros [= <-] H. destruct (undo_capacity h) as [E1 E2]. rewrite E1, E2. now split.
  - destruct (redo h currentAnimData) as [[h1 state]| |] eqn:E; cbn [bind fst]; try discriminate.
    intros [= <-] H. destruct (redo_capacity _ _ _ _ E) as [E1 E2]. rewrite E1, E2. now split.
  - intros [= <-] H. cbn. split; [lia|reflexivity].
Qed.

Lemma historyRun_capacity ops : forall h,
  forallb historyOpDefined ops = true ->
  List.length (historyStack h) + List.length (redoStack h) <= MAX_HISTORY h ->
  exists h', historyRun h ops = Ok h'
    /\ List.length (historyStack h') + List.length (redoStack h') <= MAX_HISTORY h'
    /\ MAX_HISTORY h' = MAX_HISTORY h.
Proof.
  induction ops as [|op ops IH]; intros h Hops H.
  - exists h. now repeat split.
  - cbn in Hops. apply andb_true_iff in Hops as [Hop Hops]. cbn [historyRun].
    destruct (historyStep_defined h op Hop) as (h1 & E1). rewrite E1. cbn [bind].
    destruct (historyStep_capacity h op h1 E1 H) as [H1 M1].
    destruct (IH h1 Hops H1) as (h' & E & H' & M'). exists h'. repeat split; try assumption.
    congruence.
Qed.

(** X3. Whatever the editor does with the history - any run of [saveState],
    [undo], [redo] and [clear] calls on a new manager, [redo] never being
    given [undefined] - the run returns, and the undo stack and the redo
    stack together never hold more than [MAX_HISTORY] states; [redo], which
    pushes without trimming, cannot overflow the undo stack. *)
Theorem history_capacity_is_kept (maxHistory : nat) (ops : list historyOp) :
  forallb historyOpDefined ops = true ->
  exists h, historyRun (create maxHistory) ops = Ok h
    /\ List.length (historyStack h) + List.length (redoStack h) <= maxHistory
    /\ List.length (historyStack h) <= maxHistory
    /\ MAX_HISTORY h = maxHistory.
Proof.
  intros Hops.
  destruct (historyRun_capacity ops (create maxHistory) Hops) as (h & E & H & M);
    [cbn; lia|].
  cbn in M. exists h. repeat split; try assumption; lia.
Qed.

Lemma history_capacity_is_kept_witness :
  exists h,
    historyRun (create 2)
      [SaveState (JNum 1); SaveState (JNum 2); SaveState (JNum 3); Undo;
       Redo (JNum 4); Undo; SaveState (JNum 5); Redo (JNum 6); Clear; SaveState (JNum 7)]
    = Ok h
    /\ List.length (historyStack h) + List.length (redoStack h) <= 2
    /\ List.length (historyStack h) <= 2
    /\ MAX_HISTORY h = 2.
Proof.
  apply (history_capacity_is_kept 2
           [SaveState (JNum 1); SaveState (JNum 2); SaveState (JNum 3); Undo;
            Redo (JNum 4); Undo; SaveState (JNum 5); Redo (JNum 6); Clear;
            SaveState (JNum 7)]).
  reflexivity.
Defined.

(** ** Undo, then redo *)

Lemma removelast_snoc {A : Type} (l : list A) (x : A) : removelast (l ++ [x]) = l.
Proof. apply removelast_last. Qed.

(** X4. When there is something to undo, [undo] returns a copy of the state
    below the top of the undo stack, and a [redo] right after it returns the
    very state [undo] took off the top; the redo stack is then what it was
    before the [undo], and the undo stack holds, in place of that state, a
    copy of the data [redo] was given. *)
Theorem undo_then_redo (h : HistoryManager.t) (currentAnimData : json) :
  canUndo h = true ->
  currentAnimData <> JUndef ->
  snd (undo h) = Js.clone (last (removelast (historyStack h)) JUndef)
  /\ redo (fst (undo h)) currentAnimData
     = Ok ({| historyStack := removelast (historyStack h) ++ [Js.clone currentAnimData];
              redoStack := redoStack h;
              MAX_HISTORY := MAX_HISTORY h |},
           last (historyStack h) JUndef)
  /\ canRedo (fst (undo h)) = true.
Proof.
  intros Hcan Hdef. unfold canUndo in Hcan. apply Nat.ltb_lt in Hcan.
  unfold undo. destruct (Nat.leb_spec (List.length (historyStack h)) 1) as [Hle|_]; [lia|].
  cbn [fst snd]. split; [reflexivity|]. split.
  - unfold redo. cbn [redoStack historyStack MAX_HISTORY].
    destruct (redoStack h ++ [last (historyStack h) JUndef]) as [|x rest] eqn:E.
    + now destruct (redoStack h).
    + rewrite <- E, last_last, removelast_snoc, deepCopy_defined by assumption. reflexivity.
  - unfold canRedo. cbn [redoStack]. rewrite length_app. cbn [List.length].
    apply Nat.ltb_lt. lia.
Qed.

Lemma undo_then_redo_witness :
  snd (undo (saveAll (create 20) [JNum 1; JNum 2; JNum 3])) = JNum 2
  /\ redo (fst (undo (saveAll (create 20) [JNum 1; JNum 2; JNum 3]))) (JNum 2)
     = Ok ({| historyStack := [JNum 1; JNum 2; JNum 2]; redoStack := [];
              MAX_HISTORY := 20 |}, JNum 3)
  /\ canRedo (fst (undo (saveAll (create 20) [JNum 1; JNum 2; JNum 3]))) = true.
Proof.
  apply (undo_then_redo (saveAll (create 20) [JNum 1; JNum 2; JNum 3]) (JNum 2));
    [reflexivity | discriminate].
Defined.

(** ** Saving the same state again *)

Lemma sameJson_clone_refl v : Js.sameJson (Js.clone v) (Js.clone v) = true.
Proof.
  induction v as [| | b | x | s | items IH | props IH] using json_induction;
    try reflexivity.
  - now destruct b.
  - cbn [Js.clone]. unfold Js.cloneNum.
    destruct (is_nan x || is_infinity x) eqn:E; [reflexivity|].
    destruct (is_zero x); [reflexivity|].
    apply orb_false_iff in E as [E _]. unfold is_nan in E.
    cbn [Js.sameJson]. now apply negb_false_iff in E.
  - cbn. apply String.eqb_refl.
  - cbn [Js.clone Js.sameJson]. induction IH as [|x l Hx _ IHl]; [reflexivity|].
    cbn [map]. now rewrite Hx, IHl.
  - cbn [Js.clone Js.sameJson]. induction IH as [|[k x] l Hx _ IHl]; [reflexivity|].
    cbn [snd] in Hx. destruct x; try exact IHl;
      (rewrite String.eqb_refl; cbn [andb]; rewrite Hx; exact IHl).
Qed.

Lemma last_tl {A : Type} (l : list A) (d : A) :
  2 <= List.length l -> last (tl l) d = last l d.
Proof. destruct l as [|x [|y l]]; cbn [List.length]; try lia. reflexivity. Qed.

(** X5. Saving a state twice in a row is saving it once: the second
    [saveState] finds the state it is given identical to the last one and
    changes nothing - neither stack, so a redo that was possible after the
    first call stays so. *)
Theorem saveState_twice (h : HistoryManager.t) (animData : json) :
  saveState (saveState h animData) animData = saveState h animData.
Proof.
  destruct (negb (Js.truthy animData)) eqn:Ht.
  { unfold saveState. now rewrite Ht. }
  destruct (match historyStack h with
            | [] => false
            | _ :: _ => Js.sameJson (Js.clone animData) (last (historyStack h) JUndef)
            end) eqn:Hid.
  { assert (E : saveState h animData = h) by (unfold saveState; now rewrite Ht, Hid).
    now rewrite !E. }
  remember (historyStack h ++ [Js.clone animData]) as pushed eqn:Ep.
  remember (if (MAX_HISTORY h <? List.length pushed)%nat then tl pushed else pushed)
    as trimmed eqn:Et.
  assert (E : saveState h animData
              = {| historyStack := trimmed; redoStack := []; MAX_HISTORY := MAX_HISTORY h |}).
  { unfold saveState. rewrite Ht, Hid, <- Ep, <- Et. reflexivity. }
  rewrite E. unfold saveState. rewrite Ht. cbn [historyStack redoStack MAX_HISTORY].
  assert (Hlen : List.length pushed = S (List.length (historyStack h))).
  { subst pushed. rewrite length_app. cbn [List.length]. lia. }
  destruct trimmed as [|y rest] eqn:Etr.
  - (* nothing is kept: the capacity is zero *)
    destruct (Nat.ltb_spec (MAX_HISTORY h) (List.length pushed)) as [Hlt|Hge].
    + assert (Hh : historyStack h = []).
      { destruct pushed as [|a [|b l]]; cbn [List.length tl] in *; try discriminate.
        destruct (historyStack h); [reflexivity|cbn in Hlen; lia]. }
      rewrite Hh in Hlen. cbn [List.length] in Hlen. assert (M0 : MAX_HISTORY h = 0) by lia. rewrite M0. reflexivity.
    + subst pushed. now destruct (historyStack h).
  - (* the state just saved is on top *)
    assert (Hlast : last (y :: rest) JUndef = Js.clone animData).
    { rewrite Et. destruct (Nat.ltb_spec (MAX_HISTORY h) (List.length pushed)) as [Hlt|Hge].
      - rewrite last_tl.
        + subst pushed. apply last_last.
        + destruct pushed as [|a [|b l]]; cbn [List.length tl] in *; try discriminate; lia.
      - subst pushed. apply last_last. }
    rewrite Hlast, sameJson_clone_refl. reflexivity.
Qed.

Import HueShiftManager.

(** * The lock set, the reset and what a shift leaves alone *)

(** ** The lock set *)

Lemma isPathLocked_lockPath m p q :
  isPathLocked (lockPath m p) q = String.eqb q p || isPathLocked m q.
Proof.
  unfold lockPath. destruct (isPathLocked m p) eqn:E.
  - destruct (String.eqb_spec q p) as [->|Hne]; [now rewrite E|reflexivity].
  - unfold isPathLocked. cbn [withLocks lockedPaths]. rewrite existsb_app. cbn [existsb].
    rewrite orb_false_r. apply orb_comm.
Qed.

Lemma isPathLocked_unlockPath m p q :
  isPathLocked (unlockPath m p) q = negb (String.eqb q p) && isPathLocked m q.
Proof.
  unfold unlockPath, isPathLocked. cbn [withLocks lockedPaths].
  induction (lockedPaths m) as [|x l IH]; cbn [filter existsb].
  - now rewrite andb_false_r.
  - destruct (String.eqb_spec p x) as [->|Hpx]; cbn [negb].
    + rewrite IH. destruct (String.eqb_spec q x) as [->|Hqx]; cbn [negb andb orb]; reflexivity.
    + cbn [existsb]. rewrite IH.
      destruct (String.eqb_spec q x) as [->|Hqx]; cbn [orb].
      * destruct (String.eqb_spec x p) as [->|_]; [congruence|reflexivity].
      * reflexivity.
Qed.

Lemma NoDup_lockPath m p : NoDup (lockedPaths m) -> NoDup (lockedPaths (lockPath m p)).
Proof.
  intros H. unfold lockPath. destruct (isPathLocked m p) eqn:E; [assumption|].
  cbn [withLocks lockedPaths]. apply isPathLocked_not_In in E.
  apply NoDup_app; [assumption|repeat constructor; now intros []|].
  intros x Hx [<-|[]]. contradiction.
Qed.

Lemma NoDup_unlockPath m p : NoDup (lockedPaths m) -> NoDup (lockedPaths (unlockPath m p)).
Proof. intros H. cbn. now apply NoDup_filter. Qed.

(** X6. [togglePathLock] returns the new lock state of the path, which is
    the opposite of the old one; no other path changes its state; a second
    toggle gives every path the state it had; the baseline and the shifts
    are not touched, and no path is ever held twice. *)
Theorem togglePathLock_flips_one_path (m : HueShiftManager.t) (p : string) :
  snd (togglePathLock m p) = negb (isPathLocked m p)
  /\ isPathLocked (fst (togglePathLock m p)) p = snd (togglePathLock m p)
  /\ (forall q, q <> p ->
        isPathLocked (fst (togglePathLock m p)) q = isPathLocked m q)
  /\ (forall q, isPathLocked (fst (togglePathLock (fst (togglePathLock m p)) p)) q
                = isPathLocked m q)
  /\ originalAnimData (fst (togglePathLock m p)) = originalAnimData m
  /\ (hueShift (fst (togglePathLock m p)), saturationShift (fst (togglePathLock m p)),
      lightnessShift (fst (togglePathLock m p)))
     = (hueShift m, saturationShift m, lightnessShift m)
  /\ (NoDup (lockedPaths m) -> NoDup (lockedPaths (fst (togglePathLock m p)))).
Proof.
  assert (Hstate : forall m0 q,
             isPathLocked (fst (togglePathLock m0 p)) q
             = if String.eqb q p then negb (isPathLocked m0 p) else isPathLocked m0 q).
  { intros m0 q. unfold togglePathLock. destruct (isPathLocked m0 p) eqn:E; cbn [fst].
    - rewrite isPathLocked_unlockPath.
      destruct (String.eqb_spec q p) as [->|_]; reflexivity.
    - rewrite isPathLocked_lockPath.
      destruct (String.eqb_spec q p) as [->|_]; reflexivity. }
  repeat split.
  - unfold togglePathLock. now destruct (isPathLocked m p).
  - rewrite Hstate, String.eqb_refl. unfold togglePathLock. now destruct (isPathLocked m p).
  - intros q Hq. rewrite Hstate. apply String.eqb_neq in Hq. now rewrite Hq.
  - intros q. rewrite !Hstate, String.eqb_refl.
    destruct (String.eqb_spec q p) as [->|_]; [apply negb_involutive|reflexivity].
  - unfold togglePathLock, lockPath, unlockPath. now destruct (isPathLocked m p).
  - unfold togglePathLock, lockPath, unlockPath. now destruct (isPathLocked m p).
  - intros H. unfold togglePathLock. destruct (isPathLocked m p); cbn [fst].
    + now apply NoDup_unlockPath.
    + now apply NoDup_lockPath.
Qed.

Lemma togglePathLock_flips_one_path_witness :
  NoDup (lockedPaths (fst (togglePathLock (lockPath (lockPath create "layers.0.c") "layers.1.c")
                             "layers.0.c")))
  /\ isPathLocked (fst (togglePathLock (lockPath (lockPath create "layers.0.c") "layers.1.c")
                          "layers.0.c")) "layers.1.c" = true.
Proof.
  destruct (togglePathLock_flips_one_path
              (lockPath (lockPath create "layers.0.c") "layers.1.c") "layers.0.c")
    as (_ & _ & Hother & _ & _ & _ & Hnodup).
  split.
  - apply Hnodup. vm_compute. repeat constructor; cbn; intuition discriminate.
  - rewrite Hother by discriminate. reflexivity.
Defined.

(** ** The lock button of a group *)

Lemma groupLockClick_state insts : forall m isLocked q,
  isPathLocked (groupLockClick m isLocked insts) q
  = if existsb (fun i => String.eqb q (ColorExtractor.path i)) insts
    then negb isLocked else isPathLocked m q.
Proof.
  unfold groupLockClick. induction insts as [|i insts IH]; intros m isLocked q; [reflexivity|].
  cbn [fold_left existsb]. rewrite IH.
  destruct (existsb _ insts); [now rewrite orb_true_r|]. rewrite orb_false_r.
  destruct isLocked; cbn [negb].
  - rewrite isPathLocked_unlockPath. now destruct (String.eqb q (ColorExtractor.path i)).
  - rewrite isPathLocked_lockPath. now destruct (String.eqb q (ColorExtractor.path i)).
Qed.

(** X7. A click on the lock button of a grouped card leaves the group
    uniform: every instance of the group ends locked when the card was
    rendered unlocked and unlocked when it was rendered locked - also the
    instances whose own state differed from the first one's, which is all
    the card looks at - and the paths outside the group keep their state. *)
Theorem groupLockClick_makes_the_group_uniform (m : HueShiftManager.t) (isLocked : bool)
  (instances : list ColorExtractor.instance) :
  (forall i, In i instances ->
     isPathLocked (groupLockClick m isLocked instances) (ColorExtractor.path i)
     = negb isLocked)
  /\ (forall q, (forall i, In i instances -> ColorExtractor.path i <> q) ->
        isPathLocked (groupLockClick m isLocked instances) q = isPathLocked m q)
  /\ (instances <> [] ->
      groupIsLocked (groupLockClick m isLocked instances) instances = negb isLocked).
Proof.
  assert (Hin : forall i, In i instances ->
            isPathLocked (groupLockClick m isLocked instances) (ColorExtractor.path i)
            = negb isLocked).
  { intros i Hi. rewrite groupLockClick_state.
    assert (E : existsb (fun j => String.eqb (ColorExtractor.path i) (ColorExtractor.path j))
                  instances = true).
    { apply existsb_exists. exists i. split; [assumption|apply String.eqb_refl]. }
    now rewrite E. }
  split; [exact Hin|]. split.
  - intros q Hq. rewrite groupLockClick_state.
    destruct (existsb _ instances) eqn:E; [|reflexivity].
    apply existsb_exists in E as (i & Hi & Heq). apply String.eqb_eq in Heq.
    exfalso. now apply (Hq i Hi).
  - intros Hne. destruct instances as [|first rest]; [congruence|].
    cbn [groupIsLocked]. apply Hin. now left.
Qed.

(** ** Reset *)

Section Reset.

Variable other : json -> float.

Lemma adjustAll_keeps_baseline doc steps : forall m current,
  Js.clone doc = doc -> adjustable doc = true -> Js.truthy doc = true ->
  lockedPaths m = [] -> originalAnimData m = doc ->
  exists m' current',
    adjustAll other m current steps = Ok (m', current')
    /\ lockedPaths m' = [] /\ originalAnimData m' = doc.
Proof.
  induction steps as [|[[hue saturation] lightness] steps IH];
    intros m current Hfix Ha Ht Hlocks Horig.
  - exists m, current. now repeat split.
  - cbn [adjustAll].
    rewrite (applyAdjustments_baseline other m current doc) by (auto; left; now split).
    destruct (rec_total other (managerAfter [] doc hue saturation lightness)
                (S (Js.depth doc)) doc "" Ha) as (result & Hres).
    rewrite Hres. cbn [bind fst snd]. now apply IH.
Qed.

End Reset.



(** ** What the conversion of an array leaves alone *)

Lemma length_writeRgb l a c :
  a + 2 < List.length l -> List.length (writeRgb l a c) = List.length l.
Proof.
  intros H. unfold writeRgb.
  rewrite itemSet_length; rewrite itemSet_length; rewrite ?itemSet_length; lia.
Qed.

Lemma stopOffsets_bound loopLimit len :
  Forall (fun i => i + 3 < len) (stopOffsets loopLimit len).
Proof.
  unfold stopOffsets.
  assert (H : Forall (fun i => i + 3 < len) (map (fun k => 4 * k) (seq 0 (len / 4)))).
  { apply Forall_forall. intros i Hi. apply in_map_iff in Hi as (k & <- & Hk).
    apply in_seq in Hk. pose proof (Nat.div_mod_eq len 4).
    pose proof (Nat.mod_upper_bound len 4). lia. }
  revert H. generalize (map (fun k => 4 * k) (seq 0 (len / 4))) as offs.
  induction offs as [|i offs IH]; intros H; [constructor|].
  inversion H as [|? ? Hi Hoffs]; subst.
  destruct (Num.of_Z (Z.of_nat i) <? loopLimit)%float; constructor; auto.
Qed.

(** The loop stops at the first offset that is not below the limit. *)
Lemma stopOffsets_below loopLimit len n :
  (Num.of_Z (Z.of_nat (4 * n)) <? loopLimit)%float = false ->
  Forall (fun i => i < 4 * n) (stopOffsets loopLimit len).
Proof.
  intros Hstop. unfold stopOffsets.
  assert (H : forall cnt a, a <= n ->
            Forall (fun i => i < 4 * n)
              ((fix upto (l : list nat) : list nat :=
                  match l with
                  | [] => []
                  | i :: rest =>
                      if (Num.of_Z (Z.of_nat i) <? loopLimit)%float then i :: upto rest else []
                  end) (map (fun k => 4 * k) (seq a cnt)))).
  { induction cnt as [|cnt IH]; intros a Ha; [constructor|].
    cbn [seq map]. destruct (Nat.eq_dec a n) as [->|Hne].
    - rewrite Hstop. constructor.
    - destruct (Num.of_Z (Z.of_nat (4 * a)) <? loopLimit)%float; constructor; [lia|].
      apply IH. lia. }
  apply H. lia.
Qed.

Lemma stop_limit n :
  n <= 256 ->
  (Num.of_Z (Z.of_nat (4 * n)) <? Num.of_Z (Z.of_nat n) * 4)%float = false.
Proof.
  intros Hn.
  assert (A : forallb (fun k => negb (Num.of_Z (Z.of_nat (4 * k))
                                      <? Num.of_Z (Z.of_nat k) * 4)%float)
                (seq 0 257) = true) by (vm_compute; reflexivity).
  rewrite forallb_forall in A. specialize (A n). apply negb_true_iff, A, in_seq. lia.
Qed.

Section ArrayFrames.

Variable other : json -> float.
Variable m : HueShiftManager.t.

Lemma adjustStops_frame path offs : forall arr,
  Forall (fun i => (exists k, i = 4 * k) /\ i + 3 < List.length arr) offs ->
  List.length (fold_left (adjustStop other m path) offs arr) = List.length arr
  /\ (forall q, Js.item (fold_left (adjustStop other m path) offs arr) (4 * q)
                = Js.item arr (4 * q))
  /\ (forall n j, Forall (fun i => i < 4 * n) offs -> 4 * n <= j ->
        Js.item (fold_left (adjustStop other m path) offs arr) j = Js.item arr j).
Proof.
  induction offs as [|i offs IH]; intros arr H.
  - repeat split; reflexivity.
  - apply Forall_cons_iff in H as [[(k & Hk) Hi] Hoffs]. cbn [fold_left].
    assert (Hlen : List.length (adjustStop other m path arr i) = List.length arr).
    { unfold adjustStop. destruct (isPathLocked m _); [reflexivity|].
      apply length_writeRgb. lia. }
    assert (Hitem : forall j, j <= i \/ i + 3 < j ->
              Js.item (adjustStop other m path arr i) j = Js.item arr j).
    { intros j Hj. unfold adjustStop. destruct (isPathLocked m _); [reflexivity|].
      apply item_writeRgb_other. lia. }
    destruct (IH (adjustStop other m path arr i)) as (L & O & T).
    { rewrite Hlen. exact Hoffs. }
    repeat split.
    + congruence.
    + intros q. rewrite O. apply Hitem. lia.
    + intros n j Hb Hj. apply Forall_cons_iff in Hb as [Hib Hb].
      rewrite (T n j Hb Hj). apply Hitem. lia.
Qed.

End ArrayFrames.

(** X9. The conversion writes three channels and nothing else.
    [adjustRgbaArray] keeps the alpha and whatever follows it, and the
    length of an array of three elements or more.  [adjustGradientStops]
    keeps the length of the array and every stop offset (the indices
    [0, 4, 8, ...]); with a stop count of [n] (up to 256) it keeps
    everything from index [4 n] on, which is where a gradient holds its
    transparency stops. *)
Theorem shift_writes_three_channels_only (other : json -> float) (m : HueShiftManager.t)
  (arr : list json) (numStops : json) (path : string) :
  (forall j, 3 <= j -> Js.item (adjustRgbaArray other m arr) j = Js.item arr j)
  /\ (3 <= List.length arr ->
      List.length (adjustRgbaArray other m arr) = List.length arr)
  /\ List.length (adjustGradientStops other m arr numStops path) = List.length arr
  /\ (forall q, Js.item (adjustGradientStops other m arr numStops path) (4 * q)
                = Js.item arr (4 * q))
  /\ (forall n j, n <= 256 ->
        Js.ToNumber other numStops = Num.of_Z (Z.of_nat n) ->
        4 * n <= j ->
        Js.item (adjustGradientStops other m arr numStops path) j = Js.item arr j).
Proof.
  assert (Hoffs : Forall (fun i => (exists k, i = 4 * k) /\ i + 3 < List.length arr)
                    (stopOffsets (Js.ToNumber other numStops * 4) (List.length arr))).
  { apply Forall_forall. intros i Hi. split.
    - pose proof (stopOffsets_multiple (Js.ToNumber other numStops * 4) (List.length arr)) as H.
      rewrite Forall_forall in H. now apply H.
    - pose proof (stopOffsets_bound (Js.ToNumber other numStops * 4) (List.length arr)) as H.
      rewrite Forall_forall in H. now apply H. }
  destruct (adjustStops_frame other m path _ arr Hoffs) as (L & O & T).
  split; [|split; [|split; [|split]]].
  - intros j Hj. unfold adjustRgbaArray. apply item_writeRgb_other. lia.
  - intros Hlen. unfold adjustRgbaArray. apply length_writeRgb. lia.
  - exact L.
  - exact O.
  - intros n j Hn Hnum Hj. unfold adjustGradientStops.
    apply (T n j); [|assumption].
    apply stopOffsets_below. rewrite Hnum. now apply stop_limit.
Qed.

Lemma shift_writes_three_channels_only_witness :
  Js.item (adjustGradientStops notANumber (managerAfter [] JNull 120 0 0)
             [JNum 0; JNum 1; JNum 0; JNum 0; JNum 1; JNum 0; JNum 0; JNum 1;
              JNum 0; JNum 1; JNum 1; JNum 0.5] (JNum 2) "g.k.k") 11
  = JNum 0.5
  /\ List.length (adjustRgbaArray notANumber (managerAfter [] JNull 120 0 0)
                    [JNum 1; JNum 0; JNum 0; JNum 0.25]) = 4.
Proof.
  destruct (shift_writes_three_channels_only notANumber (managerAfter [] JNull 120 0 0)
              [JNum 0; JNum 1; JNum 0; JNum 0; JNum 1; JNum 0; JNum 0; JNum 1;
               JNum 0; JNum 1; JNum 1; JNum 0.5] (JNum 2) "g.k.k")
    as (_ & _ & _ & _ & Htail).
  destruct (shift_writes_three_channels_only notANumber (managerAfter [] JNull 120 0 0)
              [JNum 1; JNum 0; JNum 0; JNum 0.25] JNull "")
    as (_ & Hlen & _).
  split.
  - rewrite (Htail 2 11); [reflexivity|lia|reflexivity|lia].
  - apply Hlen. cbn. lia.
Defined.

(** ** What a shift leaves alone in the document *)



Import ColorExtractor.

(** * The grouped colours *)

Lemma groupFind_app k gs key g0 :
  groupFind k (gs ++ [(key, g0)])
  = match groupFind k gs with
    | Some g => Some g
    | None => if String.eqb key k then Some g0 else None
    end.
Proof.
  induction gs as [|[k' g'] gs IH]; cbn [app groupFind]; [reflexivity|].
  now destruct (String.eqb k' k).
Qed.

Lemma groupFind_groupPush k key inst gs :
  groupFind k (groupPush key inst gs)
  = if String.eqb key k
    then match groupFind key gs with
         | Some g => Some {| groupHex := groupHex g; count := S (count g);
                             instances := instances g ++ [inst];
                             groupShapeType := groupShapeType g |}
         | None => None
         end
    else groupFind k gs.
Proof.
  induction gs as [|[k' g'] gs IH]; cbn [groupPush groupFind].
  - now destruct (String.eqb key k).
  - destruct (String.eqb_spec k' key) as [->|Hne]; cbn [groupFind].
    + destruct (String.eqb key k); reflexivity.
    + destruct (String.eqb_spec k' k) as [->|Hk'].
      * destruct (String.eqb_spec key k) as [->|_]; [congruence|reflexivity].
      * exact IH.
Qed.

Lemma keys_groupPush key inst gs : map fst (groupPush key inst gs) = map fst gs.
Proof.
  induction gs as [|[k' g'] gs IH]; [reflexivity|]. cbn [groupPush].
  destruct (String.eqb k' key); cbn [map fst]; [reflexivity|now rewrite IH].
Qed.

Lemma groupFind_None_keys k gs : groupFind k gs = None <-> ~ In k (map fst gs).
Proof.
  induction gs as [|[k' g'] gs IH]; cbn [groupFind map fst In]; [tauto|].
  destruct (String.eqb_spec k' k) as [->|Hne].
  - split; [discriminate|intros H; exfalso; apply H; now left].
  - rewrite IH. tauto.
Qed.

Lemma totalCount_app gs hs : totalCount (gs ++ hs) = totalCount gs + totalCount hs.
Proof.
  unfold totalCount. induction gs as [|kg gs IH]; cbn [app fold_right]; [reflexivity|].
  rewrite IH. lia.
Qed.

Lemma totalCount_groupPush key inst gs :
  groupFind key gs <> None -> totalCount (groupPush key inst gs) = S (totalCount gs).
Proof.
  unfold totalCount. induction gs as [|[k' g'] gs IH]; cbn [groupFind groupPush];
    [congruence|].
  destruct (String.eqb k' key); cbn [fold_right snd count]; intros H; [reflexivity|].
  rewrite IH by assumption. lia.
Qed.

Lemma filedUnder_snoc key insts inst :
  filedUnder key (insts ++ [inst])
  = filedUnder key insts ++ (if String.eqb (groupKey inst) key then [inst] else []).
Proof. unfold filedUnder. rewrite filter_app. reflexivity. Qed.

Lemma groupOf_snoc insts inst :
  insts <> [] ->
  groupOf (insts ++ [inst])
  = match groupOf insts with
    | Some g => Some {| groupHex := groupHex g; count := S (count g);
                        instances := instances g ++ [inst];
                        groupShapeType := groupShapeType g |}
    | None => None
    end.
Proof.
  destruct insts as [|first rest]; [congruence|]. intros _. cbn.
  rewrite length_app. cbn. rewrite Nat.add_1_r. reflexivity.
Qed.

(** The state of the extraction after any number of [addColor] calls. *)
Lemma addColor_filed st inst :
  (forall k, groupFind k (groupedColors st) = groupOf (filedUnder k (colors st))) ->
  NoDup (map fst (groupedColors st)) ->
  totalCount (groupedColors st) = List.length (colors st) ->
  (forall k, groupFind k (groupedColors (addColor st inst))
             = groupOf (filedUnder k (colors (addColor st inst))))
  /\ NoDup (map fst (groupedColors (addColor st inst)))
  /\ totalCount (groupedColors (addColor st inst)) = List.length (colors (addColor st inst)).
Proof.
  intros Hfind Hkeys Hcount. unfold addColor. fold (groupKey inst).
  cbn [colors groupedColors]. rewrite length_app. cbn [List.length].
  pose proof (Hfind (groupKey inst)) as Hown.
  destruct (groupFind (groupKey inst) (groupedColors st)) as [g|] eqn:Eg.
  - (* the group is there *)
    split; [|split].
    + intros k. rewrite groupFind_groupPush, filedUnder_snoc.
      destruct (String.eqb_spec (groupKey inst) k) as [<-|Hk].
      * rewrite Eg, groupOf_snoc.
        -- now rewrite <- Hown.
        -- intros E. rewrite E in Hown. discriminate.
      * rewrite app_nil_r. apply Hfind.
    + now rewrite keys_groupPush.
    + rewrite totalCount_groupPush by congruence. lia.
  - (* the group is opened *)
    assert (Hnone : filedUnder (groupKey inst) (colors st) = []).
    { destruct (filedUnder (groupKey inst) (colors st)); [reflexivity|discriminate]. }
    split; [|split].
    + intros k. rewrite groupFind_groupPush, filedUnder_snoc, groupFind_app, Eg.
      rewrite String.eqb_refl.
      destruct (String.eqb_spec (groupKey inst) k) as [<-|Hk].
      * rewrite Hnone. reflexivity.
      * rewrite app_nil_r, groupFind_app, Hfind.
        destruct (groupOf (filedUnder k (colors st))); [reflexivity|].
        apply String.eqb_neq in Hk. now rewrite Hk.
    + rewrite keys_groupPush, map_app. cbn [map fst].
      apply NoDup_app; [assumption|repeat constructor; now intros []|].
      intros x Hx [<-|[]]. now apply groupFind_None_keys in Eg.
    + rewrite totalCount_groupPush.
      * rewrite totalCount_app. cbn. lia.
      * rewrite groupFind_app, Eg, String.eqb_refl. discriminate.
Qed.

Lemma addColors_filed insts : forall st,
  (forall k, groupFind k (groupedColors st) = groupOf (filedUnder k (colors st))) ->
  NoDup (map fst (groupedColors st)) ->
  totalCount (groupedColors st) = List.length (colors st) ->
  (forall k, groupFind k (groupedColors (fold_left addColor insts st))
             = groupOf (filedUnder k (colors (fold_left addColor insts st))))
  /\ NoDup (map fst (groupedColors (fold_left addColor insts st)))
  /\ totalCount (groupedColors (fold_left addColor insts st))
     = List.length (colors (fold_left addColor insts st)).
Proof.
  induction insts as [|inst insts IH]; intros st H1 H2 H3; [now repeat split|].
  cbn [fold_left]. destruct (addColor_filed st inst H1 H2 H3) as (A & B & C).
  now apply IH.
Qed.

(** X11. The grouped colours partition the extraction.  After
    [extractColors] has returned for an object, [groupedColors] holds under
    each key exactly the extracted instances whose lowercase hex is the key,
    in the order of the extraction, with their number as [count] and the hex
    and the shape type of the first of them; a key is there only if an
    instance is filed under it, no key is there twice, and the counts add up
    to the number of instances. *)
Theorem grouped_colors_partition_the_extraction (other : json -> float)
  (before : list (string * group)) (doc : json)
  (insts : list instance) (groups : list (string * group)) :
  Js.isObject doc = true ->
  extractColors other before doc = Ok (insts, groups) ->
  (forall k, groupFind k groups = groupOf (filedUnder k insts))
  /\ (forall inst, In inst insts ->
        exists g, groupFind (groupKey inst) groups = Some g /\ In inst (instances g))
  /\ NoDup (map fst groups)
  /\ totalCount groups = List.length insts.
Proof.
  intros Hobj. unfold extractColors. rewrite Hobj.
  rewrite (uniform_recursiveExtract other doc [] "" noColors).
  destruct (emitted (recursiveExtract other [] doc "")) as [l| |]; cbn [bind];
    try discriminate.
  intros [= <- <-].
  destruct (addColors_filed l noColors) as (A & B & C);
    [reflexivity|constructor|reflexivity|].
  split; [exact A|]. split; [|split; assumption].
  intros inst Hin. rewrite A.
  assert (Hf : In inst (filedUnder (groupKey inst) (colors (fold_left addColor l noColors)))).
  { apply filter_In. split; [assumption|apply String.eqb_refl]. }
  destruct (filedUnder (groupKey inst) (colors (fold_left addColor l noColors)))
    as [|first rest] eqn:E; [contradiction|].
  eexists. split; [reflexivity|exact Hf].
Qed.

Lemma grouped_colors_partition_the_extraction_witness :
  exists insts groups,
    extractColors notANumber [] lockDocument = Ok (insts, groups)
    /\ (forall k, groupFind k groups = groupOf (filedUnder k insts))
    /\ totalCount groups = 6.
Proof.
  destruct (extractColors notANumber [] lockDocument) as [[insts groups]| |] eqn:E;
    [|vm_compute in E; discriminate..].
  exists insts, groups.
  destruct (grouped_colors_partition_the_extraction notANumber [] lockDocument insts groups
              eq_refl E) as (A & _ & _ & C).
  split; [reflexivity|]. split; [exact A|]. rewrite C.
  vm_compute in E. injection E as <- _. reflexivity.
Defined.

Import FileHandler.

(** * The export holds the edited colours *)

(** ** One step of the merge on a field that was edited, or was not *)

Lemma truthy_get_isObject y k : Js.truthy (Js.get y k) = true -> Js.isObject y = true.
Proof. destruct y; cbn; try discriminate; reflexivity. Qed.

Lemma isArray_truthy v : Js.isArray v = true -> Js.truthy v = true.
Proof. destruct v; cbn; try discriminate; reflexivity. Qed.

Lemma truthy_set y k x : Js.isObject y = true -> Js.truthy (Js.set y k x) = true.
Proof.
  destruct y; cbn; try discriminate; [|reflexivity].
  now destruct (Str.to_index k).
Qed.

Lemma copySolid_edit t key x :
  solidEdit x (Js.get t key) ->
  Js.set t key (Js.get t key) = t ->
  copySolid key x t = Js.set t key x.
Proof.
  intros [->|(Hy & Hk & channels & ->)] Hset.
  - unfold copySolid, assignK.
    destruct (Js.truthy (Js.get t key) && Js.truthy (Js.get (Js.get t key) "k")) eqn:E;
      [|now rewrite Hset].
    destruct (Js.isArray (Js.get (Js.get t key) "k")); [|now rewrite Hset].
    apply andb_true_iff in E as [_ E].
    rewrite set_get_same by now apply truthy_defined. now rewrite Hset.
  - unfold copySolid, assignK.
    assert (Hobj : Js.isObject (Js.get t key) = true) by now apply truthy_get_isObject in Hk.
    rewrite truthy_set by assumption.
    rewrite get_set_same by now apply truthy_defined.
    cbn [Js.truthy Js.isArray andb]. now rewrite Hy, Hk.
Qed.

Lemma copyGradient_edit t key x :
  gradientEdit x (Js.get t key) ->
  Js.set t key (Js.get t key) = t ->
  copyGradient key x t = Js.set t key x.
Proof.
  intros [->|[(Hy & Hk & stops & ->)|(Hy & Hk & Hna & Hkk & stops & ->)]] Hset.
  - unfold copyGradient, assignK, assignKK.
    destruct (Js.truthy (Js.get t key)) eqn:Hy; cbn [andb]; [|now rewrite Hset].
    destruct (Js.isArray (Js.get (Js.get t key) "k")) eqn:Hk.
    + rewrite set_get_same; [now rewrite Hset|].
      now apply isArray_defined.
    + destruct (Js.truthy (Js.get (Js.get t key) "k")) eqn:Hk'; cbn [andb];
        [|now rewrite Hset].
      destruct (Js.isArray (Js.get (Js.get (Js.get t key) "k") "k")) eqn:Hkk;
        [|now rewrite Hset].
      rewrite set_get_same by now apply isArray_defined.
      rewrite set_get_same by now apply truthy_defined.
      now rewrite Hset.
  - unfold copyGradient, assignK.
    assert (Hobj : Js.isObject (Js.get t key) = true)
      by (apply isArray_truthy in Hk; now apply truthy_get_isObject in Hk).
    rewrite truthy_set by assumption.
    rewrite get_set_same by now apply isArray_defined.
    cbn [Js.isArray andb]. now rewrite Hy, Hk.
  - unfold copyGradient, assignKK.
    assert (Hobj : Js.isObject (Js.get t key) = true) by now apply truthy_get_isObject in Hk.
    assert (Hobj' : Js.isObject (Js.get (Js.get t key) "k") = true)
      by (apply isArray_truthy in Hkk; now apply truthy_get_isObject in Hkk).
    rewrite truthy_set by assumption.
    rewrite get_set_same by now apply truthy_defined.
    rewrite get_set_same by now apply isArray_defined.
    assert (Hna' : Js.isArray (Js.set (Js.get (Js.get t key) "k") "k" (JArr stops)) = false).
    { destruct (Js.get (Js.get t key) "k"); cbn in *; try discriminate; reflexivity. }
    rewrite Hna', truthy_set by assumption. cbn [andb Js.isArray].
    now rewrite Hy, Hk, Hkk.
Qed.

(** A value that is no object is edited by nothing. *)
Lemma colorEdit_primitive x y : colorEdit x y -> Js.isObject y = false -> x = y.
Proof.
  destruct x, y; cbn [colorEdit Js.isObject]; intros H Hy; try discriminate; try assumption.
Qed.

Lemma colorEdit_isObject x y : colorEdit x y -> Js.isObject x = Js.isObject y.
Proof.
  destruct x, y; cbn [colorEdit Js.isObject]; intros H; try reflexivity; try discriminate;
    try contradiction.
Qed.

(** ** The two loops *)

Lemma distinct_fresh done k rest :
  distinct (done ++ k :: rest) = true -> existsb (String.eqb k) done = false.
Proof.
  induction done as [|d done IH]; cbn [app distinct existsb]; [reflexivity|].
  intros H. apply andb_true_iff in H as [Hd H]. rewrite (IH H), orb_false_r.
  apply negb_true_iff in Hd. rewrite existsb_app in Hd. cbn [existsb] in Hd.
  apply orb_false_iff in Hd as [_ Hd]. apply orb_false_iff in Hd as [Hd _].
  now rewrite String.eqb_sym.
Qed.

Lemma assoc_fresh done k (y : json) rest :
  existsb (String.eqb k) (map fst done) = false ->
  Js.assoc k (done ++ (k, y) :: rest) = Some y.
Proof.
  induction done as [|[d v] done IH]; cbn [app map fst existsb Js.assoc].
  - now rewrite String.eqb_refl.
  - intros H. apply orb_false_iff in H as [Hd H]. rewrite String.eqb_sym in Hd.
    rewrite Hd. auto.
Qed.

Lemma assocSet_fresh done k (x y : json) rest :
  existsb (String.eqb k) (map fst done) = false ->
  Js.assocSet k x (done ++ (k, y) :: rest) = done ++ (k, x) :: rest.
Proof.
  induction done as [|[d v] done IH]; cbn [app map fst existsb Js.assocSet].
  - now rewrite String.eqb_refl.
  - intros H. apply orb_false_iff in H as [Hd H]. rewrite String.eqb_sym in Hd.
    rewrite Hd. f_equal. auto.
Qed.

Lemma itemSet_middle (done : list json) x y rest :
  Js.itemSet (List.length done) x (done ++ y :: rest) = done ++ x :: rest.
Proof. induction done as [|d done IH]; cbn; [reflexivity|now f_equal]. Qed.

Lemma wellKeyed_values qs k y :
  wellKeyed (JObj qs) = true -> In (k, y) qs -> wellKeyed y = true.
Proof.
  cbn. intros H Hin. apply andb_true_iff in H as [_ H].
  rewrite forallb_forall in H. apply (H (k, y) Hin).
Qed.

Section Loops.

(** What the induction on the edited document gives for its children. *)
Variable merged : json -> Prop.
Hypothesis merged_spec : forall x, merged x ->
  forall y, wellKeyed y = true -> colorEdit x y -> deepTraverseAndCopyColors x y = x.

Lemma fields_edit ps : forall qs done,
  Forall (fun kv => merged (snd kv)) ps ->
  distinct (map fst (done ++ qs)) = true ->
  forallb (fun kv => wellKeyed (snd kv)) qs = true ->
  colorEdit (JObj ps) (JObj qs) ->
  fold_left fieldStep ps (JObj (done ++ qs)) = JObj (done ++ ps).
Proof.
  induction ps as [|[k x] ps IH]; intros [|[k' y] qs] done Hm Hd Hw He;
    cbn [colorEdit] in He; try contradiction; [reflexivity|].
  destruct He as (<- & Hfield & Hrest).
  apply Forall_cons_iff in Hm as [Hx Hm]. cbn [snd] in Hx.
  cbn [forallb snd] in Hw. apply andb_true_iff in Hw as [Hy Hw].
  assert (Hfresh : existsb (String.eqb k) (map fst done) = false).
  { rewrite map_app in Hd. cbn [map fst] in Hd. now apply distinct_fresh in Hd. }
  assert (Hget : Js.get (JObj (done ++ (k, y) :: qs)) k = y).
  { cbn [Js.get]. now rewrite assoc_fresh. }
  assert (Hset : forall v, Js.set (JObj (done ++ (k, y) :: qs)) k v
                           = JObj ((done ++ [(k, v)]) ++ qs)).
  { intros v. cbn [Js.set]. rewrite assocSet_fresh by assumption.
    now rewrite <- app_assoc. }
  assert (Hstep : fieldStep (JObj (done ++ (k, y) :: qs)) (k, x)
                  = JObj ((done ++ [(k, x)]) ++ qs)).
  { rewrite <- Hset. unfold fieldStep.
    destruct (String.eqb k "c" || String.eqb k "sc").
    - apply copySolid_edit; rewrite Hget; [assumption|].
      rewrite Hset. now rewrite <- app_assoc.
    - destruct (String.eqb k "g").
      + apply copyGradient_edit; rewrite Hget; [assumption|].
        rewrite Hset. now rewrite <- app_assoc.
      + rewrite Hget. rewrite (colorEdit_isObject x y Hfield).
        destruct (Js.isObject y) eqn:Hobj.
        * now rewrite (merged_spec x Hx y Hy Hfield).
        * rewrite (colorEdit_primitive x y Hfield Hobj), Hset. now rewrite <- app_assoc. }
  cbn [fold_left]. rewrite Hstep.
  rewrite (IH qs (done ++ [(k, x)])); try assumption.
  - now rewrite <- app_assoc.
  - rewrite <- app_assoc. cbn [app]. rewrite !map_app in *. exact Hd.
Qed.

Lemma elements_edit xs : forall ys done,
  Forall merged xs ->
  forallb wellKeyed ys = true ->
  colorEdit (JArr xs) (JArr ys) ->
  elementSteps (List.length done) xs (JArr (done ++ ys)) = JArr (done ++ xs).
Proof.
  induction xs as [|x xs IH]; intros [|y ys] done Hm Hw He;
    cbn [colorEdit] in He; try contradiction; [reflexivity|].
  destruct He as (Hxy & Hrest).
  apply Forall_cons_iff in Hm as [Hx Hm].
  cbn [forallb] in Hw. apply andb_true_iff in Hw as [Hy Hw].
  assert (Hstep : elementStep (List.length done) x (JArr (done ++ y :: ys))
                  = JArr ((done ++ [x]) ++ ys)).
  { unfold elementStep. cbn [Js.get Js.set]. rewrite to_index_of_nat.
    unfold Js.item. rewrite nth_middle. rewrite <- app_assoc. cbn [app].
    destruct (Js.isObject y) eqn:Hobj.
    - rewrite (isObject_truthy y Hobj). cbn [andb].
      now rewrite (merged_spec x Hx y Hy Hxy), itemSet_middle.
    - rewrite andb_false_r. now rewrite (colorEdit_primitive x y Hxy Hobj). }
  cbn [elementSteps]. rewrite Hstep.
  replace (S (List.length done)) with (List.length (done ++ [x]))
    by (rewrite length_app; cbn; lia).
  rewrite (IH ys (done ++ [x])); try assumption.
  now rewrite <- app_assoc.
Qed.

End Loops.

(** ** The merge *)

Lemma merge_edit edited : forall original,
  wellKeyed original = true -> colorEdit edited original ->
  deepTraverseAndCopyColors edited original = edited.
Proof.
  induction edited as [| | | | |xs IH|ps IH] using json_induction; intros original Hw He;
    try (cbn [colorEdit] in He; subst; reflexivity).
  - destruct original as [| | | | |ys|qs]; cbn [colorEdit] in He; try discriminate.
    rewrite merge_array_source. cbn [Js.isObject].
    apply (elements_edit (fun x => forall y, wellKeyed y = true -> colorEdit x y ->
                                    deepTraverseAndCopyColors x y = x)
             (fun x H => H) xs ys []); assumption.
  - destruct original as [| | | | |ys|qs]; cbn [colorEdit] in He; try discriminate.
    rewrite merge_object_source. cbn [Js.isObject].
    cbn [wellKeyed] in Hw. apply andb_true_iff in Hw as [Hd Hw].
    apply (fields_edit (fun x => forall y, wellKeyed y = true -> colorEdit x y ->
                                  deepTraverseAndCopyColors x y = x)
             (fun x H => H) ps qs []); assumption.
Qed.

Lemma colorEdit_refl v : colorEdit v v.
Proof.
  induction v as [| | | | |xs IH|ps IH] using json_induction; try reflexivity.
  - cbn [colorEdit]. induction IH as [|x xs Hx _ IHxs]; [exact I|now split].
  - cbn [colorEdit]. induction IH as [|[k x] ps Hx _ IHps]; [exact I|].
    split; [reflexivity|]. split; [|exact IHps].
    destruct (String.eqb k "c" || String.eqb k "sc"); [now left|].
    destruct (String.eqb k "g"); [now left|exact Hx].
Qed.



Import HueShiftManager.

(** * Greys under a shift of the hue *)

(** ** A few facts about doubles *)

Lemma SFcompare_refl f : f <> S754_nan -> SFcompare f f = Some Eq.
Proof.
  destruct f as [sg|sg| |sg mant e]; intros H; try congruence; cbn.
  - reflexivity.
  - now destruct sg.
  - rewrite Z.compare_refl.
    change (PosDef.Pos.compare_cont Eq mant mant) with (Pos.compare mant mant).
    rewrite Pos.compare_refl. now destruct sg.
Qed.

Lemma ltb_irrefl (y : float) : (y <? y)%float = false.
Proof.
  rewrite ltb_spec. unfold SFltb.
  destruct (Prim2SF y) eqn:E; try reflexivity; now rewrite SFcompare_refl.
Qed.

Lemma nan_unique (y : float) : is_nan y = true -> y = nan.
Proof.
  unfold is_nan. rewrite eqb_spec. unfold SFeqb. intros H.
  destruct (Prim2SF y) eqn:E; try (rewrite SFcompare_refl in H by discriminate; discriminate).
  rewrite <- (SF2Prim_Prim2SF y), E. reflexivity.
Qed.

Lemma nan_add (y : float) : (nan + y)%float = nan.
Proof.
  rewrite <- (SF2Prim_Prim2SF (nan + y)), add_spec. reflexivity.
Qed.

Lemma max2_same (y : float) : is_nan y = false -> Num.max2 y y = y.
Proof.
  intros H. unfold Num.max2. rewrite H, ltb_irrefl. cbn [orb].
  now destruct (Num.is_neg_zero y).
Qed.

Lemma min2_same (y : float) : is_nan y = false -> Num.min2 y y = y.
Proof.
  intros H. unfold Num.min2. rewrite H, ltb_irrefl. cbn [orb].
  now destruct (Num.is_neg_zero y).
Qed.

(** ** The conversions on a grey *)

Lemma rgbToHsl_grey (x : float) :
  is_nan (x / 255) = false ->
  ColorUtils.rgbToHsl x x x
  = {| ColorUtils.h := 0 * 360; ColorUtils.s := 0 * 100;
       ColorUtils.l := (x / 255 + x / 255) / 2 * 100 |}.
Proof.
  intros H. unfold ColorUtils.rgbToHsl, Num.Math_max3, Num.Math_min3. cbv zeta.
  rewrite !max2_same, !min2_same by assumption.
  unfold is_nan in H. apply negb_false_iff in H. now rewrite H.
Qed.

Lemma rgbToHsl_nan (x : float) :
  is_nan (x / 255) = true ->
  ColorUtils.rgbToHsl x x x
  = {| ColorUtils.h := nan; ColorUtils.s := nan; ColorUtils.l := nan |}.
Proof.
  intros H. apply nan_unique in H.
  unfold ColorUtils.rgbToHsl. cbv zeta. rewrite H. reflexivity.
Qed.

Lemma hslToRgb_grey (hue lightness : float) :
  ColorUtils.hslToRgb hue 0 lightness
  = {| ColorUtils.rr := Num.Math_round (lightness / 100 * 255);
       ColorUtils.rg := Num.Math_round (lightness / 100 * 255);
       ColorUtils.rb := Num.Math_round (lightness / 100 * 255) |}.
Proof. reflexivity. Qed.

(** On a grey the hue shift does not enter the result, and the result is a
    grey. *)
Lemma shiftRgb_grey (m : HueShiftManager.t) (x : float) :
  saturationShift m = 0%float ->
  shiftRgb m x x x = shiftRgb (setAdjustments m 0 0 (lightnessShift m)) x x x
  /\ exists c, shiftRgb m x x x
               = {| ColorUtils.rr := c; ColorUtils.rg := c; ColorUtils.rb := c |}.
Proof.
  intros Hs. unfold shiftRgb. cbn [setAdjustments hueShift saturationShift lightnessShift].
  rewrite Hs. destruct (is_nan (x / 255)) eqn:E.
  - rewrite rgbToHsl_nan by assumption.
    cbn [ColorUtils.h ColorUtils.s ColorUtils.l]. rewrite !nan_add.
    split; [reflexivity|]. eexists. reflexivity.
  - rewrite rgbToHsl_grey by assumption.
    cbn [ColorUtils.h ColorUtils.s ColorUtils.l].
    change (Num.max2 0 (Num.min2 100 (0 * 100 + 0))) with 0%float.
    rewrite !hslToRgb_grey. split; [reflexivity|]. eexists. reflexivity.
Qed.

Lemma writeRgb_head a b c rest rgb :
  writeRgb (a :: b :: c :: rest) 0 rgb
  = JNum (Num.rounded_to_float (ColorUtils.rr rgb) / 255)
    :: JNum (Num.rounded_to_float (ColorUtils.rg rgb) / 255)
    :: JNum (Num.rounded_to_float (ColorUtils.rb rgb) / 255) :: rest.
Proof. reflexivity. Qed.

Lemma shiftRgb_same_shifts m1 m2 x y z :
  hueShift m1 = hueShift m2 -> saturationShift m1 = saturationShift m2 ->
  lightnessShift m1 = lightnessShift m2 ->
  shiftRgb m1 x y z = shiftRgb m2 x y z.
Proof. intros H1 H2 H3. unfold shiftRgb. now rewrite H1, H2, H3. Qed.

Lemma greyKept_rounded n :
  greyKept n = true ->
  shiftRgb (managerAfter [] JNull 0 0 0)
    (Num.of_Z n / 255 * 255) (Num.of_Z n / 255 * 255) (Num.of_Z n / 255 * 255)
  = {| ColorUtils.rr := Num.RInt n false; ColorUtils.rg := Num.RInt n false;
       ColorUtils.rb := Num.RInt n false |}.
Proof. exact (keptByZeroShift_rounded n n n). Qed.

Lemma greys_kept : forallb greyKept bytes = true.
Proof. vm_compute. reflexivity. Qed.

(** X13. The hue never changes a grey.  With a saturation shift of zero,
    [adjustRgbaArray] gives three equal channels the same result for every
    hue shift - any double, NaN included - and that result is a grey again;
    with a lightness shift of zero as well, the grey [n / 255] of a byte [n]
    comes back exactly as it was, alpha and what follows included. *)
Theorem hue_leaves_greys_alone (other : json -> float) (m : HueShiftManager.t)
  (x : float) (rest : list json) :
  saturationShift m = 0%float ->
  adjustRgbaArray other m (JNum x :: JNum x :: JNum x :: rest)
  = adjustRgbaArray other (setAdjustments m 0 0 (lightnessShift m))
      (JNum x :: JNum x :: JNum x :: rest)
  /\ (exists v, adjustRgbaArray other m (JNum x :: JNum x :: JNum x :: rest)
                = JNum v :: JNum v :: JNum v :: rest)
  /\ (forall n, (0 <= n <= 255)%Z -> lightnessShift m = 0%float ->
        x = (Num.of_Z n / 255)%float ->
        adjustRgbaArray other m (JNum x :: JNum x :: JNum x :: rest)
        = JNum x :: JNum x :: JNum x :: rest).
Proof.
  intros Hs. unfold adjustRgbaArray. cbn [Js.item Js.ToNumber nth].
  rewrite !writeRgb_head.
  destruct (shiftRgb_grey m (x * 255) Hs) as (Hhue & c & Hc).
  split; [now rewrite Hhue|]. split.
  - rewrite Hc. eexists. reflexivity.
  - intros n Hn Hl ->. rewrite Hhue, Hl.
    assert (Hzero : shiftRgb (setAdjustments m 0 0 0) (Num.of_Z n / 255 * 255)
                      (Num.of_Z n / 255 * 255) (Num.of_Z n / 255 * 255)
                    = {| ColorUtils.rr := Num.RInt n false; ColorUtils.rg := Num.RInt n false;
                         ColorUtils.rb := Num.RInt n false |}).
    { rewrite (shiftRgb_same_shifts (setAdjustments m 0 0 0) (managerAfter [] JNull 0 0 0))
        by reflexivity.
      pose proof greys_kept as Hall. rewrite forallb_forall in Hall.
      exact (greyKept_rounded n (Hall n (in_bytes n Hn))). }
    rewrite Hzero. reflexivity.
Qed.

Lemma hue_leaves_greys_alone_witness :
  adjustRgbaArray notANumber (managerAfter [] JNull 137.5 0 0)
    [JNum (Num.of_Z 128 / 255); JNum (Num.of_Z 128 / 255); JNum (Num.of_Z 128 / 255); JNum 0.5]
  = [JNum (Num.of_Z 128 / 255); JNum (Num.of_Z 128 / 255); JNum (Num.of_Z 128 / 255); JNum 0.5].
Proof.
  destruct (hue_leaves_greys_alone notANumber (managerAfter [] JNull 137.5 0 0)
              (Num.of_Z 128 / 255) [JNum 0.5] eq_refl) as (_ & _ & H).
  apply (H 128%Z); [lia|reflexivity|reflexivity].
Defined.

(** ** [shiftHue] *)

Lemma grey_defined : forallb (fun n => negb (is_nan (Num.of_Z n / 255))) bytes = true.
Proof. vm_compute. reflexivity. Qed.

Lemma grey_hexes_kept : forallb greyHexKept bytes = true.
Proof. vm_compute. reflexivity. Qed.

Lemma shiftHue_grey (hex : string) (degrees : float) (n : Z) :
  ColorUtils.hexToRgb hex = {| ColorUtils.r := n; ColorUtils.g := n; ColorUtils.b := n |} ->
  is_nan (Num.of_Z n / 255) = false ->
  ColorUtils.shiftHue hex degrees = ColorUtils.shiftHue hex 0.
Proof.
  intros Hrgb Hdef. unfold ColorUtils.shiftHue. cbv zeta. rewrite Hrgb.
  cbn [ColorUtils.r ColorUtils.g ColorUtils.b].
  rewrite rgbToHsl_grey by assumption.
  cbn [ColorUtils.h ColorUtils.s ColorUtils.l].
  change (0 * 100)%float with 0%float. now rewrite !hslToRgb_grey.
Qed.

Lemma greyHexKept_byte n : (0 <= n <= 255)%Z -> greyHexKept n = true.
Proof.
  intros Hn. pose proof grey_hexes_kept as Hkept. rewrite forallb_forall in Hkept.
  exact (Hkept n (in_bytes n Hn)).
Qed.

Lemma grey_defined_byte n : (0 <= n <= 255)%Z -> is_nan (Num.of_Z n / 255) = false.
Proof.
  intros Hn. pose proof grey_defined as Hdef. rewrite forallb_forall in Hdef.
  specialize (Hdef n (in_bytes n Hn)). now apply negb_true_iff in Hdef.
Qed.

Lemma eqb_true_eq (a b : string) : String.eqb a b = true -> a = b.
Proof. apply String.eqb_eq. Qed.

Lemma shiftHue_zero_grey n :
  greyHexKept n = true ->
  ColorUtils.shiftHue (ColorUtils.rgbToHex (Num.of_Z n) (Num.of_Z n) (Num.of_Z n)) 0
  = ColorUtils.rgbToHex (Num.of_Z n) (Num.of_Z n) (Num.of_Z n).
Proof.
  exact (eqb_true_eq
           (ColorUtils.shiftHue (ColorUtils.rgbToHex (Num.of_Z n) (Num.of_Z n) (Num.of_Z n)) 0)
           (ColorUtils.rgbToHex (Num.of_Z n) (Num.of_Z n) (Num.of_Z n))).
Qed.

(** X14. [shiftHue] leaves every grey alone: for a byte [n] and any number of
    degrees - any double, NaN included - the grey [#nnnnnn] comes back as the
    same hex string. *)
Theorem shiftHue_leaves_greys_alone (n : Z) (degrees : float) :
  (0 <= n <= 255)%Z ->
  ColorUtils.shiftHue (ColorUtils.rgbToHex (Num.of_Z n) (Num.of_Z n) (Num.of_Z n)) degrees
  = ColorUtils.rgbToHex (Num.of_Z n) (Num.of_Z n) (Num.of_Z n).
Proof.
  intros Hn.
  rewrite (shiftHue_grey _ degrees n (hexToRgb_bytes n n n Hn Hn Hn) (grey_defined_byte n Hn)).
  exact (shiftHue_zero_grey n (greyHexKept_byte n Hn)).
Qed.

Lemma shiftHue_leaves_greys_alone_witness :
  ColorUtils.shiftHue "#808080" 90 = "#808080".
Proof.
  apply (shiftHue_leaves_greys_alone 128 90). lia.
Defined.

Import ColorUtils.

(** * What [hexToRgb] makes of any string *)

Lemma land_byte (a : Z) : (0 <= Z.land a 255 <= 255)%Z.
Proof.
  split.
  - apply Z.land_nonneg. right. lia.
  - destruct (Z.land a 255) as [|p|p] eqn:E; try lia.
    destruct (Z_lt_le_dec 255 (Z.pos p)) as [Hgt|]; [|assumption]. exfalso.
    assert (Hbits : forall k, (8 <= k)%Z -> Z.testbit (Z.pos p) k = false).
    { intros k Hk. rewrite <- E, Z.land_spec.
      replace (Z.testbit 255 k) with false; [apply andb_false_r|].
      symmetry. apply (Z.bits_above_log2 255 k); [lia|]. cbn. lia. }
    assert (Hlog : (8 <= Z.log2 (Z.pos p))%Z).
    { apply (Z.log2_le_mono 256 (Z.pos p)). lia. }
    pose proof (Z.bit_log2 (Z.pos p) ltac:(lia)) as Hb.
    rewrite Hbits in Hb by assumption. discriminate.
Qed.

(** ** The case of the letters *)

Lemma all_ascii (P : ascii -> bool) :
  forallb (fun n => P (ascii_of_nat n)) (seq 0 256) = true -> forall c, P c = true.
Proof.
  intros H c. rewrite forallb_forall in H. rewrite <- (ascii_nat_embedding c).
  apply H, in_seq. pose proof (nat_ascii_bounded c). lia.
Qed.

Lemma hexval_lower c : hexval (Str.lower_ascii c) = hexval c.
Proof.
  assert (H : option_Z_eqb (hexval (Str.lower_ascii c)) (hexval c) = true).
  { revert c. apply all_ascii. vm_compute. reflexivity. }
  destruct (hexval (Str.lower_ascii c)), (hexval c); cbn in H; try discriminate;
    [apply Z.eqb_eq in H; now subst|reflexivity].
Qed.

Lemma is_ws_lower c : is_ws (Str.lower_ascii c) = is_ws c.
Proof.
  assert (H : Bool.eqb (is_ws (Str.lower_ascii c)) (is_ws c) = true).
  { revert c. apply all_ascii. vm_compute. reflexivity. }
  now apply Bool.eqb_prop in H.
Qed.

Lemma hex_digits_lower str : forall acc,
  hex_digits (Str.toLowerCase str) acc = hex_digits str acc.
Proof.
  induction str as [|c str IH]; intros acc; [reflexivity|].
  cbn [Str.toLowerCase hex_digits]. rewrite hexval_lower.
  destruct (hexval c); [apply IH|reflexivity].
Qed.

Lemma lower_eqb_zero c : Ascii.eqb (Str.lower_ascii c) "0" = Ascii.eqb c "0".
Proof.
  assert (H : Bool.eqb (Ascii.eqb (Str.lower_ascii c) "0") (Ascii.eqb c "0") = true).
  { revert c. apply all_ascii. vm_compute. reflexivity. }
  now apply Bool.eqb_prop in H.
Qed.

Lemma lower_eqb_minus c : Ascii.eqb (Str.lower_ascii c) "-" = Ascii.eqb c "-".
Proof.
  assert (H : Bool.eqb (Ascii.eqb (Str.lower_ascii c) "-") (Ascii.eqb c "-") = true).
  { revert c. apply all_ascii. vm_compute. reflexivity. }
  now apply Bool.eqb_prop in H.
Qed.

Lemma lower_eqb_plus c : Ascii.eqb (Str.lower_ascii c) "+" = Ascii.eqb c "+".
Proof.
  assert (H : Bool.eqb (Ascii.eqb (Str.lower_ascii c) "+") (Ascii.eqb c "+") = true).
  { revert c. apply all_ascii. vm_compute. reflexivity. }
  now apply Bool.eqb_prop in H.
Qed.

Lemma lower_eqb_x c :
  Ascii.eqb (Str.lower_ascii c) "x" = Ascii.eqb c "x" || Ascii.eqb c "X".
Proof.
  assert (H : Bool.eqb (Ascii.eqb (Str.lower_ascii c) "x")
                (Ascii.eqb c "x" || Ascii.eqb c "X") = true).
  { revert c. apply all_ascii. vm_compute. reflexivity. }
  now apply Bool.eqb_prop in H.
Qed.

Lemma lower_eqb_X c : Ascii.eqb (Str.lower_ascii c) "X" = false.
Proof.
  assert (H : negb (Ascii.eqb (Str.lower_ascii c) "X") = true).
  { revert c. apply all_ascii. vm_compute. reflexivity. }
  now apply negb_true_iff in H.
Qed.

Lemma strip_0x_cons a b rest :
  strip_0x (String a (String b rest))
  = if Ascii.eqb a "0" && (Ascii.eqb b "x" || Ascii.eqb b "X")
    then rest else String a (String b rest).
Proof.
  unfold strip_0x.
  destruct (Ascii.eqb_spec a "0") as [->|Ha].
  - destruct (Ascii.eqb_spec b "x") as [->|Hb]; [reflexivity|].
    destruct (Ascii.eqb_spec b "X") as [->|Hb']; [reflexivity|].
    destruct b as [[] [] [] [] [] [] [] []]; try reflexivity; congruence.
  - destruct a as [[] [] [] [] [] [] [] []]; try reflexivity; congruence.
Qed.

Lemma strip_sign_cons a rest :
  strip_sign (String a rest)
  = if Ascii.eqb a "-" then (true, rest)
    else if Ascii.eqb a "+" then (false, rest)
    else (false, String a rest).
Proof.
  unfold strip_sign.
  destruct (Ascii.eqb_spec a "-") as [->|Hm]; [reflexivity|].
  destruct (Ascii.eqb_spec a "+") as [->|Hp]; [reflexivity|].
  destruct a as [[] [] [] [] [] [] [] []]; try reflexivity; congruence.
Qed.

Lemma strip_0x_lower str :
  hex_digits (strip_0x (Str.toLowerCase str)) None = hex_digits (strip_0x str) None.
Proof.
  destruct str as [|c0 [|c1 rest]]; try reflexivity.
  - assert (Hone : forall c, strip_0x (String c EmptyString) = String c EmptyString).
    { intros c. destruct c as [[] [] [] [] [] [] [] []]; reflexivity. }
    cbn [Str.toLowerCase]. rewrite !Hone.
    apply (hex_digits_lower (String c0 EmptyString)).
  - cbn [Str.toLowerCase]. rewrite !strip_0x_cons.
    rewrite lower_eqb_zero, lower_eqb_x, lower_eqb_X, orb_false_r.
    destruct (Ascii.eqb c0 "0" && (Ascii.eqb c1 "x" || Ascii.eqb c1 "X")).
    + apply hex_digits_lower.
    + apply (hex_digits_lower (String c0 (String c1 rest))).
Qed.

Lemma strip_sign_lower str :
  strip_sign (Str.toLowerCase str)
  = (fst (strip_sign str), Str.toLowerCase (snd (strip_sign str))).
Proof.
  destruct str as [|c rest]; [reflexivity|]. cbn [Str.toLowerCase].
  rewrite !strip_sign_cons, lower_eqb_minus, lower_eqb_plus.
  destruct (Ascii.eqb c "-"); [reflexivity|]. destruct (Ascii.eqb c "+"); reflexivity.
Qed.

Lemma skip_ws_lower str : skip_ws (Str.toLowerCase str) = Str.toLowerCase (skip_ws str).
Proof.
  induction str as [|c rest IH]; [reflexivity|].
  cbn [Str.toLowerCase skip_ws]. rewrite is_ws_lower.
  destruct (is_ws c); [exact IH|reflexivity].
Qed.

Lemma parseInt16_lower str : parseInt16 (Str.toLowerCase str) = parseInt16 str.
Proof.
  unfold parseInt16. rewrite skip_ws_lower, strip_sign_lower.
  destruct (strip_sign (skip_ws str)) as [neg rest]. cbn [fst snd].
  now rewrite strip_0x_lower.
Qed.

Lemma slice1_lower str : Str.slice1 (Str.toLowerCase str) = Str.toLowerCase (Str.slice1 str).
Proof. now destruct str. Qed.




(** * Paths and the addresses they stand for *)

Lemma split_dot_nonempty str : Str.split_dot str <> [].
Proof.
  induction str as [|c str IH]; cbn [Str.split_dot]; [discriminate|].
  destruct (Ascii.eqb c "."); [discriminate|].
  destruct (Str.split_dot str); [contradiction|discriminate].
Qed.

(** A key without a dot stays in the first part. *)
Lemma split_dot_key k rest :
  hasDot k = false ->
  Str.split_dot (k ++ rest)%string
  = (k ++ hd "" (Str.split_dot rest))%string :: tl (Str.split_dot rest).
Proof.
  induction k as [|c k IH]; intros Hk.
  - cbn [String.append]. destruct (Str.split_dot rest) eqn:E; [|reflexivity].
    now apply split_dot_nonempty in E.
  - cbn [hasDot] in Hk. apply orb_false_iff in Hk as [Hc Hk].
    cbn [String.append Str.split_dot]. rewrite Hc, (IH Hk). reflexivity.
Qed.

Lemma pathOf_cons k keys :
  k <> "" -> pathOf (k :: keys) = fold_left Js.join keys k.
Proof. reflexivity. Qed.

Lemma join_step p k : p <> "" -> Js.join p k = (p ++ "." ++ k)%string.
Proof.
  intros Hp. unfold Js.join. destruct (String.eqb_spec p ""); [contradiction|reflexivity].
Qed.

Lemma append_nonempty (a b : string) : a <> "" -> (a ++ b)%string <> "".
Proof. destruct a; [congruence|discriminate]. Qed.

Lemma append_assoc (a b c : string) : ((a ++ b) ++ c)%string = (a ++ (b ++ c))%string.
Proof. induction a as [|x a IH]; cbn; [reflexivity|now rewrite IH]. Qed.

Lemma append_empty (a : string) : (a ++ "")%string = a.
Proof. induction a as [|c a IH]; cbn; [reflexivity|now rewrite IH]. Qed.

(** A path is its first key and, for every further key, a dot and the key. *)
Lemma fold_join keys : forall p suffix,
  p <> "" ->
  (fold_left Js.join keys p ++ suffix)%string
  = (p ++ fold_right (fun k acc => "." ++ k ++ acc) suffix keys)%string.
Proof.
  induction keys as [|k keys IH]; intros p suffix Hp; [reflexivity|].
  cbn [fold_left fold_right]. rewrite IH.
  - rewrite join_step by assumption. now rewrite !append_assoc.
  - rewrite join_step by assumption. now apply append_nonempty.
Qed.

Lemma split_dot_dots keys : forall k suffix,
  pathKey k = true -> forallb pathKey keys = true ->
  Str.split_dot (k ++ fold_right (fun x acc => "." ++ x ++ acc) suffix keys)%string
  = removelast (k :: keys)
    ++ (last (k :: keys) "" ++ hd "" (Str.split_dot suffix))%string
       :: tl (Str.split_dot suffix).
Proof.
  induction keys as [|k2 keys IH]; intros k suffix Hk Hkeys;
    unfold pathKey in Hk; apply andb_true_iff in Hk as [_ Hk]; apply negb_true_iff in Hk.
  - cbn [fold_right removelast last app]. now apply split_dot_key.
  - cbn [forallb] in Hkeys. apply andb_true_iff in Hkeys as [Hk2 Hkeys].
    cbn [fold_right]. rewrite split_dot_key by assumption.
    assert (Hdot : forall str, Str.split_dot ("." ++ str)%string = "" :: Str.split_dot str)
      by reflexivity.
    rewrite Hdot. cbn [hd tl]. rewrite append_empty, (IH k2 suffix Hk2 Hkeys). reflexivity.
Qed.

Lemma split_dot_pathOf keys :
  pathKeys keys = true -> Str.split_dot (pathOf keys) = keys.
Proof.
  unfold pathKeys. intros H. apply andb_true_iff in H as [Hne H].
  destruct keys as [|k keys]; [discriminate|].
  cbn [forallb] in H. apply andb_true_iff in H as [Hk Hkeys].
  assert (Hk' : k <> "").
  { unfold pathKey in Hk. apply andb_true_iff in Hk as [Hk' _].
    now apply negb_true_iff, String.eqb_neq in Hk'. }
  rewrite pathOf_cons by assumption.
  rewrite <- (append_empty (fold_left Js.join keys k)).
  rewrite fold_join by assumption.
  rewrite (split_dot_dots keys k "" Hk Hkeys). cbn [Str.split_dot hd tl].
  rewrite append_empty. symmetry. apply app_removelast_last. discriminate.
Qed.

(** X16. A path stands for one address only.  For a list of keys that are
    not empty and hold no dot, the parts [split(".")] finds in the path
    [recursiveExtract] and [recursiveAdjustColors] build from the keys are
    the keys again, so [syncLockedColors] walks the address the path was
    built from; and two such lists with the same path are the same list. *)
Theorem path_stands_for_one_address (keys keys' : list string) :
  pathKeys keys = true ->
  Str.split_dot (pathOf keys) = keys
  /\ (pathKeys keys' = true -> pathOf keys = pathOf keys' -> keys = keys').
Proof.
  intros H. split; [now apply split_dot_pathOf|].
  intros H' E. rewrite <- (split_dot_pathOf keys H), <- (split_dot_pathOf keys' H').
  now rewrite E.
Qed.

Lemma path_stands_for_one_address_witness :
  Str.split_dot (pathOf ["layers"; "0"; "shapes"; "2"; "g"; "k"; "k"; "4"])
  = ["layers"; "0"; "shapes"; "2"; "g"; "k"; "k"; "4"].
Proof.
  apply (path_stands_for_one_address ["layers"; "0"; "shapes"; "2"; "g"; "k"; "k"; "4"] []).
  reflexivity.
Defined.

Import HueShiftManager.

(** * Locks on colours: the baseline stays where it is *)

(** The navigation of [syncLockedColors], when it gets through. *)
Lemma syncWalk_some parts : forall c o cp op,
  syncWalk parts c o = Some (cp, op) ->
  cp = Js.lookup parts c /\ op = Js.lookup parts o
  /\ Js.update parts (fun _ => op) o = o.
Proof.
  induction parts as [|k parts IH]; intros c o cp op H; cbn [syncWalk] in H.
  - injection H as <- <-. auto.
  - destruct (Js.truthy c && negb (Js.isUndefined (Js.get c k))); [|discriminate].
    destruct (Js.truthy o && negb (Js.isUndefined (Js.get o k))) eqn:G; [|discriminate].
    apply andb_true_iff in G as [_ G]. apply negb_true_iff, isUndefined_false in G.
    destruct (IH _ _ _ _ H) as (Hcp & Hop & Hup). repeat split; try assumption.
    rewrite update_defined by assumption. rewrite Hup. now apply set_get_same.
Qed.

(** What the callback of [syncLockedColors] writes when the current document
    and the baseline hold the same value at the locked key and, for a
    number, the same four entries from there on: nothing new. *)
Lemma syncWrite_agree cp op lastKey :
  Js.clone op = op ->
  Js.get op lastKey <> JUndef ->
  Js.get cp lastKey = Js.get op lastKey ->
  (Js.isNumber (Js.get op lastKey) = true ->
   forall idx d, Str.to_index lastKey = Some idx -> d < 4 ->
     Js.get cp (Str.of_nat (idx + d)) = Js.get op (Str.of_nat (idx + d))) ->
  syncWrite cp op lastKey = Ok op.
Proof.
  intros Hfix Hdef Hsame Hwin. unfold syncWrite.
  assert (Hget : Js.getChecked cp lastKey = Ok (Js.get op lastKey)).
  { rewrite <- Hsame in Hdef. rewrite <- Hsame.
    destruct cp; try reflexivity; now cbn in Hdef. }
  rewrite Hget. cbn [bind].
  assert (Hset : Js.set op lastKey (Js.clone (Js.get op lastKey)) = op).
  { rewrite (clone_fixed_get op lastKey Hfix Hdef). now apply set_get_same. }
  destruct (Js.get op lastKey) eqn:E; try reflexivity; try congruence.
  - destruct op; cbn in E; try discriminate; now rewrite Hset.
  - destruct cp as [| | | | |c|]; try reflexivity.
    destruct op as [| | | | |o|]; try reflexivity.
    destruct (Str.to_index lastKey) as [idx|] eqn:I; [|reflexivity].
    destruct ((idx + 3 <? List.length c) && (idx + 3 <? List.length o))%nat eqn:G;
      [|reflexivity].
    apply andb_true_iff in G as [_ G]. apply Nat.ltb_lt in G.
    assert (W : forall d, d < 4 -> Js.item c (idx + d) = Js.item o (idx + d)).
    { intros d Hd. specialize (Hwin eq_refl idx d eq_refl Hd).
      now rewrite !get_array_index in Hwin. }
    cbn [fold_left]. rewrite !W by lia.
    now rewrite !itemSet_same_value by lia.
  - destruct op; cbn in E; try discriminate; now rewrite Hset.
  - destruct op; cbn in E; try discriminate; now rewrite Hset.
Qed.

Lemma lookup_snoc parts k v : Js.lookup (parts ++ [k]) v = Js.get (Js.lookup parts v) k.
Proof. now rewrite lookup_app. Qed.

Lemma lookup_defined_prefix parts : forall rest v,
  Js.lookup (parts ++ rest) v <> JUndef -> Js.lookup parts v <> JUndef.
Proof.
  intros rest v H E. rewrite lookup_app, E, lookup_undef in H. congruence.
Qed.

(** The callback of [syncLockedColors] for the path of an address at which
    the current document agrees with the baseline. *)
Lemma syncPath_agree cur doc parts lastKey :
  pathKeys (parts ++ [lastKey]) = true ->
  Js.clone doc = doc ->
  Js.lookup (parts ++ [lastKey]) doc <> JUndef ->
  Js.lookup (parts ++ [lastKey]) cur = Js.lookup (parts ++ [lastKey]) doc ->
  (Js.isNumber (Js.lookup (parts ++ [lastKey]) doc) = true ->
   forall idx d, Str.to_index lastKey = Some idx -> d < 4 ->
     Js.lookup (parts ++ [Str.of_nat (idx + d)]) cur
     = Js.lookup (parts ++ [Str.of_nat (idx + d)]) doc) ->
  syncPath cur (pathOf (parts ++ [lastKey])) doc = Ok doc.
Proof.
  intros Hkeys Hfix Hdef Hsame Hwin. unfold syncPath.
  rewrite (split_dot_pathOf _ Hkeys), removelast_last, last_last.
  destruct (syncWalk parts cur doc) as [[cp op]|] eqn:W; [|reflexivity].
  destruct (syncWalk_some _ _ _ _ _ W) as (-> & -> & Hup).
  rewrite (lookup_snoc parts lastKey doc) in Hdef, Hsame, Hwin.
  rewrite (lookup_snoc parts lastKey cur) in Hsame.
  assert (Hw : syncWrite (Js.lookup parts cur) (Js.lookup parts doc) lastKey
               = Ok (Js.lookup parts doc)).
  { apply syncWrite_agree.
    - apply clone_fixed_lookup; [assumption|].
      intros E. rewrite E in Hdef. now cbn in Hdef.
    - assumption.
    - assumption.
    - intros Hn idx d Hi Hd. specialize (Hwin Hn idx d Hi Hd).
      now rewrite (lookup_snoc parts _ doc), (lookup_snoc parts _ cur) in Hwin. }
  rewrite Hw. cbn [bind]. now rewrite Hup.
Qed.

(** An index is a key of a path. *)
Lemma hasDot_digits d : hasDot (DecimalString.NilEmpty.string_of_uint d) = false.
Proof. induction d; cbn; assumption || reflexivity. Qed.

Lemma uint_pathKey u : pathKey (DecimalString.NilZero.string_of_uint u) = true.
Proof.
  unfold pathKey, DecimalString.NilZero.string_of_uint.
  destruct u; [reflexivity|..]; rewrite hasDot_digits; reflexivity.
Qed.

Lemma of_nat_pathKey i : pathKey (Str.of_nat i) = true.
Proof. apply uint_pathKey. Qed.

Lemma forallb_app_true {A : Type} (P : A -> bool) l1 l2 :
  forallb P l1 = true -> forallb P l2 = true -> forallb P (l1 ++ l2) = true.
Proof. intros H1 H2. rewrite forallb_app. now rewrite H1, H2. Qed.

Lemma pathKeys_snoc pre rest :
  forallb pathKey pre = true -> forallb pathKey rest = true -> rest <> [] ->
  pathKeys (pre ++ rest) = true.
Proof.
  intros Hpre Hrest Hne. unfold pathKeys. rewrite forallb_app_true by assumption.
  rewrite length_app. destruct rest; [contradiction|]. cbn [List.length].
  now rewrite Nat.add_succ_r.
Qed.

Lemma colorKey_pathKey f : colorKey f = true -> pathKey f = true.
Proof.
  unfold colorKey. intros H.
  apply orb_true_iff in H as [H | H]; [apply orb_true_iff in H as [H | H]|];
    apply String.eqb_eq in H; subst; reflexivity.
Qed.

Lemma stopsKeys_pathKey layout : forallb pathKey (stopsKeys layout) = true.
Proof.
  destruct layout as [| |j]; try reflexivity.
  cbn [stopsKeys forallb]. now rewrite of_nat_pathKey.
Qed.

(** ** The sites of a document *)

Lemma lockedKeys_pathKeys doc s : siteIn doc s = true -> pathKeys (lockedKeys s) = true.
Proof.
  destruct s as [pre f|pre f i|pre layout q]; cbn [siteIn]; intros H;
    repeat (apply andb_true_iff in H as [H ?]); unfold lockedKeys;
    cbn [lockedParent lockedKey].
  - apply pathKeys_snoc; [assumption| |discriminate].
    cbn [forallb]. now rewrite colorKey_pathKey.
  - rewrite <- app_assoc. apply pathKeys_snoc; [assumption| |discriminate].
    cbn [app forallb]. rewrite of_nat_pathKey.
    match goal with
    | E : (String.eqb f "c" || String.eqb f "sc") = true |- _ =>
        apply orb_true_iff in E as [E | E]; apply String.eqb_eq in E; subst; reflexivity
    end.
  - rewrite <- app_assoc. apply pathKeys_snoc; [assumption| |now destruct layout].
    apply forallb_app_true; [apply stopsKeys_pathKey|].
    cbn [forallb]. now rewrite of_nat_pathKey.
Qed.

Lemma isObject_not_undef v : Js.isObject v = true -> v <> JUndef.
Proof. now destruct v. Qed.

Lemma isNumber_not_undef v : Js.isNumber v = true -> v <> JUndef.
Proof. now destruct v. Qed.

Lemma isNumber_not_object v : Js.isNumber v = true -> Js.isObject v = false.
Proof. now destruct v. Qed.

Lemma isObject_not_number v : Js.isObject v = true -> Js.isNumber v = false.
Proof. now destruct v. Qed.

Lemma stop_entries (P : nat -> bool) :
  forallb P [0; 1; 2; 3] = true -> forall d, d < 4 -> P d = true.
Proof.
  cbn [forallb]. intros H d Hd. repeat (apply andb_true_iff in H as [? H]).
  destruct d as [|[|[|[|d]]]]; try assumption. lia.
Qed.

Lemma lockedKeys_defined doc s :
  siteIn doc s = true -> Js.lookup (lockedKeys s) doc <> JUndef.
Proof.
  destruct s as [pre f|pre f i|pre layout q]; cbn [siteIn]; intros H;
    repeat (apply andb_true_iff in H as [H ?]); unfold lockedKeys;
    cbn [lockedParent lockedKey].
  - now apply isObject_not_undef.
  - rewrite <- app_assoc. now apply isObject_not_undef.
  - rewrite <- app_assoc. apply isNumber_not_undef.
    match goal with
    | E : forallb _ [0; 1; 2; 3] = true |- _ =>
        pose proof (stop_entries _ E 0 ltac:(lia)) as E0
    end.
    cbn beta in E0. now rewrite Nat.add_0_r in E0.
Qed.

Section Sites.

Variable other : json -> float.
Variable m : t.
Variables doc cur : json.

Hypothesis Hres : recursiveAdjustColors other (S (Js.depth doc)) m doc "" = Ok cur.

(** The traversal leaves a locked site as it is. *)
Lemma site_kept s :
  siteIn doc s = true -> isPathLocked m (lockedPath s) = true ->
  Js.lookup (lockedKeys s) cur = Js.lookup (lockedKeys s) doc.
Proof.
  unfold lockedPath, lockedKeys.
  destruct s as [pre f|pre f i|pre layout q]; cbn [siteIn lockedParent lockedKey];
    intros H Hlock; repeat (apply andb_true_iff in H as [H ?]).
  - apply (locked_property other m doc cur Hres pre f []); try assumption. reflexivity.
  - rewrite <- app_assoc in *. cbn [app] in *.
    apply (locked_keyframe other m doc cur Hres pre f i); try assumption.
    match goal with
    | E : (String.eqb f "c" || String.eqb f "sc") = true |- _ =>
        apply orb_true_iff in E as [E | E]; apply String.eqb_eq in E; auto
    end.
  - match goal with
    | E : forallb _ [0; 1; 2; 3] = true |- _ =>
        pose proof (stop_entries _ E 0 ltac:(lia)) as E0
    end.
    cbn beta in E0. apply isNumber_not_object in E0.
    rewrite <- app_assoc in *.
    replace (4 * q) with (4 * q + 0) at 1 2 by lia.
    destruct layout as [| |j]; cbn [stopsKeys app] in *.
    + apply (locked_stop_direct other m doc cur Hres pre q 0); try assumption; lia.
    + apply (locked_stop_nested other m doc cur Hres pre q 0); try assumption; lia.
    + apply (locked_stop_keyframe other m doc cur Hres pre j q 0); try assumption; lia.
Qed.

(** The four entries of a locked stop. *)
Lemma stop_kept pre layout q d :
  siteIn doc (StopSite pre layout q) = true ->
  isPathLocked m (lockedPath (StopSite pre layout q)) = true -> d < 4 ->
  Js.lookup ((pre ++ stopsKeys layout) ++ [Str.of_nat (4 * q + d)]) cur
  = Js.lookup ((pre ++ stopsKeys layout) ++ [Str.of_nat (4 * q + d)]) doc.
Proof.
  unfold lockedPath, lockedKeys. cbn [siteIn lockedParent lockedKey].
  intros H Hlock Hd; repeat (apply andb_true_iff in H as [H ?]).
  match goal with
  | E : forallb _ [0; 1; 2; 3] = true |- _ =>
      pose proof (stop_entries _ E d Hd) as E0
  end.
  cbn beta in E0. apply isNumber_not_object in E0.
  rewrite <- app_assoc in *.
  destruct layout as [| |j]; cbn [stopsKeys app] in *.
  - now apply (locked_stop_direct other m doc cur Hres pre q d).
  - now apply (locked_stop_nested other m doc cur Hres pre q d).
  - now apply (locked_stop_keyframe other m doc cur Hres pre j q d).
Qed.

(** [syncLockedColors] finds at a locked site what the baseline has there. *)
Lemma site_sync s :
  Js.clone doc = doc ->
  siteIn doc s = true -> isPathLocked m (lockedPath s) = true ->
  syncPath cur (lockedPath s) doc = Ok doc.
Proof.
  intros Hfix Hs Hlock. unfold lockedPath, lockedKeys.
  apply syncPath_agree.
  - now apply (lockedKeys_pathKeys doc).
  - assumption.
  - now apply lockedKeys_defined.
  - now apply site_kept.
  - intros Hn idx d Hi Hd.
    destruct s as [pre f|pre f i|pre layout q]; cbn [lockedParent lockedKey] in *.
    + cbn [siteIn] in Hs. repeat (apply andb_true_iff in Hs as [Hs ?]).
      match goal with
      | E : Js.isObject _ = true |- _ => apply isObject_not_number in E; congruence
      end.
    + cbn [siteIn] in Hs. repeat (apply andb_true_iff in Hs as [Hs ?]).
      rewrite <- app_assoc in Hn. cbn [app] in Hn.
      match goal with
      | E : Js.isObject _ = true |- _ => apply isObject_not_number in E; congruence
      end.
    + rewrite to_index_of_nat in Hi. injection Hi as <-.
      now apply stop_kept.
Qed.

End Sites.

Lemma site_lockReadable doc s :
  siteIn doc s = true -> lockReadable doc (lockedPath s) = true.
Proof.
  intros Hs. unfold lockReadable, lockedPath.
  rewrite (split_dot_pathOf _ (lockedKeys_pathKeys doc s Hs)).
  unfold lockedKeys. rewrite removelast_last.
  destruct (syncWalk (lockedParent s) doc doc) as [[cp op]|] eqn:W; [|reflexivity].
  destruct (syncWalk_some _ _ _ _ _ W) as (-> & _ & _).
  pose proof (lockedKeys_defined doc s Hs) as Hd. unfold lockedKeys in Hd.
  rewrite lookup_snoc in Hd. apply get_defined_isObject in Hd.
  now destruct (Js.lookup (lockedParent s) doc).
Qed.

Lemma syncLockedColors_noop m cur doc :
  originalAnimData m = doc ->
  (forall p, In p (lockedPaths m) -> syncPath cur p doc = Ok doc) ->
  syncLockedColors m cur = Ok doc.
Proof.
  intros Hdoc Hall. unfold syncLockedColors. rewrite Hdoc.
  destruct ((List.length (lockedPaths m) =? 0)%nat || negb (Js.truthy doc)); [reflexivity|].
  induction (lockedPaths m) as [|p locks IH]; [reflexivity|].
  rewrite Hall by now left. cbn [bind]. apply IH. intros q Hq. apply Hall. now right.
Qed.

Section Run.

Variable other : json -> float.
Variable doc : json.
Variable sites : list lockSite.

Hypothesis Hfix : Js.clone doc = doc.
Hypothesis Hadj : adjustable doc = true.
Hypothesis Hsites : forallb (siteIn doc) sites = true.

Lemma sites_lockReadable : forallb (lockReadable doc) (map lockedPath sites) = true.
Proof.
  rewrite forallb_forall. intros p Hp. apply in_map_iff in Hp as (s & <- & Hs).
  apply site_lockReadable. rewrite forallb_forall in Hsites. now apply Hsites.
Qed.

(** A call in a state of a run: on the fresh manager with the locks, or on
    the manager a call has left, with the document it returned. *)
Lemma applyAdjustments_sites m cur hue saturation lightness :
  ((m = withLocks create (map lockedPath sites) /\ cur = doc)
   \/ exists hue0 saturation0 lightness0,
        m = managerAfter (map lockedPath sites) doc hue0 saturation0 lightness0
        /\ recursiveAdjustColors other (S (Js.depth doc)) m doc "" = Ok cur) ->
  exists result,
    recursiveAdjustColors other (S (Js.depth doc))
      (managerAfter (map lockedPath sites) doc hue saturation lightness) doc "" = Ok result
    /\ applyAdjustments other m cur hue saturation lightness
       = Ok (managerAfter (map lockedPath sites) doc hue saturation lightness, result).
Proof.
  intros [[-> ->] | (hue0 & saturation0 & lightness0 & -> & Hcur)].
  - apply applyAdjustments_returns; [assumption|apply sites_lockReadable|assumption].
  - destruct (rec_total other
                (managerAfter (map lockedPath sites) doc hue saturation lightness)
                (S (Js.depth doc)) doc "" Hadj) as (result & Hres).
    exists result. split; [assumption|].
    assert (Hsync : forall a b c,
               syncLockedColors (managerAfter (map lockedPath sites) doc a b c) cur = Ok doc).
    { intros a b c. apply syncLockedColors_noop; [reflexivity|].
      cbn [managerAfter lockedPaths]. intros p Hp.
      apply in_map_iff in Hp as (s & <- & Hs).
      apply (site_sync other _ doc cur Hcur s Hfix).
      - rewrite forallb_forall in Hsites. now apply Hsites.
      - apply managerAfter_locked. now apply in_map. }
    unfold applyAdjustments. cbn [managerAfter originalAnimData].
    destruct (Js.truthy doc) eqn:Ht; cbn [negb].
    + cbn [bind]. rewrite (Hsync hue0 saturation0 lightness0). cbn [bind].
      rewrite (deepCopy_fixed doc Hfix). cbn [bind].
      change (setAdjustments (withOriginal _ doc) hue saturation lightness)
        with (managerAfter (map lockedPath sites) doc hue saturation lightness).
      now rewrite Hres.
    + rewrite (rec_falsy other) in Hcur by assumption. injection Hcur as <-.
      unfold setOriginalData. rewrite (deepCopy_fixed doc Hfix). cbn [bind].
      change {| originalAnimData := doc; hueShift := 0; saturationShift := 0;
                lightnessShift := 0;
                lockedPaths :=
                  lockedPaths (managerAfter (map lockedPath sites) doc hue0 saturation0
                                 lightness0) |}
        with (managerAfter (map lockedPath sites) doc 0 0 0).
      rewrite (Hsync 0 0 0)%float. cbn [bind].
      rewrite (deepCopy_fixed doc Hfix). cbn [bind].
      change (setAdjustments (withOriginal _ doc) hue saturation lightness)
        with (managerAfter (map lockedPath sites) doc hue saturation lightness).
      now rewrite Hres.
Qed.

Lemma adjustAll_sites steps : forall m cur,
  ((m = withLocks create (map lockedPath sites) /\ cur = doc)
   \/ exists hue0 saturation0 lightness0,
        m = managerAfter (map lockedPath sites) doc hue0 saturation0 lightness0
        /\ recursiveAdjustColors other (S (Js.depth doc)) m doc "" = Ok cur) ->
  exists m' cur',
    adjustAll other m cur steps = Ok (m', cur')
    /\ ((m' = withLocks create (map lockedPath sites) /\ cur' = doc)
        \/ exists hue0 saturation0 lightness0,
             m' = managerAfter (map lockedPath sites) doc hue0 saturation0 lightness0
             /\ recursiveAdjustColors other (S (Js.depth doc)) m' doc "" = Ok cur').
Proof.
  induction steps as [|[[hue saturation] lightness] steps IH]; intros m cur Hstate.
  - exists m, cur. now split.
  - cbn [adjustAll].
    destruct (applyAdjustments_sites m cur hue saturation lightness Hstate)
      as (result & Hres & Happly).
    rewrite Happly. cbn [bind fst snd]. apply IH.
    right. exists hue, saturation, lightness. now split.
Qed.

End Run.



Import HueShiftManager.

(** * An edit of a locked colour *)

(** ** What [JSON] gives back, it gives back again *)

Lemma cloneNum_idem x : Js.clone (Js.cloneNum x) = Js.cloneNum x.
Proof.
  unfold Js.cloneNum. destruct (is_nan x || is_infinity x) eqn:A; [reflexivity|].
  destruct (is_zero x) eqn:B; [reflexivity|].
  cbn [Js.clone]. unfold Js.cloneNum. now rewrite A, B.
Qed.

Lemma clone_idem v : Js.clone (Js.clone v) = Js.clone v.
Proof.
  induction v as [| | b | x | s | items IH | props IH] using json_induction;
    try reflexivity.
  - apply cloneNum_idem.
  - cbn [Js.clone]. f_equal. rewrite map_map.
    induction IH as [|y l Hy _ IHl]; [reflexivity|]. cbn [map]. now rewrite Hy, IHl.
  - rewrite !clone_object. f_equal.
    induction IH as [|[k y] l Hy _ IHl]; [reflexivity|].
    rewrite cloneProps_cons. destruct (Js.isUndefined y); [assumption|].
    rewrite cloneProps_cons. cbn [snd] in Hy.
    destruct (Js.isUndefined (Js.clone y)) eqn:U.
    + destruct (Js.clone y) eqn:C; discriminate.
    + now rewrite Hy, IHl.
Qed.

Lemma isObject_clone v : Js.isObject (Js.clone v) = Js.isObject v.
Proof.
  destruct v as [| | |x| | |]; try reflexivity. cbn [Js.clone]. unfold Js.cloneNum.
  destruct (is_nan x || is_infinity x); [reflexivity|]. now destruct (is_zero x).
Qed.

Lemma cloneProps_fixed_cons k x ps :
  cloneProps ((k, x) :: ps) = (k, x) :: ps ->
  x <> JUndef /\ Js.clone x = x /\ cloneProps ps = ps.
Proof.
  rewrite cloneProps_cons. destruct (Js.isUndefined x) eqn:U; intros H.
  - pose proof (cloneProps_length ps) as Hl. rewrite H in Hl. cbn in Hl. lia.
  - injection H as H1 H2. repeat split; try assumption. now apply isUndefined_false.
Qed.

Lemma cloneProps_assocSet k x ps :
  cloneProps ps = ps -> Js.clone x = x -> x <> JUndef ->
  cloneProps (Js.assocSet k x ps) = Js.assocSet k x ps.
Proof.
  intros Hps Hx Hd.
  assert (U : Js.isUndefined x = false) by now destruct x.
  induction ps as [|[k' y] ps IH]; cbn [Js.assocSet].
  - rewrite cloneProps_cons, U, Hx. reflexivity.
  - apply cloneProps_fixed_cons in Hps as (Hy & Hcy & Hps).
    destruct (String.eqb k' k).
    + rewrite cloneProps_cons, U, Hx, Hps. reflexivity.
    + rewrite cloneProps_cons. destruct (Js.isUndefined y) eqn:V.
      * now destruct y.
      * now rewrite Hcy, IH.
Qed.

Lemma map_itemSet (f : json -> json) x : forall i l,
  i < List.length l -> map f (Js.itemSet i x l) = Js.itemSet i (f x) (map f l).
Proof.
  induction i as [|i IH]; intros [|y l] H; cbn in H; try lia; cbn [Js.itemSet map].
  - reflexivity.
  - rewrite IH by lia. reflexivity.
Qed.

Lemma clone_fixed_set v k x :
  Js.clone v = v -> Js.clone x = x -> x <> JUndef -> Js.get v k <> JUndef ->
  Js.clone (Js.set v k x) = Js.set v k x.
Proof.
  intros Hv Hx Hd Hk. destruct v as [| | | | |l|ps]; try assumption.
  - cbn [Js.get Js.set] in *. destruct (Str.to_index k) as [i|]; [|assumption].
    apply item_defined_lt in Hk. cbn [Js.clone] in *. injection Hv as Hv.
    rewrite map_itemSet by assumption. now rewrite Hv, Hx.
  - cbn [Js.set]. rewrite clone_object in *. injection Hv as Hv.
    now rewrite cloneProps_assocSet.
Qed.

Lemma set_defined v k x : v <> JUndef -> Js.set v k x <> JUndef.
Proof. destruct v; cbn; try congruence. destruct (Str.to_index k); discriminate. Qed.

Lemma update_not_undef keys y : forall v,
  v <> JUndef -> y <> JUndef -> Js.update keys (fun _ => y) v <> JUndef.
Proof.
  destruct keys as [|k keys]; intros v Hv Hy; cbn [Js.update]; [assumption|].
  destruct (Js.get v k); try assumption; now apply set_defined.
Qed.

Lemma undefined_or_not v : v = JUndef \/ v <> JUndef.
Proof. destruct v; (now left) || (right; discriminate). Qed.

Lemma clone_fixed_update keys y : forall v,
  Js.clone v = v -> Js.clone y = y -> y <> JUndef ->
  Js.clone (Js.update keys (fun _ => y) v) = Js.update keys (fun _ => y) v.
Proof.
  induction keys as [|k keys IH]; intros v Hv Hy Hd; [assumption|].
  destruct (undefined_or_not (Js.get v k)) as [E | E].
  - now rewrite update_undefined.
  - rewrite update_defined by assumption.
    apply clone_fixed_set; try assumption.
    + apply IH; try assumption. now apply clone_fixed_get.
    + now apply update_not_undef.
Qed.

(** ** The baseline with a new value at an address *)

Lemma lookup_update keys y : forall v,
  Js.lookup keys v <> JUndef -> Js.lookup keys (Js.update keys (fun _ => y) v) = y.
Proof.
  induction keys as [|k keys IH]; intros v Hv; [reflexivity|].
  pose proof (lookup_defined_get _ _ _ Hv) as Hk.
  rewrite update_defined by assumption. cbn [Js.lookup].
  rewrite get_set_same by assumption. apply IH. exact Hv.
Qed.

Lemma adjustable_lookup keys : forall v,
  adjustable v = true -> adjustable (Js.lookup keys v) = true.
Proof.
  induction keys as [|k keys IH]; intros v Hv; [assumption|].
  cbn [Js.lookup]. apply IH. now apply adjustable_get.
Qed.

Lemma adjustable_update keys y : forall v,
  plainKeys keys = true -> adjustable v = true -> adjustable y = true ->
  adjustable (Js.update keys (fun _ => y) v) = true.
Proof.
  induction keys as [|k keys IH]; intros v Hkeys Hv Hy; [assumption|].
  cbn [plainKeys forallb] in Hkeys. apply andb_true_iff in Hkeys as [Hk Hkeys].
  destruct (undefined_or_not (Js.get v k)) as [E | E].
  - now rewrite update_undefined.
  - rewrite update_defined by assumption. apply adjustable_set; [assumption| |].
    + apply IH; try assumption. now apply adjustable_get.
    + intros [-> | ->]; discriminate.
Qed.

(** ** [syncLockedColors] takes the edit into the baseline *)

Lemma syncWalk_defined parts : forall c o,
  Js.lookup parts c <> JUndef -> Js.lookup parts o <> JUndef ->
  syncWalk parts c o = Some (Js.lookup parts c, Js.lookup parts o).
Proof.
  induction parts as [|k parts IH]; intros c o Hc Ho; [reflexivity|].
  pose proof (lookup_defined_get _ _ _ Hc) as Hkc.
  pose proof (lookup_defined_get _ _ _ Ho) as Hko.
  cbn [syncWalk Js.lookup].
  rewrite (isObject_truthy c (get_defined_isObject c k Hkc)).
  rewrite (isObject_truthy o (get_defined_isObject o k Hko)).
  assert (Uc : Js.isUndefined (Js.get c k) = false) by now destruct (Js.get c k).
  assert (Uo : Js.isUndefined (Js.get o k) = false) by now destruct (Js.get o k).
  rewrite Uc, Uo. cbn [negb andb]. apply IH; assumption.
Qed.

Lemma syncWrite_object cp op lastKey :
  Js.isObject (Js.get cp lastKey) = true -> Js.get op lastKey <> JUndef ->
  syncWrite cp op lastKey = Ok (Js.set op lastKey (Js.clone (Js.get cp lastKey))).
Proof.
  intros Hv Ho. unfold syncWrite.
  assert (Hget : Js.getChecked cp lastKey = Ok (Js.get cp lastKey)).
  { destruct cp; try reflexivity; discriminate. }
  rewrite Hget. cbn [bind].
  apply get_defined_isObject in Ho.
  destruct (Js.get cp lastKey); try discriminate; destruct op; try discriminate; reflexivity.
Qed.

Lemma syncPath_edit cur doc parts lastKey :
  pathKeys (parts ++ [lastKey]) = true ->
  Js.isObject (Js.lookup (parts ++ [lastKey]) cur) = true ->
  Js.lookup (parts ++ [lastKey]) doc <> JUndef ->
  syncPath cur (pathOf (parts ++ [lastKey])) doc
  = Ok (replaceAt parts lastKey (Js.clone (Js.lookup (parts ++ [lastKey]) cur)) doc).
Proof.
  intros Hkeys Hv Hd. unfold syncPath.
  rewrite (split_dot_pathOf _ Hkeys), removelast_last, last_last.
  pose proof (isObject_not_undef _ Hv) as Hc.
  rewrite syncWalk_defined;
    [|now apply (lookup_defined_prefix parts [lastKey])
     |now apply (lookup_defined_prefix parts [lastKey])].
  rewrite (lookup_snoc parts lastKey cur) in Hv |- *.
  rewrite (lookup_snoc parts lastKey doc) in Hd.
  rewrite syncWrite_object by assumption. cbn [bind]. unfold replaceAt.
  now rewrite (update_const parts (fun node => Js.set node lastKey _)).
Qed.

Section Edit.

Variable other : json -> float.
Variables doc cur : json.
Variable pre : list string.
Variable f : string.

Hypothesis Hfix : Js.clone doc = doc.
Hypothesis Hadj : adjustable doc = true.
Hypothesis Hsite : siteIn doc (PropertySite pre f) = true.
Hypothesis Hcolor : plainColor (Js.clone (Js.lookup (pre ++ [f]) cur)) = true.

Lemma edit_parts :
  plainKeys pre = true /\ forallb pathKey pre = true /\ colorKey f = true
  /\ Js.isObject (Js.lookup (pre ++ [f]) doc) = true
  /\ Js.isObject (Js.clone (Js.lookup (pre ++ [f]) cur)) = true
  /\ colorFree (Js.clone (Js.lookup (pre ++ [f]) cur)) = true
  /\ adjustable (Js.clone (Js.lookup (pre ++ [f]) cur)) = true
  /\ keyframesReadable (Js.clone (Js.lookup (pre ++ [f]) cur)) = true.
Proof.
  pose proof Hsite as H. cbn [siteIn] in H. repeat (apply andb_true_iff in H as [H ?]).
  pose proof Hcolor as G. unfold plainColor in G.
  repeat (apply andb_true_iff in G as [G ?]). repeat split; assumption.
Qed.

Lemma edit_lookup :
  Js.lookup (pre ++ [f]) (replaceAt pre f (Js.clone (Js.lookup (pre ++ [f]) cur)) doc)
  = Js.clone (Js.lookup (pre ++ [f]) cur).
Proof.
  destruct edit_parts as (_ & _ & _ & Hobj & _).
  apply isObject_not_undef in Hobj.
  unfold replaceAt. rewrite (update_const pre (fun node => Js.set node f _)).
  rewrite lookup_snoc, lookup_update by now apply (lookup_defined_prefix pre [f]).
  rewrite lookup_snoc in Hobj. now apply get_set_same.
Qed.

Lemma edit_fixed :
  Js.clone (replaceAt pre f (Js.clone (Js.lookup (pre ++ [f]) cur)) doc)
  = replaceAt pre f (Js.clone (Js.lookup (pre ++ [f]) cur)) doc.
Proof.
  destruct edit_parts as (_ & _ & _ & Hobj & _).
  apply isObject_not_undef in Hobj.
  pose proof (lookup_defined_prefix pre [f] doc Hobj) as Hnode.
  rewrite lookup_snoc in Hobj.
  unfold replaceAt. rewrite (update_const pre (fun node => Js.set node f _)).
  apply clone_fixed_update; [assumption| |now apply set_defined].
  apply clone_fixed_set; try assumption.
  - now apply clone_fixed_lookup.
  - apply clone_idem.
  - apply clone_defined.
Qed.

Lemma edit_adjustable :
  adjustable (replaceAt pre f (Js.clone (Js.lookup (pre ++ [f]) cur)) doc) = true.
Proof.
  destruct edit_parts as (Hpre & _ & _ & _ & _ & _ & Ha & Hr).
  unfold replaceAt. rewrite (update_const pre (fun node => Js.set node f _)).
  apply adjustable_update; try assumption.
  apply adjustable_set; [now apply adjustable_lookup|assumption|auto].
Qed.

Lemma edit_site :
  siteIn (replaceAt pre f (Js.clone (Js.lookup (pre ++ [f]) cur)) doc) (PropertySite pre f)
  = true.
Proof.
  destruct edit_parts as (Hpre & Hkeys & Hf & _ & Ho & Hc & _).
  cbn [siteIn]. rewrite edit_lookup. now rewrite Hpre, Hkeys, Hf, Ho, Hc.
Qed.

(** The call on the edited document is the first call on the baseline with
    the edited colour. *)
Lemma applyAdjustments_edit hue0 saturation0 lightness0 hue saturation lightness :
  applyAdjustments other
    (managerAfter [lockedPath (PropertySite pre f)] doc hue0 saturation0 lightness0)
    cur hue saturation lightness
  = applyAdjustments other (withLocks create [lockedPath (PropertySite pre f)])
      (replaceAt pre f (Js.clone (Js.lookup (pre ++ [f]) cur)) doc)
      hue saturation lightness.
Proof.
  destruct edit_parts as (Hpre & Hkeys & Hf & Hobj & Ho & _).
  assert (Hv : Js.isObject (Js.lookup (pre ++ [f]) cur) = true)
    by now rewrite <- isObject_clone.
  rewrite (applyAdjustments_fresh other _ _ hue saturation lightness edit_fixed)
    by (cbn [forallb]; now rewrite (site_lockReadable _ _ edit_site)).
  unfold applyAdjustments. cbn [managerAfter originalAnimData].
  rewrite (isObject_truthy doc (lookup_isObject _ _ Hobj)). cbn [negb bind].
  unfold syncLockedColors.
  cbn [managerAfter lockedPaths originalAnimData List.length Nat.eqb orb].
  rewrite (isObject_truthy doc (lookup_isObject _ _ Hobj)). cbn [negb].
  unfold lockedPath, lockedKeys. cbn [lockedParent lockedKey].
  rewrite syncPath_edit;
    [|apply (lockedKeys_pathKeys doc (PropertySite pre f) Hsite)|assumption
     |now apply isObject_not_undef].
  cbn [bind]. rewrite (deepCopy_fixed _ edit_fixed). cbn [bind]. reflexivity.
Qed.

End Edit.



Import ColorExtractor.

(** * When the extraction returns *)

Lemma returns_ok {A : Type} (a : A) : returns (Ok a).
Proof. now exists a. Qed.

Lemma returns_bind {A B : Type} (x : outcome A) (f : A -> outcome B) :
  returns (a <- x ;; f a) <-> exists a, x = Ok a /\ returns (f a).
Proof.
  unfold returns. destruct x as [a| |]; cbn [bind]; split.
  - intros [b H]. exists a. eauto.
  - intros (a' & [= <-] & H). exact H.
  - intros [b H]. discriminate.
  - intros (a' & H & _). discriminate.
  - intros [b H]. discriminate.
  - intros (a' & H & _). discriminate.
Qed.

Lemma returns_both {A : Type} (x y : outcome (list A)) :
  returns (a <- x ;; b <- y ;; Ok (a ++ b)) <-> returns x /\ returns y.
Proof.
  unfold returns. destruct x as [a| |], y as [b| |]; cbn [bind]; split;
    try (intros [c H]; discriminate); try (intros [[c H] [d G]]; discriminate); eauto.
Qed.

Lemma returns_emitted F : returns (emitted F) <-> returns (F noColors).
Proof.
  unfold returns, emitted. destruct (F noColors) as [st| |]; cbn [bind]; split;
    try (intros [c H]; discriminate); eauto.
Qed.

Section Returns.

Variable other : json -> float.

(** The [forEach] over the keyframes of an animated [c] or [sc] gets through
    when none of them is [null]. *)
Lemma keyframes_return kind ref path items : forall i st,
  returns (Js.foldi (keyframeColor other kind ref path) i items st)
  <-> forallb nonNull items = true.
Proof.
  induction items as [|kf items IH]; intros i st; cbn [Js.foldi forallb].
  - split; [reflexivity|intros _; apply returns_ok].
  - rewrite returns_bind. destruct kf; cbn [keyframeColor Js.getChecked bind nonNull andb];
      try (split; [intros (a & [= <-] & H); now apply IH in H|
                   intros H; eexists; split; [reflexivity|now apply IH]]);
      try (split; [intros (a & H & _); discriminate|discriminate]);
      try (destruct (_ && _); split;
           [intros (a & [= <-] & H); now apply IH in H
           |intros H; eexists; split; [reflexivity|now apply IH]
           |intros (a & [= <-] & H); now apply IH in H
           |intros H; eexists; split; [reflexivity|now apply IH]]).
Qed.

Lemma fill_returns addr o path :
  returns (fillInstances other addr o path) <-> keyframesReadable (Js.get o "c") = true.
Proof.
  unfold fillInstances. rewrite returns_emitted. unfold keyframesReadable.
  destruct (Js.isArray (Js.get (Js.get o "c") "k")) eqn:K.
  - rewrite (solid_guard _ K). unfold processFill. rewrite K.
    destruct (Js.isOne (Js.get (Js.get o "c") "a")); cbn [andb negb orb].
    + apply keyframes_return.
    + split; [reflexivity|intros _; apply returns_ok].
  - rewrite andb_false_r. cbn [negb orb]. split; [reflexivity|intros _].
    destruct (_ && _); [|apply returns_ok]. unfold processFill. rewrite K.
    destruct (Js.isOne _); apply returns_ok.
Qed.

Lemma stroke_returns addr o path :
  returns (strokeInstances other addr o path) <-> keyframesReadable (Js.get o "sc") = true.
Proof.
  unfold strokeInstances. rewrite returns_emitted. unfold keyframesReadable.
  destruct (Js.isArray (Js.get (Js.get o "sc") "k")) eqn:K.
  - rewrite (solid_guard _ K). unfold processStroke. rewrite K.
    destruct (Js.isOne (Js.get (Js.get o "sc") "a")); cbn [andb negb orb].
    + apply keyframes_return.
    + split; [reflexivity|intros _; apply returns_ok].
  - rewrite andb_false_r. cbn [negb orb]. split; [reflexivity|intros _].
    destruct (_ && _); [|apply returns_ok]. unfold processStroke. rewrite K.
    rewrite andb_false_r. apply returns_ok.
Qed.

Lemma stops_return g kind arr ref path st :
  returns (processGradientStops other g kind arr ref path st) <-> stopsEnd other g arr = true.
Proof.
  unfold processGradientStops, stopsEnd, stopLoop.
  destruct (36028797018963968 <? Js.ToNumber other (stopCountOf g arr) * 4)%float;
    cbn [negb].
  - split; [intros [a H]|]; discriminate.
  - split; [reflexivity|intros _].
    destruct (Prim2SF _) as [| | |[] m e]; apply returns_ok.
Qed.

Lemma gradient_keyframes_return g kind addr path items : forall i st,
  returns (Js.foldi
             (fun i keyframe st =>
                if Js.truthy keyframe && Js.isArray (Js.get keyframe "s") then
                  processGradientStops other g kind (Js.items (Js.get keyframe "s"))
                    (addr ++ ["g"; "k"; "k"; Str.of_nat i])
                    (path ++ ".k.k." ++ Str.of_nat i ++ ".s") st
                else Ok st) i items st)
  <-> forallb (fun keyframe =>
                 negb (Js.truthy keyframe && Js.isArray (Js.get keyframe "s"))
                 || stopsEnd other g (Js.items (Js.get keyframe "s"))) items = true.
Proof.
  induction items as [|kf items IH]; intros i st; cbn [Js.foldi forallb].
  - split; [reflexivity|intros _; apply returns_ok].
  - rewrite returns_bind, andb_true_iff.
    destruct (Js.truthy kf && Js.isArray (Js.get kf "s")); cbn [negb orb].
    + split.
      * intros (a & Ha & H). split; [|now apply IH in H].
        apply (stops_return g kind _ (addr ++ ["g"; "k"; "k"; Str.of_nat i])
                 (path ++ ".k.k." ++ Str.of_nat i ++ ".s") st). now exists a.
      * intros [Hs H].
        apply (stops_return g kind _ (addr ++ ["g"; "k"; "k"; Str.of_nat i])
                 (path ++ ".k.k." ++ Str.of_nat i ++ ".s") st) in Hs as [a Ha].
        exists a. split; [assumption|now apply IH].
    + split.
      * intros (a & [= <-] & H). split; [reflexivity|now apply IH in H].
      * intros [_ H]. exists st. split; [reflexivity|now apply IH].
Qed.

Lemma gradient_returns addr o path :
  returns (gradientInstances other addr o path)
  <-> negb (Js.truthy (Js.get o "g")) || gradientEnds other (Js.get o "g") = true.
Proof.
  unfold gradientInstances. rewrite returns_emitted.
  destruct (Js.truthy (Js.get o "g")); cbn [negb orb];
    [|split; [reflexivity|intros _; apply returns_ok]].
  unfold processGradient, gradientEnds. cbv zeta.
  destruct (Js.truthy (Js.get (Js.get o "g") "k")
            && negb (Js.truthy (Js.get (Js.get (Js.get o "g") "k") "a"))
            && Js.isArray (Js.get (Js.get o "g") "k")); [apply stops_return|].
  destruct (Js.truthy (Js.get (Js.get o "g") "k")
            && Js.isOne (Js.get (Js.get (Js.get o "g") "k") "a")
            && Js.isArray (Js.get (Js.get (Js.get o "g") "k") "k"));
    [apply gradient_keyframes_return|].
  destruct (Js.truthy (Js.get (Js.get o "g") "k")
            && Js.truthy (Js.get (Js.get (Js.get o "g") "k") "k")
            && Js.isArray (Js.get (Js.get (Js.get o "g") "k") "k")
            && Js.isNumber (Js.item (Js.items (Js.get (Js.get (Js.get o "g") "k") "k")) 0));
    [apply stops_return|].
  split; [reflexivity|intros _; apply returns_ok].
Qed.

Lemma node_returns addr o path :
  returns (nodeInstances other addr o path)
  <-> keyframesReadable (Js.get o "c") && keyframesReadable (Js.get o "sc")
      && (negb (Js.truthy (Js.get o "g")) || gradientEnds other (Js.get o "g")) = true.
Proof.
  rewrite nodeInstances_split.
  assert (E : keyframesReadable (Js.get o "c") && keyframesReadable (Js.get o "sc")
              && (negb (Js.truthy (Js.get o "g")) || gradientEnds other (Js.get o "g")) = true
              <-> returns (fillInstances other addr o path)
                  /\ returns (strokeInstances other addr o path)
                  /\ returns (gradientInstances other addr o path)).
  { rewrite !andb_true_iff, fill_returns, stroke_returns, gradient_returns. tauto. }
  rewrite E. unfold returns. split.
  - intros [r H].
    destruct (fillInstances other addr o path) as [a| |]; try discriminate.
    destruct (strokeInstances other addr o path) as [b| |]; try discriminate.
    destruct (gradientInstances other addr o path) as [c| |]; try discriminate.
    repeat split; eexists; reflexivity.
  - intros ([a Ha] & [b Hb] & [c Hc]). rewrite Ha, Hb, Hc. cbn [bind].
    eexists; reflexivity.
Qed.

Lemma child_returns addr path k v :
  (forall addr path, returns (treeInstances other addr v path) <-> extractable other v = true) ->
  returns (childTree other addr path k v) <-> extractable other v = true.
Proof.
  intros IH. unfold childTree. destruct (Js.typeofObject v) eqn:T; [apply IH|].
  split; [intros _; now destruct v|intros _; apply returns_ok].
Qed.

Lemma tree_returns o : forall addr path,
  returns (treeInstances other addr o path) <-> extractable other o = true.
Proof.
  induction o as [| | | | |items IH|ps IH] using json_induction; intros addr path;
    try (split; [reflexivity|intros _; apply returns_ok]).
  - rewrite treeInstances_array, returns_both.
    cbn [extractable].
    assert (Hall : forall i, returns (elementInstances other addr path i items)
                             <-> forallb (extractable other) items = true).
    { induction IH as [|v l Hv _ IHl]; intros i; cbn [elementInstances forallb].
      - split; [reflexivity|intros _; apply returns_ok].
      - rewrite returns_both, andb_true_iff, IHl.
        rewrite (child_returns addr path (Str.of_nat i) v Hv). tauto. }
    rewrite Hall.
    assert (Hnode : returns (nodeInstances other addr (JArr items) path))
      by apply returns_ok.
    tauto.
  - rewrite treeInstances_object, returns_both, node_returns.
    cbn [extractable]. rewrite (andb_true_iff _ (forallb _ ps)).
    assert (Hall : returns (childInstances other addr path ps)
                   <-> forallb (fun kv => extractable other (snd kv)) ps = true).
    { induction IH as [|[k v] l Hv _ IHl]; cbn [childInstances forallb].
      - split; [reflexivity|intros _; apply returns_ok].
      - rewrite returns_both, andb_true_iff, IHl. cbn [snd] in *.
        rewrite (child_returns addr path k v Hv). tauto. }
    rewrite Hall. tauto.
Qed.

End Returns.


Import ColorExtractor.

(** * Every instance has a path of its own *)

Lemma NoDup_map_in {A B : Type} (f : A -> B) l :
  (forall x y, In x l -> In y l -> f x = f y -> x = y) -> NoDup l -> NoDup (map f l).
Proof.
  intros Hinj H. induction H as [|x l Hx Hl IH]; cbn [map]; constructor.
  - intros Hin. apply in_map_iff in Hin as (y & Hy & Hin).
    assert (E : y = x) by (apply Hinj; [now right|now left|assumption]).
    subst. contradiction.
  - apply IH. intros a b Ha Hb. apply Hinj; now right.
Qed.

Lemma plain_no_color tail : plainKeys tail = true -> existsb colorKey tail = false.
Proof.
  induction tail as [|k tail IH]; cbn [plainKeys forallb existsb]; [reflexivity|].
  intros H. apply andb_true_iff in H as [Hk H]. apply negb_true_iff in Hk.
  rewrite Hk. now apply IH.
Qed.

Lemma headed_below f rest :
  colorKey f = true -> headed f rest = true -> belowRest rest = true.
Proof.
  intros Hf. destruct rest as [|f' tail]; [discriminate|]. unfold headed, belowRest.
  intros H. apply andb_true_iff in H as [H Hk]. apply andb_true_iff in H as [He Ht].
  apply String.eqb_eq in He. subst f'. cbn [forallb existsb].
  now rewrite (colorKey_pathKey f Hf), Hk, Hf.
Qed.

Lemma headed_head f rest : headed f rest = true -> exists tail, rest = f :: tail /\ plainKeys tail = true.
Proof.
  destruct rest as [|f' tail]; [discriminate|]. unfold headed.
  intros H. apply andb_true_iff in H as [H Hk]. apply andb_true_iff in H as [He Ht].
  apply String.eqb_eq in He. subst f'. now exists tail.
Qed.

Lemma pathsAt_nil addr : pathsAt addr [] [].
Proof. split; [reflexivity|constructor]. Qed.

Section Paths.

Variable other : json -> float.

(** ** The colours of a node *)

Lemma keyframeColor_paths kind ref P i kf a :
  emitted (keyframeColor other kind ref P i kf) = Ok a ->
  map path a = [] \/ map path a = [(P ++ ".k." ++ Str.of_nat i)%string].
Proof.
  unfold emitted, keyframeColor.
  destruct kf; cbn [Js.getChecked bind]; try discriminate;
    try (intros [= <-]; now left);
    (destruct (_ && _); cbn [bind]; intros [= <-]; [right; reflexivity|left; reflexivity]).
Qed.

Lemma collecti_keyframe_paths kind ref P items : forall i0 l,
  collecti (fun i kf => emitted (keyframeColor other kind ref P i kf)) i0 items = Ok l ->
  exists idxs,
    map path l = map (fun i => (P ++ ".k." ++ Str.of_nat i)%string) idxs
    /\ NoDup idxs /\ Forall (le i0) idxs.
Proof.
  induction items as [|kf items IH]; intros i0 l H; cbn [collecti] in H.
  - injection H as <-. exists []. split; [reflexivity|split; constructor].
  - apply bind_ok in H as (a & Ha & H). apply bind_ok in H as (b & Hb & H).
    injection H as <-.
    destruct (IH _ _ Hb) as (idxs & Hp & Hn & Hle).
    assert (Hle' : Forall (le i0) idxs).
    { eapply Forall_impl; [|exact Hle]. cbn. intros; lia. }
    rewrite map_app, Hp.
    destruct (keyframeColor_paths _ _ _ _ _ _ Ha) as [-> | ->].
    + exists idxs. split; [reflexivity|split; assumption].
    + exists (i0 :: idxs). split; [reflexivity|split].
      * constructor; [|assumption]. intros Hin.
        rewrite Forall_forall in Hle. apply Hle in Hin. lia.
      * constructor; [lia|assumption].
Qed.

Lemma keyframe_rests addr f l idxs :
  f = "c" \/ f = "sc" ->
  map path l = map (fun i => (Js.join (pathOf addr) f ++ ".k." ++ Str.of_nat i)%string) idxs ->
  NoDup idxs ->
  exists rests, pathsAt addr l rests /\ forallb (headed f) rests = true.
Proof.
  intros Hf Hp Hn. exists (map (fun i => [f; "k"; Str.of_nat i]) idxs). split; [split|].
  - rewrite Hp, map_map. apply map_ext. intros i. symmetry. apply pathOf_keyframe.
    destruct Hf; subst; discriminate.
  - apply NoDup_map_in; [|assumption]. intros x y _ _ [= E]. now apply of_nat_inj.
  - apply forallb_forall. intros r Hr. apply in_map_iff in Hr as (i & <- & _).
    cbn [headed plainKeys forallb]. rewrite String.eqb_refl, of_nat_plain, of_nat_pathKey.
    reflexivity.
Qed.

Lemma static_rests addr f l :
  f = "c" \/ f = "sc" ->
  map path l = [Js.join (pathOf addr) f] ->
  exists rests, pathsAt addr l rests /\ forallb (headed f) rests = true.
Proof.
  intros Hf Hp. exists [[f]]. split; [split|].
  - rewrite Hp. cbn [map]. now rewrite pathOf_snoc.
  - repeat constructor. intros [].
  - cbn [forallb headed plainKeys]. now rewrite String.eqb_refl.
Qed.

Lemma fill_rests addr o l :
  fillInstances other addr o (pathOf addr) = Ok l ->
  exists rests, pathsAt addr l rests /\ forallb (headed "c") rests = true.
Proof.
  destruct (Js.isArray (Js.get (Js.get o "c") "k")) eqn:K.
  - destruct (Js.isOne (Js.get (Js.get o "c") "a")) eqn:A.
    + rewrite fillInstances_keyframes by assumption. intros H.
      apply collecti_keyframe_paths in H as (idxs & Hp & Hn & _).
      apply (keyframe_rests addr "c" l idxs); auto.
    + rewrite fillInstances_static by assumption. intros [= <-].
      apply (static_rests addr "c"); auto.
  - intros H. assert (E : l = []).
    { unfold fillInstances, emitted, processFill in H. rewrite K in H.
      destruct (_ && _); [destruct (Js.isOne _)|]; cbn [bind] in H; now injection H as <-. }
    subst. exists []. split; [apply pathsAt_nil|reflexivity].
Qed.

Lemma stroke_rests addr o l :
  strokeInstances other addr o (pathOf addr) = Ok l ->
  exists rests, pathsAt addr l rests /\ forallb (headed "sc") rests = true.
Proof.
  destruct (Js.isArray (Js.get (Js.get o "sc") "k")) eqn:K.
  - destruct (Js.isOne (Js.get (Js.get o "sc") "a")) eqn:A.
    + rewrite strokeInstances_keyframes by assumption. intros H.
      apply collecti_keyframe_paths in H as (idxs & Hp & Hn & _).
      apply (keyframe_rests addr "sc" l idxs); auto.
    + rewrite strokeInstances_static by assumption. intros [= <-].
      apply (static_rests addr "sc"); auto.
  - intros H. assert (E : l = []).
    { unfold strokeInstances, emitted, processStroke in H. rewrite K in H.
      rewrite andb_false_r in H.
      destruct (_ && _); cbn [bind] in H; now injection H as <-. }
    subst. exists []. split; [apply pathsAt_nil|reflexivity].
Qed.

Lemma stopLoop_NoDup limit stops : stopLoop limit = Some stops -> NoDup stops.
Proof.
  unfold stopLoop. destruct (_ <? _)%float; [discriminate|].
  destruct (Prim2SF limit) as [| | |[] m e]; intros [= <-]; try constructor.
  apply NoDup_map_in; [intros; lia|apply seq_NoDup].
Qed.

Lemma stops_paths g kind arr ref P l :
  emitted (processGradientStops other g kind arr ref P) = Ok l ->
  exists stops,
    NoDup stops /\ map path l = map (fun i => (P ++ "." ++ Str.of_nat i)%string) stops.
Proof.
  destruct (stopLoop (Js.ToNumber other (stopCountOf g arr) * 4)) as [stops|] eqn:E.
  - rewrite (stops_emitted other g kind arr ref P stops E). intros [= <-].
    exists stops. split; [now apply (stopLoop_NoDup _ _ E)|].
    rewrite map_map. reflexivity.
  - unfold emitted, processGradientStops. rewrite E. discriminate.
Qed.

Lemma gradient_keyframe_paths g kind (ref : nat -> list string) P items : forall j0 l,
  collecti
    (fun j keyframe =>
       emitted (fun st =>
                  if Js.truthy keyframe && Js.isArray (Js.get keyframe "s") then
                    processGradientStops other g kind (Js.items (Js.get keyframe "s"))
                      (ref j) (P ++ ".k.k." ++ Str.of_nat j ++ ".s") st
                  else Ok st)) j0 items = Ok l ->
  exists pairs : list (nat * nat),
    map path l
    = map (fun p => ((P ++ ".k.k." ++ Str.of_nat (fst p) ++ ".s") ++ "."
                     ++ Str.of_nat (snd p))%string) pairs
    /\ NoDup pairs /\ Forall (fun p => j0 <= fst p) pairs.
Proof.
  induction items as [|kf items IH]; intros j0 l H; cbn [collecti] in H.
  - injection H as <-. exists []. split; [reflexivity|split; constructor].
  - apply bind_ok in H as (a & Ha & H). apply bind_ok in H as (b & Hb & H).
    injection H as <-.
    destruct (IH _ _ Hb) as (pairs & Hp & Hn & Hle).
    assert (Hle' : Forall (fun p => j0 <= fst p) pairs).
    { eapply Forall_impl; [|exact Hle]. cbn. intros; lia. }
    rewrite map_app, Hp.
    destruct (Js.truthy kf && Js.isArray (Js.get kf "s")).
    + apply stops_paths in Ha as (stops & Hs & Ha). rewrite Ha.
      exists (map (pair j0) stops ++ pairs). split; [|split].
      * rewrite map_app, map_map. reflexivity.
      * apply NoDup_app; [|assumption|].
        -- apply NoDup_map_in; [|assumption]. intros x y _ _ [= E]. exact E.
        -- intros p Hin Hin'. apply in_map_iff in Hin as (i & <- & _).
           rewrite Forall_forall in Hle. apply Hle in Hin'. cbn in Hin'. lia.
      * apply Forall_app. split; [|assumption].
        apply Forall_forall. intros p Hin. apply in_map_iff in Hin as (i & <- & _).
        cbn. lia.
    + injection Ha as <-. exists pairs. split; [reflexivity|split; assumption].
Qed.

Lemma stop_rests addr l stops (tail : list string) P :
  plainKeys tail = true -> forallb pathKey tail = true ->
  (forall i, pathOf (addr ++ "g" :: tail ++ [Str.of_nat i]) = (P ++ "." ++ Str.of_nat i)%string) ->
  NoDup stops ->
  map path l = map (fun i => (P ++ "." ++ Str.of_nat i)%string) stops ->
  exists rests, pathsAt addr l rests /\ forallb (headed "g") rests = true.
Proof.
  intros Ht Hk HP Hn Hp. exists (map (fun i => "g" :: tail ++ [Str.of_nat i]) stops).
  split; [split|].
  - rewrite Hp, map_map. apply map_ext. intros i. symmetry. apply HP.
  - apply NoDup_map_in; [|assumption]. intros x y _ _ [= E].
    apply app_inv_head in E. injection E as E. now apply of_nat_inj.
  - apply forallb_forall. intros r Hr. apply in_map_iff in Hr as (i & <- & _).
    cbn [headed]. rewrite String.eqb_refl. cbn [andb].
    unfold plainKeys in *. rewrite !forallb_app, Ht, Hk. cbn [forallb].
    now rewrite of_nat_plain, of_nat_pathKey.
Qed.

Lemma gradient_rests addr o l :
  gradientInstances other addr o (pathOf addr) = Ok l ->
  exists rests, pathsAt addr l rests /\ forallb (headed "g") rests = true.
Proof.
  unfold gradientInstances.
  destruct (Js.truthy (Js.get o "g"));
    [|intros [= <-]; exists []; split; [apply pathsAt_nil|reflexivity]].
  unfold processGradient. cbv zeta.
  destruct (Js.truthy (Js.get (Js.get o "g") "k")
            && negb (Js.truthy (Js.get (Js.get (Js.get o "g") "k") "a"))
            && Js.isArray (Js.get (Js.get o "g") "k")).
  { intros H. apply stops_paths in H as (stops & Hn & Hp).
    apply (stop_rests addr l stops ["k"] (Js.join (pathOf addr) "g" ++ ".k")%string
             eq_refl eq_refl); [|assumption|exact Hp].
    intros i. apply pathOf_stop_direct. }
  destruct (Js.truthy (Js.get (Js.get o "g") "k")
            && Js.isOne (Js.get (Js.get (Js.get o "g") "k") "a")
            && Js.isArray (Js.get (Js.get (Js.get o "g") "k") "k")).
  { intros H.
    match type of H with
    | emitted (fun st => Js.foldi ?F 0 ?xs st) = _ =>
        assert (U : forall j x, uniform (F j x));
        [intros j x; cbn beta;
         destruct (Js.truthy x && Js.isArray (Js.get x "s"));
         [apply uniform_processGradientStops|apply uniform_ret]
        |pose proof (proj2 (uniform_foldi F xs U 0)) as E;
         change (emitted (Js.foldi F 0 xs) = Ok l) in H; rewrite E in H; clear E U]
    end.
    apply (gradient_keyframe_paths (Js.get o "g") (gradientKind (Js.get o "ty"))
             (fun j => addr ++ ["g"; "k"; "k"; Str.of_nat j])) in H
      as (pairs & Hp & Hn & _).
    exists (map (fun p => ["g"; "k"; "k"; Str.of_nat (fst p); "s"; Str.of_nat (snd p)]) pairs).
    split; [split|].
    - rewrite Hp, map_map. apply map_ext. intros p. symmetry. apply pathOf_stop_keyframe.
    - apply NoDup_map_in; [|assumption]. intros [x1 x2] [y1 y2] _ _ [= E1 E2].
      cbn [fst snd] in *. apply of_nat_inj in E1, E2. now subst.
    - apply forallb_forall. intros r Hr. apply in_map_iff in Hr as (p & <- & _).
      cbn [headed plainKeys forallb]. rewrite String.eqb_refl, !of_nat_plain, !of_nat_pathKey.
      reflexivity. }
  destruct (Js.truthy (Js.get (Js.get o "g") "k")
            && Js.truthy (Js.get (Js.get (Js.get o "g") "k") "k")
            && Js.isArray (Js.get (Js.get (Js.get o "g") "k") "k")
            && Js.isNumber (Js.item (Js.items (Js.get (Js.get (Js.get o "g") "k") "k")) 0)).
  { intros H. apply stops_paths in H as (stops & Hn & Hp).
    apply (stop_rests addr l stops ["k"; "k"] (Js.join (pathOf addr) "g" ++ ".k.k")%string
             eq_refl eq_refl); [|assumption|exact Hp].
    intros i. apply pathOf_stop_nested. }
  intros [= <-]. exists []. split; [apply pathsAt_nil|reflexivity].
Qed.

Lemma pathsAt_app addr l1 l2 r1 r2 :
  pathsAt addr l1 r1 -> pathsAt addr l2 r2 ->
  (forall r, In r r1 -> ~ In r r2) ->
  pathsAt addr (l1 ++ l2) (r1 ++ r2).
Proof.
  intros [H1 N1] [H2 N2] Hd. split.
  - now rewrite !map_app, H1, H2.
  - now apply NoDup_app.
Qed.

Lemma headed_apart f f' rests rests' r :
  f <> f' -> forallb (headed f) rests = true -> forallb (headed f') rests' = true ->
  In r rests -> ~ In r rests'.
Proof.
  intros Hne H H' Hin Hin'. rewrite forallb_forall in H, H'.
  destruct (headed_head _ _ (H _ Hin)) as (t & -> & _).
  destruct (headed_head _ _ (H' _ Hin')) as (t' & [= E _] & _). contradiction.
Qed.

(** The colours of a node: their paths are those of addresses [f :: tail],
    [f] one of [c], [sc] and [g] and no key of [tail] one of them. *)
Lemma node_rests addr o l :
  nodeInstances other addr o (pathOf addr) = Ok l ->
  exists rests,
    pathsAt addr l rests
    /\ Forall (fun r => belowRest r = true
                        /\ exists f tail, r = f :: tail /\ plainKeys tail = true) rests.
Proof.
  rewrite nodeInstances_split. intros H.
  apply bind_ok in H as (a & Ha & H). apply bind_ok in H as (b & Hb & H).
  apply bind_ok in H as (c & Hc & H). injection H as <-.
  destruct (fill_rests _ _ _ Ha) as (ra & Pa & Fa).
  destruct (stroke_rests _ _ _ Hb) as (rb & Pb & Fb).
  destruct (gradient_rests _ _ _ Hc) as (rc & Pc & Fc).
  exists (ra ++ rb ++ rc). split.
  - apply pathsAt_app; [assumption| |].
    + apply pathsAt_app; [assumption|assumption|].
      intros r. now apply (headed_apart "sc" "g" rb rc).
    + intros r Hin Hin'. apply in_app_or in Hin' as [Hin' | Hin'].
      * now apply (headed_apart "c" "sc" ra rb r).
      * now apply (headed_apart "c" "g" ra rc r).
  - rewrite forallb_forall in Fa, Fb, Fc.
    apply Forall_forall. intros r Hin.
    apply in_app_or in Hin as [Hin | Hin]; [|apply in_app_or in Hin as [Hin | Hin]].
    + split; [now apply (headed_below "c"); auto|].
      destruct (headed_head _ _ (Fa _ Hin)) as (t & -> & Ht). eauto.
    + split; [now apply (headed_below "sc"); auto|].
      destruct (headed_head _ _ (Fb _ Hin)) as (t & -> & Ht). eauto.
    + split; [now apply (headed_below "g"); auto|].
      destruct (headed_head _ _ (Fc _ Hin)) as (t & -> & Ht). eauto.
Qed.

(** ** The colours below a node *)

(** The colours of the child under [k], from the colours of the child. *)
Lemma child_rests addr k v a :
  (forall addr l, wellKeyed v = true -> pathKeyed v = true ->
     treeInstances other addr v (pathOf addr) = Ok l ->
     exists rests, pathsAt addr l rests /\ forallb belowRest rests = true) ->
  pathKey k = true -> wellKeyed v = true -> pathKeyed v = true ->
  childTree other addr (pathOf addr) k v = Ok a ->
  exists rests,
    pathsAt addr a rests
    /\ Forall (fun r => belowRest r = true
                        /\ exists r', r = k :: r' /\ existsb colorKey r' = true) rests.
Proof.
  intros IH Hk Hw Hp. unfold childTree.
  destruct (Js.typeofObject v);
    [|intros [= <-]; exists []; split; [apply pathsAt_nil|constructor]].
  rewrite <- pathOf_snoc. intros H.
  destruct (IH _ _ Hw Hp H) as (rests & [Hpaths Hn] & Hb).
  exists (map (cons k) rests). split; [split|].
  - rewrite Hpaths, map_map. apply map_ext. intros r. now rewrite <- app_assoc.
  - apply NoDup_map_in; [|assumption]. now intros x y _ _ [= E].
  - rewrite forallb_forall in Hb. apply Forall_forall. intros r Hin.
    apply in_map_iff in Hin as (r' & <- & Hin). specialize (Hb _ Hin).
    unfold belowRest in *. apply andb_true_iff in Hb as [Hb1 Hb2]. split.
    + cbn [forallb existsb]. now rewrite Hk, Hb1, Hb2, orb_true_r.
    + now exists r'.
Qed.

Lemma children_rests addr ps :
  Forall (fun kv => forall addr l, wellKeyed (snd kv) = true -> pathKeyed (snd kv) = true ->
            treeInstances other addr (snd kv) (pathOf addr) = Ok l ->
            exists rests, pathsAt addr l rests /\ forallb belowRest rests = true) ps ->
  distinct (map fst ps) = true ->
  forallb pathKey (map fst ps) = true ->
  forallb (fun kv => wellKeyed (snd kv)) ps = true ->
  forallb (fun kv => pathKeyed (snd kv)) ps = true ->
  forall l,
    childInstances other addr (pathOf addr) ps = Ok l ->
    exists rests,
      pathsAt addr l rests
      /\ Forall (fun r => belowRest r = true
                          /\ exists k r', r = k :: r' /\ In k (map fst ps)
                                          /\ existsb colorKey r' = true) rests.
Proof.
  induction 1 as [|[k v] ps Hv _ IH]; intros Hd Hk Hw Hp l H; cbn [childInstances] in H.
  - injection H as <-. exists []. split; [apply pathsAt_nil|constructor].
  - cbn [map fst snd distinct forallb] in *.
    apply andb_true_iff in Hd as [Hfresh Hd]. apply andb_true_iff in Hk as [Hk Hks].
    apply andb_true_iff in Hw as [Hw Hws]. apply andb_true_iff in Hp as [Hp Hps].
    apply bind_ok in H as (a & Ha & H). apply bind_ok in H as (b & Hb & H).
    injection H as <-.
    destruct (child_rests addr k v a Hv Hk Hw Hp Ha) as (ra & Pa & Fa).
    destruct (IH Hd Hks Hws Hps b Hb) as (rb & Pb & Fb).
    exists (ra ++ rb). split.
    + apply pathsAt_app; try assumption. intros r Hin Hin'.
      rewrite Forall_forall in Fa, Fb.
      destruct (Fa _ Hin) as (_ & r1 & -> & _).
      destruct (Fb _ Hin') as (_ & k2 & r2 & [= <- _] & Hin2 & _).
      apply negb_true_iff in Hfresh.
      assert (Hex : existsb (String.eqb k) (map fst ps) = true).
      { apply existsb_exists. exists k. split; [assumption|apply String.eqb_refl]. }
      congruence.
    + apply Forall_app. split.
      * eapply Forall_impl; [|exact Fa]. cbn beta.
        intros r (Hb' & r' & -> & Hc). split; [assumption|].
        exists k, r'. repeat split; auto. now left.
      * eapply Forall_impl; [|exact Fb]. cbn beta.
        intros r (Hb' & k2 & r' & -> & Hin & Hc). split; [assumption|].
        exists k2, r'. repeat split; auto. now right.
Qed.

Lemma elements_rests addr items :
  Forall (fun v => forall addr l, wellKeyed v = true -> pathKeyed v = true ->
            treeInstances other addr v (pathOf addr) = Ok l ->
            exists rests, pathsAt addr l rests /\ forallb belowRest rests = true) items ->
  forallb wellKeyed items = true ->
  forallb pathKeyed items = true ->
  forall i0 l,
    elementInstances other addr (pathOf addr) i0 items = Ok l ->
    exists rests,
      pathsAt addr l rests
      /\ Forall (fun r => belowRest r = true
                          /\ exists i r', r = Str.of_nat i :: r' /\ i0 <= i
                                          /\ existsb colorKey r' = true) rests.
Proof.
  induction 1 as [|v items Hv _ IH]; intros Hw Hp i0 l H; cbn [elementInstances] in H.
  - injection H as <-. exists []. split; [apply pathsAt_nil|constructor].
  - cbn [forallb] in *.
    apply andb_true_iff in Hw as [Hw Hws]. apply andb_true_iff in Hp as [Hp Hps].
    apply bind_ok in H as (a & Ha & H). apply bind_ok in H as (b & Hb & H).
    injection H as <-.
    destruct (child_rests addr (Str.of_nat i0) v a Hv (of_nat_pathKey i0) Hw Hp Ha)
      as (ra & Pa & Fa).
    destruct (IH Hws Hps (S i0) b Hb) as (rb & Pb & Fb).
    exists (ra ++ rb). split.
    + apply pathsAt_app; try assumption. intros r Hin Hin'.
      rewrite Forall_forall in Fa, Fb.
      destruct (Fa _ Hin) as (_ & r1 & -> & _).
      destruct (Fb _ Hin') as (_ & i2 & r2 & [= E _] & Hle & _).
      apply of_nat_inj in E. lia.
    + apply Forall_app. split.
      * eapply Forall_impl; [|exact Fa]. cbn beta.
        intros r (Hb' & r' & -> & Hc). split; [assumption|].
        exists i0, r'. repeat split; auto.
      * eapply Forall_impl; [|exact Fb]. cbn beta.
        intros r (Hb' & i2 & r' & -> & Hle & Hc). split; [assumption|].
        exists i2, r'. repeat split; auto. lia.
Qed.

Lemma tree_rests o : forall addr l,
  wellKeyed o = true -> pathKeyed o = true ->
  treeInstances other addr o (pathOf addr) = Ok l ->
  exists rests, pathsAt addr l rests /\ forallb belowRest rests = true.
Proof.
  induction o as [| | | | |items IH|ps IH] using json_induction; intros addr l Hw Hp H;
    try (injection H as <-; exists []; split; [apply pathsAt_nil|reflexivity]).
  - rewrite treeInstances_array in H.
    apply bind_ok in H as (a & Ha & H). apply bind_ok in H as (b & Hb & H).
    injection H as <-. injection Ha as <-. cbn [app].
    cbn [wellKeyed pathKeyed] in Hw, Hp.
    destruct (elements_rests addr items IH Hw Hp 0 b Hb) as (rests & Hpaths & HF).
    exists rests. split; [assumption|]. apply forallb_forall. intros r Hin.
    rewrite Forall_forall in HF. now apply HF.
  - rewrite treeInstances_object in H.
    apply bind_ok in H as (a & Ha & H). apply bind_ok in H as (b & Hb & H).
    injection H as <-.
    cbn [wellKeyed pathKeyed] in Hw, Hp.
    apply andb_true_iff in Hw as [Hd Hw]. apply andb_true_iff in Hp as [Hk Hp].
    destruct (node_rests addr _ a Ha) as (ra & Pa & Fa).
    destruct (children_rests addr ps IH Hd Hk Hw Hp b Hb) as (rb & Pb & Fb).
    exists (ra ++ rb). split.
    + apply pathsAt_app; try assumption. intros r Hin Hin'.
      rewrite Forall_forall in Fa, Fb.
      destruct (Fa _ Hin) as (_ & f & tail & -> & Ht).
      destruct (Fb _ Hin') as (_ & k & r' & [= _ <-] & _ & Hc).
      rewrite (plain_no_color _ Ht) in Hc. discriminate.
    + apply forallb_forall. intros r Hin. rewrite Forall_forall in Fa, Fb.
      apply in_app_or in Hin as [Hin | Hin]; [now apply Fa|now apply Fb].
Qed.

End Paths.

Lemma belowRest_pathKeys r : belowRest r = true -> pathKeys r = true.
Proof.
  unfold belowRest, pathKeys. intros H. apply andb_true_iff in H as [Hk Hc].
  rewrite Hk. destruct r; [discriminate|reflexivity].
Qed.

(** X20. Every extracted instance has a path of its own.  In a document
    whose objects have distinct keys, none of them empty or with a dot in it,
    no two of the instances [extractColors] returns have the same [path]: a
    lock on a path locks one colour. *)
Theorem extracted_paths_are_distinct other before doc insts groups :
  wellKeyed doc = true ->
  pathKeyed doc = true ->
  extractColors other before doc = Ok (insts, groups) ->
  NoDup (map path insts).
Proof.
  intros Hw Hp H. destruct (Js.isObject doc) eqn:Hobj.
  - assert (Ht : treeInstances other [] doc (pathOf []) = Ok insts).
    { apply (extractColors_tree other before doc Hobj insts). now exists groups. }
    destruct (tree_rests other doc [] insts Hw Hp Ht) as (rests & [Hpaths Hn] & Hb).
    rewrite Hpaths. apply NoDup_map_in; [|assumption].
    intros x y Hx Hy E. cbn [app] in E. rewrite forallb_forall in Hb.
    rewrite <- (split_dot_pathOf x), <- (split_dot_pathOf y), E;
      [reflexivity|now apply belowRest_pathKeys, Hb..].
  - unfold extractColors in H. rewrite Hobj in H. injection H as <- _. constructor.
Qed.

Lemma extracted_paths_are_distinct_witness :
  exists insts groups,
    extractColors notANumber [] lockDocument = Ok (insts, groups)
    /\ List.length insts = 6
    /\ NoDup (map path insts).
Proof.
  destruct (extractColors notANumber [] lockDocument) as [[insts groups]| |] eqn:E;
    [|vm_compute in E; discriminate..].
  exists insts, groups. split; [reflexivity|]. split.
  - vm_compute in E. now injection E as <- _.
  - apply (extracted_paths_are_distinct notANumber [] lockDocument insts groups);
      [reflexivity|reflexivity|exact E].
Defined.

From Stdlib Require Import ZArith NArith List String Ascii Bool Lia Floats.
From Stdlib Require Import Hexadecimal HexadecimalString HexadecimalN.
Import ColorUtils.

(** * The format of [rgbToHex] *)

Lemma string_length_app (a b : string) :
  String.length (a ++ b) = String.length a + String.length b.
Proof. induction a as [|c a IH]; cbn; [reflexivity|now rewrite IH]. Qed.

Lemma length_two s :
  String.length s = 2 -> exists c1 c2, s = String c1 (String c2 "").
Proof.
  destruct s as [|c1 [|c2 [|c3 s]]]; cbn; intros H; try discriminate. eauto.
Qed.

Lemma isHex7_length s : isHex7 s = true -> String.length s = 7.
Proof.
  destruct s as [|c0 s]; [discriminate|].
  destruct c0 as [[] [] [] [] [] [] [] []]; try discriminate.
  destruct s as [|c1 [|c2 [|c3 [|c4 [|c5 [|c6 [|c7 s]]]]]]]; try discriminate.
  reflexivity.
Qed.

Lemma length_hexByte x : 2 <= String.length (hexByte x).
Proof.
  unfold hexByte, Str.padStart2.
  destruct (String.length (toString16 (Num.Math_round x))) as [|[|n]] eqn:L.
  - cbn. lia.
  - rewrite string_length_app, L. cbn. lia.
  - rewrite L. lia.
Qed.

(** ** A channel in the range *)

Lemma byteHex_form n :
  (0 <= n <= 255)%Z ->
  exists c1 c2, byteHex n = String c1 (String c2 "")
                /\ isLowerHexChar c1 = true /\ isLowerHexChar c2 = true.
Proof.
  intros H. exists (hexChar (n / 16)), (hexChar (n mod 16)). split; [reflexivity|].
  split; apply isLowerHexChar_hexChar.
  - split; [apply Z.div_pos; lia|apply Z.div_lt_upper_bound; lia].
  - apply Z.mod_pos_bound. lia.
Qed.

Lemma hexByte_in_range x :
  roundsToByte x = true -> exists n, (0 <= n <= 255)%Z /\ hexByte x = byteHex n.
Proof.
  unfold roundsToByte, hexByte. destruct (Num.Math_round x) as [n z| |s]; try discriminate.
  intros H. apply andb_true_iff in H as [H1 H2]. apply Z.leb_le in H1, H2.
  exists n. split; [lia|].
  assert (A : forallb (fun k => String.eqb (Str.padStart2 (toString16 (Num.RInt k false)))
                                  (byteHex k)) bytes = true) by (vm_compute; reflexivity).
  rewrite forallb_forall in A. apply String.eqb_eq.
  change (toString16 (Num.RInt n z)) with (toString16 (Num.RInt n false)).
  apply A, in_bytes. lia.
Qed.

(** ** A channel out of the range *)

Lemma digits_nonempty d : HexadecimalString.NilZero.string_of_uint d <> "".
Proof. destruct d; discriminate. Qed.

Lemma two_digits d :
  String.length (HexadecimalString.NilZero.string_of_uint d) <= 2 ->
  (N.of_hex_uint d < 256)%N.
Proof.
  destruct d as [|d|d|d|d|d|d|d|d|d|d|d|d|d|d|d|d]; [intros _; reflexivity|..];
    (destruct d as [|d|d|d|d|d|d|d|d|d|d|d|d|d|d|d|d]; [intros _; reflexivity|..]);
    (destruct d; [intros _; reflexivity|cbn; intros H; exfalso; lia..]).
Qed.

Lemma hex_of_N_short m : String.length (hex_of_N m) <= 2 -> (m < 256)%N.
Proof.
  unfold hex_of_N. intros H. rewrite <- (HexadecimalN.Unsigned.of_to m).
  now apply two_digits.
Qed.

Lemma padStart2_two s c1 c2 :
  Str.padStart2 s = String c1 (String c2 "") -> String.length s <= 2.
Proof.
  unfold Str.padStart2. destruct (String.length s) as [|[|n]] eqn:L; try lia.
  intros ->. cbn in L. lia.
Qed.

Lemma padStart2_long s : 2 <= String.length s -> Str.padStart2 s = s.
Proof.
  unfold Str.padStart2. destruct (String.length s) as [|[|n]]; try lia. reflexivity.
Qed.

Lemma hexByte_two x c1 c2 :
  hexByte x = String c1 (String c2 "") ->
  isLowerHexChar c1 = true -> isLowerHexChar c2 = true ->
  roundsToByte x = true.
Proof.
  unfold hexByte, roundsToByte. destruct (Num.Math_round x) as [n z| |s].
  - cbn [toString16]. destruct (n <? 0)%Z eqn:Hn.
    + intros E H1 _. exfalso.
      assert (L : 2 <= String.length ("-" ++ hex_of_N (Z.abs_N n))).
      { cbn. pose proof (digits_nonempty (N.to_hex_uint (Z.abs_N n))) as D.
        unfold hex_of_N. destruct (HexadecimalString.NilZero.string_of_uint _);
          [contradiction|cbn; lia]. }
      rewrite (padStart2_long _ L) in E. cbn in E. injection E as <- _.
      discriminate H1.
    + intros E _ _. apply padStart2_two, hex_of_N_short in E.
      apply Z.ltb_ge in Hn. apply andb_true_iff. split; [now apply Z.leb_le|].
      apply Z.leb_le. lia.
  - cbn. discriminate.
  - destruct s; cbn; discriminate.
Qed.

(** X21. [rgbToHex] does not clamp.  For any three numbers, the string it
    returns has the form [#rrggbb] - seven characters, a hash sign and six
    lowercase hexadecimal digits - exactly when each of [r], [g] and [b]
    rounds to an integer from 0 to 255; a channel that rounds below 0 or
    above 255, a NaN or an infinity gives a string of another form. *)
Theorem rgbToHex_is_a_hex_colour_exactly_in_range (r g b : float) :
  isHex7 (rgbToHex r g b) = true
  <-> roundsToByte r = true /\ roundsToByte g = true /\ roundsToByte b = true.
Proof.
  unfold rgbToHex. split.
  - intros H. pose proof (isHex7_length _ H) as L.
    rewrite !string_length_app in L. cbn [String.length] in L.
    pose proof (length_hexByte r) as Lr. pose proof (length_hexByte g) as Lg.
    pose proof (length_hexByte b) as Lb.
    destruct (length_two (hexByte r) ltac:(lia)) as (r1 & r2 & Er).
    destruct (length_two (hexByte g) ltac:(lia)) as (g1 & g2 & Eg).
    destruct (length_two (hexByte b) ltac:(lia)) as (b1 & b2 & Eb).
    rewrite Er, Eg, Eb in H. cbn [String.append isHex7 forallb] in H.
    repeat (apply andb_true_iff in H as [? H]).
    repeat split; [apply (hexByte_two r r1 r2)|apply (hexByte_two g g1 g2)
                  |apply (hexByte_two b b1 b2)]; assumption.
  - intros (Hr & Hg & Hb).
    destruct (hexByte_in_range r Hr) as (x & Hx & ->).
    destruct (hexByte_in_range g Hg) as (y & Hy & ->).
    destruct (hexByte_in_range b Hb) as (z & Hz & ->).
    destruct (byteHex_form x Hx) as (x1 & x2 & -> & X1 & X2).
    destruct (byteHex_form y Hy) as (y1 & y2 & -> & Y1 & Y2).
    destruct (byteHex_form z Hz) as (z1 & z2 & -> & Z1 & Z2).
    cbn [String.append isHex7 forallb]. now rewrite X1, X2, Y1, Y2, Z1, Z2.
Qed.

Import ColorExtractor HueShiftManager.

(** * The colour list after an adjustment *)

(** ** What the traversal keeps of a node *)

Lemma assocSet_keys_some k x ps :
  Js.assoc k ps <> None -> map fst (Js.assocSet k x ps) = map fst ps.
Proof.
  destruct (Js.assoc k ps) as [v|] eqn:E; [|congruence]. intros _.
  now apply (assocSet_keys k x ps v).
Qed.

Lemma set_keys ps k x :
  Js.get (JObj ps) k <> JUndef ->
  exists ps', Js.set (JObj ps) k x = JObj ps' /\ map fst ps' = map fst ps.
Proof.
  intros H. exists (Js.assocSet k x ps). split; [reflexivity|].
  apply assocSet_keys_some. cbn [Js.get] in H. destruct (Js.assoc k ps); congruence.
Qed.

Section Kept.

Variable other : json -> float.
Variable m : HueShiftManager.t.

Lemma colorStep_keys f ps path v1 :
  (if Js.truthy (Js.get (JObj ps) f) && Js.truthy (Js.get (Js.get (JObj ps) f) "k") then
     c <- adjustColorProperty other m (Js.get (JObj ps) f) (Js.join path f) ;;
     Ok (Js.set (JObj ps) f c)
   else Ok (JObj ps)) = Ok v1 ->
  exists ps1, v1 = JObj ps1 /\ map fst ps1 = map fst ps.
Proof.
  destruct (Js.truthy (Js.get (JObj ps) f) && _) eqn:G.
  - intros H. apply bind_ok in H as (c & _ & H). injection H as <-.
    apply andb_true_iff in G as [G _]. apply truthy_defined in G.
    destruct (set_keys ps f c G) as (ps' & E & K). exists ps'. now split.
  - intros [= <-]. now exists ps.
Qed.

Lemma adjustNode_keys ps path v1 :
  adjustNode other m (JObj ps) path = Ok v1 ->
  exists ps1, v1 = JObj ps1 /\ map fst ps1 = map fst ps.
Proof.
  unfold adjustNode. intros H.
  apply bind_ok in H as (o1 & H1 & H). apply bind_ok in H as (o2 & H2 & H).
  apply colorStep_keys in H1 as (p1 & -> & K1).
  apply colorStep_keys in H2 as (p2 & -> & K2).
  destruct (Js.truthy (Js.get (JObj p2) "g") && _) eqn:G.
  - injection H as <-. apply andb_true_iff in G as [G _]. apply truthy_defined in G.
    destruct (set_keys p2 "g" (adjustGradient other m (Js.get (JObj p2) "g") (Js.join path "g")) G)
      as (ps' & E & K). exists ps'. split; [assumption|congruence].
  - injection H as <-. exists p2. split; [reflexivity|congruence].
Qed.

Lemma mapProps_keys f ps ps' : Js.mapProps f ps = Ok ps' -> map fst ps' = map fst ps.
Proof.
  revert ps'. induction ps as [|[k v] ps IH]; intros ps' H; cbn [Js.mapProps] in H.
  - now injection H as <-.
  - apply bind_ok in H as (v' & _ & H). apply bind_ok in H as (rest & Hr & H).
    injection H as <-. cbn [map fst]. f_equal. now apply IH.
Qed.

(** The traversal of an object gives an object with the same keys, in the
    same order. *)
Lemma rec_keys fuel ps path r :
  recursiveAdjustColors other fuel m (JObj ps) path = Ok r ->
  exists ps', r = JObj ps' /\ map fst ps' = map fst ps.
Proof.
  destruct fuel as [|fuel]; [intros [= <-]; now exists ps|].
  cbn [recursiveAdjustColors Js.isObject negb]. intros H.
  apply bind_ok in H as (v1 & H1 & H).
  apply adjustNode_keys in H1 as (ps1 & -> & K1).
  apply bind_ok in H as (ps' & Hp & H). injection H as <-.
  exists ps'. split; [reflexivity|]. apply mapProps_keys in Hp. congruence.
Qed.

(** The traversal of an array gives an array of the same length. *)
Lemma rec_length fuel items path r :
  recursiveAdjustColors other fuel m (JArr items) path = Ok r ->
  exists items', r = JArr items' /\ List.length items' = List.length items.
Proof.
  destruct fuel as [|fuel]; [intros [= <-]; now exists items|].
  cbn [recursiveAdjustColors Js.isObject negb].
  rewrite adjustNode_plain by apply colorSite_array. cbn [bind]. intros H.
  apply bind_ok in H as (items' & Hi & H). injection H as <-.
  exists items'. split; [reflexivity|].
  apply (mapi_item (A:=json) _ 0 items items' 0 Hi).
Qed.

(** The traversal keeps what kind of value a node is. *)
Lemma rec_kind fuel v path r :
  recursiveAdjustColors other fuel m v path = Ok r ->
  Js.typeofObject r = Js.typeofObject v
  /\ Js.isObject r = Js.isObject v
  /\ forall s, Js.isStr r s = Js.isStr v s.
Proof.
  destruct v as [| | | | |items|ps]; intros H;
    try (rewrite rec_nonobject in H by reflexivity; injection H as <-; auto).
  - apply rec_length in H as (items' & -> & _). auto.
  - apply rec_keys in H as (ps' & -> & _). auto.
Qed.

(** ** Colour properties stay free of colour properties *)

Lemma colorFree_get v k : colorFree v = true -> colorFree (Js.get v k) = true.
Proof.
  destruct v as [| | | | |l|ps]; try reflexivity; cbn [Js.get colorFree].
  - intros H. destruct (Str.to_index k); [|reflexivity]. now apply forallb_item.
  - intros H. apply andb_true_iff in H as [_ H].
    destruct (Js.assoc k ps) eqn:E; [|reflexivity].
    apply assoc_In in E. apply (forallb_In _ _ _ H E).
Qed.

Lemma colorFree_set v k x :
  colorFree v = true -> colorFree x = true -> colorKey k = false ->
  colorFree (Js.set v k x) = true.
Proof.
  intros Hv Hx Hk. destruct v as [| | | | |l|ps]; try assumption.
  - cbn [Js.set]. destruct (Str.to_index k); [|assumption].
    cbn [colorFree] in *. now apply forallb_itemSet.
  - change (Js.set (JObj ps) k x) with (JObj (Js.assocSet k x ps)).
    cbn [colorFree] in *. apply andb_true_iff in Hv as [Hs Hps].
    rewrite forallb_assocSet by assumption. rewrite andb_true_r.
    change (JObj (Js.assocSet k x ps)) with (Js.set (JObj ps) k x).
    unfold colorKey in Hk. apply orb_false_iff in Hk as [Hk Hkg].
    apply orb_false_iff in Hk as [Hkc Hksc]. apply String.eqb_neq in Hkc, Hksc, Hkg.
    unfold colorSite in *. now rewrite !(get_set_other (JObj ps) k _ x) by assumption.
Qed.

Lemma colorFree_rgba l :
  forallb colorFree l = true -> colorFree (JArr (adjustRgbaArray other m l)) = true.
Proof. intros H. cbn [colorFree]. unfold adjustRgbaArray. now apply forallb_writeRgb. Qed.

Lemma colorFree_items v : colorFree v = true -> forallb colorFree (Js.items v) = true.
Proof. destruct v; try reflexivity. auto. Qed.

Lemma colorFree_stops l numStops path :
  forallb colorFree l = true ->
  colorFree (JArr (adjustGradientStops other m l numStops path)) = true.
Proof. intros H. cbn [colorFree]. now apply forallb_adjustGradientStops. Qed.

Lemma colorFree_adjustKeyframe path i kf kf' :
  colorFree kf = true -> adjustKeyframe other m path i kf = Ok kf' -> colorFree kf' = true.
Proof.
  intros Hf. unfold adjustKeyframe.
  destruct kf as [| | | | | |props]; try (intros [= <-]; assumption);
    (destruct (isPathLocked m _); [intros [= <-]; assumption|]);
    cbn [Js.getChecked bind]; try discriminate.
  all: destruct (_ && _); intros [= <-]. all: try assumption.
  change (colorFree (Js.set (JObj props) "s"
                       (JArr (adjustRgbaArray other m (Js.items (Js.get (JObj props) "s")))))
          = true).
  apply colorFree_set; [assumption| |reflexivity].
  now apply colorFree_rgba, colorFree_items, colorFree_get.
Qed.

Lemma colorFree_adjustColorProperty c path c1 :
  colorFree c = true -> adjustColorProperty other m c path = Ok c1 -> colorFree c1 = true.
Proof.
  intros Hf. unfold adjustColorProperty.
  destruct (isPathLocked m path); [intros [= <-]; assumption|].
  destruct (Js.isOne _ && Js.isArray _).
  - intros H. apply bind_ok in H as (kfs & Hk & H). injection H as <-.
    apply colorFree_set; [assumption| |reflexivity]. cbn [colorFree].
    apply (mapi_forall (adjustKeyframe other m path) colorFree colorFree 0
             (Js.items (Js.get c "k")) kfs); [|now apply colorFree_items, colorFree_get|assumption].
    intros i x y Hx Hy. now apply (colorFree_adjustKeyframe path i x y).
  - destruct (Js.isArray _ && _); intros [= <-]; [|assumption].
    apply colorFree_set; [assumption| |reflexivity].
    now apply colorFree_rgba, colorFree_items, colorFree_get.
Qed.

Lemma colorFree_adjustGradient g path :
  colorFree g = true -> colorFree (adjustGradient other m g path) = true.
Proof.
  intros Hf. unfold adjustGradient. destruct (isPathLocked m path); [assumption|].
  pose proof (colorFree_get g "k" Hf) as Hk.
  pose proof (colorFree_get _ "k" Hk) as Hkk.
  assert (Hmap : forall numStops,
             colorFree
               (JArr (map (fun ik =>
                             if Js.truthy (snd ik) && Js.isArray (Js.get (snd ik) "s") then
                               Js.set (snd ik) "s"
                                 (JArr (adjustGradientStops other m
                                          (Js.items (Js.get (snd ik) "s")) numStops
                                          (path ++ ".k.k." ++ Str.of_nat (fst ik) ++ ".s")))
                             else snd ik)
                        (combine (seq 0 (List.length (Js.items (Js.get (Js.get g "k") "k"))))
                           (Js.items (Js.get (Js.get g "k") "k"))))) = true).
  { intros numStops. cbn [colorFree]. apply forallb_forall. intros x Hx.
    apply in_map_iff in Hx as ([j kf] & <- & Hin). apply in_combine_r in Hin.
    cbn [fst snd].
    assert (Hkf : colorFree kf = true)
      by (eapply forallb_In; [apply colorFree_items; exact Hkk|exact Hin]).
    destruct (Js.truthy kf && Js.isArray (Js.get kf "s")); [|assumption].
    apply colorFree_set; [assumption| |reflexivity].
    apply colorFree_stops, colorFree_items. now apply colorFree_get. }
  repeat match goal with |- context [if ?b then _ else _] => destruct b end;
    try assumption;
    repeat (apply colorFree_set; [assumption| |reflexivity]);
    try apply Hmap; apply colorFree_stops; now apply colorFree_items.
Qed.

End Kept.

(** ** A tree without colours has no instances *)

Section NoColors.

Variable other : json -> float.

Lemma node_colorFree addr o path :
  colorSite o = false -> nodeInstances other addr o path = Ok [].
Proof.
  unfold colorSite. intros H. apply orb_false_iff in H as [H Hg].
  apply orb_false_iff in H as [Hc Hsc].
  unfold nodeInstances, emitted, extractNode. rewrite Hc, Hsc. cbn [bind].
  destruct (Js.truthy (Js.get o "g")) eqn:G; [|reflexivity].
  cbn [andb] in Hg. unfold processGradient. rewrite Hg. reflexivity.
Qed.

Lemma tree_colorFree v : forall addr path,
  colorFree v = true -> treeInstances other addr v path = Ok [].
Proof.
  induction v as [| | | | |items IH|ps IH] using json_induction; intros addr path H;
    try reflexivity.
  - rewrite treeInstances_array, (node_colorFree addr _ path (colorSite_array items)).
    cbn [bind app]. cbn [colorFree] in H.
    assert (E : forall i, elementInstances other addr path i items = Ok []).
    { induction IH as [|v l Hv _ IHl]; intros i; [reflexivity|].
      cbn [forallb] in H. apply andb_true_iff in H as [H1 H2].
      cbn [elementInstances]. unfold childTree.
      rewrite (Hv _ _ H1), (IHl H2). now destruct (Js.typeofObject v). }
    now rewrite E.
  - cbn [colorFree] in H. apply andb_true_iff in H as [Hs H]. apply negb_true_iff in Hs.
    rewrite treeInstances_object, (node_colorFree addr _ path Hs). cbn [bind app].
    assert (E : childInstances other addr path ps = Ok []).
    { clear Hs. induction IH as [|[k v] l Hv _ IHl]; [reflexivity|].
      cbn [forallb snd] in H. apply andb_true_iff in H as [H1 H2].
      cbn [childInstances]. unfold childTree. cbn [snd] in Hv.
      rewrite (Hv _ _ H1), (IHl H2). now destruct (Js.typeofObject v). }
    now rewrite E.
Qed.

End NoColors.

(** ** The instances without their colours *)

Lemma skeleton_both x y :
  skeleton (a <- x ;; b <- y ;; Ok (a ++ b))
  = (a <- skeleton x ;; b <- skeleton y ;; Ok (a ++ b)).
Proof.
  unfold skeleton. destruct x as [a| |], y as [b| |]; cbn [bind]; try reflexivity.
  now rewrite map_app.
Qed.

Lemma skeleton_three x y z :
  skeleton (a <- x ;; b <- y ;; c <- z ;; Ok (a ++ b ++ c))
  = (a <- skeleton x ;; b <- skeleton y ;; c <- skeleton z ;; Ok (a ++ b ++ c)).
Proof.
  unfold skeleton. destruct x as [a| |], y as [b| |], z as [c| |]; cbn [bind];
    try reflexivity.
  now rewrite !map_app.
Qed.

Lemma skeleton_collecti {A : Type} (g g' : nat -> A -> outcome (list instance)) xs :
  (forall i x, In x xs -> skeleton (g i x) = skeleton (g' i x)) ->
  forall i0, skeleton (collecti g i0 xs) = skeleton (collecti g' i0 xs).
Proof.
  induction xs as [|x xs IH]; intros H i0; [reflexivity|].
  cbn [collecti]. rewrite !skeleton_both, (H i0 x) by now left.
  rewrite IH; [reflexivity|]. intros i y Hy. apply H. now right.
Qed.

Lemma skeleton_mapi (f : nat -> json -> outcome json)
  (g g' : nat -> json -> outcome (list instance)) l :
  (forall i x y, In x l -> f i x = Ok y -> skeleton (g' i y) = skeleton (g i x)) ->
  forall i0 l', mapi_outcome f i0 l = Ok l' ->
                skeleton (collecti g' i0 l') = skeleton (collecti g i0 l).
Proof.
  induction l as [|x l IH]; intros H i0 l' E; cbn [mapi_outcome] in E.
  - now injection E as <-.
  - apply bind_ok in E as (y & Hy & E). apply bind_ok in E as (ys & Hys & E).
    injection E as <-. cbn [collecti]. rewrite !skeleton_both.
    rewrite (H i0 x y (or_introl eq_refl) Hy).
    rewrite (IH (fun i a b Ha => H i a b (or_intror Ha)) (S i0) ys Hys). reflexivity.
Qed.

Lemma skeleton_map_combine (F : nat * json -> json)
  (g g' : nat -> json -> outcome (list instance)) l :
  (forall i x, skeleton (g' i (F (i, x))) = skeleton (g i x)) ->
  forall i0,
    skeleton (collecti g' i0 (map F (combine (seq i0 (List.length l)) l)))
    = skeleton (collecti g i0 l).
Proof.
  intros H. induction l as [|x l IH]; intros i0; [reflexivity|].
  cbn [List.length seq combine map collecti]. rewrite !skeleton_both, H, IH. reflexivity.
Qed.

Section Own.

Variable other : json -> float.
Variable m : HueShiftManager.t.

(** *** A solid colour *)

Lemma fill_solidList addr o P :
  fillInstances other addr o P
  = solidList other (fillKind (Js.get o "ty")) (addr ++ ["c"]) (Js.join P "c") (Js.get o "c").
Proof.
  unfold solidList. destruct (Js.isArray (Js.get (Js.get o "c") "k")) eqn:K.
  - destruct (Js.isOne (Js.get (Js.get o "c") "a")) eqn:A.
    + now rewrite fillInstances_keyframes.
    + now rewrite fillInstances_static.
  - unfold fillInstances, emitted, processFill. rewrite K.
    destruct (_ && _); [destruct (Js.isOne _)|]; reflexivity.
Qed.

Lemma stroke_solidList addr o P :
  strokeInstances other addr o P
  = solidList other ("stroke", "stroke") (addr ++ ["sc"]) (Js.join P "sc") (Js.get o "sc").
Proof.
  unfold solidList. destruct (Js.isArray (Js.get (Js.get o "sc") "k")) eqn:K.
  - destruct (Js.isOne (Js.get (Js.get o "sc") "a")) eqn:A.
    + now rewrite strokeInstances_keyframes.
    + now rewrite strokeInstances_static.
  - unfold strokeInstances, emitted, processStroke. rewrite K, andb_false_r.
    destruct (_ && _); reflexivity.
Qed.

Lemma keyframe_adjusted kind ref P path i kf kf' :
  adjustKeyframe other m path i kf = Ok kf' ->
  skeleton (emitted (keyframeColor other kind ref P i kf'))
  = skeleton (emitted (keyframeColor other kind ref P i kf)).
Proof.
  unfold adjustKeyframe.
  destruct kf as [| | | | | |props]; try (intros [= <-]; reflexivity);
    (destruct (isPathLocked m _); [intros [= <-]; reflexivity|]);
    cbn [Js.getChecked bind]; try discriminate.
  all: destruct (_ && _) eqn:G; intros [= <-]; try reflexivity.
  change (JObj (Js.assocSet "s" ?x props)) with (Js.set (JObj props) "s" x).
  apply andb_true_iff in G as [Gt Ga].
  unfold emitted, keyframeColor. cbn [Js.set Js.getChecked bind].
  change (JObj (Js.assocSet "s" ?x props)) with (Js.set (JObj props) "s" x).
  rewrite get_set_same by now apply isArray_defined.
  change (match Js.assoc "s" props with Some x => x | None => JUndef end)
    with (Js.get (JObj props) "s").
  rewrite Gt, Ga. reflexivity.
Qed.

Lemma solidList_adjusted kind ref P path c c1 :
  adjustColorProperty other m c path = Ok c1 ->
  skeleton (solidList other kind ref P c1) = skeleton (solidList other kind ref P c).
Proof.
  unfold adjustColorProperty.
  destruct (isPathLocked m path); [intros [= <-]; reflexivity|].
  destruct (Js.isOne (Js.get c "a")) eqn:A, (Js.isArray (Js.get c "k")) eqn:K;
    cbn [andb]; try (intros [= <-]; reflexivity).
  - intros H. apply bind_ok in H as (kfs & Hk & H). injection H as <-.
    unfold solidList.
    rewrite get_set_same by now apply isArray_defined.
    rewrite get_set_other by discriminate. rewrite A, K. cbn [Js.isArray Js.items].
    apply (skeleton_mapi (adjustKeyframe other m path) _ _ (Js.items (Js.get c "k")));
      [|exact Hk].
    intros i x y _ Hy. now apply (keyframe_adjusted kind ref P path i x y).
  - destruct (3 <=? List.length (Js.items (Js.get c "k")))%nat; intros [= <-];
      [|reflexivity].
    unfold solidList.
    rewrite get_set_same by now apply isArray_defined.
    rewrite get_set_other by discriminate. rewrite A, K. reflexivity.
Qed.

(** *** A gradient *)

Lemma stopLoop_multiple limit stops :
  stopLoop limit = Some stops -> Forall (fun i => exists q, i = 4 * q) stops.
Proof.
  unfold stopLoop. destruct (_ <? _)%float; [discriminate|].
  destruct (Prim2SF limit) as [| | |[] m' e]; intros [= <-]; try constructor.
  apply Forall_forall. intros i Hi. apply in_map_iff in Hi as (q & <- & _).
  now exists q.
Qed.

Lemma stops_adjusted g g' kind arr arr' ref P :
  Js.get g' "p" = Js.get g "p" ->
  List.length arr' = List.length arr ->
  (forall q, Js.item arr' (4 * q) = Js.item arr (4 * q)) ->
  skeleton (emitted (processGradientStops other g' kind arr' ref P))
  = skeleton (emitted (processGradientStops other g kind arr ref P)).
Proof.
  intros Hp Hl Ho.
  assert (Hn : stopCountOf g' arr' = stopCountOf g arr)
    by (unfold stopCountOf; now rewrite Hp, Hl).
  destruct (stopLoop (Js.ToNumber other (stopCountOf g arr) * 4)) as [stops|] eqn:E.
  - rewrite (stops_emitted other g kind arr ref P stops E).
    rewrite (stops_emitted other g' kind arr' ref P stops) by now rewrite Hn.
    unfold skeleton. cbn [bind]. rewrite !map_map. f_equal. apply map_ext_in.
    intros i Hi. pose proof (stopLoop_multiple _ _ E) as Hm.
    rewrite Forall_forall in Hm. destruct (Hm i Hi) as (q & ->).
    unfold withoutHex, stopInstance.
    cbn [ColorExtractor.type ColorExtractor.shapeType ColorExtractor.ref ColorExtractor.index
         ColorExtractor.offset ColorExtractor.stopCount ColorExtractor.path].
    now rewrite Hn, Ho.
  - unfold emitted, processGradientStops. now rewrite Hn, E.
Qed.

Lemma adjustGradientStops_kept arr numStops path :
  List.length (adjustGradientStops other m arr numStops path) = List.length arr
  /\ forall q, Js.item (adjustGradientStops other m arr numStops path) (4 * q)
               = Js.item arr (4 * q).
Proof.
  unfold adjustGradientStops.
  destruct (adjustStops_frame other m path
              (stopOffsets (Js.ToNumber other numStops * 4) (List.length arr)) arr)
    as (L & O & _); [|now split].
  pose proof (stopOffsets_multiple (Js.ToNumber other numStops * 4) (List.length arr)) as M.
  pose proof (stopOffsets_bound (Js.ToNumber other numStops * 4) (List.length arr)) as B.
  rewrite Forall_forall in *. intros i Hi. split; auto.
Qed.

Lemma gradient_of_fields addr o o' P :
  gradientKind (Js.get o' "ty") = gradientKind (Js.get o "ty") ->
  Js.get o' "g" = Js.get o "g" ->
  gradientInstances other addr o' P = gradientInstances other addr o P.
Proof.
  intros Hk Hg. unfold gradientInstances, processGradient. cbv zeta.
  now rewrite Hk, Hg.
Qed.

Lemma gradient_adjusted addr o o' P path :
  gradientKind (Js.get o' "ty") = gradientKind (Js.get o "ty") ->
  Js.get o' "g" = adjustGradient other m (Js.get o "g") path ->
  skeleton (gradientInstances other addr o' P) = skeleton (gradientInstances other addr o P).
Proof.
  intros Hkind Hg. unfold adjustGradient in Hg.
  destruct (isPathLocked m path); [now rewrite (gradient_of_fields addr o o' P)|].
  set (g := Js.get o "g") in *. set (k := Js.get g "k") in *.
  set (numStops := if Js.truthy (Js.get g "p") then Js.get g "p" else JNum 0) in *.
  destruct (negb (Js.truthy (Js.get k "a")) && Js.isArray k) eqn:D.
  { apply andb_true_iff in D as [_ D].
    assert (Hk' : Js.get (Js.get o' "g") "k"
                  = JArr (adjustGradientStops other m (Js.items k) numStops (path ++ ".k"))).
    { rewrite Hg. apply get_set_same. now apply isArray_defined. }
    rewrite (gradientInstances_direct other addr o P) by exact D.
    rewrite (gradientInstances_direct other addr o' P) by now rewrite Hk'.
    rewrite Hk', Hkind. cbn [Js.items].
    destruct (adjustGradientStops_kept (Js.items k) numStops (path ++ ".k")) as [L O].
    apply stops_adjusted; try assumption.
    rewrite Hg. apply get_set_other. discriminate. }
  destruct (Js.isOne (Js.get k "a") && Js.isArray (Js.get k "k")) eqn:K.
  { apply andb_true_iff in K as [Ka Kk].
    assert (Hkd : Js.get k "k" <> JUndef) by now apply isArray_defined.
    assert (Hgd : Js.get g "k" <> JUndef).
    { intros E. fold k in E. rewrite E in Hkd. now cbn in Hkd. }
    assert (Hk' : Js.get (Js.get o' "g") "k"
                  = Js.set k "k"
                      (JArr (map (fun ik =>
                                    if Js.truthy (snd ik) && Js.isArray (Js.get (snd ik) "s")
                                    then Js.set (snd ik) "s"
                                           (JArr (adjustGradientStops other m
                                                    (Js.items (Js.get (snd ik) "s")) numStops
                                                    (path ++ ".k.k." ++ Str.of_nat (fst ik)
                                                     ++ ".s")))
                                    else snd ik)
                               (combine (seq 0 (List.length (Js.items (Js.get k "k"))))
                                  (Js.items (Js.get k "k")))))).
    { rewrite Hg. now apply get_set_same. }
    assert (Hp : Js.get (Js.get o' "g") "p" = Js.get g "p").
    { rewrite Hg. apply get_set_other. discriminate. }
    rewrite (gradientInstances_keyframes other addr o P) by assumption.
    rewrite (gradientInstances_keyframes other addr o' P);
      [|cbn [Js.lookup]; rewrite Hk', get_set_other by discriminate; exact Ka
       |cbn [Js.lookup]; rewrite Hk', get_set_same by assumption; reflexivity].
    cbn [Js.lookup]. rewrite Hk', get_set_same by assumption. cbn [Js.items].
    fold g. fold k. rewrite Hkind.
    apply (skeleton_map_combine _ _ _ (Js.items (Js.get k "k"))).
    intros i x. cbn [fst snd]. rewrite !emitted_if.
    destruct (Js.truthy x && Js.isArray (Js.get x "s")) eqn:C; [|now rewrite C].
    apply andb_true_iff in C as [Ct Cs].
    assert (Hx : Js.isObject x = true)
      by (apply (get_defined_isObject x "s"); now apply isArray_defined).
    rewrite (truthy_set x "s" _ Hx).
    rewrite get_set_same by now apply isArray_defined. cbn [Js.isArray andb Js.items].
    destruct (adjustGradientStops_kept (Js.items (Js.get x "s")) numStops
                (path ++ ".k.k." ++ Str.of_nat i ++ ".s")) as [L O].
    now apply stops_adjusted. }
  destruct (Js.truthy (Js.get k "k") && Js.isArray (Js.get k "k")
            && Js.isNumber (Js.item (Js.items (Js.get k "k")) 0)) eqn:N;
    [|now rewrite (gradient_of_fields addr o o' P)].
  apply andb_true_iff in N as [N Nn]. apply andb_true_iff in N as [_ Nk].
  assert (Ha : Js.isOne (Js.get k "a") = false).
  { rewrite Nk, andb_true_r in K. exact K. }
  assert (Hkd : Js.get k "k" <> JUndef) by now apply isArray_defined.
  assert (Hgd : Js.get g "k" <> JUndef).
  { intros E. fold k in E. rewrite E in Hkd. now cbn in Hkd. }
  assert (Hk' : Js.get (Js.get o' "g") "k"
                = Js.set k "k"
                    (JArr (adjustGradientStops other m (Js.items (Js.get k "k")) numStops
                             (path ++ ".k.k")))).
  { rewrite Hg. now apply get_set_same. }
  assert (Hp : Js.get (Js.get o' "g") "p" = Js.get g "p").
  { rewrite Hg. apply get_set_other. discriminate. }
  destruct (adjustGradientStops_kept (Js.items (Js.get k "k")) numStops (path ++ ".k.k"))
    as [L O].
  rewrite (gradientInstances_nested other addr o P) by assumption.
  rewrite (gradientInstances_nested other addr o' P);
    [|cbn [Js.lookup]; rewrite Hk', get_set_other by discriminate; exact Ha
     |cbn [Js.lookup]; rewrite Hk', get_set_same by assumption; reflexivity
     |cbn [Js.lookup]; rewrite Hk', get_set_same by assumption; cbn [Js.items];
      rewrite <- (Nat.mul_0_r 4), O, Nat.mul_0_r; exact Nn].
  cbn [Js.lookup]. rewrite Hk', get_set_same by assumption. cbn [Js.items].
  fold g. fold k. rewrite Hkind. now apply stops_adjusted.
Qed.

End Own.

(** ** The node and its children *)

Lemma collecti_ext_in {A : Type} (g g' : nat -> A -> outcome (list instance)) xs :
  (forall i x, In x xs -> g i x = g' i x) ->
  forall i0, collecti g i0 xs = collecti g' i0 xs.
Proof.
  induction xs as [|x xs IH]; intros H i0; [reflexivity|].
  cbn [collecti]. rewrite (H i0 x) by now left.
  rewrite IH; [reflexivity|]. intros i y Hy. apply H. now right.
Qed.

Section Tree.

Variable other : json -> float.
Variable m : HueShiftManager.t.

(** The children of an object with distinct keys, by their keys. *)
Lemma childInstances_gets addr P ps : forall i0,
  distinct (map fst ps) = true ->
  childInstances other addr P ps
  = collecti (fun _ k => childTree other addr P k (Js.get (JObj ps) k)) i0 (map fst ps).
Proof.
  induction ps as [|[k v] ps IH]; intros i0 Hd; [reflexivity|].
  cbn [map fst distinct] in Hd. apply andb_true_iff in Hd as [Hk Hd].
  apply negb_true_iff in Hk.
  cbn [childInstances map fst collecti].
  rewrite (collecti_ext_in
             (fun _ k0 => childTree other addr P k0 (Js.get (JObj ((k, v) :: ps)) k0))
             (fun _ k0 => childTree other addr P k0 (Js.get (JObj ps) k0)) (map fst ps)).
  - cbn [Js.get Js.assoc]. rewrite String.eqb_refl. now rewrite (IH (S i0) Hd).
  - intros i k' Hin. cbn [Js.get Js.assoc].
    destruct (String.eqb k k') eqn:E; [|reflexivity].
    apply String.eqb_eq in E. subst k'.
    assert (Hex : existsb (String.eqb k) (map fst ps) = true).
    { apply existsb_exists. exists k. split; [assumption|apply String.eqb_refl]. }
    congruence.
Qed.

Lemma elementInstances_collecti addr P items : forall i0,
  elementInstances other addr P i0 items
  = collecti (fun i v => childTree other addr P (Str.of_nat i) v) i0 items.
Proof.
  induction items as [|v items IH]; intros i0; [reflexivity|].
  cbn [elementInstances collecti]. now rewrite IH.
Qed.

Lemma node_adjusted addr a b P path v1 :
  adjustNode other m a path = Ok v1 ->
  (forall s, Js.isStr (Js.get b "ty") s = Js.isStr (Js.get a "ty") s) ->
  Js.get b "c" = Js.get v1 "c" -> Js.get b "sc" = Js.get v1 "sc" ->
  Js.get b "g" = Js.get v1 "g" ->
  skeleton (nodeInstances other addr b P) = skeleton (nodeInstances other addr a P).
Proof.
  intros Hn Hty Hc Hsc Hg.
  destruct (adjustNode_get other m a path v1 Hn) as (_ & Cc & Csc & Cg).
  rewrite !nodeInstances_split, !skeleton_three.
  assert (Hfk : fillKind (Js.get b "ty") = fillKind (Js.get a "ty"))
    by (unfold fillKind; now rewrite !Hty).
  assert (Hgk : gradientKind (Js.get b "ty") = gradientKind (Js.get a "ty"))
    by (unfold gradientKind; now rewrite !Hty).
  assert (E1 : skeleton (fillInstances other addr b P)
               = skeleton (fillInstances other addr a P)).
  { rewrite !fill_solidList, Hfk, Hc.
    destruct (Js.truthy (Js.get a "c") && Js.truthy (Js.get (Js.get a "c") "k"));
      [|now rewrite Cc].
    now apply (solidList_adjusted other m _ _ _ (Js.join path "c")). }
  assert (E2 : skeleton (strokeInstances other addr b P)
               = skeleton (strokeInstances other addr a P)).
  { rewrite !stroke_solidList, Hsc.
    destruct (Js.truthy (Js.get a "sc") && Js.truthy (Js.get (Js.get a "sc") "k"));
      [|now rewrite Csc].
    now apply (solidList_adjusted other m _ _ _ (Js.join path "sc")). }
  assert (E3 : skeleton (gradientInstances other addr b P)
               = skeleton (gradientInstances other addr a P)).
  { rewrite Cg in Hg.
    destruct (Js.truthy (Js.get a "g") && Js.truthy (Js.get (Js.get a "g") "k")).
    - now apply (gradient_adjusted other m addr a b P (Js.join path "g")).
    - now rewrite (gradient_of_fields other addr a b P). }
  now rewrite E1, E2, E3.
Qed.

Lemma child_adjusted fuel addr P path k x y :
  (forall fuel addr P path b,
     recursiveAdjustColors other fuel m x path = Ok b ->
     skeleton (treeInstances other addr b P) = skeleton (treeInstances other addr x P)) ->
  recursiveAdjustColors other fuel m x path = Ok y ->
  skeleton (childTree other addr P k y) = skeleton (childTree other addr P k x).
Proof.
  intros IH H. unfold childTree.
  destruct (rec_kind other m fuel x path y H) as (-> & _).
  destruct (Js.typeofObject x); [|reflexivity]. now apply (IH fuel _ _ path).
Qed.

Lemma flatColors_colorKey ps k :
  flatColors (JObj ps) = true -> colorKey k = true -> colorFree (Js.get (JObj ps) k) = true.
Proof.
  cbn [flatColors]. intros H Hk. apply andb_true_iff in H as [H _].
  apply andb_true_iff in H as [H Hg]. apply andb_true_iff in H as [Hc Hsc].
  unfold colorKey in Hk.
  apply orb_true_iff in Hk as [Hk | Hk]; [apply orb_true_iff in Hk as [Hk | Hk]|];
    apply String.eqb_eq in Hk; subst; assumption.
Qed.

(** The colour properties of the node after its three [if]s hold no colour
    property either. *)
Lemma adjustNode_colorFree ps path v1 k :
  flatColors (JObj ps) = true -> adjustNode other m (JObj ps) path = Ok v1 ->
  colorKey k = true -> colorFree (Js.get v1 k) = true.
Proof.
  intros Hf Hn Hk.
  destruct (adjustNode_get other m _ path v1 Hn) as (_ & Cc & Csc & Cg).
  pose proof (flatColors_colorKey ps "c" Hf eq_refl) as Fc.
  pose proof (flatColors_colorKey ps "sc" Hf eq_refl) as Fsc.
  pose proof (flatColors_colorKey ps "g" Hf eq_refl) as Fg.
  unfold colorKey in Hk.
  apply orb_true_iff in Hk as [Hk | Hk]; [apply orb_true_iff in Hk as [Hk | Hk]|];
    apply String.eqb_eq in Hk; subst k.
  - destruct (Js.truthy (Js.get (JObj ps) "c")
              && Js.truthy (Js.get (Js.get (JObj ps) "c") "k")); [|now rewrite Cc].
    now apply (colorFree_adjustColorProperty other m _ _ _ Fc Cc).
  - destruct (Js.truthy (Js.get (JObj ps) "sc")
              && Js.truthy (Js.get (Js.get (JObj ps) "sc") "k")); [|now rewrite Csc].
    now apply (colorFree_adjustColorProperty other m _ _ _ Fsc Csc).
  - rewrite Cg.
    destruct (Js.truthy (Js.get (JObj ps) "g")
              && Js.truthy (Js.get (Js.get (JObj ps) "g") "k")); [|assumption].
    now apply colorFree_adjustGradient.
Qed.

(** The instances of the adjusted tree are those of the tree, with other
    colours. *)
Lemma rec_skeleton a : forall fuel addr P path b,
  wellKeyed a = true -> flatColors a = true ->
  recursiveAdjustColors other fuel m a path = Ok b ->
  skeleton (treeInstances other addr b P) = skeleton (treeInstances other addr a P).
Proof.
  induction a as [| | | | |items IH|ps IH] using json_induction;
    intros fuel addr P path r Hw Hf H;
    try (rewrite rec_nonobject in H by reflexivity; now injection H as <-).
  - destruct fuel as [|fuel]; [now injection H as <-|].
    cbn [recursiveAdjustColors Js.isObject negb] in H.
    rewrite adjustNode_plain in H by apply colorSite_array. cbn [bind] in H.
    apply bind_ok in H as (items' & Hi & H). injection H as <-.
    rewrite !treeInstances_array, !skeleton_both.
    rewrite (node_colorFree other addr (JArr items') P (colorSite_array items')).
    rewrite (node_colorFree other addr (JArr items) P (colorSite_array items)).
    rewrite !elementInstances_collecti.
    rewrite (skeleton_mapi
               (fun i v =>
                  if Js.typeofObject v
                  then recursiveAdjustColors other fuel m v (Js.join path (Str.of_nat i))
                  else Ok v)
               (fun i v => childTree other addr P (Str.of_nat i) v)
               (fun i v => childTree other addr P (Str.of_nat i) v) items);
      [reflexivity| |exact Hi].
    intros i x y Hx Hy. cbn [wellKeyed flatColors] in Hw, Hf.
    rewrite Forall_forall in IH.
    destruct (Js.typeofObject x) eqn:T.
    + apply (child_adjusted fuel addr P (Js.join path (Str.of_nat i))); [|assumption].
      intros fuel' addr' P' path' b' Hb'. apply (IH x Hx fuel' addr' P' path' b');
        [apply (forallb_In _ _ _ Hw Hx)|apply (forallb_In _ _ _ Hf Hx)|assumption].
    + now injection Hy as <-.
  - destruct fuel as [|fuel]; [now injection H as <-|].
    destruct (rec_step other m fuel (JObj ps) path r eq_refl H) as (v1 & Hn & Hget).
    destruct (rec_keys other m (S fuel) ps path r H) as (ps' & -> & Hkeys).
    pose proof Hw as Hw'. cbn [wellKeyed] in Hw'. apply andb_true_iff in Hw' as [Hd Hws].
    pose proof Hf as Hf'. cbn [flatColors] in Hf'. apply andb_true_iff in Hf' as [_ Hfs].
    assert (Hcol : forall k, colorKey k = true ->
                             Js.get (JObj ps') k = Js.get v1 k
                             /\ colorFree (Js.get v1 k) = true).
    { intros k Hk. pose proof (adjustNode_colorFree ps path v1 k Hf Hn Hk) as Hc.
      split; [|assumption]. specialize (Hget k).
      rewrite (rec_colorFree other m) in Hget by assumption. now injection Hget. }
    destruct (adjustNode_get other m _ path v1 Hn) as (Hplain & _).
    rewrite !treeInstances_object, !skeleton_both.
    rewrite (node_adjusted addr (JObj ps) (JObj ps') P path v1 Hn).
    + rewrite (childInstances_gets addr P ps' 0) by now rewrite Hkeys.
      rewrite (childInstances_gets addr P ps 0) by assumption.
      rewrite Hkeys.
      rewrite (skeleton_collecti
                 (fun _ k => childTree other addr P k (Js.get (JObj ps') k))
                 (fun _ k => childTree other addr P k (Js.get (JObj ps) k)) (map fst ps));
        [reflexivity|].
      intros _ k Hk. destruct (colorKey k) eqn:Ck.
      * destruct (Hcol k Ck) as [E Hc]. rewrite E. unfold childTree.
        rewrite (tree_colorFree other _ _ _ Hc).
        rewrite (tree_colorFree other _ _ _ (flatColors_colorKey ps k Hf Ck)).
        now destruct (Js.typeofObject _), (Js.typeofObject _).
      * specialize (Hget k). rewrite (Hplain k Ck) in Hget.
        apply (child_adjusted fuel addr P (Js.join path k)); [|assumption].
        intros fuel' addr' P' path' b' Hb'.
        cbn [Js.get] in Hb' |- *. destruct (Js.assoc k ps) as [x|] eqn:Ea.
        -- apply assoc_In in Ea. rewrite Forall_forall in IH.
           apply (IH (k, x) Ea fuel' addr' P' path' b');
             [apply (forallb_In _ _ _ Hws Ea)|apply (forallb_In _ _ _ Hfs Ea)|assumption].
        -- rewrite rec_nonobject in Hb' by reflexivity. now injection Hb' as <-.
    + intros s. specialize (Hget "ty"). rewrite (Hplain "ty" eq_refl) in Hget.
      now apply (rec_kind other m fuel _ _ _ Hget).
    + now apply Hcol.
    + now apply Hcol.
    + now apply Hcol.
Qed.

End Tree.

Lemma extracted_tree other doc :
  extracted other doc
  = if Js.isObject doc then treeInstances other [] doc "" else Ok [].
Proof.
  unfold extracted, extractColors, treeInstances, emitted.
  destruct (Js.isObject doc); [|reflexivity].
  now destruct (recursiveExtract other [] doc "" noColors).
Qed.



Import ColorExtractor ColorRenderer.

(** * What a write through an instance leaves alone *)

(** [writeRef] writes the members [s] and [k] only. *)
Lemma writeRef_other inst c refObj k :
  k <> "s" -> k <> "k" -> Js.get (writeRef inst c refObj) k = Js.get refObj k.
Proof.
  intros Hs Hk. unfold writeRef.
  repeat match goal with
         | |- context [if ?b then _ else _] => destruct b
         | |- context [match ?o with Some _ => _ | None => _ end] => destruct o
         end;
    try reflexivity; apply get_set_other; congruence.
Qed.

Lemma reaches_nil keys :
  reaches [] keys = false -> exists k rest, keys = k :: rest /\ k <> "s" /\ k <> "k".
Proof.
  unfold reaches. destruct keys as [|k rest]; [discriminate|].
  cbn [isPrefix List.app orb]. rewrite ?andb_true_r. intros H.
  apply orb_false_iff in H as [Hs Hk]. apply String.eqb_neq in Hs, Hk.
  exists k, rest. repeat split; congruence.
Qed.

Lemma reaches_cons r ref k keys :
  reaches (r :: ref) (k :: keys) = false -> r <> k \/ reaches ref keys = false.
Proof.
  unfold reaches. cbn [isPrefix List.app]. destruct (String.eqb_spec r k) as [->|Hne];
    [|now left].
  rewrite String.eqb_refl. cbn [andb]. now right.
Qed.

(** An update at an address changes nothing at the addresses it does not
    reach, when the function it applies writes the members [s] and [k]
    only. *)
Lemma lookup_update_frame (f : json -> json) ref : forall keys doc,
  (forall x k, k <> "s" -> k <> "k" -> Js.get (f x) k = Js.get x k) ->
  reaches ref keys = false ->
  Js.lookup keys (Js.update ref f doc) = Js.lookup keys doc.
Proof.
  induction ref as [|r ref IH]; intros keys doc Hf H.
  - destruct (reaches_nil keys H) as (k & rest & -> & Hs & Hk).
    cbn [Js.update Js.lookup]. now rewrite Hf.
  - destruct keys as [|k keys]; [discriminate|].
    destruct (Js.get doc r) eqn:E; try (now rewrite update_undefined);
      rewrite update_defined by congruence;
      (destruct (reaches_cons r ref k keys H) as [Hne | Hr];
       [cbn [Js.lookup]; now rewrite get_set_other
       |destruct (String.eqb_spec r k) as [->|Hne];
        [cbn [Js.lookup]; rewrite get_set_same by congruence;
         rewrite (IH keys _ Hf Hr); now rewrite E
        |cbn [Js.lookup]; now rewrite get_set_other]]).
Qed.

Lemma writeThrough_frame doc inst c keys :
  reaches (ref inst) keys = false ->
  Js.lookup keys (writeThrough doc inst c) = Js.lookup keys doc.
Proof.
  intros H. unfold writeThrough. apply lookup_update_frame; [|assumption].
  intros x k. apply writeRef_other.
Qed.

(** X23. A write through an instance changes nothing else.  Whatever the
    document and the instances, [handleColorInput] for an instance and for a
    group leaves every value of the document as it was whose address
    neither lies on the way to the object an instance refers to nor at or
    below the members [s] and [k] of that object. *)
Theorem write_through_changes_nothing_else doc inst g newHex keys :
  forallb (fun i => negb (reaches (ref i) keys)) (inst :: instances g) = true ->
  Js.lookup keys (fst (handleColorInput doc inst newHex)) = Js.lookup keys doc
  /\ Js.lookup keys (handleGroupInput doc g newHex) = Js.lookup keys doc.
Proof.
  cbn [forallb]. intros H. apply andb_true_iff in H as [Hi Hg].
  apply negb_true_iff in Hi. split.
  - cbn [handleColorInput fst]. now apply writeThrough_frame.
  - unfold handleGroupInput. revert doc. induction (instances g) as [|i l IH]; intros doc;
      [reflexivity|].
    cbn [forallb] in Hg. apply andb_true_iff in Hg as [Hi' Hl].
    apply negb_true_iff in Hi'. cbn [fold_left]. rewrite (IH Hl).
    now apply writeThrough_frame.
Qed.

Lemma write_through_changes_nothing_else_witness :
  Js.lookup ["layers"; "0"]
    (fst (handleColorInput redAndWhiteDocument
            (solidInstance notANumber ("solid", "fill") ["layers"; "1"; "c"]
               [JNum 1; JNum 1; JNum 1; JNum 1] "layers.1.c") "#336699"))
  = Js.lookup ["layers"; "0"] redAndWhiteDocument
  /\ Js.lookup ["layers"; "0"]
       (handleGroupInput redAndWhiteDocument
          {| groupHex := "#ffffff"; count := 1;
             instances := [solidInstance notANumber ("solid", "fill") ["layers"; "1"; "c"]
                             [JNum 1; JNum 1; JNum 1; JNum 1] "layers.1.c"];
             groupShapeType := "fill" |} "#336699")
     = Js.lookup ["layers"; "0"] redAndWhiteDocument.
Proof.
  apply (write_through_changes_nothing_else redAndWhiteDocument
           (solidInstance notANumber ("solid", "fill") ["layers"; "1"; "c"]
              [JNum 1; JNum 1; JNum 1; JNum 1] "layers.1.c")
           {| groupHex := "#ffffff"; count := 1;
              instances := [solidInstance notANumber ("solid", "fill") ["layers"; "1"; "c"]
                              [JNum 1; JNum 1; JNum 1; JNum 1] "layers.1.c"];
              groupShapeType := "fill" |} "#336699" ["layers"; "0"]).
  reflexivity.
Defined.
